(** * bplib range-coalescing red-black tree (src/src/rb_tree.c)

    A shallow embedding of the custody-ID tree of bplib.  The C code works
    on a caller-owned [rb_tree_t] and an arena of [rb_node_t] cells linked by
    raw pointers; here the arena is a finite map from addresses to node
    records, a pointer is an optional address ([None] is [NULL]), and every C
    function is a computation in a state-and-fault monad.  A fault is a NULL
    dereference, a failed [assert], or an exhausted loop budget. *)

From stdpp Require Import gmap list.
From Stdlib Require Import ZArith Lia Sorted.

Open Scope Z_scope.

(** ** Data model *)

(** Modelled from the spec: the header rb_tree.h, which declares
    [rb_range_t], [rb_node_t], [rb_tree_t] and [rb_tree_status_t], is not
    part of the sources; the fields are the ones rb_tree.c reads and writes,
    the status names are the ones it returns. *)
Inductive rb_tree_status_t :=
  | RB_SUCCESS
  | RB_FAIL_NULL_TREE
  | RB_FAIL_NULL_NODE
  | RB_FAIL_NULL_RANGE
  | RB_FAIL_SIZE_ZERO
  | RB_FAIL_EXCEEDED_MAX_SIZE
  | RB_FAIL_MEM_ERR
  | RB_FAIL_TREE_FULL
  | RB_FAIL_INSERT_DUPLICATE
  | RB_FAIL_VALUE_NOT_FOUND.

#[global] Instance rb_tree_status_eq_dec : EqDecision rb_tree_status_t.
Proof. solve_decision. Defined.

(** A pointer to a node: [None] is [NULL]. *)
Abbreviation ptr := (option nat).

Record rb_range_t := mk_range { value : Z; offset : Z }.

Record rb_node_t := mk_node {
  range : rb_range_t;
  color : bool;
  traversal_state : bool;
  parent : ptr;
  left : ptr;
  right : ptr
}.

Record rb_tree_t := mk_tree {
  size : Z;
  max_size : Z;
  root : ptr;
  free_node_head : ptr;
  free_node_tail : ptr;
  node_block : ptr
}.

#[global] Instance rb_range_eq_dec : EqDecision rb_range_t.
Proof. solve_decision. Defined.
#[global] Instance rb_node_eq_dec : EqDecision rb_node_t.
Proof. solve_decision. Defined.
#[global] Instance rb_tree_eq_dec : EqDecision rb_tree_t.
Proof. solve_decision. Defined.

Definition UINT32_MAX : Z := 4294967295.
Definition MAX_TREE_SIZE : Z := UINT32_MAX / 2 + 1.
Definition RED : bool := true.
Definition BLACK : bool := false.

(** Arithmetic on [uint32_t] wraps. *)
Definition u32 (z : Z) : Z := z mod 4294967296.

(** Field updates. *)
Definition set_value (v : Z) (n : rb_node_t) : rb_node_t :=
  mk_node (mk_range v (offset (range n))) (color n) (traversal_state n)
          (parent n) (left n) (right n).
Definition set_offset (o : Z) (n : rb_node_t) : rb_node_t :=
  mk_node (mk_range (value (range n)) o) (color n) (traversal_state n)
          (parent n) (left n) (right n).
Definition set_color (c : bool) (n : rb_node_t) : rb_node_t :=
  mk_node (range n) c (traversal_state n) (parent n) (left n) (right n).
Definition set_traversal_state (b : bool) (n : rb_node_t) : rb_node_t :=
  mk_node (range n) (color n) b (parent n) (left n) (right n).
Definition set_parent (p : ptr) (n : rb_node_t) : rb_node_t :=
  mk_node (range n) (color n) (traversal_state n) p (left n) (right n).
Definition set_left (p : ptr) (n : rb_node_t) : rb_node_t :=
  mk_node (range n) (color n) (traversal_state n) (parent n) p (right n).
Definition set_right (p : ptr) (n : rb_node_t) : rb_node_t :=
  mk_node (range n) (color n) (traversal_state n) (parent n) (left n) p.

Definition set_size (z : Z) (t : rb_tree_t) : rb_tree_t :=
  mk_tree z (max_size t) (root t) (free_node_head t) (free_node_tail t) (node_block t).
Definition set_max_size (z : Z) (t : rb_tree_t) : rb_tree_t :=
  mk_tree (size t) z (root t) (free_node_head t) (free_node_tail t) (node_block t).
Definition set_root (p : ptr) (t : rb_tree_t) : rb_tree_t :=
  mk_tree (size t) (max_size t) p (free_node_head t) (free_node_tail t) (node_block t).
Definition set_free_node_head (p : ptr) (t : rb_tree_t) : rb_tree_t :=
  mk_tree (size t) (max_size t) (root t) p (free_node_tail t) (node_block t).
Definition set_free_node_tail (p : ptr) (t : rb_tree_t) : rb_tree_t :=
  mk_tree (size t) (max_size t) (root t) (free_node_head t) p (node_block t).
Definition set_node_block (p : ptr) (t : rb_tree_t) : rb_tree_t :=
  mk_tree (size t) (max_size t) (root t) (free_node_head t) (free_node_tail t) p.

Arguments set_value _ !_ /.
Arguments set_offset _ !_ /.
Arguments set_color _ !_ /.
Arguments set_traversal_state _ !_ /.
Arguments set_parent _ !_ /.
Arguments set_left _ !_ /.
Arguments set_right _ !_ /.
Arguments set_size _ !_ /.
Arguments set_max_size _ !_ /.
Arguments set_root _ !_ /.
Arguments set_free_node_head _ !_ /.
Arguments set_free_node_tail _ !_ /.
Arguments set_node_block _ !_ /.

(** The memory a call works on: the node cells, and the [rb_tree_t] the
    handle points to ([None] when the handle is [NULL]). *)
Record state := mk_state {
  heap : gmap nat rb_node_t;
  tree : option rb_tree_t
}.

(** ** The monad *)

Inductive fault := NullDeref | AssertFail | OutOfFuel.

Inductive outcome (A : Type) : Type :=
  | Ok (a : A) (s : state)
  | Fault (f : fault).
Arguments Ok {A} a s.
Arguments Fault {A} f.

Definition M (A : Type) : Type := state -> outcome A.

Definition ret {A} (a : A) : M A := fun s => Ok a s.
Definition raise {A} (f : fault) : M A := fun _ => Fault f.
Definition bind {A B} (m : M A) (k : A -> M B) : M B :=
  fun s => match m s with
           | Ok a s' => k a s'
           | Fault f => Fault f
           end.

Notation "x <- c1 ;; c2" := (bind c1 (fun x => c2))
  (at level 100, c1 at next level, right associativity).
Notation "c1 ;; c2" := (bind c1 (fun _ => c2))
  (at level 100, right associativity).

(** [p->f] *)
Definition rd {A} (p : ptr) (f : rb_node_t -> A) : M A :=
  fun s => match p with
           | None => Fault NullDeref
           | Some a => match heap s !! a with
                       | Some n => Ok (f n) s
                       | None => Fault NullDeref
                       end
           end.

(** [p->f = x], given as the update of the cell *)
Definition wr (p : ptr) (upd : rb_node_t -> rb_node_t) : M unit :=
  fun s => match p with
           | None => Fault NullDeref
           | Some a => match heap s !! a with
                       | Some n => Ok tt (mk_state (<[a := upd n]> (heap s)) (tree s))
                       | None => Fault NullDeref
                       end
           end.

(** [tree->f] *)
Definition tget {A} (f : rb_tree_t -> A) : M A :=
  fun s => match tree s with
           | Some t => Ok (f t) s
           | None => Fault NullDeref
           end.

(** [tree->f = x] *)
Definition tset (upd : rb_tree_t -> rb_tree_t) : M unit :=
  fun s => match tree s with
           | Some t => Ok tt (mk_state (heap s) (Some (upd t)))
           | None => Fault NullDeref
           end.

(** [tree == NULL] *)
Definition tree_is_null : M bool :=
  fun s => Ok (bool_decide (tree s = None)) s.

(** Short-circuit [&&] and [||] of C. *)
Definition andM (a b : M bool) : M bool :=
  x <- a ;; if x then b else ret false.
Definition orM (a b : M bool) : M bool :=
  x <- a ;; if x then ret true else b.
Infix "&&&" := andM (at level 40, left associativity).
Infix "|||" := orM (at level 50, left associativity).

Definition when (b : bool) (m : M unit) : M unit := if b then m else ret tt.

(** ** Local functions *)

Definition pop_free_node : M ptr :=
  free_node <- tget free_node_tail ;;
  when (bool_decide (free_node <> None))
    (l <- rd free_node left ;;
     tset (set_free_node_tail l) ;;
     t <- tget free_node_tail ;;
     when (bool_decide (t = None)) (tset (set_free_node_head None)) ;;
     sz <- tget size ;;
     tset (set_size (u32 (sz + 1)))) ;;
  ret free_node.

Definition push_free_node (node : ptr) : M unit :=
  h <- tget free_node_head ;;
  wr node (set_right h) ;;
  wr node (set_left None) ;;
  sz <- tget size ;;
  tset (set_size (u32 (sz - 1))) ;;
  h <- tget free_node_head ;;
  if bool_decide (h = None) then
    tset (set_free_node_head node) ;;
    tset (set_free_node_tail node)
  else
    wr h (set_left node) ;;
    tset (set_free_node_head node).

Definition set_black (node : ptr) : M unit := wr node (set_color BLACK).
Definition set_red (node : ptr) : M unit := wr node (set_color RED).

Definition is_black (node : ptr) : M bool :=
  ret (bool_decide (node = None)) ||| (c <- rd node color ;; ret (negb c)).

Definition is_red (node : ptr) : M bool :=
  ret (bool_decide (node <> None)) &&& (c <- rd node color ;; ret c).

Definition get_grandparent (node : ptr) : M ptr :=
  p <- rd node parent ;;
  if bool_decide (p = None) then ret None else rd p parent.

Definition is_root (node : ptr) : M bool :=
  p <- rd node parent ;; ret (bool_decide (p = None)).

Definition is_left_child (node : ptr) : M bool :=
  r <- is_root node ;;
  if r then ret false
  else p <- rd node parent ;; l <- rd p left ;; ret (bool_decide (node = l)).

Definition get_sibling (node : ptr) : M ptr :=
  p <- rd node parent ;;
  if bool_decide (p = None) then ret None
  else
    il <- is_left_child node ;;
    if il then p <- rd node parent ;; rd p right
    else p <- rd node parent ;; rd p left.

Definition get_uncle (node : ptr) : M ptr :=
  p <- rd node parent ;;
  if bool_decide (p = None) then ret None
  else
    g <- get_grandparent node ;;
    if bool_decide (g = None) then ret None
    else p <- rd node parent ;; get_sibling p.

Definition has_left_child (node : ptr) : M bool :=
  l <- rd node left ;; ret (bool_decide (l <> None)).

Definition has_right_child (node : ptr) : M bool :=
  r <- rd node right ;; ret (bool_decide (r <> None)).

Definition remove_from_parent (node : ptr) : M unit :=
  r <- is_root node ;;
  if r then ret tt
  else
    il <- is_left_child node ;;
    p <- rd node parent ;;
    if il then wr p (set_left None) else wr p (set_right None).

Definition swap_parents (node_1 node_2 : ptr) : M unit :=
  p <- rd node_1 parent ;;
  wr node_2 (set_parent p) ;;
  r <- is_root node_1 ;;
  (if r then tset (set_root node_2)
   else
     il <- is_left_child node_1 ;;
     p <- rd node_1 parent ;;
     if il then wr p (set_left node_2) else wr p (set_right node_2)) ;;
  wr node_1 (set_parent node_2).

Definition rotate_left (node : ptr) : M unit :=
  new_parent <- rd node right ;;
  nl <- rd new_parent left ;;
  wr node (set_right nl) ;;
  wr new_parent (set_left node) ;;
  hr <- has_right_child node ;;
  when hr (r <- rd node right ;; wr r (set_parent node)) ;;
  swap_parents node new_parent.

Definition rotate_right (node : ptr) : M unit :=
  new_parent <- rd node left ;;
  nr <- rd new_parent right ;;
  wr node (set_left nr) ;;
  wr new_parent (set_right node) ;;
  hl <- has_left_child node ;;
  when hl (l <- rd node left ;; wr l (set_parent node)) ;;
  swap_parents node new_parent.

Definition create_rb_node (v : Z) (c : bool) : M ptr :=
  node <- pop_free_node ;;
  if bool_decide (node = None) then ret None
  else
    wr node (set_value v) ;;
    wr node (set_offset 0) ;;
    wr node (set_parent None) ;;
    wr node (set_left None) ;;
    wr node (set_right None) ;;
    wr node (set_color c) ;;
    wr node (set_traversal_state false) ;;
    ret node.

(** [insert_child(node, parent, &parent->left)] and its [right] twin: the
    third argument of the C function is the slot of [parent] to fill. *)
Definition insert_child (node par : ptr) (slot : ptr -> rb_node_t -> rb_node_t) : M unit :=
  wr node (set_parent par) ;;
  wr par (slot node).

Fixpoint descend_right (fuel : nat) (successor : ptr) : M ptr :=
  match fuel with
  | O => raise OutOfFuel
  | S fuel =>
      hr <- has_right_child successor ;;
      if hr then r <- rd successor right ;; descend_right fuel r
      else ret successor
  end.

Fixpoint descend_left (fuel : nat) (successor : ptr) : M ptr :=
  match fuel with
  | O => raise OutOfFuel
  | S fuel =>
      hl <- has_left_child successor ;;
      if hl then l <- rd successor left ;; descend_left fuel l
      else ret successor
  end.

Definition get_left_successor (fuel : nat) (node : ptr) : M ptr :=
  hl <- has_left_child node ;;
  if negb hl then ret None
  else l <- rd node left ;; descend_right fuel l.

Definition get_right_successor (fuel : nat) (node : ptr) : M ptr :=
  hr <- has_right_child node ;;
  if negb hr then ret None
  else r <- rd node right ;; descend_left fuel r.

Definition get_successor (fuel : nat) (node : ptr) : M ptr :=
  successor <- get_left_successor fuel node ;;
  if bool_decide (successor = None) then get_right_successor fuel node
  else ret successor.

Definition swap_values (n1 n2 : ptr) : M unit :=
  temp <- rd n1 (fun n => value (range n)) ;;
  v2 <- rd n2 (fun n => value (range n)) ;;
  wr n1 (set_value v2) ;;
  wr n2 (set_value temp).

Definition swap_offsets (n1 n2 : ptr) : M unit :=
  temp <- rd n1 (fun n => offset (range n)) ;;
  o2 <- rd n2 (fun n => offset (range n)) ;;
  wr n1 (set_offset o2) ;;
  wr n2 (set_offset temp).

Definition replace_node (node child : ptr) : M unit :=
  par <- rd node parent ;;
  il <- is_left_child node ;;
  (if il then wr par (set_left child) else wr par (set_right child)) ;;
  when (bool_decide (child <> None)) (wr child (set_parent par)).

Fixpoint delete_rebalance (fuel : nat) (node : ptr) : M unit :=
  match fuel with
  | O => raise OutOfFuel
  | S fuel =>
      (* DELETE_CASE_1 *)
      r <- is_root node ;;
      if r then ret tt
      else
        (* DELETE_CASE_2 *)
        sibling <- get_sibling node ;;
        par <- rd node parent ;;
        rs <- is_red sibling ;;
        when rs
          (set_red par ;;
           set_black sibling ;;
           il <- is_left_child node ;;
           if il then rotate_left par else rotate_right par) ;;
        (* DELETE_CASE_3 *)
        sibling <- get_sibling node ;;
        par <- rd node parent ;;
        c3 <- is_black par &&& is_black sibling
                &&& (sl <- rd sibling left ;; is_black sl)
                &&& (sr <- rd sibling right ;; is_black sr) ;;
        if c3 then
          set_red sibling ;;
          delete_rebalance fuel par
        else
          (* DELETE_CASE_4 *)
          sibling <- get_sibling node ;;
          par <- rd node parent ;;
          c4 <- is_red par &&& is_black sibling
                  &&& (sl <- rd sibling left ;; is_black sl)
                  &&& (sr <- rd sibling right ;; is_black sr) ;;
          if c4 then
            set_red sibling ;;
            set_black par
          else
            (* DELETE_CASE_5 *)
            sibling <- get_sibling node ;;
            bs <- is_black sibling ;;
            when bs
              (is_left <- is_left_child node ;;
               c5 <- ret is_left &&& (sr <- rd sibling right ;; is_black sr)
                       &&& (sl <- rd sibling left ;; is_red sl) ;;
               if c5 then
                 set_red sibling ;;
                 sl <- rd sibling left ;;
                 set_black sl ;;
                 rotate_right sibling
               else
                 c5' <- ret (negb is_left) &&& (sl <- rd sibling left ;; is_black sl)
                          &&& (sr <- rd sibling right ;; is_red sr) ;;
                 when c5' (rotate_left sibling)) ;;
            (* DELETE_CASE_6 *)
            sibling <- get_sibling node ;;
            par <- rd node parent ;;
            pc <- rd par color ;;
            wr sibling (set_color pc) ;;
            set_black par ;;
            il <- is_left_child node ;;
            if il then
              sr <- rd sibling right ;;
              set_black sr ;;
              rotate_left par
            else
              sl <- rd sibling left ;;
              set_black sl ;;
              rotate_right par
  end.

Definition delete_one_child (fuel : nat) (node : ptr) : M unit :=
  hl <- has_left_child node ;;
  child <- (if hl then rd node left else rd node right) ;;
  (if bool_decide (child = None) then
     b <- is_black node ;;
     when b (delete_rebalance fuel node) ;;
     replace_node node child
   else
     replace_node node child ;;
     b <- is_black node ;;
     when b
       (rc <- is_red child ;;
        if rc then set_black child
        else delete_rebalance fuel node)) ;;
  push_free_node node.

Definition delete_rb_node (fuel : nat) (node : ptr) : M unit :=
  successor_node <- get_successor fuel node ;;
  if bool_decide (successor_node <> None) then
    swap_values node successor_node ;;
    swap_offsets node successor_node ;;
    delete_one_child fuel successor_node
  else
    r <- is_root node ;;
    if r then
      push_free_node node ;;
      tset (set_root None)
    else
      delete_one_child fuel node.

Definition are_consecutive (value_1 value_2 : Z) : bool :=
  negb (value_1 =? UINT32_MAX) && (u32 (value_1 + 1) =? value_2).

(** The descent of [try_binary_insert_or_merge]; the result is the status
    and what the C function leaves in [*inserted_node]. *)
Fixpoint insert_or_merge_loop (fuel : nat) (v : Z) (node : ptr)
  : M (rb_tree_status_t * ptr) :=
  match fuel with
  | O => raise OutOfFuel
  | S fuel' =>
      nv <- rd node (fun n => value (range n)) ;;
      if are_consecutive v nv then
        successor <- get_left_successor fuel node ;;
        c <- ret (bool_decide (successor <> None))
               &&& (sv <- rd successor (fun n => value (range n)) ;;
                    so <- rd successor (fun n => offset (range n)) ;;
                    ret (are_consecutive (u32 (sv + so)) v)) ;;
        if c then
          sv <- rd successor (fun n => value (range n)) ;;
          wr node (set_value sv) ;;
          so <- rd successor (fun n => offset (range n)) ;;
          no <- rd node (fun n => offset (range n)) ;;
          wr node (set_offset (u32 (no + u32 (so + 2)))) ;;
          delete_rb_node fuel successor ;;
          ret (RB_SUCCESS, None)
        else
          wr node (set_value v) ;;
          no <- rd node (fun n => offset (range n)) ;;
          wr node (set_offset (u32 (no + 1))) ;;
          ret (RB_SUCCESS, None)
      else if v <? nv then
        hl <- has_left_child node ;;
        if hl then l <- rd node left ;; insert_or_merge_loop fuel' v l
        else
          inserted_node <- create_rb_node v RED ;;
          if bool_decide (inserted_node = None) then ret (RB_FAIL_TREE_FULL, None)
          else
            insert_child inserted_node node set_left ;;
            ret (RB_SUCCESS, inserted_node)
      else
        no <- rd node (fun n => offset (range n)) ;;
        if are_consecutive (u32 (nv + no)) v then
          successor <- get_right_successor fuel node ;;
          c <- ret (bool_decide (successor <> None))
                 &&& (sv <- rd successor (fun n => value (range n)) ;;
                      ret (are_consecutive v sv)) ;;
          if c then
            so <- rd successor (fun n => offset (range n)) ;;
            no <- rd node (fun n => offset (range n)) ;;
            wr node (set_offset (u32 (no + u32 (so + 2)))) ;;
            delete_rb_node fuel successor ;;
            ret (RB_SUCCESS, None)
          else
            no <- rd node (fun n => offset (range n)) ;;
            wr node (set_offset (u32 (no + 1))) ;;
            ret (RB_SUCCESS, None)
        else if nv <? v then
          hr <- has_right_child node ;;
          if hr then r <- rd node right ;; insert_or_merge_loop fuel' v r
          else
            inserted_node <- create_rb_node v RED ;;
            if bool_decide (inserted_node = None) then ret (RB_FAIL_TREE_FULL, None)
            else
              insert_child inserted_node node set_right ;;
              ret (RB_SUCCESS, inserted_node)
        else
          ret (RB_FAIL_INSERT_DUPLICATE, None)
  end.

Definition try_binary_insert_or_merge (fuel : nat) (v : Z)
  : M (rb_tree_status_t * ptr) :=
  node <- tget root ;;
  if bool_decide (node = None) then
    n <- create_rb_node v BLACK ;;
    tset (set_root n) ;;
    r <- tget root ;;
    ret (RB_SUCCESS, r)
  else
    insert_or_merge_loop fuel v node.

Fixpoint try_insert_rebalance (fuel : nat) (node : ptr) : M unit :=
  match fuel with
  | O => raise OutOfFuel
  | S fuel =>
      par <- rd node parent ;;
      uncle <- get_uncle node ;;
      if bool_decide (par = None) then set_black node
      else
        bp <- is_black par ;;
        if bp then ret tt
        else
          ru <- ret (bool_decide (uncle <> None)) &&& is_red uncle ;;
          if ru then
            set_black par ;;
            set_black uncle ;;
            grandparent <- get_grandparent node ;;
            set_red grandparent ;;
            try_insert_rebalance fuel grandparent
          else
            grandparent <- get_grandparent node ;;
            gl <- rd grandparent left ;;
            c1 <- ret (bool_decide (par = gl))
                    &&& (pr <- rd par right ;; ret (bool_decide (node = pr))) ;;
            node <-
              (if c1 then
                 rotate_left par ;;
                 rd node left
               else
                 gr <- rd grandparent right ;;
                 c2 <- ret (bool_decide (par = gr))
                         &&& (pl <- rd par left ;; ret (bool_decide (node = pl))) ;;
                 if c2 then
                   rotate_right par ;;
                   rd node right
                 else ret node) ;;
            grandparent <- get_grandparent node ;;
            par <- rd node parent ;;
            il <- is_left_child node ;;
            (if il then rotate_right grandparent else rotate_left grandparent) ;;
            set_black par ;;
            set_red grandparent
  end.

Definition delete_rb_node_without_rebalancing (node : ptr) : M unit :=
  r <- is_root node ;;
  (if negb r then
     il <- is_left_child node ;;
     p <- rd node parent ;;
     nr <- rd node right ;;
     if il then wr p (set_left nr) else wr p (set_right nr)
   else
     nr <- rd node right ;;
     tset (set_root nr)) ;;
  nr <- rd node right ;;
  when (bool_decide (nr <> None))
    (np <- rd node parent ;; wr nr (set_parent np)) ;;
  push_free_node node.

Fixpoint binary_search_loop (fuel : nat) (v : Z) (node : ptr) : M ptr :=
  match fuel with
  | O => raise OutOfFuel
  | S fuel =>
      if bool_decide (node = None) then ret node
      else
        nv <- rd node (fun n => value (range n)) ;;
        no <- rd node (fun n => offset (range n)) ;;
        if (nv <=? v) && (v <=? u32 (nv + no)) then ret node
        else if v <? nv then l <- rd node left ;; binary_search_loop fuel v l
        else r <- rd node right ;; binary_search_loop fuel v r
  end.

Definition rb_tree_binary_search (fuel : nat) (v : Z) : M ptr :=
  node <- tget root ;;
  binary_search_loop fuel v node.

(** ** Exported functions *)

(** A cell as [calloc] hands it out: all bytes zero. *)
Definition zero_node : rb_node_t :=
  mk_node (mk_range 0 0) false false None None None.

(** [calloc(n, sizeof(rb_node_t))] returning the block at address [base]. *)
Definition calloc_nodes (base n : nat) : M unit :=
  fun s => Ok tt (mk_state
                    (foldr (fun a h => <[a := zero_node]> h) (heap s) (seq base n))
                    (tree s)).

(** [free(tree->node_block)] of a block of [n] cells. *)
Definition free_nodes (block : ptr) (n : nat) : M unit :=
  fun s => match block with
           | None => Ok tt s
           | Some base =>
               Ok tt (mk_state (foldr (fun a h => delete a h) (heap s) (seq base n))
                               (tree s))
           end.

Fixpoint push_all (nodes : list nat) : M unit :=
  match nodes with
  | [] => ret tt
  | start :: rest => push_free_node (Some start) ;; push_all rest
  end.

(** [rb_tree_create]; [alloc] is what [calloc] answers: [None] for [NULL],
    [Some base] for a block of zeroed cells at [base], [base+1], ... *)
Definition rb_tree_create (alloc : ptr) (max_sz : Z) : M rb_tree_status_t :=
  null <- tree_is_null ;;
  if null then ret RB_FAIL_NULL_TREE
  else
    tset (set_size 0) ;;
    tset (set_max_size 0) ;;
    tset (set_root None) ;;
    tset (set_free_node_head None) ;;
    tset (set_free_node_tail None) ;;
    tset (set_node_block None) ;;
    if max_sz =? 0 then ret RB_FAIL_SIZE_ZERO
    else if MAX_TREE_SIZE <? max_sz then ret RB_FAIL_EXCEEDED_MAX_SIZE
    else
      tset (set_size max_sz) ;;
      tset (set_max_size max_sz) ;;
      match alloc with
      | None =>
          tset (set_node_block None) ;;
          ret RB_FAIL_MEM_ERR
      | Some base =>
          calloc_nodes base (Z.to_nat max_sz) ;;
          tset (set_node_block (Some base)) ;;
          push_all (seq base (Z.to_nat max_sz)) ;;
          ret RB_SUCCESS
      end.

Definition rb_tree_is_empty : M bool :=
  null <- tree_is_null ;;
  ret (negb null) &&& (sz <- tget size ;; ret (sz =? 0)).

Definition rb_tree_is_full : M bool :=
  null <- tree_is_null ;;
  ret null ||| (sz <- tget size ;; mx <- tget max_size ;; ret (sz =? mx)).

Fixpoint clear_loop (fuel : nat) (node : ptr) : M unit :=
  match fuel with
  | O => raise OutOfFuel
  | S fuel =>
      if bool_decide (node = None) then ret tt
      else
        hl <- has_left_child node ;;
        node <-
          (if hl then rd node left
           else
             hr <- has_right_child node ;;
             if hr then rd node right else ret node) ;;
        remove_from_parent node ;;
        push_free_node node ;;
        p <- rd node parent ;;
        clear_loop fuel p
  end.

Definition rb_tree_clear (fuel : nat) : M rb_tree_status_t :=
  null <- tree_is_null ;;
  if null then ret RB_FAIL_NULL_TREE
  else
    e <- rb_tree_is_empty ;;
    if e then ret RB_SUCCESS
    else
      node <- tget root ;;
      clear_loop fuel node ;;
      ret RB_SUCCESS.

Definition rb_tree_insert (fuel : nat) (v : Z) : M rb_tree_status_t :=
  null <- tree_is_null ;;
  if null then ret RB_FAIL_NULL_TREE
  else
    c <- (b <- tget node_block ;; ret (bool_decide (b = None)))
           ||| (m <- tget max_size ;; ret (m =? 0)) ;;
    if c then ret RB_FAIL_SIZE_ZERO
    else
      r <- try_binary_insert_or_merge fuel v ;;
      let '(status, inserted_node) := r in
      when (bool_decide (status = RB_SUCCESS) && bool_decide (inserted_node <> None))
        (try_insert_rebalance fuel inserted_node) ;;
      ret status.

Definition assert (b : bool) : M unit :=
  if b then ret tt else raise AssertFail.

Definition rb_tree_delete (fuel : nat) (v : Z) : M rb_tree_status_t :=
  null <- tree_is_null ;;
  if null then ret RB_FAIL_NULL_TREE
  else
    node <- rb_tree_binary_search fuel v ;;
    if bool_decide (node = None) then ret RB_FAIL_VALUE_NOT_FOUND
    else
      no <- rd node (fun n => offset (range n)) ;;
      if no =? 0 then
        delete_rb_node fuel node ;;
        ret RB_SUCCESS
      else
        nv <- rd node (fun n => value (range n)) ;;
        if (v =? nv) && negb (no =? 0) then
          wr node (set_value (u32 (nv + 1))) ;;
          no <- rd node (fun n => offset (range n)) ;;
          wr node (set_offset (u32 (no - 1))) ;;
          ret RB_SUCCESS
        else if v =? u32 (nv + no) then
          wr node (set_offset (u32 (no - 1))) ;;
          ret RB_SUCCESS
        else
          r <- try_binary_insert_or_merge fuel (u32 (v + 1)) ;;
          let '(insert_status, upper_node) := r in
          if negb (bool_decide (insert_status = RB_SUCCESS)) then
            assert (bool_decide (insert_status = RB_FAIL_TREE_FULL)) ;;
            ret insert_status
          else
            assert (bool_decide (upper_node <> None)) ;;
            nv <- rd node (fun n => value (range n)) ;;
            no <- rd node (fun n => offset (range n)) ;;
            uv <- rd upper_node (fun n => value (range n)) ;;
            wr upper_node (set_offset (u32 (u32 (nv + no) - uv))) ;;
            nv <- rd node (fun n => value (range n)) ;;
            wr node (set_offset (u32 (u32 (v - nv) - 1))) ;;
            ret RB_SUCCESS.

Definition rb_tree_destroy : M rb_tree_status_t :=
  null <- tree_is_null ;;
  if null then ret RB_FAIL_NULL_TREE
  else
    b <- tget node_block ;;
    m <- tget max_size ;;
    free_nodes b (Z.to_nat m) ;;
    tset (set_node_block None) ;;
    ret RB_SUCCESS.

Fixpoint first_loop (fuel : nat) (iter : ptr) : M ptr :=
  match fuel with
  | O => raise OutOfFuel
  | S fuel =>
      hl <- has_left_child iter ;;
      if hl then
        l <- rd iter left ;;
        wr l (set_traversal_state false) ;;
        first_loop fuel l
      else ret iter
  end.

(** [rb_tree_get_first_rb_node(tree, &iter)]: the status and the new [iter]. *)
Definition rb_tree_get_first_rb_node (fuel : nat) (iter : ptr)
  : M (rb_tree_status_t * ptr) :=
  null <- tree_is_null ;;
  if null then ret (RB_FAIL_NULL_TREE, iter)
  else
    iter <- tget root ;;
    if bool_decide (iter = None) then ret (RB_FAIL_NULL_TREE, iter)
    else
      wr iter (set_traversal_state false) ;;
      it <- first_loop fuel iter ;;
      ret (RB_SUCCESS, it).

Fixpoint next_down_loop (fuel : nat) (node : ptr) : M ptr :=
  match fuel with
  | O => raise OutOfFuel
  | S fuel =>
      hl <- has_left_child node ;;
      if hl then
        l <- rd node left ;;
        wr l (set_traversal_state false) ;;
        next_down_loop fuel l
      else ret node
  end.

Fixpoint next_up_loop (fuel : nat) (node : ptr) : M ptr :=
  match fuel with
  | O => raise OutOfFuel
  | S fuel =>
      c <- ret (bool_decide (node <> None)) &&& rd node traversal_state ;;
      if c then p <- rd node parent ;; next_up_loop fuel p
      else ret node
  end.

(** [rb_tree_get_next_rb_node(tree, &iter, range, should_pop, should_rebalance)].
    [range_ok] says that the [range] argument is not [NULL]; the result is the
    status, the new [iter] and what was written to [*range], if anything. *)
Definition rb_tree_get_next_rb_node (fuel : nat) (iter : ptr) (range_ok : bool)
    (should_pop should_rebalance : bool)
  : M (rb_tree_status_t * ptr * option rb_range_t) :=
  if bool_decide (iter = None) then ret (RB_FAIL_NULL_NODE, iter, None)
  else if negb range_ok then ret (RB_FAIL_NULL_RANGE, iter, None)
  else
    rv <- rd iter (fun n => value (range n)) ;;
    ro <- rd iter (fun n => offset (range n)) ;;
    let out := Some (mk_range rv ro) in
    let delete_node := iter in
    let node := iter in
    if should_pop && should_rebalance then
      delete_rb_node fuel delete_node ;;
      r <- rb_tree_get_first_rb_node fuel iter ;;
      ret (RB_SUCCESS, snd r, out)
    else
      hr <- has_right_child node ;;
      it <-
        (if hr then
           wr node (set_traversal_state true) ;;
           node <- rd node right ;;
           wr node (set_traversal_state false) ;;
           next_down_loop fuel node
         else
           wr node (set_traversal_state true) ;;
           next_up_loop fuel node) ;;
      when (should_pop && negb should_rebalance)
        (delete_rb_node_without_rebalancing delete_node) ;;
      ret (RB_SUCCESS, it, out).

(** ** Observing a state *)

Definition root_of (s : state) : ptr :=
  match tree s with
  | Some t => root t
  | None => None
  end.

(** The ranges of the nodes reachable from [p], left to right. *)
Fixpoint inorder (fuel : nat) (h : gmap nat rb_node_t) (p : ptr) : list rb_range_t :=
  match fuel with
  | O => []
  | S fuel =>
      match p with
      | None => []
      | Some a =>
          match h !! a with
          | None => []
          | Some n => inorder fuel h (left n) ++ range n :: inorder fuel h (right n)
          end
      end
  end.

Definition node_is_red (h : gmap nat rb_node_t) (p : ptr) : bool :=
  match p with
  | None => false
  | Some a => match h !! a with
              | Some n => color n
              | None => false
              end
  end.

(** I1: the root is black, or the tree is empty. *)
Definition root_is_black (s : state) : bool := negb (node_is_red (heap s) (root_of s)).

(** I2: no red node below [p] has a red child. *)
Fixpoint no_red_red (fuel : nat) (h : gmap nat rb_node_t) (p : ptr) : bool :=
  match fuel with
  | O => true
  | S fuel =>
      match p with
      | None => true
      | Some a =>
          match h !! a with
          | None => true
          | Some n =>
              negb (color n && (node_is_red h (left n) || node_is_red h (right n)))
              && no_red_red fuel h (left n) && no_red_red fuel h (right n)
          end
      end
  end.

(** I3: [Some d] when every path from [p] to NIL crosses [d] black nodes. *)
Fixpoint black_depth (fuel : nat) (h : gmap nat rb_node_t) (p : ptr) : option nat :=
  match fuel with
  | O => None
  | S fuel =>
      match p with
      | None => Some O
      | Some a =>
          match h !! a with
          | None => None
          | Some n =>
              match black_depth fuel h (left n), black_depth fuel h (right n) with
              | Some dl, Some dr =>
                  if bool_decide (dl = dr)
                  then Some (if color n then dl else S dl)
                  else None
              | _, _ => None
              end
          end
      end
  end.

Definition red_black (fuel : nat) (s : state) : bool :=
  root_is_black s
  && no_red_red fuel (heap s) (root_of s)
  && bool_decide (is_Some (black_depth fuel (heap s) (root_of s))).

(** ** Client code: sequences of calls *)

Fixpoint inserts (fuel : nat) (vs : list Z) : M (list rb_tree_status_t) :=
  match vs with
  | [] => ret []
  | v :: vs =>
      st <- rb_tree_insert fuel v ;;
      r <- inserts fuel vs ;;
      ret (st :: r)
  end.

(** Call [rb_tree_get_next_rb_node] until the iterator is [NULL] or a call
    fails, at most [n] times, collecting the ranges it writes. *)
Fixpoint drain_loop (fuel n : nat) (iter : ptr) (should_pop should_rebalance : bool)
  : M (list rb_range_t) :=
  match n with
  | O => raise OutOfFuel
  | S n =>
      if bool_decide (iter = None) then ret []
      else
        r <- rb_tree_get_next_rb_node fuel iter true should_pop should_rebalance ;;
        let '(st, it, rg) := r in
        match rg with
        | Some x =>
            if bool_decide (st = RB_SUCCESS) then
              l <- drain_loop fuel n it should_pop should_rebalance ;;
              ret (x :: l)
            else ret []
        | None => ret []
        end
  end.

Definition drain (fuel : nat) (should_pop should_rebalance : bool) : M (list rb_range_t) :=
  r <- rb_tree_get_first_rb_node fuel None ;;
  drain_loop fuel fuel (snd r) should_pop should_rebalance.

(** A caller's [rb_tree_t] before [rb_tree_create] has run, and no cell
    allocated yet. *)
Definition uninit_tree : rb_tree_t := mk_tree 0 0 None None None None.
Definition fresh : state := mk_state ∅ (Some uninit_tree).
Definition null_handle : state := mk_state ∅ None.

(** [holds o P]: the run [o] ended without a fault, and its result and
    final state satisfy [P]. *)
Definition holds {A} (o : outcome A) (P : A -> state -> Prop) : Prop :=
  match o with
  | Ok a s => P a s
  | Fault _ => False
  end.

Definition size_of (s : state) : Z :=
  match tree s with
  | Some t => size t
  | None => 0
  end.

(** ** The free list

    [push_free_node] links a cell in at the head, [pop_free_node] takes the
    tail and follows [left]; so from the tail the [left] pointers run through
    the cells in the order they were pushed. *)
Fixpoint flist (h : gmap nat rb_node_t) (p : ptr) (fl : list nat) : Prop :=
  match fl with
  | [] => p = None
  | f :: rest => p = Some f /\ exists n, h !! f = Some n /\ flist h (left n) rest
  end.

Definition free_ok (h : gmap nat rb_node_t) (t : rb_tree_t) (fl : list nat) : Prop :=
  flist h (free_node_tail t) fl /\ free_node_head t = last fl /\ NoDup fl.

(** ** The tree a heap represents

    [T c l a v o r] is the node stored at address [a], of color [c], holding
    the range [(v, o)], with subtrees [l] and [r]; [E] is NIL. *)
Inductive tr : Type :=
  | E
  | T (c : bool) (l : tr) (a : nat) (v o : Z) (r : tr).

Definition root_ptr (t : tr) : ptr :=
  match t with
  | E => None
  | T _ _ a _ _ _ => Some a
  end.

Fixpoint addrs (t : tr) : list nat :=
  match t with
  | E => []
  | T _ l a _ _ r => addrs l ++ a :: addrs r
  end.

Fixpoint ranges (t : tr) : list rb_range_t :=
  match t with
  | E => []
  | T _ l _ v o r => ranges l ++ mk_range v o :: ranges r
  end.

Fixpoint height (t : tr) : nat :=
  match t with
  | E => O
  | T _ l _ _ _ r => S (Nat.max (height l) (height r))
  end.

(** [rep h par p t]: in the heap [h] the pointer [p] leads to the tree [t],
    whose root has the parent pointer [par]. *)
Fixpoint rep (h : gmap nat rb_node_t) (par p : ptr) (t : tr) : Prop :=
  match t with
  | E => p = None
  | T c l a v o r =>
      p = Some a /\
      exists n, h !! a = Some n /\
        color n = c /\ range n = mk_range v o /\ parent n = par /\
        rep h (Some a) (left n) l /\ rep h (Some a) (right n) r
  end.

(** Search-tree order with gaps: every value stored in [t] lies in
    [lo, hi], and the ranges of a node and of its subtrees are separated by
    at least one absent value (I4). *)
Fixpoint bst (lo hi : Z) (t : tr) : Prop :=
  match t with
  | E => True
  | T _ l _ v o r =>
      lo <= v /\ 0 <= o /\ v + o <= hi /\
      bst lo (v - 2) l /\ bst (v + o + 2) hi r
  end.

(** A state whose tree handle leads to the tree [t], with the cells [fl] on
    the free list. *)
Definition tree_ok (s : state) (t : tr) (fl : list nat) : Prop :=
  exists tt,
    tree s = Some tt /\
    rep (heap s) None (root tt) t /\
    NoDup (addrs t ++ fl) /\
    free_ok (heap s) tt fl.

(** The range stored at an address. *)
Definition range_at (s : state) (a : nat) : option rb_range_t :=
  range <$> heap s !! a.

(** [v] placed as a new red leaf [f] by plain descent: left of a node when
    smaller than its first value, right otherwise. *)
Fixpoint ins_leaf (w : Z) (f : nat) (t : tr) : tr :=
  match t with
  | E => T RED E f w 0 E
  | T c l a v o r =>
      if w <? v then T c (ins_leaf w f l) a v o r
      else T c l a v o (ins_leaf w f r)
  end.

(** The descent of [try_binary_insert_or_merge] for [w] through [t] meets
    no node it would merge with or take for a duplicate. *)
Fixpoint plain_path (w : Z) (t : tr) : Prop :=
  match t with
  | E => True
  | T _ l _ v o r =>
      are_consecutive w v = false /\
      if w <? v then plain_path w l
      else are_consecutive (u32 (v + o)) w = false /\ v < w /\ plain_path w r
  end.

(** The node of [t] whose range covers [x], as the search finds it. *)
Fixpoint find_cover (x : Z) (t : tr) : option nat :=
  match t with
  | E => None
  | T _ l a v o r =>
      if (v <=? x) && (x <=? u32 (v + o)) then Some a
      else if x <? v then find_cover x l
      else find_cover x r
  end.

(** Replace the range of the node at [a]. *)
Fixpoint set_range_at (a : nat) (v' o' : Z) (t : tr) : tr :=
  match t with
  | E => E
  | T c l b v o r =>
      T c (set_range_at a v' o' l) b
        (if bool_decide (b = a) then v' else v)
        (if bool_decide (b = a) then o' else o)
        (set_range_at a v' o' r)
  end.

(** The cells of a tree with the ranges they hold, left to right. *)
Fixpoint nodes (t : tr) : list (nat * rb_range_t) :=
  match t with
  | E => []
  | T _ l a v o r => nodes l ++ (a, mk_range v o) :: nodes r
  end.

(** List views of the two updates a split makes. *)
Fixpoint insert_after (a : nat) (new : nat * rb_range_t)
    (l : list (nat * rb_range_t)) : list (nat * rb_range_t) :=
  match l with
  | [] => []
  | p :: l' =>
      if bool_decide (p.1 = a) then p :: new :: l'
      else p :: insert_after a new l'
  end.

Definition set_range_in (a : nat) (rg : rb_range_t)
    (l : list (nat * rb_range_t)) : list (nat * rb_range_t) :=
  (fun p => if bool_decide (p.1 = a) then (a, rg) else p) <$> l.

(** The state after create(4); insert 10, 1, 2, 3: the root (10,0) at cell
    0, its red left child (1,2) at cell 1, the cells 2 and 3 free. *)
Definition split_example : state :=
  mk_state
    (list_to_map
       [(0%nat, mk_node (mk_range 10 0) BLACK false None (Some 1%nat) None);
        (1%nat, mk_node (mk_range 1 2) RED false (Some 0%nat) None None);
        (2%nat, mk_node (mk_range 0 0) BLACK false None (Some 3%nat) (Some 1%nat));
        (3%nat, mk_node (mk_range 0 0) BLACK false None None (Some 2%nat))])
    (Some (mk_tree 2 4 (Some 0%nat) (Some 3%nat) (Some 2%nat) (Some 0%nat))).

Definition split_example_tree : tr :=
  T BLACK (T RED E 1 1 2 E) 0 10 0 E.


(** ** Trees with a hole

    A [frame] is a node seen from one of its children: [FL c a v o r] is the
    node [a] above its left child, with the right subtree [r];
    [FR c l a v o] is the node [a] above its right child.  A context lists
    the frames from a position up to the root. *)
Inductive frame : Type :=
  | FL (c : bool) (a : nat) (v o : Z) (r : tr)
  | FR (c : bool) (l : tr) (a : nat) (v o : Z).

Definition ctx : Type := list frame.

Definition fill (f : frame) (t : tr) : tr :=
  match f with
  | FL c a v o r => T c t a v o r
  | FR c l a v o => T c l a v o t
  end.

Fixpoint plug (t : tr) (k : ctx) : tr :=
  match k with
  | [] => t
  | f :: k' => plug (fill f t) k'
  end.

Definition faddr (f : frame) : nat :=
  match f with
  | FL _ a _ _ _ => a
  | FR _ _ a _ _ => a
  end.

Definition fcol (f : frame) : bool :=
  match f with
  | FL c _ _ _ _ => c
  | FR c _ _ _ _ => c
  end.

Definition fsib (f : frame) : tr :=
  match f with
  | FL _ _ _ _ r => r
  | FR _ l _ _ _ => l
  end.

Definition fset (c : bool) (s : tr) (f : frame) : frame :=
  match f with
  | FL _ a v o _ => FL c a v o s
  | FR _ _ a v o => FR c s a v o
  end.

(** The parent pointer of the node in the hole. *)
Definition ctx_par (k : ctx) : ptr :=
  match k with
  | [] => None
  | f :: _ => Some (faddr f)
  end.

Definition faddrs (f : frame) : list nat := faddr f :: addrs (fsib f).

Fixpoint ctx_addrs (k : ctx) : list nat :=
  match k with
  | [] => []
  | f :: k' => faddrs f ++ ctx_addrs k'
  end.

(** [rep_ctx h rootp k p]: in the heap [h] the frames of [k] lead from the
    pointer [p] in the hole up to the root, which [rootp] points to. *)
Fixpoint rep_ctx (h : gmap nat rb_node_t) (rootp : ptr) (k : ctx) (p : ptr) : Prop :=
  match k with
  | [] => rootp = p
  | FL c a v o r :: k' =>
      (exists n, h !! a = Some n /\
         color n = c /\ range n = mk_range v o /\ parent n = ctx_par k' /\
         left n = p /\ rep h (Some a) (right n) r) /\
      rep_ctx h rootp k' (Some a)
  | FR c l a v o :: k' =>
      (exists n, h !! a = Some n /\
         color n = c /\ range n = mk_range v o /\ parent n = ctx_par k' /\
         right n = p /\ rep h (Some a) (left n) l) /\
      rep_ctx h rootp k' (Some a)
  end.

Definition col (t : tr) : bool :=
  match t with
  | E => BLACK
  | T c _ _ _ _ _ => c
  end.

Definition paint (c : bool) (t : tr) : tr :=
  match t with
  | E => E
  | T _ l a v o r => T c l a v o r
  end.

(** ** What the rebalancing loops compute *)

(** [try_insert_rebalance] called on the root of [t], a subtree in the
    context [k]; the result is the whole tree.  [None] stands for the shapes
    on which the C code dereferences [NULL]. *)
Fixpoint ins_fix (k : ctx) (t : tr) : option tr :=
  match k with
  | [] => Some (paint BLACK t)
  | fP :: k1 =>
      if fcol fP then
        match k1 with
        | [] => None
        | fG :: k2 =>
            if col (fsib fG) then
              ins_fix k2
                (fill (fset RED (paint BLACK (fsib fG)) fG)
                      (fill (fset BLACK (fsib fP) fP) t))
            else
              match fP, fG with
              | FL cP p pv po s, FL cG g gv go u =>
                  Some (plug (T BLACK t p pv po (T RED s g gv go u)) k2)
              | FR cP s p pv po, FR cG u g gv go =>
                  Some (plug (T BLACK (T RED u g gv go s) p pv po t) k2)
              | FR cP s p pv po, FL cG g gv go u =>
                  match t with
                  | E => None
                  | T c l a v o r =>
                      Some (plug (T BLACK (T cP s p pv po l) a v o (T RED r g gv go u)) k2)
                  end
              | FL cP p pv po s, FR cG u g gv go =>
                  match t with
                  | E => None
                  | T c l a v o r =>
                      Some (plug (T BLACK (T RED u g gv go l) a v o (T cP r p pv po s)) k2)
                  end
              end
        end
      else Some (plug t k)
  end.

(** DELETE_CASE_4 to 6 for a node that is the left child of [p], with the
    sibling [s]; the result is the new context of the node. *)
Definition del_456_l (cp : bool) (p : nat) (pv po : Z) (s : tr) (k : ctx)
  : option ctx :=
  match s with
  | E => None
  | T sc sl sa sv so sr =>
      if cp && negb sc && negb (col sl) && negb (col sr) then
        Some (FL BLACK p pv po (T RED sl sa sv so sr) :: k)
      else
        let s' :=
          if negb sc && negb (col sr) && col sl then
            match sl with
            | E => s
            | T _ sll sla slv slo slr =>
                T BLACK sll sla slv slo (T RED slr sa sv so sr)
            end
          else s in
        match s' with
        | T _ sl' sa' sv' so' (T _ srl sra srv sro srr) =>
            Some (FL BLACK p pv po sl'
                  :: FL cp sa' sv' so' (T BLACK srl sra srv sro srr) :: k)
        | _ => None
        end
  end.

(** The same for a right child. *)
Definition del_456_r (cp : bool) (s : tr) (p : nat) (pv po : Z) (k : ctx)
  : option ctx :=
  match s with
  | E => None
  | T sc sl sa sv so sr =>
      if cp && negb sc && negb (col sl) && negb (col sr) then
        Some (FR BLACK (T RED sl sa sv so sr) p pv po :: k)
      else
        let s' :=
          if negb sc && negb (col sl) && col sr then
            match sr with
            | E => s
            | T src srl sra srv sro srr =>
                T src (T sc sl sa sv so srl) sra srv sro srr
            end
          else s in
        match s' with
        | T _ (T _ sll sla slv slo slr) sa' sv' so' sr' =>
            Some (FR BLACK sr' p pv po
                  :: FR cp (T BLACK sll sla slv slo slr) sa' sv' so' :: k)
        | _ => None
        end
  end.

(** [delete_rebalance] called on the node in the hole of [k]; the result is
    the new context of that node. *)
Fixpoint del_fix (k : ctx) : option ctx :=
  match k with
  | [] => Some []
  | FL cp p pv po s :: k' =>
      match s with
      | E => None
      | T sc sl sa sv so sr =>
          if sc then
            del_456_l RED p pv po sl (FL BLACK sa sv so sr :: k')
          else if negb cp && negb (col sl) && negb (col sr) then
            match del_fix k' with
            | Some k'' => Some (FL cp p pv po (T RED sl sa sv so sr) :: k'')
            | None => None
            end
          else del_456_l cp p pv po s k'
      end
  | FR cp s p pv po :: k' =>
      match s with
      | E => None
      | T sc sl sa sv so sr =>
          if sc then
            del_456_r RED sr p pv po (FR BLACK sl sa sv so :: k')
          else if negb cp && negb (col sl) && negb (col sr) then
            match del_fix k' with
            | Some k'' => Some (FR cp (T RED sl sa sv so sr) p pv po :: k'')
            | None => None
            end
          else del_456_r cp s p pv po k'
      end
  end.

(** [delete_one_child] called on the root of [t] in the context [k]: the
    tree without that node, and the cell given back. *)
Definition del_one (k : ctx) (t : tr) : option (tr * nat) :=
  match k with
  | [] => None
  | _ :: _ =>
      match t with
      | E => None
      | T c E x _ _ E =>
          if c then Some (plug E k, x)
          else
            match del_fix k with
            | Some k' => Some (plug E k', x)
            | None => None
            end
      | T c (T cc cl ca cv co cr) x _ _ E =>
          if c then Some (plug (T cc cl ca cv co cr) k, x)
          else if cc then Some (plug (T BLACK cl ca cv co cr) k, x)
          else None
      | T c E x _ _ (T cc cl ca cv co cr) =>
          if c then Some (plug (T cc cl ca cv co cr) k, x)
          else if cc then Some (plug (T BLACK cl ca cv co cr) k, x)
          else None
      | T _ (T _ _ _ _ _ _) _ _ _ (T _ _ _ _ _ _) => None
      end
  end.

(** The descent of [get_left_successor] and [get_right_successor]: the
    frames passed, innermost first, and the subtree reached. *)
Fixpoint descend_r (t : tr) (k : ctx) : ctx * tr :=
  match t with
  | E => (k, E)
  | T c l a v o r =>
      match r with
      | E => (k, t)
      | T _ _ _ _ _ _ => descend_r r (FR c l a v o :: k)
      end
  end.

Fixpoint descend_l (t : tr) (k : ctx) : ctx * tr :=
  match t with
  | E => (k, E)
  | T c l a v o r =>
      match l with
      | E => (k, t)
      | T _ _ _ _ _ _ => descend_l l (FL c a v o r :: k)
      end
  end.

(** [delete_rb_node] called on the root of [t] in the context [k]. *)
Definition del_at (k : ctx) (t : tr) : option (tr * nat) :=
  match t with
  | E => None
  | T c l a v o r =>
      match l, r with
      | T _ _ _ _ _ _, _ =>
          match descend_r l [] with
          | (ks, T sc sl sa sv so sr) =>
              del_one (ks ++ FL c a sv so r :: k) (T sc sl sa v o sr)
          | (_, E) => None
          end
      | E, T _ _ _ _ _ _ =>
          match descend_l r [] with
          | (ks, T sc sl sa sv so sr) =>
              del_one (ks ++ FR c E a sv so :: k) (T sc sl sa v o sr)
          | (_, E) => None
          end
      | E, E =>
          match k with
          | [] => Some (E, a)
          | _ :: _ => del_one k t
          end
      end
  end.

(** ** What an insertion does *)

Inductive ins_result : Type :=
  | INew (left_slot : bool) (k : ctx) (t : tr)
      (* a new leaf goes below the root of [t], in its left or right slot *)
  | IExt (t : tr)
      (* a range was extended by one value: the whole tree *)
  | IMerge (k : ctx) (t : tr)
      (* two ranges were joined in a node above; the root of [t] is to be
         deleted *)
  | IDup.

(** The descent of [try_binary_insert_or_merge] from the root of [t]. *)
Fixpoint ins_go (w : Z) (t : tr) (k : ctx) : ins_result :=
  match t with
  | E => IDup
  | T c l a v o r =>
      if are_consecutive w v then
        match descend_r l [] with
        | (ks, T sc sl sa sv so sr) =>
            if are_consecutive (u32 (sv + so)) w then
              IMerge (ks ++ FL c a sv (u32 (o + u32 (so + 2))) r :: k)
                     (T sc sl sa sv so sr)
            else IExt (plug (T c l a w (u32 (o + 1)) r) k)
        | (_, E) => IExt (plug (T c l a w (u32 (o + 1)) r) k)
        end
      else if w <? v then
        match l with
        | E => INew true k t
        | T _ _ _ _ _ _ => ins_go w l (FL c a v o r :: k)
        end
      else if are_consecutive (u32 (v + o)) w then
        match descend_l r [] with
        | (ks, T sc sl sa sv so sr) =>
            if are_consecutive w sv then
              IMerge (ks ++ FR c l a v (u32 (o + u32 (so + 2))) :: k)
                     (T sc sl sa sv so sr)
            else IExt (plug (T c l a v (u32 (o + 1)) r) k)
        | (_, E) => IExt (plug (T c l a v (u32 (o + 1)) r) k)
        end
      else if v <? w then
        match r with
        | E => INew false k t
        | T _ _ _ _ _ _ => ins_go w r (FR c l a v o :: k)
        end
      else IDup
  end.

(** [rb_tree_insert] on the tree [t] with the free cells [fl]: the status,
    the new tree and the new free list. *)
Definition ins (w : Z) (t : tr) (fl : list nat)
  : option (rb_tree_status_t * tr * list nat) :=
  match t with
  | E =>
      match fl with
      | [] => None
      | f :: rest => Some (RB_SUCCESS, T BLACK E f w 0 E, rest)
      end
  | T _ _ _ _ _ _ =>
      match ins_go w t [] with
      | INew left_slot k (T c l a v o r) =>
          match fl with
          | [] => Some (RB_FAIL_TREE_FULL, t, fl)
          | f :: rest =>
              match
                ins_fix
                  ((if left_slot then FL c a v o r else FR c l a v o) :: k)
                  (T RED E f w 0 E)
              with
              | Some t' => Some (RB_SUCCESS, t', rest)
              | None => None
              end
          end
      | INew _ _ E => None
      | IExt t' => Some (RB_SUCCESS, t', fl)
      | IMerge k s =>
          match del_at k s with
          | Some (t', x) => Some (RB_SUCCESS, t', fl ++ [x])
          | None => None
          end
      | IDup => Some (RB_FAIL_INSERT_DUPLICATE, t, fl)
      end
  end.

(** ** Cells and ranges around a hole *)

(** The cells, with their ranges, to the left and to the right of the hole
    of a context, in order. *)
Fixpoint nodes_l (k : ctx) : list (nat * rb_range_t) :=
  match k with
  | [] => []
  | FL _ _ _ _ _ :: k' => nodes_l k'
  | FR _ l a v o :: k' => nodes_l k' ++ nodes l ++ [(a, mk_range v o)]
  end.

Fixpoint nodes_r (k : ctx) : list (nat * rb_range_t) :=
  match k with
  | [] => []
  | FL _ a v o r :: k' => (a, mk_range v o) :: nodes r ++ nodes_r k'
  | FR _ _ _ _ _ :: k' => nodes_r k'
  end.

(** Two lists of cells share no cell. *)
Definition disj (l k : list nat) : Prop := forall x, x ∈ l -> x ∉ k.

(** ** States during a call

    [Zt F fr tt0 s k t]: the state [s] holds the tree [plug t k]; its
    [rb_tree_t] is [tt0] but for the root pointer.  [F] describes the cells
    [fr] outside the tree, and is not affected by writes to other cells. *)
Definition Zt (F : gmap nat rb_node_t -> Prop) (fr : list nat)
    (tt0 : rb_tree_t) (s : state) (k : ctx) (t : tr) : Prop :=
  exists h rootp,
    s = mk_state h (Some (set_root rootp tt0)) /\
    rep h None rootp (plug t k) /\
    NoDup (addrs (plug t k) ++ fr) /\
    F h /\
    (forall h' a n, a ∉ fr -> F h' -> F (<[a := n]> h')).

(** The frame of the calls on a tree in its usual state: the free list. *)
Definition free_frame (tt0 : rb_tree_t) (fl : list nat)
  : gmap nat rb_node_t -> Prop :=
  fun h => free_ok h tt0 fl.

(** What the pointer helpers answer for the node in the hole of [k]. *)
Definition is_lc (k : ctx) : bool :=
  match k with
  | FL _ _ _ _ _ :: _ => true
  | _ => false
  end.

Definition sib_ptr (k : ctx) : ptr :=
  match k with
  | [] => None
  | f :: _ => root_ptr (fsib f)
  end.

Definition gp_ptr (k : ctx) : ptr :=
  match k with
  | [] => None
  | _ :: k1 => ctx_par k1
  end.

Definition uncle_ptr (k : ctx) : ptr :=
  match k with
  | _ :: fG :: _ => root_ptr (fsib fG)
  | _ => None
  end.

(** The range of a frame's node, and its replacement. *)
Definition fval (f : frame) : Z :=
  match f with
  | FL _ _ v _ _ => v
  | FR _ _ _ v _ => v
  end.

Definition foff (f : frame) : Z :=
  match f with
  | FL _ _ _ o _ => o
  | FR _ _ _ _ o => o
  end.

Definition fset_range (v o : Z) (f : frame) : frame :=
  match f with
  | FL c a _ _ r => FL c a v o r
  | FR c l a _ _ => FR c l a v o
  end.

(** The frame [F] and, next to it, the cell [x] taken out of the tree, of
    color [c] and still holding the range [(v, o)]. *)
Definition cell_frame (F : gmap nat rb_node_t -> Prop) (x : nat) (c : bool)
    (v o : Z) : gmap nat rb_node_t -> Prop :=
  fun h =>
    F h /\
    exists ts p lp rp, h !! x = Some (mk_node (mk_range v o) c ts p lp rp).

(** The [rb_tree_t] after [push_free_node] of the cell [x]. *)
Definition pushed (tt0 : rb_tree_t) (fl : list nat) (x : nat) : rb_tree_t :=
  mk_tree (u32 (size tt0 - 1)) (max_size tt0) (root tt0) (Some x)
          (if fl is [] then Some x else free_node_tail tt0) (node_block tt0).

(** The frame that puts a new leaf below the root of [t]. *)
Definition slot_frame (left_slot : bool) (t : tr) : option frame :=
  match t with
  | E => None
  | T c l a v o r => Some (if left_slot then FL c a v o r else FR c l a v o)
  end.

(** What [try_binary_insert_or_merge] establishes when its descent has
    the result [res]: [Q] holds of what it returns and of the state. *)
Definition ins_post (tt0 : rb_tree_t) (fl : list nat) (w : Z) (res : ins_result)
    (s : state) (Q : rb_tree_status_t * ptr -> state -> Prop) : Prop :=
  match res with
  | INew left_slot k t =>
      match fl, slot_frame left_slot t with
      | [], _ => Q (RB_FAIL_TREE_FULL, None) s
      | f :: rest, Some fr =>
          forall s' tt1,
            Zt (free_frame tt1 rest) rest tt1 s' (fr :: k) (T RED E f w 0 E) ->
            size tt1 = u32 (size tt0 + 1) -> max_size tt1 = max_size tt0 ->
            node_block tt1 = node_block tt0 ->
            Q (RB_SUCCESS, Some f) s'
      | _, None => False
      end
  | IExt t' =>
      forall s', Zt (free_frame tt0 fl) fl tt0 s' [] t' -> Q (RB_SUCCESS, None) s'
  | IMerge k t =>
      exists t' y,
        del_at k t = Some (t', y) /\
        forall s',
          Zt (free_frame (pushed tt0 fl y) (fl ++ [y])) (fl ++ [y])
             (pushed tt0 fl y) s' [] t' ->
          Q (RB_SUCCESS, None) s'
  | IDup => Q (RB_FAIL_INSERT_DUPLICATE, None) s
  end.


(** ** Red-black trees

    [rbn t n]: no red node of [t] has a red child, and every path from the
    root of [t] to a leaf passes [n] black nodes. *)
Fixpoint rbn (t : tr) (n : nat) : Prop :=
  match t with
  | E => n = O
  | T c l _ _ _ r =>
      if c then col l = BLACK /\ col r = BLACK /\ rbn l n /\ rbn r n
      else
        match n with
        | O => False
        | S m => rbn l m /\ rbn r m
        end
  end.

Definition rb (t : tr) : Prop := col t = BLACK /\ exists n, rbn t n.

(** [ctx_rb k c n]: the context [k] makes a red-black tree of any tree with
    a root of color [c] and [n] black nodes on every path plugged into it. *)
Fixpoint ctx_rb (k : ctx) (c : bool) (n : nat) : Prop :=
  match k with
  | [] => c = BLACK
  | f :: k' =>
      rbn (fsib f) n /\
      (fcol f = RED -> c = BLACK /\ col (fsib f) = BLACK) /\
      ctx_rb k' (fcol f) (if fcol f then n else S n)
  end.

(** ** Lists of ranges *)

(** The ranges lie in [lo, hi], in ascending order, with at least one
    absent value between two of them. *)
Fixpoint gapped (lo hi : Z) (rs : list rb_range_t) : Prop :=
  match rs with
  | [] => True
  | rg :: rs' =>
      lo <= value rg /\ 0 <= offset rg /\ value rg + offset rg <= hi /\
      gapped (value rg + offset rg + 2) hi rs'
  end.

Definition covers (rg : rb_range_t) (x : Z) : Prop :=
  value rg <= x <= value rg + offset rg.

Definition covered (rs : list rb_range_t) (x : Z) : Prop :=
  Exists (fun rg => covers rg x) rs.

(** The number of values in the ranges. *)
Fixpoint total (rs : list rb_range_t) : Z :=
  match rs with
  | [] => 0
  | rg :: rs' => offset rg + 1 + total rs'
  end.

(** Insertion of the value [w] into a list of ranges. *)
Fixpoint linsert (w : Z) (rs : list rb_range_t) : list rb_range_t :=
  match rs with
  | [] => [mk_range w 0]
  | rg :: rs' =>
      if w + 1 =? value rg then mk_range w (offset rg + 1) :: rs'
      else if w <? value rg then mk_range w 0 :: rg :: rs'
      else if value rg + offset rg + 1 =? w then
        match rs' with
        | rg' :: rs'' =>
            if w + 1 =? value rg'
            then mk_range (value rg) (offset rg + offset rg' + 2) :: rs''
            else mk_range (value rg) (offset rg + 1) :: rs'
        | [] => [mk_range (value rg) (offset rg + 1)]
        end
      else rg :: linsert w rs'
  end.

(** The ranges to the left and to the right of the hole of a context. *)
Definition ranges_l (k : ctx) : list rb_range_t := (nodes_l k).*2.
Definition ranges_r (k : ctx) : list rb_range_t := (nodes_r k).*2.

(** Two trees of the same form and colors. *)
Fixpoint same_shape (t1 t2 : tr) : Prop :=
  match t1, t2 with
  | E, E => True
  | T c1 l1 _ _ _ r1, T c2 l2 _ _ _ r2 =>
      c1 = c2 /\ same_shape l1 l2 /\ same_shape r1 r2
  | _, _ => False
  end.

(** A range that ends, or begins, at least two values away from [w]. *)
Definition below (w : Z) (rg : rb_range_t) : Prop :=
  0 <= offset rg /\ value rg + offset rg + 2 <= w.
Definition above (w : Z) (rg : rb_range_t) : Prop :=
  0 <= offset rg /\ w + 2 <= value rg.

(** ** The tree after a run of insertions

    [inserted_inv N s done]: the state [s] holds a red-black tree of capacity
    [N] whose ranges lie in [0, N-1], are kept apart, and cover only values
    of [done], as many as [done] is long; the cells not in the tree are on
    the free list, and [size] counts the nodes. *)
Definition inserted_inv (N : Z) (s : state) (done : list Z) : Prop :=
  exists tt0 t fl,
    Zt (free_frame tt0 fl) fl tt0 s [] t /\
    node_block tt0 <> None /\ max_size tt0 = N /\
    size tt0 = Z.of_nat (length (ranges t)) /\
    (length (ranges t) + length fl = Z.to_nat N)%nat /\
    rb t /\ gapped 0 (N - 1) (ranges t) /\
    total (ranges t) = Z.of_nat (length done) /\
    (forall x, covered (ranges t) x -> x ∈ done).

(** ** The in-order walk

    [ts_clear h a]: the traversal bit of the cell [a] is reset. *)
Definition ts_clear (h : gmap nat rb_node_t) (a : nat) : Prop :=
  exists n, h !! a = Some n /\ traversal_state n = false.

(** [Zs tt0 fl cl s k t]: as [Zt] with the free list [fl] for its frame, and
    the traversal bit of the nodes [cl] of the tree is reset. *)
Definition Zs (tt0 : rb_tree_t) (fl cl : list nat) (s : state) (k : ctx)
    (t : tr) : Prop :=
  exists h rootp,
    s = mk_state h (Some (set_root rootp tt0)) /\
    rep h None rootp (plug t k) /\
    NoDup (addrs (plug t k) ++ fl) /\
    free_ok h tt0 fl /\
    Forall (ts_clear h) cl /\
    Forall (fun x => x ∈ addrs (plug t k)) cl.

(** A frame whose hole is the left subtree. *)
Definition left_frame (f : frame) : Prop :=
  match f with
  | FL _ _ _ _ _ => True
  | FR _ _ _ _ _ => False
  end.

(** The nodes from the root of [t] down to its leftmost node. *)
Fixpoint lspine (t : tr) : list nat :=
  match t with
  | E => []
  | T _ l a _ _ _ => a :: lspine l
  end.

(** A computation that leaves the traversal bits that are reset as they
    are. *)
Definition ts_pres {A} (m : M A) : Prop :=
  forall s a s' x,
    m s = Ok a s' -> ts_clear (heap s) x -> ts_clear (heap s') x.

(** Where the in-order walk goes from a node without left subtree whose
    right subtree is [r], in the context [k]: the new context and the
    subtree whose root is the next node. *)
Definition walk_next (r : tr) (k : ctx) : ctx * tr :=
  match r with
  | T _ _ _ _ _ _ => descend_l r k
  | E =>
      match k with
      | [] => ([], E)
      | f :: k1 => (k1, fill f E)
      end
  end.

(** ** The invariants of a tree between two calls

    [tree_inv s t fl]: the state [s] holds the red-black tree [t], in search
    order with a gap between any two ranges, all of them 32-bit; the cells
    [fl] are free; a block is allocated, [size] is the number of nodes and
    [max_size] the number of cells. *)
Definition tree_inv (s : state) (t : tr) (fl : list nat) : Prop :=
  tree_ok s t fl /\ rb t /\ bst 0 UINT32_MAX t /\
  exists tt,
    tree s = Some tt /\ node_block tt <> None /\
    size tt = Z.of_nat (length (ranges t)) /\
    max_size tt = Z.of_nat (length (ranges t) + length fl).

(** A value with no stored value next to it. *)
Definition isolated (rs : list rb_range_t) (w : Z) : Prop :=
  ~ covered rs (w - 1) /\ ~ covered rs w /\ ~ covered rs (w + 1).

(** ** The walk that keeps the nodes

    The traversal bit of a cell, if the cell is allocated. *)
Definition ts_at (h : gmap nat rb_node_t) (a : nat) : option bool :=
  traversal_state <$> h !! a.

Definition is_FR (f : frame) : bool :=
  match f with
  | FL _ _ _ _ _ => false
  | FR _ _ _ _ _ => true
  end.

(** [Zw tt0 fl s k t]: as [Zt] with the free list for its frame; of the
    nodes above the one in focus, those left behind (the focus is in their
    right subtree) are marked visited and those still to come are not. *)
Definition Zw (tt0 : rb_tree_t) (fl : list nat) (s : state) (k : ctx)
    (t : tr) : Prop :=
  exists h rootp,
    s = mk_state h (Some (set_root rootp tt0)) /\
    rep h None rootp (plug t k) /\
    NoDup (addrs (plug t k) ++ fl) /\
    free_ok h tt0 fl /\
    Forall (fun f => ts_at h (faddr f) = Some (is_FR f)) k.

(** The first node above that is still to come. *)
Fixpoint up_ptr (k : ctx) : ptr :=
  match k with
  | [] => None
  | FL _ a _ _ _ :: _ => Some a
  | FR _ _ _ _ _ :: k' => up_ptr k'
  end.

(** The way up from the root of [t]: the subtree of the first node still
    to come, and its context. *)
Fixpoint walk_up (k : ctx) (t : tr) : option (ctx * tr) :=
  match k with
  | [] => None
  | FL c a v o r :: k' => Some (k', T c t a v o r)
  | FR c l a v o :: k' => walk_up k' (T c l a v o t)
  end.

(** ** A tree that fills its arena

    The state after [rb_tree_create] for two nodes and the insertions of
    5 and 9: no cell is free. *)
Definition full_example : state :=
  mk_state
    (list_to_map
       [(0%nat, mk_node (mk_range 5 0) BLACK false None None (Some 1%nat));
        (1%nat, mk_node (mk_range 9 0) RED false (Some 0%nat) None None)])
    (Some (mk_tree 2 2 (Some 0%nat) None None (Some 0%nat))).

Definition full_example_tree : tr :=
  T BLACK E 0 5 0 (T RED E 1 9 0 E).

(** ** The checks of the unit tests

    The helpers the tests of [rb_tree.c] call after each operation; a failed
    [assert] is the fault [AssertFail]. *)
Fixpoint assert_node_has_no_adjacent_red (fuel : nat) (node : ptr) : M unit :=
  match fuel with
  | O => raise OutOfFuel
  | S fuel =>
      b <- is_black node ;;
      if b then ret tt
      else
        hl <- has_left_child node ;;
        when hl
          (l <- rd node left ;;
           bl <- is_black l ;;
           assert bl ;;
           l <- rd node left ;;
           assert_node_has_no_adjacent_red fuel l) ;;
        hr <- has_right_child node ;;
        when hr
          (r <- rd node right ;;
           br <- is_black r ;;
           assert br ;;
           r <- rd node right ;;
           assert_node_has_no_adjacent_red fuel r)
  end.

Definition count_is_black (node : ptr) : M Z :=
  b <- is_black node ;;
  ret (if b then 1 else 0).

Fixpoint assert_tree_pathes_have_equal_black_depths (fuel : nat) (node : ptr)
  : M Z :=
  match fuel with
  | O => raise OutOfFuel
  | S fuel =>
      if bool_decide (node = None) then ret 0
      else
        hl <- has_left_child node ;;
        left_count <-
          (if hl then
             l <- rd node left ;;
             assert_tree_pathes_have_equal_black_depths fuel l
           else ret (u32 (0 + 1))) ;;
        hr <- has_right_child node ;;
        right_count <-
          (if hr then
             r <- rd node right ;;
             assert_tree_pathes_have_equal_black_depths fuel r
           else ret (u32 (0 + 1))) ;;
        assert (left_count =? right_count) ;;
        c <- count_is_black node ;;
        ret (u32 (c + left_count))
  end.

Fixpoint assert_node_value_in_between_children (fuel : nat) (node : ptr)
  : M unit :=
  match fuel with
  | O => raise OutOfFuel
  | S fuel =>
      if bool_decide (node = None) then ret tt
      else
        hl <- has_left_child node ;;
        when hl
          (nv <- rd node (fun n => value (range n)) ;;
           l <- rd node left ;;
           lv <- rd l (fun n => value (range n)) ;;
           lo <- rd l (fun n => offset (range n)) ;;
           assert (u32 (lv + lo) <? nv) ;;
           l <- rd node left ;;
           assert_node_value_in_between_children fuel l) ;;
        hr <- has_right_child node ;;
        when hr
          (nv <- rd node (fun n => value (range n)) ;;
           no <- rd node (fun n => offset (range n)) ;;
           r <- rd node right ;;
           rv <- rd r (fun n => value (range n)) ;;
           assert (u32 (nv + no) <? rv) ;;
           r <- rd node right ;;
           assert_node_value_in_between_children fuel r)
  end.

Definition assert_rb_tree_is_valid (fuel : nat) : M unit :=
  rt <- tget root ;;
  b <- is_black rt ;;
  assert b ;;
  rt <- tget root ;;
  assert_node_has_no_adjacent_red fuel rt ;;
  rt <- tget root ;;
  _ <- assert_tree_pathes_have_equal_black_depths fuel rt ;;
  rt <- tget root ;;
  assert_node_value_in_between_children fuel rt.

(** [bdn t n]: every path from the root of [t] to a leaf passes [n] black
    nodes; the colors of neighbours are not looked at. *)
Fixpoint bdn (t : tr) (n : nat) : Prop :=
  match t with
  | E => n = O
  | T c l _ _ _ r =>
      if c then bdn l n /\ bdn r n
      else
        match n with
        | O => False
        | S m => bdn l m /\ bdn r m
        end
  end.

(** The first value of the root of a tree, and its last. *)
Definition first_of (t : tr) : Z :=
  match t with
  | E => 0
  | T _ _ _ v _ _ => v
  end.

Definition last_of (t : tr) : Z :=
  match t with
  | E => 0
  | T _ _ _ v o _ => v + o
  end.

(** [child_order t]: the range of a left child ends before its parent's
    begins, and the range of a right child begins after its parent's ends.
    Nothing is asked of nodes further apart. *)
Fixpoint child_order (t : tr) : Prop :=
  match t with
  | E => True
  | T _ l _ v o r =>
      (l <> E -> last_of l < v) /\ (r <> E -> v + o < first_of r) /\
      child_order l /\ child_order r
  end.

(** A range of 32-bit values. *)
Definition in_u32 (rg : rb_range_t) : Prop :=
  0 <= value rg /\ 0 <= offset rg /\ value rg + offset rg <= UINT32_MAX.

(** The verdicts of the checks, computed on the tree: the number of black
    nodes on every path when it is the same on all, and whether the
    children are in order. *)
Fixpoint bd (t : tr) : option nat :=
  match t with
  | E => Some O
  | T c l _ _ _ r =>
      match bd l, bd r with
      | Some n, Some m =>
          if (n =? m)%nat then Some (if c then n else S n) else None
      | _, _ => None
      end
  end.

Fixpoint child_order_b (t : tr) : bool :=
  match t with
  | E => true
  | T _ l _ v o r =>
      (if l is E then true else last_of l <? v) && child_order_b l &&
      (if r is E then true else v + o <? first_of r) && child_order_b r
  end.

(** A tree with a red node below a red node, under a black root. *)
Definition red_red_example : state :=
  mk_state
    (list_to_map
       [(0%nat, mk_node (mk_range 10 0) BLACK false None (Some 1%nat) None);
        (1%nat, mk_node (mk_range 5 0) RED false (Some 0%nat) (Some 2%nat) None);
        (2%nat, mk_node (mk_range 1 0) RED false (Some 1%nat) None None)])
    (Some (mk_tree 3 3 (Some 0%nat) None None (Some 0%nat))).

Definition red_red_example_tree : tr :=
  T BLACK (T RED (T RED E 2 1 0 E) 1 5 0 E) 0 10 0 E.


(** ** Running the monad step by step *)

Lemma run_bind {A B} (m : M A) (k : A -> M B) s a s' r :
  m s = Ok a s' -> k a s' = r -> bind m k s = r.
Proof. unfold bind. intros -> <-. reflexivity. Qed.

Lemma run_rd {A} h t a n (f : rb_node_t -> A) :
  h !! a = Some n -> rd (Some a) f (mk_state h t) = Ok (f n) (mk_state h t).
Proof. unfold rd. cbn. intros ->. reflexivity. Qed.

Lemma run_wr h t a n upd :
  h !! a = Some n ->
  wr (Some a) upd (mk_state h t) = Ok tt (mk_state (<[a := upd n]> h) t).
Proof. unfold wr. cbn. intros ->. reflexivity. Qed.

Lemma run_tget {A} h t (f : rb_tree_t -> A) :
  tget f (mk_state h (Some t)) = Ok (f t) (mk_state h (Some t)).
Proof. reflexivity. Qed.

Lemma run_tset h t upd :
  tset upd (mk_state h (Some t)) = Ok tt (mk_state h (Some (upd t))).
Proof. reflexivity. Qed.

Lemma run_null h t :
  tree_is_null (mk_state h (Some t)) = Ok false (mk_state h (Some t)).
Proof. reflexivity. Qed.

Lemma run_ret {A} (a : A) s : ret a s = Ok a s.
Proof. reflexivity. Qed.

Lemma run_if {A} (b : bool) (m1 m2 : M A) s r :
  (if b then m1 s else m2 s) = r -> (if b then m1 else m2) s = r.
Proof. destruct b; auto. Qed.

(** Lookup in a heap after some writes. *)
Ltac heap_lookup :=
  repeat first
    [ apply lookup_insert_eq
    | rewrite lookup_insert_ne by congruence ];
  first [ eassumption | reflexivity ].

Ltac decide_prop :=
  first [ congruence | done | (intros Hx; apply Hx; congruence) ].

Ltac decide_bool :=
  repeat match goal with
    | |- context [bool_decide ?P] =>
        first [ rewrite (bool_decide_eq_true_2 P) by decide_prop
              | rewrite (bool_decide_eq_false_2 P) by decide_prop ]
    end.

(** [mrun] evaluates a goal [m s = r] whose run meets no branch it cannot
    decide; [r] may be an existential variable. *)
(** Projections of records given by their fields. *)
Ltac nsimpl :=
  cbn [value offset range color traversal_state parent left right
       set_value set_offset set_color set_traversal_state set_parent
       set_left set_right
       size max_size root free_node_head free_node_tail node_block
       set_size set_max_size set_root set_free_node_head
       set_free_node_tail set_node_block heap tree fst snd].

Ltac state_known :=
  lazymatch goal with
  | |- _ ?s = _ => tryif is_evar s then fail else idtac
  end.

Ltac head_of t :=
  lazymatch t with
  | ?f _ => head_of f
  | _ => t
  end.

(** The straight-line helpers are run through their bodies. *)
Ltac unfold_small :=
  lazymatch goal with
  | |- ?m ?s = _ =>
      let hd := head_of m in
      lazymatch hd with
      | @has_left_child => unfold has_left_child
      | @has_right_child => unfold has_right_child
      | @is_root => unfold is_root
      | @is_black => unfold is_black
      | @is_red => unfold is_red
      | @set_black => unfold set_black
      | @set_red => unfold set_red
      | @is_left_child => unfold is_left_child
      | @get_grandparent => unfold get_grandparent
      | @get_sibling => unfold get_sibling
      | @get_uncle => unfold get_uncle
      | @insert_child => unfold insert_child
      | @assert => unfold assert
      end
  end.

Ltac mrun_step :=
  state_known;
  lazymatch goal with
  | |- bind _ _ _ = _ => eapply run_bind
  | |- ret _ _ = _ => apply run_ret
  | |- rd _ _ _ = _ => apply run_rd; heap_lookup
  | |- wr _ _ _ = _ => apply run_wr; heap_lookup
  | |- tget _ _ = _ => apply run_tget
  | |- tset _ _ = _ => apply run_tset
  | |- tree_is_null _ = _ => apply run_null
  | |- when true _ _ = _ => unfold when at 1
  | |- when false _ _ = _ => unfold when at 1
  | |- when _ _ _ = _ => progress (nsimpl; cbn [negb andb orb]; decide_bool)
  | |- andM _ _ _ = _ => unfold andM at 1
  | |- orM _ _ _ = _ => unfold orM at 1
  | |- (if true then _ else _) _ = _ => cbv iota
  | |- (if false then _ else _) _ = _ => cbv iota
  | |- (if _ then _ else _) _ = _ => progress (nsimpl; cbn [negb andb orb]; decide_bool)
  | |- Ok _ _ = _ => reflexivity
  | |- _ => first [ progress (cbv beta iota) | unfold_small ]
  end.

Ltac mrun := repeat (mrun_step; try nsimpl).

(** Unfold the function called at the head of the computation. *)
Ltac munfold :=
  state_known;
  lazymatch goal with
  | |- ?m ?s = _ =>
      let hd := head_of m in
      first [ progress (unfold hd at 1) | progress (unfold hd) ];
      try (cbv fix; cbv iota beta; fold hd)
  end.

Ltac mgo := repeat (first [ mrun_step | munfold ]; try nsimpl).


(** ** Basic facts about the monad *)

Lemma bind_Ok {A B} (m : M A) (k : A -> M B) s a s' :
  m s = Ok a s' -> bind m k s = k a s'.
Proof. unfold bind. intros ->. reflexivity. Qed.

Lemma bind_inv {A B} (m : M A) (k : A -> M B) s b s2 :
  bind m k s = Ok b s2 -> exists a s1, m s = Ok a s1 /\ k a s1 = Ok b s2.
Proof.
  unfold bind. destruct (m s) as [a s1|f]; [|discriminate].
  intros H. exists a, s1. split; [reflexivity|exact H].
Qed.

Lemma tree_is_null_None s : tree s = None -> tree_is_null s = Ok true s.
Proof. unfold tree_is_null. intros ->. reflexivity. Qed.

Lemma tree_is_null_Some s t : tree s = Some t -> tree_is_null s = Ok false s.
Proof. unfold tree_is_null. intros ->. reflexivity. Qed.

(** ** NULL tree handles *)

Lemma create_null s alloc m :
  tree s = None -> rb_tree_create alloc m s = Ok RB_FAIL_NULL_TREE s.
Proof.
  intros H. unfold rb_tree_create.
  rewrite (bind_Ok _ _ _ _ _ (tree_is_null_None s H)). reflexivity.
Qed.

Lemma destroy_null s : tree s = None -> rb_tree_destroy s = Ok RB_FAIL_NULL_TREE s.
Proof.
  intros H. unfold rb_tree_destroy.
  rewrite (bind_Ok _ _ _ _ _ (tree_is_null_None s H)). reflexivity.
Qed.

Lemma clear_null s fuel : tree s = None -> rb_tree_clear fuel s = Ok RB_FAIL_NULL_TREE s.
Proof.
  intros H. unfold rb_tree_clear.
  rewrite (bind_Ok _ _ _ _ _ (tree_is_null_None s H)). reflexivity.
Qed.

Lemma insert_null s fuel v : tree s = None -> rb_tree_insert fuel v s = Ok RB_FAIL_NULL_TREE s.
Proof.
  intros H. unfold rb_tree_insert.
  rewrite (bind_Ok _ _ _ _ _ (tree_is_null_None s H)). reflexivity.
Qed.

Lemma delete_null s fuel v : tree s = None -> rb_tree_delete fuel v s = Ok RB_FAIL_NULL_TREE s.
Proof.
  intros H. unfold rb_tree_delete.
  rewrite (bind_Ok _ _ _ _ _ (tree_is_null_None s H)). reflexivity.
Qed.

Lemma first_null s fuel it :
  tree s = None -> rb_tree_get_first_rb_node fuel it s = Ok (RB_FAIL_NULL_TREE, it) s.
Proof.
  intros H. unfold rb_tree_get_first_rb_node.
  rewrite (bind_Ok _ _ _ _ _ (tree_is_null_None s H)). reflexivity.
Qed.

(** [rb_tree_get_next_rb_node] has three return statements, none of which
    gives [RB_FAIL_NULL_TREE]. *)
Lemma next_status s fuel it rg pop reb st it' out s' :
  rb_tree_get_next_rb_node fuel it rg pop reb s = Ok (st, it', out) s' ->
  st = RB_FAIL_NULL_NODE \/ st = RB_FAIL_NULL_RANGE \/ st = RB_SUCCESS.
Proof.
  unfold rb_tree_get_next_rb_node.
  case_bool_decide; [intros [= <- _ _]; auto|].
  destruct rg; cbn [negb]; [|intros [= <- _ _]; auto].
  intros Hr.
  apply bind_inv in Hr as (rv & s1 & _ & Hr).
  apply bind_inv in Hr as (ro & s2 & _ & Hr).
  destruct (pop && reb).
  - apply bind_inv in Hr as (? & s3 & _ & Hr).
    apply bind_inv in Hr as (? & s4 & _ & Hr).
    injection Hr as <- _ _. auto.
  - apply bind_inv in Hr as (? & s3 & _ & Hr).
    apply bind_inv in Hr as (? & s4 & _ & Hr).
    apply bind_inv in Hr as (? & s5 & _ & Hr).
    injection Hr as <- _ _. auto.
Qed.

(** The six functions that check the handle: with a NULL tree handle,
    create, destroy, clear, insert, delete and iterator_first return
    [RB_FAIL_NULL_TREE] and leave the state as it was.
    [rb_tree_get_next_rb_node] has no such check: it never returns
    [RB_FAIL_NULL_TREE]; with a NULL handle it answers [RB_FAIL_NULL_NODE]
    for a NULL iterator and [RB_FAIL_NULL_RANGE] for a NULL range. *)
Lemma null_tree_handle (s : state) (Hnull : tree s = None) :
  (forall alloc m, rb_tree_create alloc m s = Ok RB_FAIL_NULL_TREE s) /\
  rb_tree_destroy s = Ok RB_FAIL_NULL_TREE s /\
  (forall fuel, rb_tree_clear fuel s = Ok RB_FAIL_NULL_TREE s) /\
  (forall fuel v, rb_tree_insert fuel v s = Ok RB_FAIL_NULL_TREE s) /\
  (forall fuel v, rb_tree_delete fuel v s = Ok RB_FAIL_NULL_TREE s) /\
  (forall fuel it,
      rb_tree_get_first_rb_node fuel it s = Ok (RB_FAIL_NULL_TREE, it) s) /\
  (forall fuel rg pop reb,
      rb_tree_get_next_rb_node fuel None rg pop reb s
      = Ok (RB_FAIL_NULL_NODE, None, None) s) /\
  (forall fuel a pop reb,
      rb_tree_get_next_rb_node fuel (Some a) false pop reb s
      = Ok (RB_FAIL_NULL_RANGE, Some a, None) s) /\
  (forall fuel it rg pop reb st it' out s',
      rb_tree_get_next_rb_node fuel it rg pop reb s = Ok (st, it', out) s' ->
      st <> RB_FAIL_NULL_TREE).
Proof.
  repeat split.
  - intros. by apply create_null.
  - by apply destroy_null.
  - intros. by apply clear_null.
  - intros. by apply insert_null.
  - intros. by apply delete_null.
  - intros. by apply first_null.
  - intros fuel it rg pop reb st it' out s' H.
    apply next_status in H as [-> | [-> | ->]]; discriminate.
Qed.

Lemma null_tree_handle_witness :
  tree null_handle = None /\
  rb_tree_insert 1 7 null_handle = Ok RB_FAIL_NULL_TREE null_handle.
Proof.
  split; [reflexivity|].
  apply (null_tree_handle null_handle eq_refl).
Defined.

(** On a NULL handle iterator_next reports [RB_FAIL_NULL_NODE] for a NULL
    iterator, and with a live iterator and no popping it reports success and
    writes the node's traversal bit. *)
Lemma iterator_next_null_tree_counterexample :
  tree null_handle = None /\
  rb_tree_get_next_rb_node 1 None true true true null_handle
    = Ok (RB_FAIL_NULL_NODE, None, None) null_handle /\
  rb_tree_get_next_rb_node 2 (Some 0%nat) true false false
      (mk_state {[ 0%nat := zero_node ]} None)
    = Ok (RB_SUCCESS, None, Some (mk_range 0 0))
         (mk_state {[ 0%nat := set_traversal_state true zero_node ]} None).
Proof. repeat split; vm_compute; reflexivity. Qed.

(** C3: [rb_tree_get_next_rb_node] is the one public function without the
    check [tree == NULL] that its six siblings start with.  Called with a
    NULL tree handle and an iterator at a node (here the node (1,2) of the
    example tree, whose traversal bit is not set), it does not return
    [RB_FAIL_NULL_TREE] with the state untouched: without popping it
    returns [RB_SUCCESS], hands out the range and has written the node's
    traversal bit; with popping, rebalancing or not, it dereferences the
    NULL handle. *)
Theorem iterator_next_unguarded_null_handle :
  tree (mk_state (heap split_example) None) = None /\
  traversal_state <$> heap split_example !! 1%nat = Some false /\
  holds (rb_tree_get_next_rb_node 8 (Some 1%nat) true false false
           (mk_state (heap split_example) None))
    (fun r s =>
       r = (RB_SUCCESS, Some 0%nat, Some (mk_range 1 2)) /\
       tree s = None /\
       traversal_state <$> heap s !! 1%nat = Some true) /\
  rb_tree_get_next_rb_node 8 (Some 1%nat) true true true
    (mk_state (heap split_example) None) = Fault NullDeref /\
  rb_tree_get_next_rb_node 8 (Some 1%nat) true true false
    (mk_state (heap split_example) None) = Fault NullDeref.
Proof. vm_compute. repeat split; reflexivity. Qed.

(** ** The predicates at the NULL edge *)

(** On a NULL handle [rb_tree_is_empty] is false and [rb_tree_is_full] is
    true; on a tree with size 0 and max_size 0 both are true; and a create
    that fails with [RB_FAIL_SIZE_ZERO] or [RB_FAIL_EXCEEDED_MAX_SIZE]
    leaves exactly such a tree. *)
Lemma predicates_at_null_edge :
  (forall s, tree s = None ->
     rb_tree_is_empty s = Ok false s /\ rb_tree_is_full s = Ok true s) /\
  (forall s t, tree s = Some t -> size t = 0 -> max_size t = 0 ->
     rb_tree_is_empty s = Ok true s /\ rb_tree_is_full s = Ok true s) /\
  (forall s alloc m st s',
     tree s <> None ->
     rb_tree_create alloc m s = Ok st s' ->
     st = RB_FAIL_SIZE_ZERO \/ st = RB_FAIL_EXCEEDED_MAX_SIZE ->
     exists t', tree s' = Some t' /\ size t' = 0 /\ max_size t' = 0).
Proof.
  split; [|split].
  - intros s Hs. unfold rb_tree_is_empty, rb_tree_is_full, bind, tree_is_null.
    rewrite Hs. split; reflexivity.
  - intros s t Hs Hsz Hmx.
    destruct s as [h ?], t as [sz mx ? ? ? ?]. cbn in Hs, Hsz, Hmx. subst.
    split; reflexivity.
  - intros s alloc m st s' Hs Hc Hst.
    destruct s as [h [t|]]; [|done].
    unfold rb_tree_create, bind, tree_is_null, tset, ret in Hc. cbn in Hc.
    destruct (m =? 0).
    { injection Hc as <- <-. cbn. eauto. }
    destruct (MAX_TREE_SIZE <? m).
    { injection Hc as <- <-. cbn. eauto. }
    destruct alloc as [base|]; cbn in Hc.
    + unfold calloc_nodes in Hc. cbn in Hc.
      destruct (push_all _ _) in Hc; [|discriminate].
      injection Hc as <- _. destruct Hst; discriminate.
    + injection Hc as <- _. destruct Hst; discriminate.
Qed.

Lemma predicates_at_null_edge_witness :
  tree null_handle = None /\
  rb_tree_is_empty null_handle = Ok false null_handle /\
  rb_tree_is_full null_handle = Ok true null_handle.
Proof.
  split; [reflexivity|].
  apply (proj1 predicates_at_null_edge null_handle eq_refl).
Defined.

(** The third way [rb_tree_create] fails: when the allocation gives NULL,
    [size] and [max_size] have been set to the size asked for already and
    stay there. *)
Lemma create_without_memory h t0 N :
  1 <= N <= MAX_TREE_SIZE ->
  exists t1,
    rb_tree_create None N (mk_state h (Some t0))
    = Ok RB_FAIL_MEM_ERR (mk_state h (Some t1)) /\
    size t1 = N /\ max_size t1 = N /\ root t1 = None /\ node_block t1 = None /\
    rb_tree_is_empty (mk_state h (Some t1)) = Ok false (mk_state h (Some t1)) /\
    rb_tree_is_full (mk_state h (Some t1)) = Ok true (mk_state h (Some t1)).
Proof.
  intros HN. destruct t0 as [sz mx rt fh ft nb].
  assert (MAX_TREE_SIZE = 2147483648) as HM by reflexivity.
  eexists. split.
  - unfold rb_tree_create, bind, tree_is_null, tset, ret. cbn.
    rewrite (proj2 (Z.eqb_neq N 0)) by lia.
    rewrite (proj2 (Z.ltb_ge MAX_TREE_SIZE N)) by lia. cbn. reflexivity.
  - cbn. split_and!; try reflexivity.
    + unfold rb_tree_is_empty, andM, bind, tree_is_null, tget, ret. cbn.
      by rewrite (proj2 (Z.eqb_neq N 0)) by lia.
    + unfold rb_tree_is_full, orM, bind, tree_is_null, tget, ret. cbn.
      by rewrite Z.eqb_refl.
Qed.

(** C10: the handle a failed create leaves is not always an empty tree with
    size 0 and max_size 0.  A create for three nodes whose allocation fails
    returns [RB_FAIL_MEM_ERR] with size and max_size both 3 and no root:
    [rb_tree_is_empty] then answers false, where the claim has true and the
    comment at the failing return says that an empty tree is returned;
    [rb_tree_is_full] answers true. *)
Theorem create_without_memory_not_empty :
  holds ((st <- rb_tree_create None 3 ;;
          e <- rb_tree_is_empty ;;
          f <- rb_tree_is_full ;;
          ret (st, e, f)) fresh)
    (fun r s =>
       r = (RB_FAIL_MEM_ERR, false, true) /\
       size_of s = 3 /\ root_of s = None).
Proof. vm_compute. repeat split; reflexivity. Qed.

(** ** Evaluating the code on concrete call sequences *)

(** C1: the split of [rb_tree_delete] links the new red node without any
    rebalancing.  After create(4); insert 10, 1, 2, 3; delete(2) the call
    returned [RB_SUCCESS], and the red node (1,0) has the red child (3,0). *)
Theorem delete_split_breaks_red_black :
  holds ((rb_tree_create (Some 0%nat) 4 ;;
          inserts 8 [10; 1; 2; 3] ;;
          rb_tree_delete 8 2) fresh)
    (fun st s =>
       st = RB_SUCCESS /\
       inorder 8 (heap s) (root_of s) = [mk_range 1 0; mk_range 3 0; mk_range 10 0] /\
       no_red_red 8 (heap s) (root_of s) = false /\
       red_black 8 s = false).
Proof. vm_compute. repeat split; reflexivity. Qed.

(** The same on the scenario of [test_deletes_node_inside_of_range]. *)
Lemma delete_split_scenario_4 :
  holds ((rb_tree_create (Some 0%nat) 10 ;;
          inserts 8 [0; 1; 2; 5; 6; 7; 8; 9; 13; 14; 16; 18] ;;
          rb_tree_delete 8 6) fresh)
    (fun st s =>
       st = RB_SUCCESS /\ size_of s = 6 /\
       inorder 8 (heap s) (root_of s)
       = [mk_range 0 2; mk_range 5 0; mk_range 7 2; mk_range 13 1;
          mk_range 16 0; mk_range 18 0] /\
       no_red_red 8 (heap s) (root_of s) = false).
Proof. vm_compute. repeat split; reflexivity. Qed.

(** An insert after such a split returns [RB_SUCCESS] on a tree whose paths
    no longer cross the same number of black nodes. *)
Lemma insert_after_split_breaks_black_depth :
  holds ((rb_tree_create (Some 0%nat) 4 ;;
          inserts 8 [10; 1; 2; 3] ;;
          rb_tree_delete 8 2 ;;
          rb_tree_insert 8 5) fresh)
    (fun st s =>
       st = RB_SUCCESS /\ black_depth 8 (heap s) (root_of s) = None).
Proof. vm_compute. repeat split; reflexivity. Qed.

(** C2: [rb_tree_clear] steps one level down before it recycles a node and
    never resets the root.  After create(4); insert 0, 2, 4, 6; clear() the
    call returned [RB_SUCCESS], yet size is 1, the root is still set, and a
    search for 2 still finds a node. *)
Theorem clear_leaves_tree_behind :
  holds ((rb_tree_create (Some 0%nat) 4 ;;
          inserts 8 [0; 2; 4; 6] ;;
          st <- rb_tree_clear 8 ;;
          found <- rb_tree_binary_search 8 2 ;;
          ret (st, found)) fresh)
    (fun r s =>
       r = (RB_SUCCESS, Some 1%nat) /\ size_of s = 1 /\ root_of s = Some 1%nat).
Proof. vm_compute. repeat split; reflexivity. Qed.

(** Even a one-node tree keeps its root after clear. *)
Lemma clear_keeps_root :
  holds ((rb_tree_create (Some 0%nat) 1 ;;
          rb_tree_insert 8 5 ;;
          st <- rb_tree_clear 8 ;;
          found <- rb_tree_binary_search 8 5 ;;
          again <- rb_tree_insert 8 5 ;;
          ret (st, found, again)) fresh)
    (fun r s =>
       r = (RB_SUCCESS, Some 0%nat, RB_FAIL_INSERT_DUPLICATE) /\ size_of s = 0).
Proof. vm_compute. repeat split; reflexivity. Qed.

(** What the split without rebalancing leads to: on the tree that
    create(4); insert 10, 1, 2, 3; delete(2); insert(5) leave, which is not
    a red-black tree any more, the rebalancing drain dereferences NULL in
    [delete_rebalance], while the drain without rebalancing runs to the
    end. *)
Lemma drain_after_split_faults :
  (rb_tree_create (Some 0%nat) 4 ;;
   inserts 8 [10; 1; 2; 3] ;;
   rb_tree_delete 8 2 ;;
   rb_tree_insert 8 5 ;;
   drain 8 true true) fresh = Fault NullDeref /\
  holds ((rb_tree_create (Some 0%nat) 4 ;;
          inserts 8 [10; 1; 2; 3] ;;
          rb_tree_delete 8 2 ;;
          rb_tree_insert 8 5 ;;
          drain 8 true false) fresh)
    (fun l s =>
       l = [mk_range 1 0; mk_range 3 0; mk_range 5 0; mk_range 10 0] /\
       root_of s = None /\ size_of s = 0).
Proof. vm_compute. repeat split; reflexivity. Qed.

(** On the scenario of the two drain tests both drains agree. *)
Lemma drain_scenario_5 :
  holds ((rb_tree_create (Some 0%nat) 10 ;;
          inserts 8 [6; 2; 3; 8; 10; 12; 11] ;;
          drain 8 true true) fresh)
    (fun l s =>
       l = [mk_range 2 1; mk_range 6 0; mk_range 8 0; mk_range 10 2] /\
       root_of s = None /\ size_of s = 0) /\
  holds ((rb_tree_create (Some 0%nat) 10 ;;
          inserts 8 [6; 2; 3; 8; 10; 12; 11] ;;
          drain 8 true false) fresh)
    (fun l s =>
       l = [mk_range 2 1; mk_range 6 0; mk_range 8 0; mk_range 10 2] /\
       root_of s = None /\ size_of s = 0).
Proof. vm_compute. repeat split; reflexivity. Qed.

(** C7: a value inside a stored range, but not at its start, is not taken
    for a duplicate.  create(2); insert 5, 6, 6: the third insert returns
    [RB_SUCCESS] and adds the node (6,0) next to the range (5,1). *)
Theorem insert_inside_range_not_duplicate :
  holds ((rb_tree_create (Some 0%nat) 2 ;; inserts 8 [5; 6; 6]) fresh)
    (fun sts s =>
       sts = [RB_SUCCESS; RB_SUCCESS; RB_SUCCESS] /\
       inorder 8 (heap s) (root_of s) = [mk_range 5 1; mk_range 6 0] /\
       size_of s = 2).
Proof. vm_compute. repeat split; reflexivity. Qed.

(** The duplicate is seen when it is the first value of its range, as in
    [test_no_duplicates]. *)
Lemma insert_duplicate_of_range_start :
  holds ((rb_tree_create (Some 0%nat) 10 ;; inserts 8 [5; 10; 15; 5; 10; 15]) fresh)
    (fun sts s =>
       sts = [RB_SUCCESS; RB_SUCCESS; RB_SUCCESS; RB_FAIL_INSERT_DUPLICATE;
              RB_FAIL_INSERT_DUPLICATE; RB_FAIL_INSERT_DUPLICATE] /\
       size_of s = 3).
Proof. vm_compute. repeat split; reflexivity. Qed.

(** A full arena rejects a new node and leaves the tree as it was
    ([test_unable_to_insert_into_full_tree]). *)
Lemma insert_into_full_tree :
  holds ((rb_tree_create (Some 0%nat) 4 ;; inserts 8 [0; 2; 4; 6]) fresh)
    (fun _ s => rb_tree_insert 8 8 s = Ok RB_FAIL_TREE_FULL s /\ red_black 8 s = true).
Proof. vm_compute. repeat split; reflexivity. Qed.

(** C4: the split of [rb_tree_delete] on a tree the public calls leave
    behind.  After create(2); insert 5, 6, 7, 6, each answered
    [RB_SUCCESS], the arena is full and its two nodes hold (5,2) and (6,0).
    delete(6) finds 6 strictly inside (5,2) and asks
    [try_binary_insert_or_merge] to place 7: the descent meets the node
    (6,0), widens it to (6,1) and reports [RB_SUCCESS] with no inserted
    node.  So the call neither splits the range nor returns
    [RB_FAIL_TREE_FULL] with the tree as it was: it fails
    [assert(upper_node != NULL)], a node already changed. *)
Theorem delete_split_fails_assertion :
  holds ((rb_tree_create (Some 0%nat) 2 ;; inserts 8 [5; 6; 7; 6]) fresh)
    (fun sts s =>
       sts = [RB_SUCCESS; RB_SUCCESS; RB_SUCCESS; RB_SUCCESS] /\
       rb_tree_is_full s = Ok true s /\
       inorder 8 (heap s) (root_of s) = [mk_range 5 2; mk_range 6 0]) /\
  holds ((rb_tree_create (Some 0%nat) 2 ;;
          inserts 8 [5; 6; 7; 6] ;;
          try_binary_insert_or_merge 8 7) fresh)
    (fun r s =>
       r = (RB_SUCCESS, None) /\
       inorder 8 (heap s) (root_of s) = [mk_range 5 2; mk_range 6 1]) /\
  (rb_tree_create (Some 0%nat) 2 ;;
   inserts 8 [5; 6; 7; 6] ;;
   rb_tree_delete 8 6) fresh = Fault AssertFail.
Proof. vm_compute. repeat split; reflexivity. Qed.

(** C5: draining trees the public calls leave behind.  After create(4);
    insert 5, 6, 7, 8, 7; delete 5, 6, 7, each answered [RB_SUCCESS], the
    root holds (8,0) and its right child (7,0): the drain with rebalancing
    and the drain without both yield (8,0) and then (7,0), which is not
    ascending.  And after create(4); insert 10, 1, 2, 3; delete(2);
    insert(5) the drain with rebalancing does not come to an end: it
    dereferences NULL in [delete_rebalance]. *)
Theorem drain_out_of_order :
  holds ((rb_tree_create (Some 0%nat) 4 ;;
          a <- inserts 8 [5; 6; 7; 8; 7] ;;
          b <- rb_tree_delete 8 5 ;;
          c <- rb_tree_delete 8 6 ;;
          d <- rb_tree_delete 8 7 ;;
          ret (a, [b; c; d])) fresh)
    (fun r s =>
       r = ([RB_SUCCESS; RB_SUCCESS; RB_SUCCESS; RB_SUCCESS; RB_SUCCESS],
            [RB_SUCCESS; RB_SUCCESS; RB_SUCCESS]) /\
       inorder 8 (heap s) (root_of s) = [mk_range 8 0; mk_range 7 0]) /\
  holds ((rb_tree_create (Some 0%nat) 4 ;;
          inserts 8 [5; 6; 7; 8; 7] ;;
          rb_tree_delete 8 5 ;; rb_tree_delete 8 6 ;; rb_tree_delete 8 7 ;;
          drain 8 true true) fresh)
    (fun l s => l = [mk_range 8 0; mk_range 7 0] /\ size_of s = 0) /\
  holds ((rb_tree_create (Some 0%nat) 4 ;;
          inserts 8 [5; 6; 7; 8; 7] ;;
          rb_tree_delete 8 5 ;; rb_tree_delete 8 6 ;; rb_tree_delete 8 7 ;;
          drain 8 true false) fresh)
    (fun l s => l = [mk_range 8 0; mk_range 7 0] /\ size_of s = 0) /\
  holds ((rb_tree_create (Some 0%nat) 4 ;;
          a <- inserts 8 [10; 1; 2; 3] ;;
          b <- rb_tree_delete 8 2 ;;
          c <- rb_tree_insert 8 5 ;;
          ret (a, b, c)) fresh)
    (fun r s =>
       r = ([RB_SUCCESS; RB_SUCCESS; RB_SUCCESS; RB_SUCCESS],
            RB_SUCCESS, RB_SUCCESS)) /\
  (rb_tree_create (Some 0%nat) 4 ;;
   inserts 8 [10; 1; 2; 3] ;;
   rb_tree_delete 8 2 ;;
   rb_tree_insert 8 5 ;;
   drain 8 true true) fresh = Fault NullDeref.
Proof. vm_compute. repeat split; reflexivity. Qed.


(** ** The top of the value space *)

(** C9: [are_consecutive] does not wrap from 2^32-1 to 0, and inserting
    2^32-1 into a tree whose only node holds (0, 2^32-2) extends that node
    to (0, 2^32-1). *)
Theorem no_merge_across_wrap (fuel : nat) (h : gmap nat rb_node_t)
    (t : rb_tree_t) (a : nat) (n : rb_node_t)
    (Hroot : root t = Some a) (Hn : h !! a = Some n)
    (Hrange : range n = mk_range 0 4294967294)
    (Hl : left n = None) (Hr : right n = None)
    (Hblock : node_block t <> None) (Hmax : max_size t <> 0) :
  are_consecutive 4294967295 0 = false /\
  rb_tree_insert (S fuel) 4294967295 (mk_state h (Some t))
  = Ok RB_SUCCESS (mk_state (<[a := set_offset 4294967295 n]> h) (Some t)).
Proof.
  split; [reflexivity|].
  assert ((max_size t =? 0) = false) as Hmx by (by apply Z.eqb_neq).
  destruct n as [[v o] c ts p l r]. cbn in Hrange, Hl, Hr.
  injection Hrange as -> ->. subst l r.
  unfold rb_tree_insert.
  mrun. rewrite Hmx. mrun.
  unfold try_binary_insert_or_merge. mrun. rewrite Hroot. mrun.
  cbn [insert_or_merge_loop]. mrun. cbn [value offset range].
  change (are_consecutive 4294967295 0) with false.
  change (4294967295 <? 0) with false. cbv iota.
  mrun.
  change (are_consecutive (u32 (0 + 4294967294)) 4294967295) with true. cbv iota.
  mrun. unfold get_right_successor, has_right_child. all: mrun.
Qed.

Lemma no_merge_across_wrap_witness :
  rb_tree_insert 1 4294967295
    (mk_state {[ 0%nat := mk_node (mk_range 0 4294967294) BLACK false None None None ]}
              (Some (mk_tree 1 1 (Some 0%nat) None None (Some 0%nat))))
  = Ok RB_SUCCESS
      (mk_state (<[ 0%nat := set_offset 4294967295
                     (mk_node (mk_range 0 4294967294) BLACK false None None None) ]>
                 {[ 0%nat := mk_node (mk_range 0 4294967294) BLACK false None None None ]})
                (Some (mk_tree 1 1 (Some 0%nat) None None (Some 0%nat)))).
Proof.
  apply (no_merge_across_wrap 0
    {[ 0%nat := mk_node (mk_range 0 4294967294) BLACK false None None None ]}
    (mk_tree 1 1 (Some 0%nat) None None (Some 0%nat)) 0%nat
    (mk_node (mk_range 0 4294967294) BLACK false None None None));
    try reflexivity; discriminate.
Defined.


Lemma u32_small z : 0 <= z < 4294967296 -> u32 z = z.
Proof. intros H. unfold u32. by apply Z.mod_small. Qed.

(** ** Free list *)

Lemma flist_frame h a n p fl :
  a ∉ fl -> flist h p fl -> flist (<[a := n]> h) p fl.
Proof.
  revert p. induction fl as [|f rest IH]; intros p Ha; cbn; [done|].
  intros (-> & m & Hm & Hrest).
  apply not_elem_of_cons in Ha as [Haf Har].
  split; [done|]. exists m. split; [by rewrite lookup_insert_ne|]. by apply IH.
Qed.

Lemma flist_lookup h p fl f :
  flist h p fl -> f ∈ fl -> is_Some (h !! f).
Proof.
  revert p. induction fl as [|g rest IH]; intros p; cbn; [by intros _ ?%elem_of_nil|].
  intros (-> & m & Hm & Hrest) [->|Hin]%elem_of_cons; [eauto|]. by eapply IH.
Qed.

(** Appending the cell [a] behind the current head. *)
Lemma flist_snoc h p fl a n hd nhd :
  NoDup (fl ++ [a]) ->
  flist h p fl -> last fl = Some hd -> h !! hd = Some nhd ->
  h !! a = Some n -> left n = None ->
  flist (<[hd := set_left (Some a) nhd]> h) p (fl ++ [a]).
Proof.
  revert p. induction fl as [|f rest IH]; intros p Hnd; cbn; [done|].
  intros (-> & m & Hm & Hrest) Hlast Hhd Ha Hl.
  cbn in Hnd. apply NoDup_cons in Hnd as [Hf Hnd].
  split; [done|].
  destruct rest as [|g rest'].
  - cbn in Hlast. injection Hlast as <-.
    rewrite Hhd in Hm. injection Hm as <-.
    exists (set_left (Some a) nhd). rewrite lookup_insert_eq. split; [done|].
    destruct nhd; cbn. split; [done|].
    exists n. split; [|by rewrite Hl].
    rewrite lookup_insert_ne; [done|]. intros ->. apply Hf. cbn. left.
  - assert (f <> hd) as Hne.
    { intros ->. apply Hf. apply elem_of_app. left.
      cbn in Hlast. by apply last_Some_elem_of. }
    exists m. split; [by rewrite lookup_insert_ne|].
    apply IH; auto.
Qed.

Lemma push_free_node_spec h t a n fl :
  h !! a = Some n -> a ∉ fl -> free_ok h t fl ->
  exists h',
    push_free_node (Some a) (mk_state h (Some t))
    = Ok tt (mk_state h'
               (Some (mk_tree (u32 (size t - 1)) (max_size t) (root t) (Some a)
                              (if fl is [] then Some a else free_node_tail t)
                              (node_block t)))) /\
    free_ok h' (mk_tree (u32 (size t - 1)) (max_size t) (root t) (Some a)
                        (if fl is [] then Some a else free_node_tail t)
                        (node_block t)) (fl ++ [a]) /\
    (forall b, b <> a -> b ∉ fl -> h' !! b = h !! b) /\
    (forall b, is_Some (h !! b) -> is_Some (h' !! b)).
Proof.
  intros Ha Hfl (Hlist & Hhead & Hnd).
  assert (NoDup (fl ++ [a])) as Hnd'.
  { apply NoDup_app. split; [done|]. split; [|apply NoDup_singleton].
    intros x Hx ->%list_elem_of_singleton. done. }
  destruct t as [sz mx rt fh ft nb]. cbn in Hhead. subst fh.
  destruct (last fl) as [hd|] eqn:Hlast.
  - (* a head exists *)
    assert (hd ∈ fl) as Hhd by (by apply last_Some_elem_of).
    destruct (flist_lookup _ _ _ _ Hlist Hhd) as [nhd Hnhd].
    assert (hd <> a) as Hne by (intros ->; done).
    destruct fl as [|f rest]; [done|].
    eexists. split; [|split; [|split]].
    + unfold push_free_node. mrun.
    + split; [|split; [|done]].
      * cbn [free_node_tail].
        eapply (flist_snoc _ _ _ a); eauto.
        -- apply flist_frame; [|apply flist_frame]; auto.
        -- rewrite !lookup_insert_ne by done. done.
        -- rewrite lookup_insert_eq. done.
        -- destruct n; done.
      * cbn [free_node_head]. by rewrite last_snoc.
    + intros b Hb1 Hb2. rewrite !lookup_insert_ne; auto.
      intros ->. done.
    + intros b Hb.
      destruct (decide (hd = b)) as [->|]; [rewrite lookup_insert_eq; eauto|].
      rewrite lookup_insert_ne by done.
      destruct (decide (a = b)) as [->|]; [rewrite lookup_insert_eq; eauto|].
      rewrite lookup_insert_ne by done.
      destruct (decide (a = b)) as [->|]; [rewrite lookup_insert_eq; eauto|].
      rewrite lookup_insert_ne by done. done.
  - (* empty list *)
    apply last_None in Hlast. subst fl. cbn in Hlist.
    eexists. split; [|split; [|split]].
    + unfold push_free_node. mrun.
    + split; [|split; [done|]].
      * cbn. split; [done|]. eexists. rewrite lookup_insert_eq. split; [done|].
        destruct n; done.
      * apply NoDup_singleton.
    + intros b Hb1 Hb2. rewrite !lookup_insert_ne; auto.
    + intros b Hb.
      destruct (decide (a = b)) as [->|]; [rewrite lookup_insert_eq; eauto|].
      rewrite lookup_insert_ne by done.
      destruct (decide (a = b)) as [->|]; [rewrite lookup_insert_eq; eauto|].
      rewrite lookup_insert_ne by done. done.
Qed.

Lemma pop_free_node_empty h t :
  free_node_tail t = None ->
  pop_free_node (mk_state h (Some t)) = Ok None (mk_state h (Some t)).
Proof.
  intros Ht. unfold pop_free_node. mrun. rewrite Ht. mrun.
Qed.

Lemma pop_free_node_spec h t f rest :
  free_ok h t (f :: rest) ->
  exists t',
    pop_free_node (mk_state h (Some t)) = Ok (Some f) (mk_state h (Some t')) /\
    free_ok h t' rest /\
    size t' = u32 (size t + 1) /\ max_size t' = max_size t /\
    root t' = root t /\ node_block t' = node_block t.
Proof.
  intros (Hlist & Hhead & Hnd). cbn in Hlist.
  destruct Hlist as (Htail & n & Hn & Hrest).
  destruct t as [sz mx rt fh ft nb]. cbn in Htail, Hhead. subst ft fh.
  apply NoDup_cons in Hnd as [Hf Hnd].
  destruct rest as [|g rest'].
  - cbn in Hrest.
    eexists. split.
    + unfold pop_free_node. mrun.
    + unfold free_ok. cbn. split_and!; auto.
  - cbn in Hrest. destruct Hrest as (Hl & Hrest).
    eexists. split.
    + unfold pop_free_node. mrun.
    + unfold free_ok. cbn. split_and!; auto.
Qed.

Lemma push_all_spec l : forall h t fl,
  NoDup l -> (forall a, a ∈ l -> is_Some (h !! a) /\ a ∉ fl) ->
  free_ok h t fl ->
  Z.of_nat (length l) <= size t < 4294967296 ->
  exists h' t',
    push_all l (mk_state h (Some t)) = Ok tt (mk_state h' (Some t')) /\
    free_ok h' t' (fl ++ l) /\
    size t' = size t - Z.of_nat (length l) /\
    max_size t' = max_size t /\ root t' = root t /\
    node_block t' = node_block t /\
    (forall b, b ∉ l -> b ∉ fl -> h' !! b = h !! b) /\
    (forall b, is_Some (h !! b) -> is_Some (h' !! b)).
Proof.
  induction l as [|a l IH]; intros h t fl Hnd Hl Hfree Hsz.
  - exists h, t. rewrite app_nil_r. cbn. split_and!; auto. lia.
  - apply NoDup_cons in Hnd as [Ha Hnd].
    destruct (Hl a) as [[n Hn] Hafl]; [left|].
    destruct (push_free_node_spec h t a n fl Hn Hafl Hfree)
      as (h1 & Hrun & Hfree1 & Hsame & Hdom).
    cbn [length] in Hsz.
    set (t1 := mk_tree (u32 (size t - 1)) (max_size t) (root t) (Some a)
                 (if fl is [] then Some a else free_node_tail t) (node_block t)) in *.
    destruct (IH h1 t1 (fl ++ [a]) Hnd) as (h' & t' & Hrun' & Hfree' & Hs & Hm & Hr & Hb & Hsame' & Hdom').
    { intros b Hb. split.
      - apply Hdom. apply Hl. by right.
      - intros [Hin| ->%list_elem_of_singleton]%elem_of_app; [|done].
        destruct (Hl b) as [_ Hx]; [by right|]. done. }
    { exact Hfree1. }
    { unfold t1. cbn [size]. rewrite u32_small; lia. }
    exists h', t'. cbn [push_all].
    split; [eapply run_bind; [exact Hrun| exact Hrun']|].
    rewrite <- app_assoc in Hfree'. cbn in Hfree'.
    split; [exact Hfree'|].
    unfold t1 in Hs, Hm, Hr, Hb. cbn in Hs, Hm, Hr, Hb.
    split_and!; auto.
    + rewrite Hs. rewrite u32_small by lia. cbn [length]. lia.
    + intros b Hb1 Hb2. apply not_elem_of_cons in Hb1 as [Hba Hbl].
      rewrite Hsame'; auto.
      intros [Hin| ->%list_elem_of_singleton]%elem_of_app; done.
Qed.

Lemma calloc_lookup base n (h : gmap nat rb_node_t) b :
  (foldr (fun a (h : gmap nat rb_node_t) => <[a := zero_node]> h) h (seq base n)) !! b
  = if bool_decide (b ∈ seq base n) then Some zero_node else h !! b.
Proof.
  revert base. induction n as [|n IH]; intros base; cbn [seq foldr].
  - rewrite bool_decide_eq_false_2; [done|]. apply not_elem_of_nil.
  - destruct (decide (base = b)) as [->|Hne].
    + rewrite lookup_insert_eq. rewrite bool_decide_eq_true_2; [done|]. left.
    + rewrite lookup_insert_ne by done. rewrite IH.
      destruct (decide (b ∈ seq (S base) n)).
      * rewrite !bool_decide_eq_true_2; [done| by right | done].
      * rewrite !bool_decide_eq_false_2; [done| | done].
        intros [->|?]%elem_of_cons; done.
Qed.

(** What a successful create leaves: an empty tree of capacity [m] whose
    free list holds the [m] cells of the block. *)
Lemma rb_tree_create_spec h t0 base m :
  1 <= m <= MAX_TREE_SIZE ->
  exists h' t,
    rb_tree_create (Some base) m (mk_state h (Some t0))
    = Ok RB_SUCCESS (mk_state h' (Some t)) /\
    free_ok h' t (seq base (Z.to_nat m)) /\
    size t = 0 /\ max_size t = m /\ root t = None /\
    node_block t = Some base /\
    (forall b, b ∉ seq base (Z.to_nat m) -> h' !! b = h !! b).
Proof.
  intros Hm.
  assert (MAX_TREE_SIZE = 2147483648) as HM by reflexivity.
  set (h1 := foldr (fun a (h : gmap nat rb_node_t) => <[a := zero_node]> h) h
               (seq base (Z.to_nat m))).
  destruct (push_all_spec (seq base (Z.to_nat m)) h1
              (mk_tree m m None None None (Some base)) [])
    as (h' & t & Hrun & Hfree & Hs & Hmx & Hr & Hb & Hsame & _).
  { apply NoDup_seq. }
  { intros a Ha. split; [|apply not_elem_of_nil].
    unfold h1. rewrite calloc_lookup. rewrite bool_decide_eq_true_2; eauto. }
  { split; [done|]. split; [done|]. apply NoDup_nil_2. }
  { cbn [size]. rewrite length_seq. lia. }
  exists h', t. split; [|split; [exact Hfree|]].
  - unfold rb_tree_create. mrun.
    assert ((m =? 0) = false) as -> by (apply Z.eqb_neq; lia).
    assert ((MAX_TREE_SIZE <? m) = false) as -> by (apply Z.ltb_ge; lia).
    mrun. unfold calloc_nodes. fold h1. reflexivity. mrun. exact Hrun. mrun.
  - cbn in Hs, Hmx, Hr, Hb. rewrite length_seq in Hs.
    split_and!; auto; [lia|].
    intros b Hb'. rewrite Hsame; [|done|apply not_elem_of_nil].
    unfold h1. rewrite calloc_lookup. by rewrite bool_decide_eq_false_2.
Qed.

(** ** Capacities accepted by create *)

(** C8 (as amended): [rb_tree_create] answers [RB_FAIL_SIZE_ZERO] for 0,
    succeeds (or reports [RB_FAIL_MEM_ERR] when [calloc] fails) for every
    capacity from 1 to [MAX_TREE_SIZE] = (UINT32_MAX / 2) + 1 = 2^31, and
    answers [RB_FAIL_EXCEEDED_MAX_SIZE] for every larger capacity. *)
Theorem create_accepts_up_to_max_tree_size (s : state) (alloc : ptr) (m : Z)
    (Htree : tree s <> None) (Hm : 0 <= m <= UINT32_MAX) :
  MAX_TREE_SIZE = 2147483648 /\
  exists s',
    rb_tree_create alloc m s
    = Ok (if m =? 0 then RB_FAIL_SIZE_ZERO
          else if MAX_TREE_SIZE <? m then RB_FAIL_EXCEEDED_MAX_SIZE
          else if alloc is Some _ then RB_SUCCESS else RB_FAIL_MEM_ERR) s'.
Proof.
  split; [reflexivity|].
  destruct s as [h [t0|]]; [|done].
  destruct (m =? 0) eqn:E0.
  { eexists. unfold rb_tree_create. mrun. rewrite E0. mrun. }
  destruct (MAX_TREE_SIZE <? m) eqn:E1.
  { eexists. unfold rb_tree_create. mrun. rewrite E0, E1. mrun. }
  destruct alloc as [base|].
  - destruct (rb_tree_create_spec h t0 base m) as (h' & t & Hrun & _).
    { apply Z.eqb_neq in E0. apply Z.ltb_ge in E1. lia. }
    eauto.
  - eexists. unfold rb_tree_create. mrun. rewrite E0, E1. mrun.
Qed.

Lemma create_accepts_up_to_max_tree_size_witness :
  exists s', rb_tree_create (Some 0%nat) 3 fresh = Ok RB_SUCCESS s'.
Proof.
  destruct (create_accepts_up_to_max_tree_size fresh (Some 0%nat) 3)
    as [_ H]; [discriminate | vm_compute; split; discriminate | exact H].
Defined.

(** C8 (as stated) fails at the top of the range it gives: 2^31 + 1 is at
    most (2^32 / 2) + 1, and create refuses it. *)
Lemma create_refuses_two_pow_31_plus_1 :
  1 <= 2147483649 <= 4294967296 / 2 + 1 /\
  rb_tree_create (Some 0%nat) 2147483649 fresh
  = Ok RB_FAIL_EXCEEDED_MAX_SIZE fresh.
Proof. split; [vm_compute; split; discriminate | reflexivity]. Qed.


(** ** Trees in the heap *)

Lemma rep_frame h a n par p t :
  a ∉ addrs t -> rep h par p t -> rep (<[a := n]> h) par p t.
Proof.
  revert par p. induction t as [|c l IHl b v o r IHr]; intros par p Ha; cbn; [done|].
  intros (-> & m & Hm & Hc & Hrg & Hp & Hl & Hr).
  cbn in Ha. rewrite elem_of_app, elem_of_cons in Ha.
  split; [done|]. exists m. rewrite lookup_insert_ne by (intros ->; tauto).
  split_and!; auto; first [apply IHl | apply IHr]; tauto.
Qed.

(** Two heaps that agree on the cells of [t] represent it alike. *)
Lemma rep_agree h h' par p t :
  (forall b, b ∈ addrs t -> h' !! b = h !! b) ->
  rep h par p t -> rep h' par p t.
Proof.
  revert par p. induction t as [|c l IHl b v o r IHr]; intros par p Hag; cbn; [done|].
  intros (-> & m & Hm & Hc & Hrg & Hp & Hl & Hr).
  split; [done|]. exists m. rewrite Hag by (cbn; set_solver).
  split_and!; auto.
  - apply IHl; [|done]. intros x Hx. apply Hag. cbn. set_solver.
  - apply IHr; [|done]. intros x Hx. apply Hag. cbn. set_solver.
Qed.

Lemma rep_root h par p t : rep h par p t -> p = root_ptr t.
Proof. destruct t; cbn; [done|]. by intros [-> _]. Qed.

Lemma rep_lookup h par p t b :
  rep h par p t -> b ∈ addrs t -> is_Some (h !! b).
Proof.
  revert par p. induction t as [|c l IHl a v o r IHr]; intros par p; cbn.
  - by intros _ ?%elem_of_nil.
  - intros (-> & m & Hm & Hc & Hrg & Hp & Hl & Hr).
    rewrite elem_of_app, elem_of_cons. intros [?|[->|?]]; eauto.
Qed.

(** ** Search *)

Lemma binary_search_spec x t : forall h tt par p fuel,
  rep h par p t -> (height t < fuel)%nat ->
  binary_search_loop fuel x p (mk_state h (Some tt))
  = Ok (find_cover x t) (mk_state h (Some tt)).
Proof.
  induction t as [|c l IHl a v o r IHr]; intros h tt par p fuel Hrep Hfuel.
  - cbn in Hrep. subst p. destruct fuel; [cbn in Hfuel; lia|]. reflexivity.
  - cbn in Hrep. destruct Hrep as (-> & n & Hn & Hc & Hrg & Hp & Hl & Hr).
    destruct fuel as [|fuel]; [cbn in Hfuel; lia|].
    cbn [height] in Hfuel.
    destruct n as [[nv no] nc nts np nl nr]. cbn in Hc, Hrg, Hp, Hl, Hr.
    injection Hrg as -> ->.
    cbn [binary_search_loop find_cover]. mrun.
    destruct ((v <=? x) && (x <=? u32 (v + o))); [mrun|].
    destruct (x <? v).
    + mrun. eapply IHl; [exact Hl|lia].
    + mrun. eapply IHr; [exact Hr|lia].
Qed.

(** ** Taking a cell from the free list *)

Lemma flist_agree h h' p fl :
  (forall b, b ∈ fl -> h' !! b = h !! b) -> flist h p fl -> flist h' p fl.
Proof.
  revert p. induction fl as [|f rest IH]; intros p Hag; cbn; [done|].
  intros (-> & m & Hm & Hrest). split; [done|]. exists m.
  rewrite Hag by left. split; [done|]. apply IH; [|done].
  intros b Hb. apply Hag. by right.
Qed.

Lemma free_ok_agree h h' tt fl :
  (forall b, b ∈ fl -> h' !! b = h !! b) -> free_ok h tt fl -> free_ok h' tt fl.
Proof.
  intros Hag (Hl & Hh & Hnd). split_and!; auto. by eapply flist_agree.
Qed.

Lemma create_rb_node_full h tt w c :
  free_ok h tt [] ->
  create_rb_node w c (mk_state h (Some tt)) = Ok None (mk_state h (Some tt)).
Proof.
  intros (Hl & _). cbn in Hl. unfold create_rb_node.
  eapply run_bind; [by apply pop_free_node_empty|]. mrun.
Qed.

Lemma create_rb_node_spec h tt w c f rest :
  free_ok h tt (f :: rest) ->
  exists tt',
    create_rb_node w c (mk_state h (Some tt))
    = Ok (Some f)
         (mk_state (<[f := mk_node (mk_range w 0) c false None None None]> h)
                   (Some tt')) /\
    free_ok (<[f := mk_node (mk_range w 0) c false None None None]> h) tt' rest /\
    size tt' = u32 (size tt + 1) /\ max_size tt' = max_size tt /\
    root tt' = root tt /\ node_block tt' = node_block tt.
Proof.
  intros Hfree.
  destruct (pop_free_node_spec h tt f rest Hfree)
    as (tt' & Hpop & Hfree' & Hsz & Hmx & Hrt & Hnb).
  destruct Hfree as ((_ & n & Hn & _) & _ & Hnd).
  apply NoDup_cons in Hnd as [Hf _].
  exists tt'. split; [|split_and!; auto].
  - unfold create_rb_node.
    eapply run_bind; [exact Hpop|]. mrun.
    rewrite !insert_insert_eq. destruct n. reflexivity.
  - eapply free_ok_agree; [|exact Hfree'].
    intros b Hb. rewrite lookup_insert_ne; [done|]. intros ->. done.
Qed.

(** ** Insertion without a merge *)

Lemma rep_leaf h par f w c ts :
  h !! f = Some (mk_node (mk_range w 0) c ts par None None) ->
  rep h par (Some f) (T c E f w 0 E).
Proof. intros Hf. cbn. split; [done|]. eexists. split; [exact Hf|]. by cbn. Qed.

Lemma NoDup_node l a r (fl : list nat) :
  NoDup ((l ++ a :: r) ++ fl) ->
  (a ∉ l) ∧ (a ∉ r) ∧ (a ∉ fl) ∧ NoDup (l ++ fl) ∧ NoDup (r ++ fl) ∧
  (forall x, x ∈ l -> x ∉ r) ∧ (forall x, x ∈ l -> x ∉ fl) ∧
  (forall x, x ∈ r -> x ∉ fl).
Proof.
  rewrite <- app_assoc. cbn. intros Hnd.
  apply NoDup_app in Hnd as (H1 & H2 & H3).
  apply NoDup_cons in H3 as [H4 H3].
  apply NoDup_app in H3 as (H5 & H6 & H7).
  rewrite elem_of_app in H4.
  split_and!; try tauto.
  - intros Hx. apply (H2 a Hx). left.
  - apply NoDup_app. split_and!; auto.
    intros x Hx Hx'. apply (H2 x Hx). right. apply elem_of_app. by right.
  - apply NoDup_app. split_and!; auto.
  - intros x Hx Hx'. apply (H2 x Hx). right. apply elem_of_app. by left.
  - intros x Hx Hx'. apply (H2 x Hx). right. apply elem_of_app. by right.
Qed.

(** With an empty free list the descent ends in [RB_FAIL_TREE_FULL] and
    nothing is written. *)
Lemma plain_insert_full w t : forall h tt par p fuel,
  t <> E ->
  rep h par p t -> free_ok h tt [] ->
  plain_path w t -> (height t <= fuel)%nat ->
  insert_or_merge_loop fuel w p (mk_state h (Some tt))
  = Ok (RB_FAIL_TREE_FULL, None) (mk_state h (Some tt)).
Proof.
  induction t as [|c l IHl a v o r IHr]; intros h tt par p fuel Hne Hrep Hfree Hpath Hfuel;
    [done|].
  cbn in Hrep. destruct Hrep as (-> & n & Hn & Hc & Hrg & Hp & Hl & Hr).
  destruct fuel as [|fuel]; [cbn in Hfuel; lia|].
  cbn [height] in Hfuel.
  destruct n as [[nv no] nc nts np nl nr]. cbn in Hc, Hrg, Hp, Hl, Hr.
  injection Hrg as -> ->. subst nc np.
  cbn [plain_path] in Hpath. destruct Hpath as [Hcons Hpath].
  cbn [insert_or_merge_loop]. mrun. rewrite Hcons. mrun.
  destruct (w <? v) eqn:Hlt.
  - mrun.
    destruct l as [|lc ll la lv lo lr].
    + cbn in Hl. subst nl. mrun.
      { by apply create_rb_node_full. }
      mrun.
    + assert (nl = Some la) as -> by (by destruct Hl as [-> _]).
      mrun. eapply IHl; eauto; first [done|lia].
  - destruct Hpath as (Hcons' & Hvw & Hpath).
    mrun. rewrite Hcons'. mrun.
    assert ((v <? w) = true) as -> by (apply Z.ltb_lt; lia).
    mrun.
    destruct r as [|rc rl ra rv ro rr].
    + cbn in Hr. subst nr. mrun.
      { by apply create_rb_node_full. }
      mrun.
    + assert (nr = Some ra) as -> by (by destruct Hr as [-> _]).
      mrun. eapply IHr; eauto; first [done|lia].
Qed.

(** With a free cell [f] the descent links [f] in as a red leaf. *)
Lemma plain_insert w t : forall h tt par p f rest fuel,
  t <> E ->
  rep h par p t -> free_ok h tt (f :: rest) -> NoDup (addrs t ++ f :: rest) ->
  plain_path w t -> (height t <= fuel)%nat ->
  exists h' tt',
    insert_or_merge_loop fuel w p (mk_state h (Some tt))
    = Ok (RB_SUCCESS, Some f) (mk_state h' (Some tt')) /\
    rep h' par p (ins_leaf w f t) /\
    free_ok h' tt' rest /\
    size tt' = u32 (size tt + 1) /\ max_size tt' = max_size tt /\
    root tt' = root tt /\ node_block tt' = node_block tt /\
    (forall b, b ∉ addrs t -> b <> f -> h' !! b = h !! b) /\
    (forall b, b ∈ addrs t -> range <$> h' !! b = range <$> h !! b).
Proof.
  induction t as [|c l IHl a v o r IHr];
    intros h tt par p f rest fuel Hne Hrep Hfree Hnd Hpath Hfuel; [done|].
  cbn in Hrep. destruct Hrep as (-> & n & Hn & Hc & Hrg & Hp & Hl & Hr).
  destruct fuel as [|fuel]; [cbn in Hfuel; lia|].
  cbn [height] in Hfuel.
  destruct n as [[nv no] nc nts np nl nr]. cbn in Hc, Hrg, Hp, Hl, Hr.
  injection Hrg as -> ->. subst nc np.
  cbn [plain_path] in Hpath. destruct Hpath as [Hcons Hpath].
  cbn [addrs] in Hnd.
  apply NoDup_node in Hnd as (Hal & Har & Hafl & Hndl & Hndr & Hlr & Hlf & Hrf).
  assert (a <> f) as Haf by (intros ->; apply Hafl; left).
  assert (f ∉ rest) as Hfr.
  { apply NoDup_app in Hndr as (_ & _ & H3). by apply NoDup_cons in H3 as [? _]. }
  assert (f ∉ addrs l) as Hfl by (intros Hx; apply (Hlf _ Hx); left).
  assert (f ∉ addrs r) as Hfr' by (intros Hx; apply (Hrf _ Hx); left).
  cbn [ins_leaf].
  destruct (w <? v) eqn:Hlt.
  - (* left *)
    destruct l as [|lc ll la lv lo lr].
    + (* no left child: a new node *)
      cbn in Hl. subst nl.
      destruct (create_rb_node_spec h tt w RED f rest Hfree)
        as (tt' & Hrun & Hfree' & Hsz & Hmx & Hrt & Hnb).
      eexists _, tt'. split.
      { cbn [insert_or_merge_loop]. mrun. rewrite Hcons. mrun. rewrite Hlt. mrun.
        mrun. { exact Hrun. } mrun. }
      split_and!; auto.
      * cbn. split; [done|]. eexists. rewrite lookup_insert_eq. split; [done|].
        cbn. split_and!; auto.
        -- eexists. rewrite lookup_insert_ne by done. rewrite lookup_insert_eq.
           split; [done|]. cbn. done.
        -- apply rep_frame; [done|]. apply rep_frame; [done|]. by apply rep_frame.
      * eapply free_ok_agree; [|exact Hfree'].
        intros b Hb. rewrite lookup_insert_ne, lookup_insert_ne; [| |].
        -- done.
        -- intros ->. done.
        -- intros ->. apply Hafl. by right.
      * intros b Hb Hbf. cbn in Hb. rewrite elem_of_cons in Hb.
        rewrite !lookup_insert_ne; auto.
      * intros b Hb. cbn in Hb. rewrite elem_of_cons in Hb.
        destruct Hb as [->|Hb].
        -- rewrite lookup_insert_eq, Hn. done.
        -- rewrite !lookup_insert_ne; auto; intros ->; done.
    + (* descend left *)
      assert (nl = Some la) as -> by (by destruct Hl as [-> _]).
      destruct (IHl h tt (Some a) (Some la) f rest fuel)
        as (h' & tt' & Hrun & Hrep' & Hfree' & Hsz & Hmx & Hrt & Hnb & Hsame & Hrng);
        [done | exact Hl | exact Hfree | exact Hndl | exact Hpath | lia | ].
      exists h', tt'. split.
      { cbn [insert_or_merge_loop]. mrun. rewrite Hcons. mrun. rewrite Hlt. mrun.
        mrun. exact Hrun. }
      split_and!; auto.
      * cbn [rep]. split; [done|]. eexists. rewrite Hsame by done.
        split; [exact Hn|]. cbn. split_and!; auto.
        eapply rep_agree; [|exact Hr].
        intros b Hb. apply Hsame.
        -- intros Hx. by apply (Hlr _ Hx).
        -- intros ->. done.
      * intros b Hb Hbf. cbn [addrs] in Hb.
        rewrite elem_of_app in Hb. apply Hsame; tauto.
      * intros b Hb. cbn [addrs] in Hb.
        rewrite elem_of_app, elem_of_cons in Hb.
        destruct Hb as [Hb|[->|Hb]]; [by apply Hrng| |].
        -- by rewrite Hsame.
        -- rewrite Hsame; [done| |].
           ++ intros Hx. by apply (Hlr _ Hx).
           ++ intros ->. done.
  - (* right *)
    destruct Hpath as (Hcons' & Hvw & Hpath).
    assert ((v <? w) = true) as Hgt by (apply Z.ltb_lt; lia).
    destruct r as [|rc rl ra rv ro rr].
    + cbn in Hr. subst nr.
      destruct (create_rb_node_spec h tt w RED f rest Hfree)
        as (tt' & Hrun & Hfree' & Hsz & Hmx & Hrt & Hnb).
      eexists _, tt'. split.
      { cbn [insert_or_merge_loop]. mrun. rewrite Hcons. mrun. rewrite Hlt. mrun.
        rewrite Hcons'. mrun. rewrite Hgt. mrun.
        mrun. { exact Hrun. } mrun. }
      split_and!; auto.
      * cbn. split; [done|]. eexists. rewrite lookup_insert_eq. split; [done|].
        cbn. split_and!; auto.
        -- apply rep_frame; [done|]. apply rep_frame; [done|]. by apply rep_frame.
        -- eexists. rewrite lookup_insert_ne by done. rewrite lookup_insert_eq.
           split; [done|]. cbn. done.
      * eapply free_ok_agree; [|exact Hfree'].
        intros b Hb. rewrite lookup_insert_ne, lookup_insert_ne; [| |].
        -- done.
        -- intros ->. done.
        -- intros ->. apply Hafl. by right.
      * intros b Hb Hbf. cbn [addrs] in Hb.
        rewrite elem_of_app, list_elem_of_singleton in Hb.
        rewrite !lookup_insert_ne; auto.
      * intros b Hb. cbn [addrs] in Hb.
        rewrite elem_of_app, list_elem_of_singleton in Hb.
        destruct Hb as [Hb| ->].
        -- rewrite !lookup_insert_ne; auto; intros ->; done.
        -- rewrite lookup_insert_eq, Hn. done.
    + assert (nr = Some ra) as -> by (by destruct Hr as [-> _]).
      destruct (IHr h tt (Some a) (Some ra) f rest fuel)
        as (h' & tt' & Hrun & Hrep' & Hfree' & Hsz & Hmx & Hrt & Hnb & Hsame & Hrng);
        [done | exact Hr | exact Hfree | exact Hndr | exact Hpath | lia | ].
      exists h', tt'. split.
      { cbn [insert_or_merge_loop]. mrun. rewrite Hcons. mrun. rewrite Hlt. mrun.
        rewrite Hcons'. mrun. rewrite Hgt. mrun.
        mrun. exact Hrun. }
      split_and!; auto.
      * cbn [rep]. split; [done|]. eexists. rewrite Hsame by done.
        split; [exact Hn|]. cbn. split_and!; auto.
        eapply rep_agree; [|exact Hl].
        intros b Hb. apply Hsame.
        -- by apply Hlr.
        -- intros ->. done.
      * intros b Hb Hbf. cbn [addrs] in Hb.
        rewrite elem_of_app, elem_of_cons in Hb. apply Hsame; tauto.
      * intros b Hb. cbn [addrs] in Hb.
        rewrite elem_of_app, elem_of_cons in Hb.
        destruct Hb as [Hb|[->|Hb]]; [| |by apply Hrng].
        -- rewrite Hsame; [done| |].
           ++ by apply Hlr.
           ++ intros ->. done.
        -- by rewrite Hsame.
Qed.


(** ** Search-tree order *)

Lemma addrs_nodes t : addrs t = (nodes t).*1.
Proof.
  induction t as [|c l IHl a v o r IHr]; [done|].
  cbn. rewrite fmap_app. cbn. by rewrite IHl, IHr.
Qed.

Lemma ranges_nodes t : ranges t = (nodes t).*2.
Proof.
  induction t as [|c l IHl a v o r IHr]; [done|].
  cbn. rewrite fmap_app. cbn. by rewrite IHl, IHr.
Qed.

Lemma nodes_addr t b rg : (b, rg) ∈ nodes t -> b ∈ addrs t.
Proof.
  intros H. rewrite addrs_nodes. apply list_elem_of_fmap. by exists (b, rg).
Qed.

Lemma bst_bounds lo hi t b rg :
  bst lo hi t -> (b, rg) ∈ nodes t ->
  lo <= value rg /\ 0 <= offset rg /\ value rg + offset rg <= hi.
Proof.
  revert lo hi. induction t as [|c l IHl a v o r IHr]; intros lo hi; cbn.
  - by intros _ ?%elem_of_nil.
  - intros (H1 & H2 & H3 & Hl & Hr).
    rewrite elem_of_app, elem_of_cons.
    intros [Hin|[[= -> ->]|Hin]].
    + destruct (IHl _ _ Hl Hin) as (? & ? & ?). lia.
    + cbn. lia.
    + destruct (IHr _ _ Hr Hin) as (? & ? & ?). lia.
Qed.

Lemma rep_nodes h par p t b rg :
  rep h par p t -> (b, rg) ∈ nodes t ->
  exists n, h !! b = Some n /\ range n = rg.
Proof.
  revert par p. induction t as [|c l IHl a v o r IHr]; intros par p; cbn.
  - by intros _ ?%elem_of_nil.
  - intros (-> & m & Hm & Hc & Hrg & Hp & Hl & Hr).
    rewrite elem_of_app, elem_of_cons.
    intros [Hin|[[= -> ->]|Hin]]; eauto.
Qed.

(** The search finds the node whose range covers [x]. *)
Lemma find_cover_bst lo hi t a nv no x :
  0 <= lo -> hi <= UINT32_MAX ->
  bst lo hi t -> (a, mk_range nv no) ∈ nodes t ->
  nv <= x <= nv + no ->
  find_cover x t = Some a.
Proof.
  unfold UINT32_MAX.
  revert lo hi. induction t as [|c l IHl b v o r IHr]; intros lo hi Hlo Hhi; cbn.
  - by intros _ ?%elem_of_nil.
  - intros (H1 & H2 & H3 & Hl & Hr).
    rewrite elem_of_app, elem_of_cons.
    rewrite (u32_small (v + o)) by lia.
    intros [Hin|[[= -> -> ->]|Hin]] Hx.
    + destruct (bst_bounds _ _ _ _ _ Hl Hin) as (? & ? & ?). cbn in *.
      assert ((v <=? x) = false) as -> by (apply Z.leb_gt; lia). cbn.
      assert ((x <? v) = true) as -> by (apply Z.ltb_lt; lia).
      apply (IHl lo (v - 2)); auto; lia.
    + assert ((v <=? x) = true) as -> by (apply Z.leb_le; lia).
      assert ((x <=? v + o) = true) as -> by (apply Z.leb_le; lia). done.
    + destruct (bst_bounds _ _ _ _ _ Hr Hin) as (? & ? & ?). cbn in *.
      assert ((x <=? v + o) = false) as -> by (apply Z.leb_gt; lia).
      rewrite andb_false_r.
      assert ((x <? v) = false) as -> by (apply Z.ltb_ge; lia).
      apply (IHr (v + o + 2) hi); auto; lia.
Qed.

Lemma are_consecutive_false a b :
  a + 1 <> b -> 0 <= a <= UINT32_MAX -> are_consecutive a b = false.
Proof.
  unfold are_consecutive, UINT32_MAX. intros H1 H2.
  destruct (a =? 4294967295) eqn:E; [done|]. cbn.
  apply Z.eqb_neq in E. rewrite u32_small by lia. by apply Z.eqb_neq.
Qed.

(** Below a value [w] all of whose nodes start above [w + 1], the descent
    goes left to the end. *)
Lemma plain_path_above lo hi t w :
  0 <= w -> hi <= UINT32_MAX -> w + 2 <= lo -> bst lo hi t -> plain_path w t.
Proof.
  unfold UINT32_MAX.
  revert lo hi. induction t as [|c l IHl b v o r IHr]; intros lo hi Hw Hhi Hlo; cbn; [done|].
  intros (H1 & H2 & H3 & Hl & Hr).
  split; [apply are_consecutive_false; unfold UINT32_MAX; lia|].
  assert ((w <? v) = true) as -> by (apply Z.ltb_lt; lia).
  apply (IHl lo (v - 2)); auto; lia.
Qed.

Lemma nodes_ins_leaf_above lo hi t w f :
  w + 2 <= lo -> bst lo hi t ->
  nodes (ins_leaf w f t) = (f, mk_range w 0) :: nodes t.
Proof.
  revert lo hi. induction t as [|c l IHl b v o r IHr]; intros lo hi Hlo; cbn; [done|].
  intros (H1 & H2 & H3 & Hl & Hr).
  assert ((w <? v) = true) as -> by (apply Z.ltb_lt; lia).
  cbn. rewrite (IHl lo (v - 2)); auto.
Qed.

(** A value strictly inside the range of a node, or at its end, meets no
    merge on its way down. *)
Lemma plain_path_inside lo hi t a nv no w :
  0 <= lo -> hi <= UINT32_MAX ->
  bst lo hi t -> (a, mk_range nv no) ∈ nodes t ->
  nv < w <= nv + no ->
  plain_path w t.
Proof.
  unfold UINT32_MAX.
  revert lo hi. induction t as [|c l IHl b v o r IHr]; intros lo hi Hlo Hhi; cbn.
  - by intros _ ?%elem_of_nil.
  - intros (H1 & H2 & H3 & Hl & Hr).
    rewrite elem_of_app, elem_of_cons.
    intros [Hin|[[= -> -> ->]|Hin]] Hx.
    + destruct (bst_bounds _ _ _ _ _ Hl Hin) as (? & ? & ?). cbn in *.
      split; [apply are_consecutive_false; unfold UINT32_MAX; lia|].
      assert ((w <? v) = true) as -> by (apply Z.ltb_lt; lia).
      apply (IHl lo (v - 2)); auto; lia.
    + split; [apply are_consecutive_false; unfold UINT32_MAX; lia|].
      assert ((w <? v) = false) as -> by (apply Z.ltb_ge; lia).
      rewrite (u32_small (v + o)) by lia.
      split_and!; [apply are_consecutive_false; unfold UINT32_MAX; lia|lia|].
      apply (plain_path_above (v + o + 2) hi); auto; unfold UINT32_MAX; lia.
    + destruct (bst_bounds _ _ _ _ _ Hr Hin) as (? & ? & ?). cbn in *.
      split; [apply are_consecutive_false; unfold UINT32_MAX; lia|].
      assert ((w <? v) = false) as -> by (apply Z.ltb_ge; lia).
      rewrite (u32_small (v + o)) by lia.
      split_and!; [apply are_consecutive_false; unfold UINT32_MAX; lia|lia|].
      apply (IHr (v + o + 2) hi); auto; lia.
Qed.

(** ** The list of nodes after a split *)

Lemma insert_after_notin a new l :
  a ∉ l.*1 -> insert_after a new l = l.
Proof.
  induction l as [|p l IH]; [done|]. cbn.
  rewrite not_elem_of_cons. intros [H1 H2].
  rewrite bool_decide_eq_false_2 by done. by rewrite IH.
Qed.

Lemma insert_after_app_l a new l1 l2 :
  a ∈ l1.*1 -> insert_after a new (l1 ++ l2) = insert_after a new l1 ++ l2.
Proof.
  induction l1 as [|p l1 IH]; cbn; [by intros ?%elem_of_nil|].
  rewrite elem_of_cons. intros Hin.
  destruct (decide (p.1 = a)) as [He|Hne].
  - by rewrite !bool_decide_eq_true_2.
  - rewrite !bool_decide_eq_false_2 by done. rewrite IH; [done|].
    destruct Hin; [congruence|done].
Qed.

Lemma insert_after_app_r a new l1 l2 :
  a ∉ l1.*1 -> insert_after a new (l1 ++ l2) = l1 ++ insert_after a new l2.
Proof.
  induction l1 as [|p l1 IH]; cbn; [done|].
  rewrite not_elem_of_cons. intros [H1 H2].
  rewrite bool_decide_eq_false_2 by done. by rewrite IH.
Qed.

Lemma set_range_in_notin a rg l :
  a ∉ l.*1 -> set_range_in a rg l = l.
Proof.
  unfold set_range_in.
  induction l as [|p l IH]; [done|]. cbn.
  rewrite not_elem_of_cons. intros [H1 H2].
  rewrite bool_decide_eq_false_2 by done. by rewrite IH.
Qed.

Lemma nodes_set_range_at a v' o' t :
  nodes (set_range_at a v' o' t) = set_range_in a (mk_range v' o') (nodes t).
Proof.
  unfold set_range_in.
  induction t as [|c l IHl b v o r IHr]; [done|].
  cbn. rewrite fmap_app. cbn. rewrite IHl, IHr.
  destruct (decide (b = a)) as [->|Hne].
  - by rewrite !bool_decide_eq_true_2.
  - by rewrite !bool_decide_eq_false_2.
Qed.

Lemma addrs_set_range_at a v' o' t : addrs (set_range_at a v' o' t) = addrs t.
Proof.
  induction t as [|c l IHl b v o r IHr]; [done|]. cbn. by rewrite IHl, IHr.
Qed.

Lemma set_range_at_notin a v' o' t :
  a ∉ addrs t -> set_range_at a v' o' t = t.
Proof.
  induction t as [|c l IHl b v o r IHr]; [done|]. cbn.
  rewrite elem_of_app, elem_of_cons. intros H.
  rewrite IHl, IHr by tauto.
  assert (b <> a) as Hne by (intros ->; tauto).
  by rewrite !bool_decide_eq_false_2.
Qed.

Lemma nodes_ins_leaf_inside lo hi t a nv no w f :
  bst lo hi t -> NoDup (addrs t) ->
  (a, mk_range nv no) ∈ nodes t ->
  nv < w <= nv + no ->
  nodes (ins_leaf w f t) = insert_after a (f, mk_range w 0) (nodes t).
Proof.
  revert lo hi. induction t as [|c l IHl b v o r IHr]; intros lo hi; cbn.
  - by intros _ _ ?%elem_of_nil.
  - intros (H1 & H2 & H3 & Hl & Hr) Hnd.
    assert (NoDup ((addrs l ++ b :: addrs r) ++ [])) as Hnd' by (by rewrite app_nil_r).
    apply NoDup_node in Hnd' as (Hbl & Hbr & _ & Hndl & Hndr & Hlr & _).
    rewrite app_nil_r in Hndl, Hndr.
    rewrite elem_of_app, elem_of_cons.
    intros [Hin|[[= -> -> ->]|Hin]] Hx.
    + destruct (bst_bounds _ _ _ _ _ Hl Hin) as (? & ? & ?). cbn in *.
      assert ((w <? v) = true) as -> by (apply Z.ltb_lt; lia).
      cbn. rewrite (IHl lo (v - 2)); auto.
      rewrite insert_after_app_l; [done|].
      rewrite <- addrs_nodes. by eapply nodes_addr.
    + assert ((w <? v) = false) as -> by (apply Z.ltb_ge; lia).
      cbn. rewrite (nodes_ins_leaf_above (v + o + 2) hi); [|lia|done].
      rewrite insert_after_app_r by (by rewrite <- addrs_nodes).
      cbn. by rewrite bool_decide_eq_true_2.
    + destruct (bst_bounds _ _ _ _ _ Hr Hin) as (? & ? & ?). cbn in *.
      assert ((w <? v) = false) as -> by (apply Z.ltb_ge; lia).
      cbn. rewrite (IHr (v + o + 2) hi); auto.
      assert (a ∈ addrs r) as Har by (by eapply nodes_addr).
      rewrite insert_after_app_r.
      * cbn. rewrite bool_decide_eq_false_2; [done|]. cbn. intros ->. done.
      * rewrite <- addrs_nodes. intros Hx'. by apply (Hlr _ Hx').
Qed.

Lemma addrs_ins_leaf w f t :
  addrs (ins_leaf w f t) ≡ₚ f :: addrs t.
Proof.
  induction t as [|c l IHl b v o r IHr]; [done|]. cbn.
  destruct (w <? v); cbn.
  - rewrite IHl. done.
  - rewrite IHr. by rewrite Permutation_middle, (Permutation_swap f b), <- Permutation_middle.
Qed.

Lemma height_ins_leaf w f t : (height (ins_leaf w f t) <= S (height t))%nat.
Proof.
  induction t as [|c l IHl b v o r IHr]; cbn; [lia|].
  destruct (w <? v); cbn; lia.
Qed.

(** Writing a new range into the cell of a node. *)
Lemma rep_set_range h par p t b n v' o' :
  NoDup (addrs t) -> rep h par p t -> h !! b = Some n ->
  rep (<[b := mk_node (mk_range v' o') (color n) (traversal_state n)
                      (parent n) (left n) (right n)]> h)
      par p (set_range_at b v' o' t).
Proof.
  revert par p. induction t as [|c l IHl a v o r IHr]; intros par p Hnd; cbn; [done|].
  intros (-> & m & Hm & Hc & Hrg & Hp & Hl & Hr) Hb.
  assert (NoDup ((addrs l ++ a :: addrs r) ++ [])) as Hnd' by (by rewrite app_nil_r).
  apply NoDup_node in Hnd' as (Hal & Har & _ & Hndl & Hndr & Hlr & _).
  rewrite app_nil_r in Hndl, Hndr.
  split; [done|].
  destruct (decide (a = b)) as [->|Hne].
  - rewrite lookup_insert_eq. eexists. split; [done|].
    rewrite Hm in Hb. injection Hb as <-.
    rewrite !bool_decide_eq_true_2 by done. cbn.
    rewrite !set_range_at_notin by done.
    split_and!; auto; by apply rep_frame.
  - rewrite lookup_insert_ne by done. exists m. split; [done|].
    rewrite !bool_decide_eq_false_2 by done.
    split_and!; auto.
Qed.


(** ** Deleting a value strictly inside a range *)

Lemma split_nodes_list (before after : list (nat * rb_range_t)) a f rg lower w upper :
  NoDup ((before ++ (a, rg) :: after).*1) ->
  f ∉ (before ++ (a, rg) :: after).*1 ->
  set_range_in a lower
    (set_range_in f upper
       (insert_after a (f, mk_range w 0) (before ++ (a, rg) :: after)))
  = before ++ (a, lower) :: (f, upper) :: after.
Proof.
  rewrite !fmap_app, !fmap_cons. cbn [fst].
  intros Hnd Hf.
  apply NoDup_app in Hnd as (Hnb & Hba & Hna).
  apply NoDup_cons in Hna as [Haa Hna].
  rewrite elem_of_app, elem_of_cons in Hf.
  assert (a ∉ before.*1) as Hab.
  { intros Hx. apply (Hba _ Hx). left. }
  assert (f <> a) as Hfa by (intros ->; tauto).
  rewrite insert_after_app_r by done. cbn [insert_after fst].
  rewrite bool_decide_eq_true_2 by done.
  unfold set_range_in. rewrite !fmap_app, !fmap_cons. cbn [fst].
  rewrite (bool_decide_eq_false_2 (a = f)) by done.
  rewrite (bool_decide_eq_true_2 (f = f)) by done.
  cbn [fst].
  rewrite (bool_decide_eq_true_2 (a = a)) by done.
  rewrite (bool_decide_eq_false_2 (f = a)) by done.
  f_equal; [|f_equal; f_equal].
  - fold (set_range_in f upper before). rewrite set_range_in_notin by tauto.
    fold (set_range_in a lower before). by rewrite set_range_in_notin.
  - fold (set_range_in f upper after). rewrite set_range_in_notin by tauto.
    fold (set_range_in a lower after). by rewrite set_range_in_notin.
Qed.

(** On a tree in search order: [rb_tree_delete] of a value [x] strictly
    inside the range [(nv, no)] of the node at [a].  With an empty
    free list the call returns [RB_FAIL_TREE_FULL] and the state is the one
    it started from.  With a free cell [f] it returns [RB_SUCCESS]; the node
    at [a] is left with the lower segment [(nv, x - nv - 1)], the new node
    [f] holds the upper segment [(x + 1, nv + no - (x + 1))] and follows [a]
    in order, and no other node changes. *)
Lemma delete_inside_range (fuel : nat) (s : state) (t : tr) (fl : list nat)
    (x : Z) (a : nat) (nv no : Z) (before after : list (nat * rb_range_t))
    (Hok : tree_ok s t fl)
    (Hbst : bst 0 UINT32_MAX t)
    (Hnodes : nodes t = before ++ (a, mk_range nv no) :: after)
    (Hin : nv < x < nv + no)
    (Hfuel : (height t < fuel)%nat) :
  match fl with
  | [] => rb_tree_delete fuel x s = Ok RB_FAIL_TREE_FULL s
  | f :: rest =>
      exists s' t',
        rb_tree_delete fuel x s = Ok RB_SUCCESS s' /\
        tree_ok s' t' rest /\
        nodes t' = before ++ (a, mk_range nv (x - nv - 1))
                          :: (f, mk_range (x + 1) (nv + no - (x + 1))) :: after
  end.
Proof.
  destruct Hok as (tt & Htree & Hrep & Hnd & Hfree).
  destruct s as [h ot]. cbn in Htree, Hrep, Hfree. subst ot.
  assert ((a, mk_range nv no) ∈ nodes t) as Hmem.
  { rewrite Hnodes. apply elem_of_app. right. left. }
  destruct (bst_bounds _ _ _ _ _ Hbst Hmem) as (Hb1 & Hb2 & Hb3).
  cbn in Hb1, Hb2, Hb3. unfold UINT32_MAX in Hb3.
  destruct (rep_nodes _ _ _ _ _ _ Hrep Hmem) as (na & Hna & Hrga).
  destruct na as [[nav nao] nac nats nap nal nar]. cbn in Hrga.
  injection Hrga as -> ->.
  assert (find_cover x t = Some a) as Hfind.
  { apply (find_cover_bst 0 UINT32_MAX t a nv no x); [lia|apply Z.le_refl|done|done|lia]. }
  assert (plain_path (x + 1) t) as Hpath.
  { apply (plain_path_inside 0 UINT32_MAX t a nv no (x + 1));
      [lia|apply Z.le_refl|done|done|lia]. }
  assert (t <> E) as Hne by (intros ->; by apply elem_of_nil in Hmem).
  assert (exists rt, root tt = Some rt) as [rt Hrt].
  { apply rep_root in Hrep. rewrite Hrep. destruct t; [done|]. cbn. eauto. }
  assert ((no =? 0) = false) as Hno by (apply Z.eqb_neq; lia).
  assert ((x =? nv) = false) as Hxv by (apply Z.eqb_neq; lia).
  assert ((x =? u32 (nv + no)) = false) as Hxe.
  { rewrite u32_small by lia. apply Z.eqb_neq. lia. }
  assert (u32 (x + 1) = x + 1) as Hw by (apply u32_small; lia).
  (* the common prefix of the run: search, then descend for x + 1 *)
  destruct fl as [|f rest].
  - unfold rb_tree_delete. mrun. unfold rb_tree_binary_search. mrun.
    { apply (binary_search_spec x t h tt None); [exact Hrep|exact Hfuel]. }
    rewrite Hfind. mrun. rewrite Hno. mrun. rewrite Hxv. mrun. rewrite Hxe. mrun.
    unfold try_binary_insert_or_merge. mrun. rewrite Hrt. mrun.
    { rewrite Hw, <- Hrt.
      apply (plain_insert_full (x + 1) t h tt None); auto. lia. }
    mrun.
  - rewrite app_nil_r in Hnd || idtac.
    destruct (plain_insert (x + 1) t h tt None (root tt) f rest fuel)
      as (h' & tt' & Hrun & Hrep' & Hfree' & Hsz & Hmx & Hrt' & Hnb & Hsame & Hrng);
      [done | exact Hrep | exact Hfree | exact Hnd | exact Hpath | lia | ].
    assert (NoDup (addrs t)) as Hndt by (by apply NoDup_app in Hnd as (? & _)).
    assert (f ∉ addrs t) as Hft.
    { apply NoDup_app in Hnd as (_ & H2 & _). intros Hx. apply (H2 _ Hx). left. }
    assert (a ∈ addrs t) as Hat by (by eapply nodes_addr).
    assert (f <> a) as Hfa by (intros ->; done).
    assert ((f ∉ rest) ∧ NoDup rest) as [Hfr Hndr].
    { apply NoDup_app in Hnd as (_ & _ & H3). by apply NoDup_cons in H3. }
    pose proof (nodes_ins_leaf_inside 0 UINT32_MAX t a nv no (x + 1) f Hbst Hndt Hmem)
      as Hnodes'.
    specialize (Hnodes' ltac:(lia)).
    assert ((f, mk_range (x + 1) 0) ∈ nodes (ins_leaf (x + 1) f t)) as Hmf.
    { rewrite Hnodes', Hnodes.
      rewrite insert_after_app_r.
      - cbn. rewrite bool_decide_eq_true_2 by done.
        apply elem_of_app. right. right. left.
      - intros Hx. pose proof Hndt as Hndt'.
        rewrite addrs_nodes, Hnodes, fmap_app, fmap_cons in Hndt'.
        apply NoDup_app in Hndt' as (_ & H2 & _). apply (H2 _ Hx). left. }
    destruct (rep_nodes _ _ _ _ _ _ Hrep' Hmf) as (nf & Hnf & Hrgf).
    destruct nf as [[nfv nfo] nfc nfts nfp nfl nfr]. cbn in Hrgf.
    injection Hrgf as -> ->.
    assert (exists na', h' !! a = Some na' /\ range na' = mk_range nv no)
      as (na' & Hna' & Hrga').
    { specialize (Hrng a Hat). rewrite Hna in Hrng. cbn in Hrng.
      destruct (h' !! a) as [na'|]; [|done]. cbn in Hrng. injection Hrng as Hr.
      eauto. }
    destruct na' as [[nav' nao'] nac' nats' nap' nal' nar']. cbn in Hrga'.
    injection Hrga' as -> ->.
    eexists _, _. split.
    { unfold rb_tree_delete. mrun. unfold rb_tree_binary_search. mrun.
      { apply (binary_search_spec x t h tt None); [exact Hrep|exact Hfuel]. }
      rewrite Hfind. mrun. rewrite Hno. mrun. rewrite Hxv. mrun. rewrite Hxe. mrun.
      unfold try_binary_insert_or_merge. mrun. rewrite Hrt. mrun.
      { rewrite Hw, <- Hrt. exact Hrun. }
      mrun. }
    split.
    + exists tt'. cbn [heap tree]. split; [done|]. split_and!.
      * rewrite Hrt'.
        rewrite (u32_small (nv + no)) by lia.
        replace (u32 (nv + no - (x + 1))) with (nv + no - (x + 1)) by (rewrite u32_small; lia).
        replace (u32 (u32 (x - nv) - 1)) with (x - nv - 1)
          by (rewrite (u32_small (x - nv)) by lia; rewrite u32_small; lia).
        apply (rep_set_range _ None (root tt)
                 (set_range_at f (x + 1) (nv + no - (x + 1)) (ins_leaf (x + 1) f t))
                 a (mk_node (mk_range nv no) nac' nats' nap' nal' nar')
                 nv (x - nv - 1)).
        -- rewrite addrs_set_range_at. rewrite addrs_ins_leaf.
           apply NoDup_cons. done.
        -- apply (rep_set_range _ None (root tt) (ins_leaf (x + 1) f t) f
                   (mk_node (mk_range (x + 1) 0) nfc nfts nfp nfl nfr)
                   (x + 1) (nv + no - (x + 1))); [|done|done].
           rewrite addrs_ins_leaf. apply NoDup_cons. done.
        -- rewrite lookup_insert_ne by done. done.
      * rewrite addrs_set_range_at, addrs_set_range_at.
        rewrite addrs_ins_leaf. cbn.
        apply NoDup_cons. split.
        -- rewrite elem_of_app. tauto.
        -- apply NoDup_app in Hnd as (H1 & H2 & H3).
           apply NoDup_app. split_and!; auto.
           intros y Hy Hy'. apply (H2 _ Hy). by right.
      * eapply free_ok_agree; [|exact Hfree'].
        intros b Hb. rewrite !lookup_insert_ne; [done| |].
        -- intros ->. done.
        -- intros ->. apply NoDup_app in Hnd as (_ & H2 & _).
           apply (H2 _ Hat). by right.
    + rewrite !nodes_set_range_at, Hnodes', Hnodes.
      apply split_nodes_list.
      * rewrite <- Hnodes, <- addrs_nodes. done.
      * rewrite <- Hnodes, <- addrs_nodes. done.
Qed.

Lemma split_example_reached :
  (rb_tree_create (Some 0%nat) 4 ;; inserts 8 [10; 1; 2; 3]) fresh
  = Ok [RB_SUCCESS; RB_SUCCESS; RB_SUCCESS; RB_SUCCESS] split_example.
Proof. vm_compute. reflexivity. Qed.

Lemma split_example_ok : tree_ok split_example split_example_tree [2%nat; 3%nat].
Proof.
  eexists. split; [reflexivity|]. cbn [heap root]. split; [|split].
  - cbn. repeat first [ done | split | (eexists; split; [reflexivity|cbn]) ].
  - apply (bool_decide_unpack _). by vm_compute.
  - unfold free_ok. split; [|split].
    + cbn. repeat first [ done | split | (eexists; split; [reflexivity|cbn]) ].
    + reflexivity.
    + apply (bool_decide_unpack _). by vm_compute.
Qed.

Lemma delete_inside_range_witness :
  exists s' t',
    rb_tree_delete 8 2 split_example = Ok RB_SUCCESS s' /\
    tree_ok s' t' [3%nat] /\
    nodes t' = [(1%nat, mk_range 1 0); (2%nat, mk_range 3 0); (0%nat, mk_range 10 0)].
Proof.
  apply (delete_inside_range 8 split_example split_example_tree [2%nat; 3%nat]
           2 1%nat 1 2 [] [(0%nat, mk_range 10 0)]).
  - exact split_example_ok.
  - cbn. unfold UINT32_MAX. lia.
  - reflexivity.
  - lia.
  - cbn. lia.
Defined.


(** ** Separation of cells *)

Lemma NoDup_app_disj (l k : list nat) :
  NoDup (l ++ k) <-> NoDup l /\ disj l k /\ NoDup k.
Proof. apply NoDup_app. Qed.

Lemma disj_sym l k : disj l k -> disj k l.
Proof. intros H x Hx Hx'. by apply (H x). Qed.

Lemma disj_cons_l a l k : disj (a :: l) k <-> (a ∉ k) /\ disj l k.
Proof.
  unfold disj. split.
  - intros H. split; [apply H; left|]. intros x Hx. apply H. by right.
  - intros [Ha H] x [->|Hx]%elem_of_cons; auto.
Qed.

Lemma disj_app_l l1 l2 k : disj (l1 ++ l2) k <-> disj l1 k /\ disj l2 k.
Proof.
  unfold disj. split.
  - intros H. split; intros x Hx; apply H; apply elem_of_app; auto.
  - intros [H1 H2] x [Hx|Hx]%elem_of_app; auto.
Qed.

Lemma disj_cons_r a l k : disj l (a :: k) <-> (a ∉ l) /\ disj l k.
Proof.
  split.
  - intros H%disj_sym%disj_cons_l. destruct H. split; [done|by apply disj_sym].
  - intros [Ha H]. apply disj_sym, disj_cons_l. split; [done|by apply disj_sym].
Qed.

Lemma disj_app_r l k1 k2 : disj l (k1 ++ k2) <-> disj l k1 /\ disj l k2.
Proof.
  split.
  - intros H%disj_sym%disj_app_l. destruct H. split; by apply disj_sym.
  - intros [H1 H2]. apply disj_sym, disj_app_l. split; by apply disj_sym.
Qed.

Lemma disj_nil_l k : disj [] k.
Proof. intros x Hx. by apply elem_of_nil in Hx. Qed.

Lemma disj_nil_r l : disj l [].
Proof. intros x _ Hx. by apply elem_of_nil in Hx. Qed.

(** Break the separation facts of the context into facts about single
    cells and subtrees. *)
Ltac sep_norm :=
  repeat match goal with
    | H : NoDup (_ ++ _) |- _ => apply NoDup_app_disj in H as (? & ? & ?)
    | H : NoDup (_ :: _) |- _ => apply NoDup_cons in H as [? ?]
    | H : NoDup [] |- _ => clear H
    | H : disj (_ :: _) _ |- _ => apply disj_cons_l in H as [? ?]
    | H : disj (_ ++ _) _ |- _ => apply disj_app_l in H as [? ?]
    | H : disj [] _ |- _ => clear H
    | H : disj _ (_ :: _) |- _ => apply disj_cons_r in H as [? ?]
    | H : disj _ (_ ++ _) |- _ => apply disj_app_r in H as [? ?]
    | H : disj _ [] |- _ => clear H
    | H : _ ∉ _ ++ _ |- _ => apply not_elem_of_app in H as [? ?]
    | H : _ ∉ _ :: _ |- _ => apply not_elem_of_cons in H as [? ?]
    | H : _ ∉ [] |- _ => clear H
    end.

Ltac sep_solve :=
  repeat match goal with
    | |- _ /\ _ => split
    | |- _ ∉ _ ++ _ => apply not_elem_of_app
    | |- _ ∉ _ :: _ => apply not_elem_of_cons
    | |- _ ∉ [] => apply not_elem_of_nil
    | |- NoDup (_ ++ _) => apply NoDup_app_disj
    | |- NoDup (_ :: _) => apply NoDup_cons
    | |- NoDup [] => apply NoDup_nil_2
    | |- disj (_ :: _) _ => apply disj_cons_l
    | |- disj (_ ++ _) _ => apply disj_app_l
    | |- disj [] _ => apply disj_nil_l
    | |- disj _ (_ :: _) => apply disj_cons_r
    | |- disj _ (_ ++ _) => apply disj_app_r
    | |- disj _ [] => apply disj_nil_r
    end;
  first [ assumption
        | apply not_eq_sym; assumption
        | apply disj_sym; assumption ].

(** ** Plugging *)

Lemma plug_app t k1 k2 : plug t (k1 ++ k2) = plug (plug t k1) k2.
Proof. revert t. induction k1 as [|f k1 IH]; intros t; cbn; [done|]. apply IH. Qed.

Lemma nodes_plug t k : nodes (plug t k) = nodes_l k ++ nodes t ++ nodes_r k.
Proof.
  revert t. induction k as [|[c a v o r|c l a v o] k IH]; intros t; cbn.
  - by rewrite app_nil_r.
  - rewrite IH. cbn. by rewrite <- !app_assoc.
  - rewrite IH. cbn. by rewrite <- !app_assoc.
Qed.

Lemma addrs_plug t k : addrs (plug t k) ≡ₚ addrs t ++ ctx_addrs k.
Proof.
  revert t. induction k as [|[c a v o r|c l a v o] k IH]; intros t; cbn.
  - by rewrite app_nil_r.
  - rewrite IH. cbn. by rewrite <- !app_assoc.
  - rewrite IH. cbn. rewrite <- !app_assoc. cbn.
    rewrite <- !Permutation_middle. f_equiv.
    rewrite !app_assoc. f_equiv. apply Permutation_app_comm.
Qed.

Lemma addrs_plug_nodes t t' k :
  nodes t = nodes t' -> addrs (plug t k) = addrs (plug t' k).
Proof.
  intros H. rewrite !addrs_nodes, !nodes_plug. by rewrite H.
Qed.

(** ** Trees and contexts in the heap *)

Lemma rep_T h par p c l a v o r :
  rep h par p (T c l a v o r) <->
  p = Some a /\
  exists ts,
    h !! a = Some (mk_node (mk_range v o) c ts par (root_ptr l) (root_ptr r)) /\
    rep h (Some a) (root_ptr l) l /\ rep h (Some a) (root_ptr r) r.
Proof.
  cbn. split.
  - intros (-> & n & Hn & Hc & Hrg & Hp & Hl & Hr). split; [done|].
    destruct n as [rg nc nts np nl nr]. cbn in *. subst.
    exists nts. rewrite <- (rep_root _ _ _ _ Hl), <- (rep_root _ _ _ _ Hr). done.
  - intros (-> & ts & Hn & Hl & Hr). split; [done|].
    eexists. split; [exact Hn|]. cbn. done.
Qed.

Lemma rep_E h par p : rep h par p E <-> p = None.
Proof. done. Qed.

Lemma rep_ptr h par p t : rep h par p t -> rep h par (root_ptr t) t.
Proof. intros H. by rewrite <- (rep_root _ _ _ _ H). Qed.

Lemma rep_ctx_FL h rootp c a v o r k p :
  rep_ctx h rootp (FL c a v o r :: k) p <->
  (exists ts,
     h !! a = Some (mk_node (mk_range v o) c ts (ctx_par k) p (root_ptr r)) /\
     rep h (Some a) (root_ptr r) r) /\
  rep_ctx h rootp k (Some a).
Proof.
  cbn. split.
  - intros [(n & Hn & Hc & Hrg & Hp & Hl & Hr) Hk]. split; [|done].
    destruct n as [rg nc nts np nl nr]. cbn in *. subst.
    exists nts. rewrite <- (rep_root _ _ _ _ Hr). done.
  - intros [(ts & Hn & Hr) Hk]. split; [|done].
    eexists. split; [exact Hn|]. cbn. done.
Qed.

Lemma rep_ctx_FR h rootp c l a v o k p :
  rep_ctx h rootp (FR c l a v o :: k) p <->
  (exists ts,
     h !! a = Some (mk_node (mk_range v o) c ts (ctx_par k) (root_ptr l) p) /\
     rep h (Some a) (root_ptr l) l) /\
  rep_ctx h rootp k (Some a).
Proof.
  cbn. split.
  - intros [(n & Hn & Hc & Hrg & Hp & Hl & Hr) Hk]. split; [|done].
    destruct n as [rg nc nts np nl nr]. cbn in *. subst.
    exists nts. rewrite <- (rep_root _ _ _ _ Hr). done.
  - intros [(ts & Hn & Hr) Hk]. split; [|done].
    eexists. split; [exact Hn|]. cbn. done.
Qed.

Lemma rep_plug h rootp t k :
  rep h None rootp (plug t k) <->
  rep h (ctx_par k) (root_ptr t) t /\ rep_ctx h rootp k (root_ptr t).
Proof.
  revert t. induction k as [|[c a v o r|c l a v o] k IH]; intros t.
  - cbn [plug ctx_par rep_ctx]. split.
    + intros H. split; [by eapply rep_ptr|]. by eapply rep_root.
    + intros [H ->]. done.
  - cbn [plug fill]. rewrite IH, rep_T, rep_ctx_FL. cbn [root_ptr ctx_par faddr].
    split.
    + intros [(_ & ts & Hn & Hl & Hr) Hk]. eauto 10.
    + intros [Ht [(ts & Hn & Hr) Hk]]. eauto 10.
  - cbn [plug fill]. rewrite IH, rep_T, rep_ctx_FR. cbn [root_ptr ctx_par faddr].
    split.
    + intros [(_ & ts & Hn & Hl & Hr) Hk]. eauto 10.
    + intros [Ht [(ts & Hn & Hl) Hk]]. eauto 10.
Qed.

Lemma rep_ctx_agree h h' rootp k p :
  (forall b, b ∈ ctx_addrs k -> h' !! b = h !! b) ->
  rep_ctx h rootp k p -> rep_ctx h' rootp k p.
Proof.
  revert p. induction k as [|[c a v o r|c l a v o] k IH]; intros p Hag; [done| |].
  - rewrite !rep_ctx_FL. intros [(ts & Hn & Hr) Hk]. split.
    + exists ts. rewrite Hag by (cbn; left). split; [done|].
      eapply rep_agree; [|exact Hr]. intros b Hb. apply Hag. cbn.
      right. apply elem_of_app. by left.
    + apply IH; [|done]. intros b Hb. apply Hag. cbn.
      right. apply elem_of_app. by right.
  - rewrite !rep_ctx_FR. intros [(ts & Hn & Hr) Hk]. split.
    + exists ts. rewrite Hag by (cbn; left). split; [done|].
      eapply rep_agree; [|exact Hr]. intros b Hb. apply Hag. cbn.
      right. apply elem_of_app. by left.
    + apply IH; [|done]. intros b Hb. apply Hag. cbn.
      right. apply elem_of_app. by right.
Qed.

Lemma rep_ctx_frame h a n rootp k p :
  a ∉ ctx_addrs k -> rep_ctx h rootp k p -> rep_ctx (<[a := n]> h) rootp k p.
Proof.
  intros Ha. apply rep_ctx_agree. intros b Hb.
  apply lookup_insert_ne. by intros ->.
Qed.


(** ** Runs that end well *)

Lemma holds_bind {A B} (m : M A) (k : A -> M B) s Q :
  holds (m s) (fun a s' => holds (k a s') Q) -> holds (bind m k s) Q.
Proof. unfold bind. destruct (m s); cbn; auto. Qed.

Lemma holds_ret {A} (a : A) s (Q : A -> state -> Prop) : Q a s -> holds (ret a s) Q.
Proof. done. Qed.

Lemma holds_eq {A} (m : M A) s a s' (Q : A -> state -> Prop) :
  m s = Ok a s' -> Q a s' -> holds (m s) Q.
Proof. intros ->. done. Qed.

Lemma holds_mono {A} (o : outcome A) (P Q : A -> state -> Prop) :
  holds o P -> (forall a s, P a s -> Q a s) -> holds o Q.
Proof. destruct o; cbn; auto. Qed.

Lemma holds_elim {A} (o : outcome A) (Q : A -> state -> Prop) :
  holds o Q -> exists a s, o = Ok a s /\ Q a s.
Proof. destruct o; cbn; [eauto|done]. Qed.

Lemma holds_elim' {A} (o : outcome A) (P : state -> Prop) a :
  holds o (fun a' s => a' = a /\ P s) -> exists s, o = Ok a s /\ P s.
Proof. destruct o; cbn; [intros [-> ?]; eauto|done]. Qed.

Lemma holds_when (b : bool) (m : M unit) s Q :
  (if b then holds (m s) Q else Q tt s) -> holds (when b m s) Q.
Proof. destruct b; auto. Qed.

Lemma holds_if {A} (b : bool) (m1 m2 : M A) s Q :
  (if b then holds (m1 s) Q else holds (m2 s) Q) ->
  holds ((if b then m1 else m2) s) Q.
Proof. destruct b; auto. Qed.

(** ** Opening and closing [Zt] *)

Lemma NoDup_plug t k (fl : list nat) :
  NoDup (addrs (plug t k) ++ fl) <-> NoDup (addrs t ++ ctx_addrs k ++ fl).
Proof. by rewrite addrs_plug, <- app_assoc. Qed.

Lemma Zt_open F fr tt0 s k t :
  Zt F fr tt0 s k t ->
  exists h rootp,
    s = mk_state h (Some (set_root rootp tt0)) /\
    rep h (ctx_par k) (root_ptr t) t /\
    rep_ctx h rootp k (root_ptr t) /\
    NoDup (addrs t ++ ctx_addrs k ++ fr) /\
    F h /\
    (forall h' a n, a ∉ fr -> F h' -> F (<[a := n]> h')).
Proof.
  intros (h & rootp & -> & Hrep & Hnd & Hfree).
  apply rep_plug in Hrep as [Ht Hk]. apply NoDup_plug in Hnd. eauto 10.
Qed.

Lemma Zt_close (F : gmap nat rb_node_t -> Prop) fr tt0 h tt k t :
  tt = set_root (root tt) tt0 ->
  rep h (ctx_par k) (root_ptr t) t ->
  rep_ctx h (root tt) k (root_ptr t) ->
  NoDup (addrs t ++ ctx_addrs k ++ fr) ->
  F h ->
  (forall h' a n, a ∉ fr -> F h' -> F (<[a := n]> h')) ->
  Zt F fr tt0 (mk_state h (Some tt)) k t.
Proof.
  intros Htt Ht Hk Hnd Hfree Hst. exists h, (root tt). split; [by rewrite <- Htt|].
  split; [by apply rep_plug|]. split; [by apply NoDup_plug|done].
Qed.

Lemma free_ok_frame h a n tt fl :
  a ∉ fl -> free_ok h tt fl -> free_ok (<[a := n]> h) tt fl.
Proof.
  intros Ha. apply free_ok_agree. intros b Hb.
  apply lookup_insert_ne. by intros ->.
Qed.

Lemma free_frame_stable tt0 fl h a n :
  a ∉ fl -> free_frame tt0 fl h -> free_frame tt0 fl (<[a := n]> h).
Proof. apply free_ok_frame. Qed.

(** ** Reading and writing the node in focus *)

Lemma Z_rd {A} F fr tt0 s k c l a v o r (f : rb_node_t -> A) Q :
  Zt F fr tt0 s k (T c l a v o r) ->
  (forall ts,
     Q (f (mk_node (mk_range v o) c ts (ctx_par k) (root_ptr l) (root_ptr r))) s) ->
  holds (rd (Some a) f s) Q.
Proof.
  intros (h & rootp & -> & Ht & _)%Zt_open HQ.
  apply rep_T in Ht as (_ & ts & Hn & _).
  eapply holds_eq; [by apply run_rd|]. apply HQ.
Qed.

Lemma Z_wr F fr tt0 s k c l a v o r upd c' v' o' Q :
  Zt F fr tt0 s k (T c l a v o r) ->
  (forall ts, exists ts',
     upd (mk_node (mk_range v o) c ts (ctx_par k) (root_ptr l) (root_ptr r))
     = mk_node (mk_range v' o') c' ts' (ctx_par k) (root_ptr l) (root_ptr r)) ->
  (forall s', Zt F fr tt0 s' k (T c' l a v' o' r) -> Q tt s') ->
  holds (wr (Some a) upd s) Q.
Proof.
  intros (h & rootp & -> & Ht & Hk & Hnd & Hfree & Hst)%Zt_open Hupd HQ.
  apply rep_T in Ht as (_ & ts & Hn & Hl & Hr).
  destruct (Hupd ts) as [ts' Hupd'].
  eapply holds_eq; [by apply run_wr|]. rewrite Hupd'.
  cbn [root_ptr addrs] in *. sep_norm.
  apply HQ, Zt_close.
  - reflexivity.
  - apply rep_T. split; [done|]. exists ts'.
    rewrite lookup_insert_eq. split; [done|]. split; by apply rep_frame.
  - by apply rep_ctx_frame.
  - cbn [addrs]. sep_solve.
  - by apply Hst.
  - exact Hst.
Qed.

Ltac lsimpl :=
  nsimpl;
  cbn [ctx_par faddr fsib fcol root_ptr is_lc sib_ptr gp_ptr uncle_ptr col
       negb andb orb RED BLACK].

Lemma run_conv {A} (m : M A) s a a' s' s'' :
  m s = Ok a' s'' -> a' = a -> s'' = s' -> m s = Ok a s'.
Proof. by intros -> -> ->. Qed.

(** Run to a result that is given. *)
Ltac mrun_to :=
  eapply run_conv; [ lsimpl; mrun | lsimpl; decide_bool; try reflexivity.. ].

Lemma root_ptr_ne a t : a ∉ addrs t -> Some a <> root_ptr t.
Proof.
  destruct t; cbn; [done|]. intros Ha [= ->]. apply Ha.
  apply elem_of_app. right. left.
Qed.

Lemma Z_is_black F fr tt0 s k t :
  Zt F fr tt0 s k t -> is_black (root_ptr t) s = Ok (negb (col t)) s.
Proof.
  intros (h & rootp & -> & Ht & _)%Zt_open.
  destruct t as [|c l a v o r]; [reflexivity|].
  apply rep_T in Ht as (_ & ts & Hn & _). cbn [root_ptr col].
  unfold is_black. mrun.
Qed.

Lemma Z_is_red F fr tt0 s k t :
  Zt F fr tt0 s k t -> is_red (root_ptr t) s = Ok (col t) s.
Proof.
  intros (h & rootp & -> & Ht & _)%Zt_open.
  destruct t as [|c l a v o r]; [reflexivity|].
  apply rep_T in Ht as (_ & ts & Hn & _). cbn [root_ptr col].
  unfold is_red. mrun.
Qed.

Section focus.
Context (F : gmap nat rb_node_t -> Prop) (fr : list nat).
Context (tt0 : rb_tree_t) (s : state) (k : ctx).
Context (c : bool) (l : tr) (a : nat) (v o : Z) (r : tr).
Hypothesis HZ : Zt F fr tt0 s k (T c l a v o r).

Lemma Z_is_root : is_root (Some a) s = Ok (bool_decide (ctx_par k = None)) s.
Proof using HZ.
  destruct (Zt_open _ _ _ _ _ _ HZ) as (h & rootp & -> & Ht & _).
  apply rep_T in Ht as (_ & ts & Hn & _). unfold is_root. mrun.
Qed.

Lemma Z_has_left_child :
  has_left_child (Some a) s = Ok (bool_decide (root_ptr l <> None)) s.
Proof using HZ.
  destruct (Zt_open _ _ _ _ _ _ HZ) as (h & rootp & -> & Ht & _).
  apply rep_T in Ht as (_ & ts & Hn & _). unfold has_left_child. mrun.
Qed.

Lemma Z_has_right_child :
  has_right_child (Some a) s = Ok (bool_decide (root_ptr r <> None)) s.
Proof using HZ.
  destruct (Zt_open _ _ _ _ _ _ HZ) as (h & rootp & -> & Ht & _).
  apply rep_T in Ht as (_ & ts & Hn & _). unfold has_right_child. mrun.
Qed.

Lemma Z_is_left_child : is_left_child (Some a) s = Ok (is_lc k) s.
Proof using HZ.
  destruct (Zt_open _ _ _ _ _ _ HZ) as (h & rootp & -> & Ht & Hk & Hnd & _).
  apply rep_T in Ht as (_ & ts & Hn & _).
  destruct k as [|[cP p pv po sb|cP sb p pv po] k1].
  - unfold is_left_child. mrun.
  - apply rep_ctx_FL in Hk as [(ts' & Hp & _) _].
    unfold is_left_child. mrun. nsimpl. cbn [root_ptr].
    by rewrite bool_decide_eq_true_2.
  - apply rep_ctx_FR in Hk as [(ts' & Hp & _) _].
    cbn [addrs ctx_addrs faddrs faddr fsib app] in Hnd. sep_norm.
    unfold is_left_child. mrun. nsimpl. cbn [root_ptr].
    rewrite bool_decide_eq_false_2 by (by apply root_ptr_ne). reflexivity.
Qed.

Lemma Z_get_sibling : get_sibling (Some a) s = Ok (sib_ptr k) s.
Proof using HZ.
  pose proof Z_is_left_child as Hlc.
  destruct (Zt_open _ _ _ _ _ _ HZ) as (h & rootp & -> & Ht & Hk & Hnd & _).
  apply rep_T in Ht as (_ & ts & Hn & _).
  destruct k as [|[cP p pv po sb|cP sb p pv po] k1].
  - unfold get_sibling. mrun.
  - apply rep_ctx_FL in Hk as [(ts' & Hp & _) _].
    unfold get_sibling.
    eapply run_bind; [by apply run_rd|]. nsimpl. cbn [ctx_par]. decide_bool.
    eapply run_bind; [exact Hlc|]. cbn [is_lc]. mrun_to.
  - apply rep_ctx_FR in Hk as [(ts' & Hp & _) _].
    unfold get_sibling.
    eapply run_bind; [by apply run_rd|]. nsimpl. cbn [ctx_par]. decide_bool.
    eapply run_bind; [exact Hlc|]. cbn [is_lc]. mrun_to.
Qed.

Lemma Z_get_grandparent : get_grandparent (Some a) s = Ok (gp_ptr k) s.
Proof using HZ.
  destruct (Zt_open _ _ _ _ _ _ HZ) as (h & rootp & -> & Ht & Hk & Hnd & _).
  apply rep_T in Ht as (_ & ts & Hn & _).
  destruct k as [|[cP p pv po sb|cP sb p pv po] k1].
  - unfold get_grandparent. mrun_to.
  - apply rep_ctx_FL in Hk as [(ts' & Hp & _) _].
    unfold get_grandparent. mrun_to.
  - apply rep_ctx_FR in Hk as [(ts' & Hp & _) _].
    unfold get_grandparent. mrun_to.
Qed.
End focus.

Lemma Z_get_uncle F fr tt0 s k c l a v o r :
  Zt F fr tt0 s k (T c l a v o r) ->
  get_uncle (Some a) s = Ok (uncle_ptr k) s.
Proof.
  intros HZ.
  pose proof (Z_get_grandparent _ _ _ _ _ _ _ _ _ _ _ HZ) as Hgp.
  destruct (Zt_open _ _ _ _ _ _ HZ) as (h & rootp & -> & Ht & Hk & Hnd & _).
  apply rep_T in Ht as (_ & ts & Hn & _).
  unfold get_uncle.
  eapply run_bind; [by apply run_rd|]. lsimpl.
  destruct k as [|fP [|fG k2]].
  - mrun_to.
  - lsimpl. decide_bool. eapply run_bind; [exact Hgp|]. mrun_to.
  - lsimpl. decide_bool. eapply run_bind; [exact Hgp|]. lsimpl. decide_bool.
    eapply run_bind; [by apply run_rd|]. lsimpl.
    change (Zt F fr tt0 (mk_state h (Some (set_root rootp tt0))) (fG :: k2)
              (fill fP (T c l a v o r))) in HZ.
    destruct fP; cbn [fill faddr] in *;
      exact (Z_get_sibling _ _ _ _ _ _ _ _ _ _ _ HZ).
Qed.

(** ** Rotations *)

Ltac rep_solve :=
  lazymatch goal with
  | |- rep _ _ _ E => reflexivity
  | |- rep _ _ _ (T _ _ _ _ _ _) =>
      apply rep_T; split; [reflexivity|];
      eexists; split; [heap_lookup|]; split; rep_solve
  | |- rep (<[_ := _]> _) _ _ _ => apply rep_frame; [sep_solve | rep_solve]
  | |- rep _ _ _ _ => eassumption
  end.

Ltac ctx_solve :=
  lazymatch goal with
  | |- rep_ctx _ _ [] _ => reflexivity
  | |- rep_ctx _ _ (FL _ _ _ _ _ :: _) _ =>
      apply rep_ctx_FL; split;
      [ eexists; split; [heap_lookup | rep_solve ] | ctx_solve ]
  | |- rep_ctx _ _ (FR _ _ _ _ _ :: _) _ =>
      apply rep_ctx_FR; split;
      [ eexists; split; [heap_lookup | rep_solve ] | ctx_solve ]
  | |- rep_ctx (<[_ := _]> _) _ _ _ =>
      apply rep_ctx_frame; [sep_solve | ctx_solve]
  | |- rep_ctx _ _ _ _ => eassumption
  end.

Ltac free_solve Hst :=
  lazymatch goal with
  | |- _ (<[_ := _]> _) => apply Hst; [sep_solve | free_solve Hst]
  | |- _ => eassumption
  end.

(** Take the node at the root of a represented tree, or the first frame of
    a represented context, into the hypotheses. *)
Ltac open_T H :=
  let ts := fresh "ts" in
  let Hn := fresh "Hn" in
  let Hl := fresh "Hl" in
  let Hr := fresh "Hr" in
  apply rep_T in H as (_ & ts & Hn & Hl & Hr).

Ltac open_F H :=
  let ts := fresh "ts" in
  let Hn := fresh "Hn" in
  let Hs := fresh "Hs" in
  let Hk := fresh "Hk" in
  first [ apply rep_ctx_FL in H as [(ts & Hn & Hs) Hk]
        | apply rep_ctx_FR in H as [(ts & Hn & Hs) Hk] ].

Ltac sep_open H :=
  cbn [addrs ctx_addrs faddrs faddr fsib app] in H;
  rewrite <- ?app_assoc in H;
  cbn [app] in H;
  sep_norm.

Lemma Z_rotate_left F fr tt0 s k c l a v o rc rl b rv ro rr Q :
  Zt F fr tt0 s k (T c l a v o (T rc rl b rv ro rr)) ->
  (forall s', Zt F fr tt0 s' k (T rc (T c l a v o rl) b rv ro rr) -> Q tt s') ->
  holds (rotate_left (Some a) s) Q.
Proof.
  intros (h & rootp & -> & Ht & Hk & Hnd & Hfree & Hst)%Zt_open HQ.
  open_T Ht. open_T Hr. cbn [root_ptr] in *.
  destruct rl as [|rlc rll x rlv rlo rlr];
    [|open_T Hl0];
    (destruct k as [|[cg g gv go gs|cg gs g gv go] k1];
     [cbn in Hk; subst rootp | open_F Hk | open_F Hk]);
    sep_open Hnd; cbn [root_ptr ctx_par faddr] in *;
    try match goal with
      | H : a ∉ addrs gs |- _ => pose proof (root_ptr_ne _ _ H)
      end.
  all: eapply holds_eq;
    [ unfold rotate_left, swap_parents; solve [mrun]
    | apply HQ; apply Zt_close;
      [ reflexivity | rep_solve | ctx_solve
      | cbn [addrs ctx_addrs faddrs faddr fsib app]; rewrite <- ?app_assoc;
        cbn [app]; sep_solve
      | free_solve Hst
      | exact Hst ] ].
Qed.

Lemma Z_rotate_right F fr tt0 s k c lc ll b lv lo lr a v o r Q :
  Zt F fr tt0 s k (T c (T lc ll b lv lo lr) a v o r) ->
  (forall s', Zt F fr tt0 s' k (T lc ll b lv lo (T c lr a v o r)) -> Q tt s') ->
  holds (rotate_right (Some a) s) Q.
Proof.
  intros (h & rootp & -> & Ht & Hk & Hnd & Hfree & Hst)%Zt_open HQ.
  open_T Ht. open_T Hl. cbn [root_ptr] in *.
  destruct lr as [|lrc lrl x lrv lro lrr];
    [|open_T Hr0];
    (destruct k as [|[cg g gv go gs|cg gs g gv go] k1];
     [cbn in Hk; subst rootp | open_F Hk | open_F Hk]);
    sep_open Hnd; cbn [root_ptr ctx_par faddr] in *;
    try match goal with
      | H : a ∉ addrs gs |- _ => pose proof (root_ptr_ne _ _ H)
      end.
  all: eapply holds_eq;
    [ unfold rotate_right, swap_parents; solve [mrun]
    | apply HQ; apply Zt_close;
      [ reflexivity | rep_solve | ctx_solve
      | cbn [addrs ctx_addrs faddrs faddr fsib app]; rewrite <- ?app_assoc;
        cbn [app]; sep_solve
      | free_solve Hst
      | exact Hst ] ].
Qed.


(** ** Running code on a tree with a focus

    The hypothesis [Zt F fr tt0 s k t] describes the state [s]; a step finds
    the node that the code touches in [k] or [t], moves the focus there and
    applies the lemma for the operation. *)

Ltac zfind_down a k t :=
  lazymatch t with
  | T _ _ a _ _ _ => constr:((k, t))
  | T ?c ?l ?b ?v ?o ?r =>
      match constr:(tt) with
      | _ => zfind_down a (FL c b v o r :: k) l
      | _ => zfind_down a (FR c l b v o :: k) r
      end
  end.

Ltac zfind a k t :=
  match constr:(tt) with
  | _ => zfind_down a k t
  | _ =>
      lazymatch k with
      | FL ?c ?b ?v ?o ?r :: ?k' => zfind a k' (T c t b v o r)
      | FR ?c ?l ?b ?v ?o :: ?k' => zfind a k' (T c l b v o t)
      end
  end.

Ltac zfind_sub_down u k t :=
  match constr:(tt) with
  | _ => lazymatch t with u => constr:((k, t)) end
  | _ =>
      lazymatch t with
      | T ?c ?l ?b ?v ?o ?r =>
          match constr:(tt) with
          | _ => zfind_sub_down u (FL c b v o r :: k) l
          | _ => zfind_sub_down u (FR c l b v o :: k) r
          end
      end
  end.

Ltac zfind_sub u k t :=
  match constr:(tt) with
  | _ => zfind_sub_down u k t
  | _ =>
      lazymatch k with
      | FL ?c ?b ?v ?o ?r :: ?k' => zfind_sub u k' (T c t b v o r)
      | FR ?c ?l ?b ?v ?o :: ?k' => zfind_sub u k' (T c l b v o t)
      end
  end.

(** The hypothesis about the current state, with the focus on the node
    [a], or on the subtree [u]. *)
Ltac zat a s tac :=
  match goal with
  | HZ : Zt ?F ?fr ?tt0 s ?k ?t |- _ =>
      let kt := zfind a k t in
      lazymatch kt with
      | (?k', ?t') => tac (HZ : Zt F fr tt0 s k' t')
      end
  end.

Ltac zat_sub u s tac :=
  match goal with
  | HZ : Zt ?F ?fr ?tt0 s ?k ?t |- _ =>
      let kt := zfind_sub u k t in
      lazymatch kt with
      | (?k', ?t') => tac (HZ : Zt F fr tt0 s k' t')
      end
  end.

Lemma is_black_None s : is_black None s = Ok true s.
Proof. reflexivity. Qed.

Lemma is_red_None s : is_red None s = Ok false s.
Proof. reflexivity. Qed.

Ltac zclear s :=
  repeat match goal with
    | H : Zt _ _ _ s _ _ |- _ => clear H
    end;
  try clear s.

Ltac zstep :=
  lazymatch goal with
  | |- holds (bind _ _ _) _ => apply holds_bind
  | |- holds (ret _ _) _ => apply holds_ret
  | |- holds (rd (Some ?a) _ ?s) _ =>
      zat a s ltac:(fun H => eapply Z_rd; [exact H | intros ?])
  | |- holds (wr (Some ?a) _ ?s) _ =>
      zat a s ltac:(fun H =>
        eapply Z_wr;
        [ exact H
        | intros ?; eexists; nsimpl; reflexivity
        | let s' := fresh "s" in
          let HZ := fresh "HZ" in
          intros s' HZ; zclear s ])
  | |- holds (set_black ?p ?s) _ => unfold set_black
  | |- holds (set_red ?p ?s) _ => unfold set_red
  | |- holds (is_black None ?s) _ => eapply holds_eq; [apply is_black_None|]
  | |- holds (is_red None ?s) _ => eapply holds_eq; [apply is_red_None|]
  | |- holds (is_black (Some ?a) ?s) _ =>
      zat a s ltac:(fun H => eapply holds_eq; [exact (Z_is_black _ _ _ _ _ _ H)|])
  | |- holds (is_red (Some ?a) ?s) _ =>
      zat a s ltac:(fun H => eapply holds_eq; [exact (Z_is_red _ _ _ _ _ _ H)|])
  | |- holds (is_black (root_ptr ?u) ?s) _ =>
      zat_sub u s ltac:(fun H => eapply holds_eq; [exact (Z_is_black _ _ _ _ _ _ H)|])
  | |- holds (is_red (root_ptr ?u) ?s) _ =>
      zat_sub u s ltac:(fun H => eapply holds_eq; [exact (Z_is_red _ _ _ _ _ _ H)|])
  | |- holds (is_root (Some ?a) ?s) _ =>
      zat a s ltac:(fun H =>
        eapply holds_eq; [exact (Z_is_root _ _ _ _ _ _ _ _ _ _ _ H)|])
  | |- holds (is_left_child (Some ?a) ?s) _ =>
      zat a s ltac:(fun H =>
        eapply holds_eq; [exact (Z_is_left_child _ _ _ _ _ _ _ _ _ _ _ H)|])
  | |- holds (get_sibling (Some ?a) ?s) _ =>
      zat a s ltac:(fun H =>
        eapply holds_eq; [exact (Z_get_sibling _ _ _ _ _ _ _ _ _ _ _ H)|])
  | |- holds (get_grandparent (Some ?a) ?s) _ =>
      zat a s ltac:(fun H =>
        eapply holds_eq; [exact (Z_get_grandparent _ _ _ _ _ _ _ _ _ _ _ H)|])
  | |- holds (get_uncle (Some ?a) ?s) _ =>
      zat a s ltac:(fun H =>
        eapply holds_eq; [exact (Z_get_uncle _ _ _ _ _ _ _ _ _ _ _ H)|])
  | |- holds (has_left_child (Some ?a) ?s) _ =>
      zat a s ltac:(fun H =>
        eapply holds_eq; [exact (Z_has_left_child _ _ _ _ _ _ _ _ _ _ _ H)|])
  | |- holds (has_right_child (Some ?a) ?s) _ =>
      zat a s ltac:(fun H =>
        eapply holds_eq; [exact (Z_has_right_child _ _ _ _ _ _ _ _ _ _ _ H)|])
  | |- holds (rotate_left (Some ?a) ?s) _ =>
      zat a s ltac:(fun H =>
        eapply Z_rotate_left;
        [ exact H
        | let s' := fresh "s" in
          let HZ := fresh "HZ" in
          intros s' HZ; zclear s ])
  | |- holds (rotate_right (Some ?a) ?s) _ =>
      zat a s ltac:(fun H =>
        eapply Z_rotate_right;
        [ exact H
        | let s' := fresh "s" in
          let HZ := fresh "HZ" in
          intros s' HZ; zclear s ])
  | |- holds (when true _ _) _ => unfold when at 1
  | |- holds (when false _ _) _ => unfold when at 1
  | |- holds (andM _ _ _) _ => unfold andM at 1
  | |- holds (orM _ _ _) _ => unfold orM at 1
  | |- holds ((if true then _ else _) _) _ => cbv iota
  | |- holds ((if false then _ else _) _) _ => cbv iota
  | |- holds ((if _ then _ else _) _) _ => progress (lsimpl; decide_bool)
  | |- holds (when _ _ _) _ => progress (lsimpl; decide_bool)
  | |- holds ((fun _ => _) _ _) _ => cbv beta
  | |- (fun _ _ => _) _ _ => cbv beta
  end.

Ltac zrun := repeat (zstep; lsimpl).

Lemma Zt_NoDup F fr tt0 s k t :
  Zt F fr tt0 s k t -> NoDup (addrs t ++ ctx_addrs k ++ fr).
Proof. intros (h & rootp & _ & _ & _ & Hnd & _)%Zt_open. exact Hnd. Qed.

(** Cells of the tree are apart. *)
Ltac zsep :=
  lazymatch goal with
  | HZ : Zt _ _ _ _ _ _ |- _ =>
      let H := fresh in
      pose proof (Zt_NoDup _ _ _ _ _ _ HZ) as H; sep_open H;
      first [ sep_solve | apply root_ptr_ne; sep_solve
            | apply not_eq_sym, root_ptr_ne; sep_solve ]
  end.

(** Decide the comparison of two pointers in the goal. *)
Ltac zdecide :=
  match goal with
  | |- context [bool_decide (Some ?a = Some ?b)] =>
      rewrite (bool_decide_eq_false_2 (Some a = Some b))
        by (let Hne := fresh in
            assert (a <> b) as Hne by zsep; congruence)
  | |- context [bool_decide (Some ?a = root_ptr ?u)] =>
      rewrite (bool_decide_eq_false_2 (Some a = root_ptr u)) by zsep
  | |- context [bool_decide (root_ptr ?u = Some ?a)] =>
      rewrite (bool_decide_eq_false_2 (root_ptr u = Some a)) by zsep
  end.

(** Split on what the next test of the code depends on. *)
Ltac zsplit_on :=
  match goal with
  | |- context [ctx_par ?k] => is_var k; destruct k as [|[]]
  | |- context [uncle_ptr (_ :: ?k)] => is_var k; destruct k as [|[]]
  | |- context [gp_ptr (_ :: ?k)] => is_var k; destruct k as [|[]]
  | |- context [root_ptr ?u] => is_var u; destruct u
  | |- context [col ?u] => is_var u; destruct u
  | |- holds ((if ?c then _ else _) _) _ => is_var c; destruct c
  | |- holds ((if negb ?c then _ else _) _) _ => is_var c; destruct c
  | |- holds (when ?c _ _) _ => is_var c; destruct c
  | |- holds (when (negb ?c) _ _) _ => is_var c; destruct c
  | |- context [match ?x with _ => _ end] =>
      is_var x;
      lazymatch type of x with
      | list frame => destruct x as [|[]]
      | ctx => destruct x as [|[]]
      | frame => destruct x
      | tr => destruct x
      | bool => destruct x
      end
  end.

(** ** Rebalancing after an insertion *)

Ltac fix_simpl H :=
  cbn [ins_fix fcol fsib fset fill col paint negb andb orb RED BLACK] in H;
  try discriminate H.

Lemma try_insert_rebalance_spec F fr tt0 fuel : forall k c l a v o r s t' Q,
  Zt F fr tt0 s k (T c l a v o r) ->
  ins_fix k (T c l a v o r) = Some t' ->
  (length k < fuel)%nat ->
  (forall s', Zt F fr tt0 s' [] t' -> Q tt s') ->
  holds (try_insert_rebalance fuel (Some a) s) Q.
Proof.
  induction fuel as [|fuel IH]; intros k c l a v o r s t' Q HZ Hfix Hfuel HQ; [lia|].
  cbn [try_insert_rebalance].
  repeat (zrun;
          first
            [ (* the loop goes on from the grandparent *)
              lazymatch goal with
              | |- holds (try_insert_rebalance _ (Some ?g) ?s) _ =>
                  zat g s ltac:(fun H =>
                    eapply IH; [exact H | exact Hfix | cbn [length] in Hfuel; lia
                               | exact HQ])
              end
            | (* the loop is left *)
              lazymatch goal with
              | |- Q _ _ =>
                  apply HQ; injection Hfix as <-;
                  lazymatch goal with HZ : Zt _ _ _ _ _ _ |- _ => exact HZ end
              end
            | zdecide
            | zsplit_on; lsimpl; fix_simpl Hfix ]).
Qed.

(** ** Rebalancing before a deletion *)

Ltac dfix_simpl H :=
  cbn [del_fix del_456_l del_456_r col negb andb orb RED BLACK] in H;
  try discriminate H.

Lemma delete_rebalance_spec F fr tt0 fuel : forall k c l a v o r s k' Q,
  Zt F fr tt0 s k (T c l a v o r) ->
  del_fix k = Some k' ->
  (length k < fuel)%nat ->
  (forall s', Zt F fr tt0 s' k' (T c l a v o r) -> Q tt s') ->
  holds (delete_rebalance fuel (Some a) s) Q.
Proof.
  induction fuel as [|fuel IH]; intros k c l a v o r s k' Q HZ Hfix Hfuel HQ; [lia|].
  cbn [delete_rebalance].
  repeat (zrun;
          first
            [ (* the loop goes on from the parent *)
              lazymatch goal with
              | |- holds (delete_rebalance _ (Some ?p) ?s) _ =>
                  let Hrec := fresh "Hrec" in
                  destruct (del_fix _) eqn:Hrec in Hfix; [|discriminate Hfix];
                  injection Hfix as <-;
                  zat p s ltac:(fun H =>
                    eapply IH;
                    [ exact H | exact Hrec | cbn [length] in Hfuel; lia
                    | let s' := fresh "s" in
                      let HZ' := fresh "HZ" in
                      intros s' HZ'; apply HQ; exact HZ' ])
              end
            | (* the loop is left *)
              lazymatch goal with
              | |- Q _ _ =>
                  apply HQ; injection Hfix as <-;
                  lazymatch goal with HZ : Zt _ _ _ _ _ _ |- _ => exact HZ end
              end
            | zdecide
            | zsplit_on; lsimpl; dfix_simpl Hfix ]).
Qed.


(** ** The way down to a successor *)

Lemma Zt_plug_eq F fr tt0 s k t k' t' :
  plug t k = plug t' k' -> Zt F fr tt0 s k t -> Zt F fr tt0 s k' t'.
Proof. unfold Zt. by intros ->. Qed.

Lemma descend_r_app t : forall k,
  descend_r t k = ((descend_r t []).1 ++ k, (descend_r t []).2).
Proof.
  induction t as [|c l _ a v o r IH]; intros k; [done|].
  cbn [descend_r]. destruct r as [|rc rl ra rv ro rr]; [done|].
  rewrite (IH (FR c l a v o :: k)), (IH [FR c l a v o]). cbn [fst snd].
  by rewrite <- app_assoc.
Qed.

Lemma descend_l_app t : forall k,
  descend_l t k = ((descend_l t []).1 ++ k, (descend_l t []).2).
Proof.
  induction t as [|c l IH a v o r _]; intros k; [done|].
  cbn [descend_l]. destruct l as [|lc ll la lv lo lr]; [done|].
  rewrite (IH (FL c a v o r :: k)), (IH [FL c a v o r]). cbn [fst snd].
  by rewrite <- app_assoc.
Qed.

Lemma plug_descend_r t : forall k,
  plug (descend_r t k).2 (descend_r t k).1 = plug t k.
Proof.
  induction t as [|c l _ a v o r IH]; intros k; [done|].
  cbn [descend_r]. destruct r as [|rc rl ra rv ro rr]; [done|].
  by rewrite IH.
Qed.

Lemma plug_descend_l t : forall k,
  plug (descend_l t k).2 (descend_l t k).1 = plug t k.
Proof.
  induction t as [|c l IH a v o r _]; intros k; [done|].
  cbn [descend_l]. destruct l as [|lc ll la lv lo lr]; [done|].
  by rewrite IH.
Qed.

Lemma descend_r_shape t :
  t <> E -> exists c l a v o, (descend_r t []).2 = T c l a v o E.
Proof.
  induction t as [|c l _ a v o r IH]; intros Hne; [done|].
  cbn [descend_r]. destruct r as [|rc rl ra rv ro rr]; [cbn; eauto 10|].
  rewrite descend_r_app. cbn [snd]. by apply IH.
Qed.

Lemma descend_l_shape t :
  t <> E -> exists c a v o r, (descend_l t []).2 = T c E a v o r.
Proof.
  induction t as [|c l IH a v o r _]; intros Hne; [done|].
  cbn [descend_l]. destruct l as [|lc ll la lv lo lr]; [cbn; eauto 10|].
  rewrite descend_l_app. cbn [snd]. by apply IH.
Qed.

Lemma descend_r_bound t :
  t <> E ->
  (length (descend_r t []).1 + height (descend_r t []).2 <= height t)%nat.
Proof.
  induction t as [|c l _ a v o r IH]; intros Hne; [done|].
  cbn [descend_r]. destruct r as [|rc rl ra rv ro rr]; [cbn; lia|].
  rewrite descend_r_app. cbn [fst snd]. rewrite length_app. cbn [length].
  specialize (IH ltac:(done)). cbn [height] in *. lia.
Qed.

Lemma descend_l_bound t :
  t <> E ->
  (length (descend_l t []).1 + height (descend_l t []).2 <= height t)%nat.
Proof.
  induction t as [|c l IH a v o r _]; intros Hne; [done|].
  cbn [descend_l]. destruct l as [|lc ll la lv lo lr]; [cbn; lia|].
  rewrite descend_l_app. cbn [fst snd]. rewrite length_app. cbn [length].
  specialize (IH ltac:(done)). cbn [height] in *. lia.
Qed.

Lemma descend_right_spec F fr tt0 s Q : forall t k fuel,
  t <> E -> Zt F fr tt0 s k t -> (height t <= fuel)%nat ->
  Q (root_ptr (descend_r t k).2) s ->
  holds (descend_right fuel (root_ptr t) s) Q.
Proof.
  induction t as [|c l _ a v o r IH]; intros k fuel Hne HZ Hfuel HQ; [done|].
  destruct fuel as [|fuel]; [cbn in Hfuel; lia|].
  cbn [descend_right root_ptr descend_r] in *. zrun.
  destruct r as [|rc rl ra rv ro rr]; lsimpl; decide_bool; zrun; [done|].
  apply (IH (FR c l a v o :: k)); [done|exact HZ|cbn [height] in *; lia|done].
Qed.

Lemma descend_left_spec F fr tt0 s Q : forall t k fuel,
  t <> E -> Zt F fr tt0 s k t -> (height t <= fuel)%nat ->
  Q (root_ptr (descend_l t k).2) s ->
  holds (descend_left fuel (root_ptr t) s) Q.
Proof.
  induction t as [|c l IH a v o r _]; intros k fuel Hne HZ Hfuel HQ; [done|].
  destruct fuel as [|fuel]; [cbn in Hfuel; lia|].
  cbn [descend_left root_ptr descend_l] in *. zrun.
  destruct l as [|lc ll la lv lo lr]; lsimpl; decide_bool; zrun; [done|].
  apply (IH (FL c a v o r :: k)); [done|exact HZ|cbn [height] in *; lia|done].
Qed.

Lemma get_left_successor_spec F fr tt0 s Q k c l a v o r fuel :
  Zt F fr tt0 s k (T c l a v o r) -> (height l <= fuel)%nat ->
  Q (root_ptr (descend_r l []).2) s ->
  holds (get_left_successor fuel (Some a) s) Q.
Proof.
  intros HZ Hfuel HQ. unfold get_left_successor. zrun.
  destruct l as [|lc ll la lv lo lr]; lsimpl; decide_bool; zrun; [done|].
  change (Some la) with (root_ptr (T lc ll la lv lo lr)).
  apply (descend_right_spec F fr tt0 s _ _ (FL c a v o r :: k)); [done|exact HZ|done|].
  by rewrite descend_r_app.
Qed.

Lemma get_right_successor_spec F fr tt0 s Q k c l a v o r fuel :
  Zt F fr tt0 s k (T c l a v o r) -> (height r <= fuel)%nat ->
  Q (root_ptr (descend_l r []).2) s ->
  holds (get_right_successor fuel (Some a) s) Q.
Proof.
  intros HZ Hfuel HQ. unfold get_right_successor. zrun.
  destruct r as [|rc rl ra rv ro rr]; lsimpl; decide_bool; zrun; [done|].
  change (Some ra) with (root_ptr (T rc rl ra rv ro rr)).
  apply (descend_left_spec F fr tt0 s _ _ (FR c l a v o :: k)); [done|exact HZ|done|].
  by rewrite descend_l_app.
Qed.

(** ** Exchanging the ranges of a node and its successor *)

Lemma Zt_app F fr tt0 s ks f k t :
  Zt F fr tt0 s (ks ++ f :: k) t <-> Zt F fr tt0 s k (fill f (plug t ks)).
Proof.
  split; apply Zt_plug_eq; by rewrite plug_app.
Qed.

(** Move between the view from the successor and the view from the node
    above it. *)
Ltac zto_inner ks f :=
  match goal with
  | H : Zt _ _ _ ?s ?k _ |- holds (_ ?s) _ =>
      apply (proj2 (Zt_app _ _ _ _ ks f k _)) in H
  end.

Ltac zadd_outer :=
  match goal with
  | H : Zt _ _ _ ?s (_ ++ _ :: _) _ |- holds (_ ?s) _ =>
      let H' := fresh "HZ" in
      pose proof (proj1 (Zt_app _ _ _ _ _ _ _ _) H) as H'; cbn [fill] in H'
  end.

Lemma swap_spec {A} F fr tt0 s ks f k sc sl sa sv so sr (m : M A) Q :
  Zt F fr tt0 s (ks ++ f :: k) (T sc sl sa sv so sr) ->
  (forall s',
     Zt F fr tt0 s' (ks ++ fset_range sv so f :: k)
        (T sc sl sa (fval f) (foff f) sr) -> holds (m s') Q) ->
  holds ((swap_values (Some (faddr f)) (Some sa) ;;
          swap_offsets (Some (faddr f)) (Some sa) ;; m) s) Q.
Proof.
  intros HZ HQ.
  pose proof (proj1 (Zt_app _ _ _ _ _ _ _ _) HZ) as HZ'.
  unfold swap_values, swap_offsets.
  destruct f as [c a v o r|c l a v o]; cbn [fill faddr fval foff fset_range] in *.
  - zrun. zto_inner ks (FL c a sv o r). zrun. zadd_outer. zrun.
    zto_inner ks (FL c a sv so r). zrun. by apply HQ.
  - zrun. zto_inner ks (FR c l a sv o). zrun. zadd_outer. zrun.
    zto_inner ks (FR c l a sv so). zrun. by apply HQ.
Qed.

(** ** Unlinking a node *)

Lemma cell_frame_stable (F : gmap nat rb_node_t -> Prop) fr x c v o :
  (forall h' a n, a ∉ fr -> F h' -> F (<[a := n]> h')) ->
  forall h' a n, a ∉ x :: fr ->
    cell_frame F x c v o h' -> cell_frame F x c v o (<[a := n]> h').
Proof.
  intros Hst h' a n [Hax Ha]%not_elem_of_cons [HF Hx]. split; [by apply Hst|].
  by rewrite lookup_insert_ne.
Qed.

Lemma replace_node_left F fr tt0 s f k c ch x v o Q :
  Zt F fr tt0 s (f :: k) (T c ch x v o E) ->
  (forall s', Zt (cell_frame F x c v o) (x :: fr) tt0 s' (f :: k) ch -> Q tt s') ->
  holds (replace_node (Some x) (root_ptr ch) s) Q.
Proof.
  intros HZ HQ.
  pose proof (Z_is_left_child _ _ _ _ _ _ _ _ _ _ _ HZ) as Hlc.
  destruct (Zt_open _ _ _ _ _ _ HZ) as (h & rootp & -> & Ht & Hk & Hnd & HF & Hst).
  open_T Ht.
  destruct ch as [|cc cl y cv co cr]; [|open_T Hl];
    (destruct f as [cg g gv go gs|cg gs g gv go]; open_F Hk);
    sep_open Hnd; cbn [root_ptr ctx_par faddr is_lc] in *.
  all: eapply holds_eq;
    [ unfold replace_node;
      eapply run_bind; [by apply run_rd|];
      eapply run_bind; [exact Hlc|]; solve [mrun]
    | apply HQ; apply Zt_close;
      [ reflexivity | rep_solve | ctx_solve
      | cbn [addrs ctx_addrs faddrs faddr fsib app]; rewrite <- ?app_assoc;
        cbn [app]; sep_solve
      | split; [free_solve Hst | eexists _, _, _, _; heap_lookup]
      | by apply cell_frame_stable ] ].
Qed.

Lemma replace_node_right F fr tt0 s f k c ch x v o Q :
  Zt F fr tt0 s (f :: k) (T c E x v o ch) ->
  (forall s', Zt (cell_frame F x c v o) (x :: fr) tt0 s' (f :: k) ch -> Q tt s') ->
  holds (replace_node (Some x) (root_ptr ch) s) Q.
Proof.
  intros HZ HQ.
  pose proof (Z_is_left_child _ _ _ _ _ _ _ _ _ _ _ HZ) as Hlc.
  destruct (Zt_open _ _ _ _ _ _ HZ) as (h & rootp & -> & Ht & Hk & Hnd & HF & Hst).
  open_T Ht.
  destruct ch as [|cc cl y cv co cr]; [|open_T Hr];
    (destruct f as [cg g gv go gs|cg gs g gv go]; open_F Hk);
    sep_open Hnd; cbn [root_ptr ctx_par faddr is_lc] in *.
  all: eapply holds_eq;
    [ unfold replace_node;
      eapply run_bind; [by apply run_rd|];
      eapply run_bind; [exact Hlc|]; solve [mrun]
    | apply HQ; apply Zt_close;
      [ reflexivity | rep_solve | ctx_solve
      | cbn [addrs ctx_addrs faddrs faddr fsib app]; rewrite <- ?app_assoc;
        cbn [app]; sep_solve
      | split; [free_solve Hst | eexists _, _, _, _; heap_lookup]
      | by apply cell_frame_stable ] ].
Qed.

Lemma cell_is_black F fr tt0 s k t x c v o :
  Zt (cell_frame F x c v o) fr tt0 s k t ->
  is_black (Some x) s = Ok (negb c) s.
Proof.
  intros (h & rootp & -> & _ & _ & _ & [_ (ts & p & lp & rp & Hx)] & _)%Zt_open.
  unfold is_black. mrun.
Qed.

(** ** Giving a cell back *)

Lemma push_spec tt0 fl s k t x c v o Q :
  Zt (cell_frame (free_frame tt0 fl) x c v o) (x :: fl) tt0 s k t ->
  (forall s',
     Zt (free_frame (pushed tt0 fl x) (fl ++ [x])) (fl ++ [x])
        (pushed tt0 fl x) s' k t -> Q tt s') ->
  holds (push_free_node (Some x) s) Q.
Proof.
  intros (h & rootp & -> & Hrep & Hnd & [Hfree (ts & p & lp & rp & Hx)] & _) HQ.
  assert ((x ∉ fl) /\ (forall b, b ∈ addrs (plug t k) -> b <> x /\ (b ∉ fl))) as [Hxfl Hsep].
  { apply NoDup_app in Hnd as (_ & Hd & Hnd).
    apply NoDup_cons in Hnd as [Hxfl _]. split; [done|].
    intros b Hb. specialize (Hd b Hb). apply not_elem_of_cons in Hd. done. }
  destruct (push_free_node_spec h (set_root rootp tt0) x _ fl Hx Hxfl Hfree)
    as (h' & Hrun & Hfree' & Hsame & _).
  eapply holds_eq; [exact Hrun|]. apply HQ.
  exists h', rootp. split; [reflexivity|]. split_and!.
  - eapply rep_agree; [|exact Hrep]. intros b Hb.
    destruct (Hsep b Hb). by apply Hsame.
  - rewrite (Permutation_app_comm fl [x]). exact Hnd.
  - exact Hfree'.
  - apply free_frame_stable.
Qed.

(** ** Deleting a node with at most one child *)

Lemma del_456_l_cons cp p pv po s k k' :
  del_456_l cp p pv po s k = Some k' -> exists f k'', k' = f :: k''.
Proof.
  unfold del_456_l. destruct s as [|sc sl sa sv so sr]; [done|].
  destruct (cp && negb sc && negb (col sl) && negb (col sr)); [intros [= <-]; eauto|].
  match goal with |- context [match ?x with _ => _ end = _] => destruct x as [|? ? ? ? ? [|]] end;
    [done..|]. intros [= <-]; eauto.
Qed.

Lemma del_456_r_cons cp s p pv po k k' :
  del_456_r cp s p pv po k = Some k' -> exists f k'', k' = f :: k''.
Proof.
  unfold del_456_r. destruct s as [|sc sl sa sv so sr]; [done|].
  destruct (cp && negb sc && negb (col sl) && negb (col sr)); [intros [= <-]; eauto|].
  match goal with |- context [match ?x with _ => _ end = _] => destruct x as [|? [|] ? ? ? ?] end;
    [done..|]. intros [= <-]; eauto.
Qed.

Lemma del_fix_cons f k k' :
  del_fix (f :: k) = Some k' -> exists f' k'', k' = f' :: k''.
Proof.
  destruct f as [cp p pv po s|cp s p pv po]; cbn [del_fix];
    destruct s as [|sc sl sa sv so sr]; try done.
  - destruct sc; [by apply del_456_l_cons|].
    destruct (negb cp && negb (col sl) && negb (col sr));
      [|by apply del_456_l_cons].
    destruct (del_fix k); [intros [= <-]; eauto|done].
  - destruct sc; [by apply del_456_r_cons|].
    destruct (negb cp && negb (col sl) && negb (col sr));
      [|by apply del_456_r_cons].
    destruct (del_fix k); [intros [= <-]; eauto|done].
Qed.

Lemma delete_one_child_spec tt0 fl fuel s k c l x v o r t' y Q :
  Zt (free_frame tt0 fl) fl tt0 s k (T c l x v o r) ->
  del_one k (T c l x v o r) = Some (t', y) ->
  (length k < fuel)%nat ->
  (forall s',
     Zt (free_frame (pushed tt0 fl y) (fl ++ [y])) (fl ++ [y])
        (pushed tt0 fl y) s' [] t' -> Q tt s') ->
  holds (delete_one_child fuel (Some x) s) Q.
Proof.
  intros HZ Hdel Hfuel HQ.
  destruct k as [|f k]; [done|]. cbn [del_one] in Hdel.
  unfold delete_one_child. zrun.
  destruct l as [|lc ll la lv lo lr], r as [|rc rl ra rv ro rr]; try done;
    lsimpl; decide_bool; zrun.
  - (* a leaf *)
    destruct c; lsimpl; zrun.
    + injection Hdel as <- <-.
      eapply (replace_node_left _ _ _ _ _ _ _ E); [exact HZ|]. intros s1 HZ1.
      eapply push_spec; [exact HZ1|]. intros s2 HZ2.
      apply HQ. exact HZ2.
    + destruct (del_fix (f :: k)) as [k'|] eqn:Hfix; [|done].
      injection Hdel as <- <-.
      destruct (del_fix_cons _ _ _ Hfix) as (f' & k'' & ->).
      eapply delete_rebalance_spec; [exact HZ|exact Hfix|done|]. intros s1 HZ1.
      eapply (replace_node_left _ _ _ _ _ _ _ E); [exact HZ1|]. intros s2 HZ2.
      eapply push_spec; [exact HZ2|]. intros s3 HZ3.
      apply HQ. exact HZ3.
  - (* a right child only *)
    eapply (replace_node_right _ _ _ _ _ _ _ (T rc rl ra rv ro rr)); [exact HZ|].
    intros s1 HZ1. zrun.
    eapply holds_eq; [exact (cell_is_black _ _ _ _ _ _ _ _ _ _ HZ1)|]. lsimpl.
    destruct c; lsimpl; zrun.
    + injection Hdel as <- <-.
      eapply push_spec; [exact HZ1|]. intros s2 HZ2.
      apply HQ. exact HZ2.
    + destruct rc; [|done]. injection Hdel as <- <-. lsimpl. zrun.
      eapply push_spec; [exact HZ0|]. intros s2 HZ2.
      apply HQ. exact HZ2.
  - (* a left child only *)
    eapply (replace_node_left _ _ _ _ _ _ _ (T lc ll la lv lo lr)); [exact HZ|].
    intros s1 HZ1. zrun.
    eapply holds_eq; [exact (cell_is_black _ _ _ _ _ _ _ _ _ _ HZ1)|]. lsimpl.
    destruct c; lsimpl; zrun.
    + injection Hdel as <- <-.
      eapply push_spec; [exact HZ1|]. intros s2 HZ2.
      apply HQ. exact HZ2.
    + destruct lc; [|done]. injection Hdel as <- <-. lsimpl. zrun.
      eapply push_spec; [exact HZ0|]. intros s2 HZ2.
      apply HQ. exact HZ2.
Qed.

(** ** Deleting a node *)

Lemma delete_root_leaf tt0 fl s c a v o Q :
  Zt (free_frame tt0 fl) fl tt0 s [] (T c E a v o E) ->
  (forall s',
     Zt (free_frame (pushed tt0 fl a) (fl ++ [a])) (fl ++ [a])
        (pushed tt0 fl a) s' [] E -> Q tt s') ->
  holds ((push_free_node (Some a) ;; tset (set_root None)) s) Q.
Proof.
  intros (h & rootp & -> & Hrep & Hnd & Hfree & _) HQ.
  cbn [plug addrs app] in *. apply NoDup_cons in Hnd as [Hafl Hnd].
  apply rep_T in Hrep as (-> & ts & Hn & _).
  destruct (push_free_node_spec h (set_root (Some a) tt0) a _ fl Hn Hafl Hfree)
    as (h' & Hrun & Hfree' & Hsame & _).
  apply holds_bind. eapply holds_eq; [exact Hrun|].
  eapply holds_eq; [apply run_tset|]. apply HQ.
  exists h', None. split; [reflexivity|]. split_and!.
  - done.
  - cbn [plug addrs app]. apply NoDup_app. split_and!; [done| |apply NoDup_singleton].
    intros b Hb ->%list_elem_of_singleton. done.
  - exact Hfree'.
  - apply free_frame_stable.
Qed.

Lemma delete_rb_node_spec tt0 fl fuel s k c l a v o r t' y Q :
  Zt (free_frame tt0 fl) fl tt0 s k (T c l a v o r) ->
  del_at k (T c l a v o r) = Some (t', y) ->
  (length k + height (T c l a v o r) <= fuel)%nat ->
  (forall s',
     Zt (free_frame (pushed tt0 fl y) (fl ++ [y])) (fl ++ [y])
        (pushed tt0 fl y) s' [] t' -> Q tt s') ->
  holds (delete_rb_node fuel (Some a) s) Q.
Proof.
  intros HZ Hdel Hfuel HQ. cbn [height] in Hfuel.
  unfold delete_rb_node, get_successor. apply holds_bind, holds_bind.
  eapply get_left_successor_spec; [exact HZ|lia|].
  destruct l as [|lc ll la lv lo lr].
  - (* no left subtree *)
    cbn [descend_r snd root_ptr]. decide_bool.
    eapply get_right_successor_spec; [exact HZ|lia|].
    destruct r as [|rc rl ra rv ro rr].
    + (* a leaf *)
      cbn [descend_l snd root_ptr]. decide_bool. cbv iota. cbn [del_at] in Hdel.
      zrun. destruct k as [|f k]; lsimpl; decide_bool; cbv iota.
      * injection Hdel as <- <-. by eapply delete_root_leaf.
      * by eapply delete_one_child_spec; [exact HZ|exact Hdel|lia|].
    + (* the leftmost node on the right *)
      cbn [del_at] in Hdel.
      pose proof (plug_descend_l (T rc rl ra rv ro rr) []) as Hplug.
      pose proof (descend_l_bound (T rc rl ra rv ro rr) ltac:(done)) as Hb.
      destruct (descend_l (T rc rl ra rv ro rr) []) as [ks [|sc sl sa sv so sr]];
        [done|]. cbn [fst snd plug root_ptr height] in *. decide_bool. cbv iota.
      assert (Zt (free_frame tt0 fl) fl tt0 s (ks ++ FR c E a v o :: k)
                 (T sc sl sa sv so sr)) as HZ'.
      { apply Zt_app. cbn [fill]. by rewrite Hplug. }
      change (Some a) with (Some (faddr (FR c E a v o))).
      eapply swap_spec; [exact HZ'|]. cbn [fset_range fval foff]. intros s1 HZ1.
      eapply delete_one_child_spec; [exact HZ1|exact Hdel| |exact HQ].
      rewrite length_app. cbn [length]. lia.
  - (* the rightmost node on the left *)
    cbn [del_at] in Hdel.
    pose proof (plug_descend_r (T lc ll la lv lo lr) []) as Hplug.
    pose proof (descend_r_bound (T lc ll la lv lo lr) ltac:(done)) as Hb.
    destruct (descend_r (T lc ll la lv lo lr) []) as [ks [|sc sl sa sv so sr]];
      [done|]. cbn [fst snd plug root_ptr height] in *. decide_bool. cbv iota.
    apply holds_ret. decide_bool. cbv iota.
    assert (Zt (free_frame tt0 fl) fl tt0 s (ks ++ FL c a v o r :: k)
               (T sc sl sa sv so sr)) as HZ'.
    { apply Zt_app. cbn [fill]. by rewrite Hplug. }
    change (Some a) with (Some (faddr (FL c a v o r))).
    eapply swap_spec; [exact HZ'|]. cbn [fset_range fval foff]. intros s1 HZ1.
    eapply delete_one_child_spec; [exact HZ1|exact Hdel| |exact HQ].
    rewrite length_app. cbn [length]. lia.
Qed.


(** ** Linking a new leaf *)

Lemma set_root_root tt : set_root (root tt) tt = tt.
Proof. by destruct tt. Qed.

Ltac free_ok_solve :=
  first [ eassumption | apply free_ok_frame; [sep_solve | free_ok_solve] ].

Lemma insert_leaf_full tt0 s k t w (m : ptr -> M (rb_tree_status_t * ptr)) Q :
  Zt (free_frame tt0 []) [] tt0 s k t ->
  Q (RB_FAIL_TREE_FULL, None) s ->
  holds ((inserted_node <- create_rb_node w RED ;;
          if bool_decide (inserted_node = None) then ret (RB_FAIL_TREE_FULL, None)
          else m inserted_node) s) Q.
Proof.
  intros (h & rootp & -> & _ & _ & Hfree & _) HQ.
  apply holds_bind. eapply holds_eq; [by apply create_rb_node_full|done].
Qed.

Lemma insert_leaf_left tt0 f rest s k c a v o r w Q :
  Zt (free_frame tt0 (f :: rest)) (f :: rest) tt0 s k (T c E a v o r) ->
  (forall s' tt1,
     Zt (free_frame tt1 rest) rest tt1 s' (FL c a v o r :: k) (T RED E f w 0 E) ->
     size tt1 = u32 (size tt0 + 1) -> max_size tt1 = max_size tt0 ->
     node_block tt1 = node_block tt0 ->
     Q (RB_SUCCESS, Some f) s') ->
  holds ((inserted_node <- create_rb_node w RED ;;
          if bool_decide (inserted_node = None) then ret (RB_FAIL_TREE_FULL, None)
          else
            insert_child inserted_node (Some a) set_left ;;
            ret (RB_SUCCESS, inserted_node)) s) Q.
Proof.
  intros (h & rootp & -> & Ht & Hk & Hnd & Hfree & _)%Zt_open HQ.
  destruct (create_rb_node_spec h (set_root rootp tt0) w RED f rest Hfree)
    as (tt' & Hrun & Hfree' & Hsz & Hmx & Hrt & Hnb).
  open_T Ht. sep_open Hnd. cbn [root_ptr] in *.
  apply holds_bind. eapply holds_eq; [exact Hrun|].
  eapply holds_eq; [unfold insert_child; solve [mrun]|].
  apply (HQ _ tt'); [|exact Hsz|exact Hmx|exact Hnb].
  apply Zt_close.
  - by rewrite set_root_root.
  - rep_solve.
  - rewrite Hrt. cbn [root set_root]. ctx_solve.
  - cbn [addrs ctx_addrs faddrs faddr fsib app]. rewrite <- ?app_assoc.
    cbn [app]. sep_solve.
  - unfold free_frame. free_ok_solve.
  - apply free_frame_stable.
Qed.

Lemma insert_leaf_right tt0 f rest s k c l a v o w Q :
  Zt (free_frame tt0 (f :: rest)) (f :: rest) tt0 s k (T c l a v o E) ->
  (forall s' tt1,
     Zt (free_frame tt1 rest) rest tt1 s' (FR c l a v o :: k) (T RED E f w 0 E) ->
     size tt1 = u32 (size tt0 + 1) -> max_size tt1 = max_size tt0 ->
     node_block tt1 = node_block tt0 ->
     Q (RB_SUCCESS, Some f) s') ->
  holds ((inserted_node <- create_rb_node w RED ;;
          if bool_decide (inserted_node = None) then ret (RB_FAIL_TREE_FULL, None)
          else
            insert_child inserted_node (Some a) set_right ;;
            ret (RB_SUCCESS, inserted_node)) s) Q.
Proof.
  intros (h & rootp & -> & Ht & Hk & Hnd & Hfree & _)%Zt_open HQ.
  destruct (create_rb_node_spec h (set_root rootp tt0) w RED f rest Hfree)
    as (tt' & Hrun & Hfree' & Hsz & Hmx & Hrt & Hnb).
  open_T Ht. sep_open Hnd. cbn [root_ptr] in *.
  apply holds_bind. eapply holds_eq; [exact Hrun|].
  eapply holds_eq; [unfold insert_child; solve [mrun]|].
  apply (HQ _ tt'); [|exact Hsz|exact Hmx|exact Hnb].
  apply Zt_close.
  - by rewrite set_root_root.
  - rep_solve.
  - rewrite Hrt. cbn [root set_root]. ctx_solve.
  - cbn [addrs ctx_addrs faddrs faddr fsib app]. rewrite <- ?app_assoc.
    cbn [app]. sep_solve.
  - unfold free_frame. free_ok_solve.
  - apply free_frame_stable.
Qed.

(** ** The descent of an insertion *)

Lemma insert_or_merge_loop_spec tt0 fl w H Q : forall t k fuel s,
  t <> E ->
  Zt (free_frame tt0 fl) fl tt0 s k t ->
  (length k + height t <= H)%nat -> (2 * H <= fuel + length k)%nat ->
  ins_post tt0 fl w (ins_go w t k) s Q ->
  holds (insert_or_merge_loop fuel w (root_ptr t) s) Q.
Proof.
  induction t as [|c l IHl a v o r IHr]; intros k fuel s Hne HZ HH Hfuel Hpost; [done|].
  destruct fuel as [|fuel]; [cbn [height] in HH; lia|].
  cbn [insert_or_merge_loop root_ptr ins_go height] in *. zrun.
  destruct (are_consecutive w v) eqn:Hc1.
  - (* [w] comes right before the range *)
    apply holds_bind. eapply get_left_successor_spec; [exact HZ|lia|].
    pose proof (plug_descend_r l []) as Hplug.
    assert (l = E \/ l <> E) as [->|Hl] by (destruct l; [by left|by right]).
    { cbn [descend_r snd root_ptr] in *. zrun. by apply Hpost. }
    pose proof (descend_r_bound l Hl) as Hb.
    destruct (descend_r l []) as [ks [|sc sl sa sv so sr]] eqn:Hd.
    { cbn [snd root_ptr] in *. zrun. by apply Hpost. }
    cbn [fst snd plug root_ptr height] in *.
    assert (Zt (free_frame tt0 fl) fl tt0 s (ks ++ FL c a v o r :: k)
               (T sc sl sa sv so sr)) as HZ'.
    { apply Zt_app. cbn [fill]. by rewrite Hplug. }
    subst l. zrun. destruct (are_consecutive (u32 (sv + so)) w) eqn:Hc2.
    + zrun. zto_inner ks (FL c a sv o r). zrun. zadd_outer. zrun.
      zto_inner ks (FL c a sv (u32 (o + u32 (so + 2))) r).
      destruct Hpost as (t' & y & Hdel & Hpost).
      eapply delete_rb_node_spec; [eassumption|exact Hdel| |].
      * rewrite length_app. cbn [length height] in *. lia.
      * intros sx HZx. apply holds_ret. by apply Hpost.
    + zrun. by apply Hpost.
  - destruct (w <? v) eqn:Hlt.
    + (* to the left *)
      zrun. destruct l as [|lc ll la lv lo lr]; lsimpl; decide_bool; cbv iota.
      * cbn [slot_frame] in Hpost. destruct fl as [|f rest].
        -- by eapply insert_leaf_full.
        -- by eapply insert_leaf_left.
      * zrun. apply (IHl (FL c a v o r :: k)); [done|exact HZ| | |exact Hpost];
          cbn [length height] in *; lia.
    + zrun. destruct (are_consecutive (u32 (v + o)) w) eqn:Hc3.
      * (* [w] comes right after the range *)
        apply holds_bind. eapply get_right_successor_spec; [exact HZ|lia|].
        pose proof (plug_descend_l r []) as Hplug.
        assert (r = E \/ r <> E) as [->|Hr] by (destruct r; [by left|by right]).
        { cbn [descend_l snd root_ptr] in *. zrun. by apply Hpost. }
        pose proof (descend_l_bound r Hr) as Hb.
        destruct (descend_l r []) as [ks [|sc sl sa sv so sr]] eqn:Hd.
        { cbn [snd root_ptr] in *. zrun. by apply Hpost. }
        cbn [fst snd plug root_ptr height] in *.
        assert (Zt (free_frame tt0 fl) fl tt0 s (ks ++ FR c l a v o :: k)
                   (T sc sl sa sv so sr)) as HZ'.
        { apply Zt_app. cbn [fill]. by rewrite Hplug. }
        subst r. zrun. destruct (are_consecutive w sv) eqn:Hc4.
        -- zrun.
           zto_inner ks (FR c l a v (u32 (o + u32 (so + 2)))).
           destruct Hpost as (t' & y & Hdel & Hpost).
           eapply delete_rb_node_spec; [eassumption|exact Hdel| |].
           ++ rewrite length_app. cbn [length height] in *. lia.
           ++ intros sx HZx. apply holds_ret. by apply Hpost.
        -- zrun. by apply Hpost.
      * destruct (v <? w) eqn:Hgt.
        -- (* to the right *)
           zrun. destruct r as [|rc rl ra rv ro rr]; lsimpl; decide_bool; cbv iota.
           ++ cbn [slot_frame] in Hpost. destruct fl as [|f rest].
              ** by eapply insert_leaf_full.
              ** by eapply insert_leaf_right.
           ++ zrun. apply (IHr (FR c l a v o :: k)); [done|exact HZ| | |exact Hpost];
                cbn [length height] in *; lia.
        -- zrun. exact Hpost.
Qed.

(** ** [rb_tree_insert] *)

Lemma ins_go_new_bound w ls k' tb : forall t k,
  ins_go w t k = INew ls k' tb ->
  (length k' + height tb <= length k + height t)%nat /\ tb <> E.
Proof.
  induction t as [|c l IHl a v o r IHr]; intros k; [done|].
  cbn [ins_go].
  destruct (are_consecutive w v).
  { destruct (descend_r l []) as [ks [|]]; [done|].
    by destruct (are_consecutive _ w). }
  destruct (w <? v).
  { destruct l as [|lc ll la lv lo lr]; [by intros [= <- <- <-]|].
    intros [Hb ?]%IHl. split; [|done]. cbn [length height] in *. lia. }
  destruct (are_consecutive (u32 (v + o)) w).
  { destruct (descend_l r []) as [ks [|]]; [done|].
    by destruct (are_consecutive w _). }
  destruct (v <? w); [|done].
  destruct r as [|rc rl ra rv ro rr]; [by intros [= <- <- <-]|].
  intros [Hb ?]%IHr. split; [|done]. cbn [length height] in *. lia.
Qed.

Lemma Z_root F fr tt0 s k t :
  Zt F fr tt0 s k t -> tget root s = Ok (root_ptr (plug t k)) s.
Proof.
  intros (h & rootp & -> & Hrep & _). apply rep_root in Hrep as ->. reflexivity.
Qed.

Lemma insert_root tt0 f rest s w Q :
  Zt (free_frame tt0 (f :: rest)) (f :: rest) tt0 s [] E ->
  (forall s' tt1,
     Zt (free_frame tt1 rest) rest tt1 s' [] (T BLACK E f w 0 E) ->
     size tt1 = u32 (size tt0 + 1) -> max_size tt1 = max_size tt0 ->
     node_block tt1 = node_block tt0 ->
     Q (RB_SUCCESS, Some f) s') ->
  holds ((n <- create_rb_node w BLACK ;;
          tset (set_root n) ;;
          r <- tget root ;;
          ret (RB_SUCCESS, r)) s) Q.
Proof.
  intros (h & rootp & -> & Ht & Hk & Hnd & Hfree & _)%Zt_open HQ.
  destruct (create_rb_node_spec h (set_root rootp tt0) w BLACK f rest Hfree)
    as (tt' & Hrun & Hfree' & Hsz & Hmx & Hrt & Hnb).
  sep_open Hnd.
  apply holds_bind. eapply holds_eq; [exact Hrun|].
  eapply holds_eq; [solve [mrun]|]. nsimpl.
  apply (HQ _ (set_root None tt')); [|exact Hsz|exact Hmx|exact Hnb].
  apply Zt_close.
  - reflexivity.
  - rep_solve.
  - reflexivity.
  - cbn [addrs ctx_addrs app]. sep_solve.
  - exact Hfree'.
  - apply free_frame_stable.
Qed.

Ltac fin tt :=
  apply holds_ret; split; [reflexivity|]; exists tt;
  split; [first [eassumption | done]|];
  split_and!; [first [done | congruence]..|].

Lemma rb_tree_insert_spec tt0 fl fuel w s t st t' fl' :
  Zt (free_frame tt0 fl) fl tt0 s [] t ->
  node_block tt0 <> None -> max_size tt0 <> 0 ->
  ins w t fl = Some (st, t', fl') ->
  (2 * height t + 2 <= fuel)%nat ->
  exists s',
    rb_tree_insert fuel w s = Ok st s' /\
    exists tt1,
      Zt (free_frame tt1 fl') fl' tt1 s' [] t' /\
      max_size tt1 = max_size tt0 /\ node_block tt1 = node_block tt0 /\
      size tt1 =
        if bool_decide (length fl' < length fl)%nat then u32 (size tt0 + 1)
        else if bool_decide (length fl < length fl')%nat then u32 (size tt0 - 1)
        else size tt0.
Proof.
  intros HZ Hnb Hmx Hins Hfuel.
  apply (holds_elim' _ (fun s' => exists tt1, _)).
  pose proof (Z_root _ _ _ _ _ _ HZ) as Hroot. cbn [plug] in Hroot.
  destruct (Zt_open _ _ _ _ _ _ HZ) as (h & rootp & Hs & _).
  unfold rb_tree_insert.
  apply holds_bind. eapply holds_eq; [by rewrite Hs; apply run_null|]. cbv iota.
  apply holds_bind. eapply holds_eq.
  { rewrite Hs. unfold orM.
    mrun; nsimpl; rewrite ?(bool_decide_eq_false_2 _ Hnb); mrun. }
  rewrite <- ?Hs. change (max_size (set_root rootp tt0)) with (max_size tt0).
  rewrite (proj2 (Z.eqb_neq _ _) Hmx). cbv iota.
  apply holds_bind. unfold try_binary_insert_or_merge.
  apply holds_bind. eapply holds_eq; [exact Hroot|].
  destruct t as [|c l a v o r].
  - (* the first node *)
    cbn [root_ptr ins] in *. decide_bool. cbv iota.
    destruct fl as [|f rest]; [done|]. injection Hins as <- <- <-.
    eapply insert_root; [exact HZ|]. intros s1 tt1 HZ1 Hsz1 Hmx1 Hnb1.
    cbn [fst snd]. decide_bool. cbn [andb]. unfold when.
    apply holds_bind.
    eapply try_insert_rebalance_spec; [exact HZ1|reflexivity|cbn; lia|].
    intros s2 HZ2. fin tt1.
    rewrite bool_decide_eq_true_2 by (cbn [length]; lia). done.
  - cbn [root_ptr]. decide_bool. cbv iota.
    change (Some a) with (root_ptr (T c l a v o r)).
    eapply (insert_or_merge_loop_spec _ _ _ (height (T c l a v o r)));
      [done|exact HZ|cbn [length]; lia|cbn [length]; lia|].
    cbn [ins] in Hins.
    destruct (ins_go w (T c l a v o r) []) as [ls k tb|tx|k tb|] eqn:Hgo;
      cbn [ins_post].
    + destruct (ins_go_new_bound _ _ _ _ _ _ Hgo) as [Hb Htb].
      destruct tb as [|bc bl ba bv bo br]; [done|]. cbn [slot_frame].
      destruct fl as [|f rest].
      * injection Hins as <- <- <-. cbn [fst snd]. decide_bool. cbn [andb].
        fin tt0. rewrite !bool_decide_eq_false_2 by lia. done.
      * destruct (ins_fix _ _) as [tf|] eqn:Hfix in Hins; [|done].
        injection Hins as <- <- <-.
        intros s1 tt1 HZ1 Hsz1 Hmx1 Hnb1.
        cbn [fst snd]. decide_bool. cbn [andb]. unfold when.
        apply holds_bind.
        eapply try_insert_rebalance_spec; [exact HZ1|exact Hfix| |].
        { cbn [length height] in *. lia. }
        intros s2 HZ2. fin tt1.
        rewrite bool_decide_eq_true_2 by (cbn [length]; lia). done.
    + injection Hins as <- <- <-. intros s1 HZ1.
      cbn [fst snd]. decide_bool. cbn [andb]. unfold when.
      fin tt0. rewrite !bool_decide_eq_false_2 by lia. done.
    + destruct (del_at k tb) as [[td y]|] eqn:Hdel; [|done].
      injection Hins as <- <- <-. exists td, y. split; [done|]. intros s1 HZ1.
      cbn [fst snd]. decide_bool. cbn [andb]. unfold when.
      fin (pushed tt0 fl y).
      rewrite length_app. cbn [length].
      rewrite bool_decide_eq_false_2 by lia.
      rewrite bool_decide_eq_true_2 by lia. done.
    + injection Hins as <- <- <-.
      cbn [fst snd]. decide_bool. cbn [andb]. unfold when.
      fin tt0. rewrite !bool_decide_eq_false_2 by lia. done.
Qed.


(** ** Red-black trees and contexts *)

Lemma same_shape_refl t : same_shape t t.
Proof. induction t; cbn; auto. Qed.

Lemma same_shape_T c l a v o r l' a' v' o' r' :
  same_shape l l' -> same_shape r r' ->
  same_shape (T c l a v o r) (T c l' a' v' o' r').
Proof. by cbn. Qed.

Lemma same_shape_col t1 t2 : same_shape t1 t2 -> col t1 = col t2.
Proof. destruct t1, t2; cbn; tauto. Qed.

Lemma same_shape_rbn t1 : forall t2 n,
  same_shape t1 t2 -> rbn t1 n -> rbn t2 n.
Proof.
  induction t1 as [|c l IHl a v o r IHr]; intros [|c2 l2 a2 v2 o2 r2] n; cbn;
    try tauto.
  intros (<- & Hl & Hr). rewrite <- (same_shape_col _ _ Hl), <- (same_shape_col _ _ Hr).
  destruct c; [|destruct n; [done|]]; naive_solver.
Qed.

Lemma same_shape_fill f t1 t2 :
  same_shape t1 t2 -> same_shape (fill f t1) (fill f t2).
Proof. destruct f; cbn; auto using same_shape_refl. Qed.

Lemma same_shape_plug k : forall t1 t2,
  same_shape t1 t2 -> same_shape (plug t1 k) (plug t2 k).
Proof.
  induction k as [|f k IH]; intros t1 t2 H; cbn; [done|].
  by apply IH, same_shape_fill.
Qed.

Lemma same_shape_rb t1 t2 : same_shape t1 t2 -> rb t1 -> rb t2.
Proof.
  intros H [Hc [n Hn]]. split; [by rewrite <- (same_shape_col _ _ H)|].
  exists n. by eapply same_shape_rbn.
Qed.

Lemma ctx_rb_black k n : ctx_rb k RED n -> ctx_rb k BLACK n.
Proof. destruct k as [|f k]; cbn; [done|]. naive_solver. Qed.

Lemma ctx_rb_to_black k c n : ctx_rb k c n -> ctx_rb k BLACK n.
Proof. destruct c; [apply ctx_rb_black|done]. Qed.

Lemma rb_plug k : forall t n,
  rbn t n -> ctx_rb k (col t) n -> rb (plug t k).
Proof.
  induction k as [|f k IH]; intros t n Ht Hk.
  - cbn in *. split; eauto.
  - cbn [plug]. destruct Hk as (Hs & Hred & Hk).
    destruct f as [c a v o r|c l a v o]; cbn [fill fsib fcol] in *;
      (apply (IH _ (if c then n else S n)); [|exact Hk]);
      destruct c; cbn; naive_solver.
Qed.

Lemma rbn_unplug k : forall t n,
  rbn (plug t k) n -> forall k0,
  ctx_rb k0 (col (plug t k)) n ->
  exists m, rbn t m /\ ctx_rb (k ++ k0) (col t) m.
Proof.
  induction k as [|f k IH]; intros t n Ht k0 Hk0.
  - cbn in *. eauto.
  - cbn [plug] in *. destruct (IH _ _ Ht _ Hk0) as (m & Hm & Hk).
    destruct f as [c a v o r|c l a v o]; cbn [fill fsib fcol col] in *;
      destruct c; cbn in Hm.
    + exists m. cbn. naive_solver.
    + destruct m as [|m]; [done|]. exists m. cbn. naive_solver.
    + exists m. cbn. naive_solver.
    + destruct m as [|m]; [done|]. exists m. cbn. naive_solver.
Qed.

Lemma rb_unplug k t :
  rb (plug t k) -> exists m, rbn t m /\ ctx_rb k (col t) m.
Proof.
  intros [Hc [n Hn]]. destruct (rbn_unplug k t n Hn []) as (m & Hm & Hk).
  - cbn. exact Hc.
  - rewrite app_nil_r in Hk. eauto.
Qed.

(** ** Rebalancing after an insertion keeps the tree red-black *)

Lemma ins_fix_rb m : forall k l a v o r n,
  (length k <= m)%nat ->
  col l = BLACK -> col r = BLACK -> rbn l n -> rbn r n ->
  ctx_rb k BLACK n ->
  exists t', ins_fix k (T RED l a v o r) = Some t' /\ rb t'.
Proof.
  induction m as [|m IH].
  { intros [|f k] l a v o r n Hlen Hcl Hcr Hl Hr Hk; [|cbn in Hlen; lia].
    cbn. eexists. split; [done|]. split; [done|]. exists (S n). done. }
  intros [|fP k1] l a v o r n Hlen Hcl Hcr Hl Hr Hk.
  { cbn. eexists. split; [done|]. split; [done|]. exists (S n). done. }
  cbn [ins_fix]. destruct (fcol fP) eqn:HcP.
  - (* red parent *)
    destruct Hk as (Hs & HsP & Hk1). rewrite HcP in Hk1, HsP.
    destruct (HsP eq_refl) as [_ HsP'].
    destruct k1 as [|fG k2]; [done|].
    destruct Hk1 as (Hu & HcG & Hk2).
    destruct (fcol fG) eqn:HcG'; [by destruct HcG|].
    destruct (col (fsib fG)) eqn:Hcu.
    + (* red uncle *)
      destruct (fsib fG) as [|uc ul ua uv uo ur] eqn:Hu'; [done|].
      cbn in Hcu. subst uc. cbn in Hu. destruct Hu as (Hul & Hur & Hul' & Hur').
      destruct fP as [cP p pv po s|cP s p pv po], fG as [cG g gv go u|cG u g gv go];
        cbn [fill fset fsib fcol paint] in *; subst;
        (eapply (IH _ _ _ _ _ _ (S n));
         [ cbn [length] in Hlen; lia | done | done | cbn; done | cbn; done | done ]).
    + (* black uncle *)
      destruct fP as [cP p pv po s|cP s p pv po], fG as [cG g gv go u|cG u g gv go];
        cbn [fill fset fsib fcol paint] in *; subst;
        eexists; (split; [reflexivity|]);
        (eapply (rb_plug _ _ (S n)); [cbn; done|exact Hk2]).
  - eexists. split; [done|].
    change (plug (T RED l a v o r) (fP :: k1)) with (plug (T RED l a v o r) (fP :: k1)).
    eapply (rb_plug _ _ n); [cbn; done|].
    destruct Hk as (Hs & HsP & Hk1). cbn. rewrite HcP in *. done.
Qed.

(** ** Rebalancing before a deletion *)

Lemma rbn_black_inv c l a v o r n :
  rbn (T c l a v o r) (S n) -> c = BLACK -> rbn l n /\ rbn r n.
Proof. intros H ->. exact H. Qed.

Lemma del_456_l_rb cp p pv po s k n :
  rbn s (S n) -> col s = BLACK ->
  (cp = RED \/ exists sc sl sa sv so sr,
      s = T sc sl sa sv so sr /\ (col sl = RED \/ col sr = RED)) ->
  ctx_rb k cp (if cp then S n else S (S n)) ->
  exists k', del_456_l cp p pv po s k = Some k' /\ ctx_rb k' BLACK n.
Proof.
  intros Hs Hcs Hnot3 Hk. unfold RED, BLACK in *.
  destruct s as [|sc sl sa sv so sr]; [done|]. cbn in Hcs. subst sc.
  cbn in Hs. destruct Hs as [Hsl Hsr]. unfold del_456_l.
  destruct cp, (col sl) eqn:Hcl, (col sr) eqn:Hcr; cbn [negb andb];
    try (destruct Hnot3 as [?|(? & ? & ? & ? & ? & ? & [= <- <- <- <- <- <-] & [?|?])];
         congruence).
  all: try (destruct sl as [|slc sll sla slv slo slr]; [done|];
            cbn in Hcl; subst slc; cbn in Hsl).
  all: try (destruct sr as [|src srl sra srv sro srr]; [done|];
            cbn in Hcr; subst src; cbn in Hsr).
  all: eexists; (split; [reflexivity|]); cbn in *; try rewrite Hcl; try rewrite Hcr;
    naive_solver eauto using ctx_rb_black.
Qed.

Lemma del_456_r_rb cp s p pv po k n :
  rbn s (S n) -> col s = BLACK ->
  (cp = RED \/ exists sc sl sa sv so sr,
      s = T sc sl sa sv so sr /\ (col sl = RED \/ col sr = RED)) ->
  ctx_rb k cp (if cp then S n else S (S n)) ->
  exists k', del_456_r cp s p pv po k = Some k' /\ ctx_rb k' BLACK n.
Proof.
  intros Hs Hcs Hnot3 Hk. unfold RED, BLACK in *.
  destruct s as [|sc sl sa sv so sr]; [done|]. cbn in Hcs. subst sc.
  cbn in Hs. destruct Hs as [Hsl Hsr]. unfold del_456_r.
  destruct cp, (col sl) eqn:Hcl, (col sr) eqn:Hcr; cbn [negb andb];
    try (destruct Hnot3 as [?|(? & ? & ? & ? & ? & ? & [= <- <- <- <- <- <-] & [?|?])];
         congruence).
  all: try (destruct sl as [|slc sll sla slv slo slr]; [done|];
            cbn in Hcl; subst slc; cbn in Hsl).
  all: try (destruct sr as [|src srl sra srv sro srr]; [done|];
            cbn in Hcr; subst src; cbn in Hsr).
  all: eexists; (split; [reflexivity|]); cbn in *; try rewrite Hcl; try rewrite Hcr;
    naive_solver eauto using ctx_rb_black.
Qed.

Lemma del_fix_rb k : forall n,
  ctx_rb k BLACK (S n) ->
  exists k', del_fix k = Some k' /\ ctx_rb k' BLACK n.
Proof.
  induction k as [|f k IH]; intros n Hk; [by exists []|].
  destruct Hk as (Hs & Hred & Hk).
  destruct f as [cp p pv po s|cp s p pv po]; cbn [fsib fcol del_fix] in *.
  - destruct s as [|sc sl sa sv so sr]; [done|].
    destruct sc.
    + (* a red sibling *)
      destruct cp; [by destruct Hred|].
      cbn in Hs. destruct Hs as (Hcl & Hcr & Hsl & Hsr).
      apply del_456_l_rb; [done|done|by left|]. cbn. done.
    + destruct (negb cp && negb (col sl) && negb (col sr)) eqn:Hc3.
      * destruct cp; [done|]. cbn in Hs, Hc3.
        destruct (IH _ Hk) as (k' & -> & Hk').
        eexists. split; [reflexivity|].
        destruct (col sl) eqn:?, (col sr) eqn:?; try done; cbn; naive_solver.
      * apply del_456_l_rb; [done|done| |done].
        destruct cp; [by left|right]. cbn in Hc3.
        eexists _, _, _, _, _, _. split; [done|].
        destruct (col sl), (col sr); auto; done.
  - destruct s as [|sc sl sa sv so sr]; [done|].
    destruct sc.
    + destruct cp; [by destruct Hred|].
      cbn in Hs. destruct Hs as (Hcl & Hcr & Hsl & Hsr).
      apply del_456_r_rb; [done|done|by left|]. cbn. done.
    + destruct (negb cp && negb (col sl) && negb (col sr)) eqn:Hc3.
      * destruct cp; [done|]. cbn in Hs, Hc3.
        destruct (IH _ Hk) as (k' & -> & Hk').
        eexists. split; [reflexivity|].
        destruct (col sl) eqn:?, (col sr) eqn:?; try done; cbn; naive_solver.
      * apply del_456_r_rb; [done|done| |done].
        destruct cp; [by left|right]. cbn in Hc3.
        eexists _, _, _, _, _, _. split; [done|].
        destruct (col sl), (col sr); auto; done.
Qed.

(** ** Deleting keeps the tree red-black *)

Lemma rb_E : rb E.
Proof. split; [done|]. by exists O. Qed.

Lemma del_one_rb k c l x v o r :
  rb (plug (T c l x v o r) k) -> k <> [] -> l = E \/ r = E ->
  exists t', del_one k (T c l x v o r) = Some (t', x) /\ rb t'.
Proof.
  intros (m & Hm & Hk)%rb_unplug Hne Hone. unfold RED, BLACK in *.
  destruct k as [|f k]; [done|]. cbn [del_one col] in *.
  destruct l as [|lc ll la lv lo lr], r as [|rc rl ra rv ro rr];
    [| | |by destruct Hone].
  - (* a leaf *)
    destruct c.
    + eexists. split; [done|]. cbn in Hm. destruct Hm as (_ & _ & -> & _).
      eapply (rb_plug _ _ O); [done|]. by apply ctx_rb_black.
    + destruct m as [|m]; [done|]. cbn in Hm. destruct Hm as [-> _].
      destruct (del_fix_rb _ _ Hk) as (k' & -> & Hk').
      eexists. split; [done|]. by eapply (rb_plug _ _ O).
  - (* a right child only *)
    destruct c; cbn in Hm.
    + destruct Hm as (_ & Hrc & -> & Hr). cbn in Hrc. subst rc. done.
    + destruct m as [|m]; [done|]. destruct Hm as [-> Hr].
      destruct rc; [|done]. eexists. split; [done|].
      eapply (rb_plug _ _ 1%nat); [|done]. cbn in *. naive_solver.
  - (* a left child only *)
    destruct c; cbn in Hm.
    + destruct Hm as (Hlc & _ & Hl & ->). cbn in Hlc. subst lc. done.
    + destruct m as [|m]; [done|]. destruct Hm as [Hl ->].
      destruct lc; [|done]. eexists. split; [done|].
      eapply (rb_plug _ _ 1%nat); [|done]. cbn in *. naive_solver.
Qed.

Lemma plug_descend_r_nil t :
  plug (descend_r t []).2 (descend_r t []).1 = t.
Proof. apply (plug_descend_r t []). Qed.

Lemma plug_descend_l_nil t :
  plug (descend_l t []).2 (descend_l t []).1 = t.
Proof. apply (plug_descend_l t []). Qed.

Lemma del_at_rb k c l a v o r :
  rb (plug (T c l a v o r) k) ->
  exists t' y, del_at k (T c l a v o r) = Some (t', y) /\ rb t'.
Proof.
  intros Hrb. cbn [del_at].
  destruct l as [|lc ll la lv lo lr].
  - destruct r as [|rc rl ra rv ro rr].
    + destruct k as [|f k].
      * eexists _, _. split; [done|]. apply rb_E.
      * destruct (del_one_rb (f :: k) c E a v o E) as (t' & Ht' & Hrb');
          [done|done|by left|]. eauto.
    + pose proof (plug_descend_l_nil (T rc rl ra rv ro rr)) as Hplug.
      destruct (descend_l_shape (T rc rl ra rv ro rr)) as (sc & sa & sv & so & sr & Hs);
        [done|].
      destruct (descend_l (T rc rl ra rv ro rr) []) as [ks S]. cbn [fst snd] in *.
      subst S.
      destruct (del_one_rb (ks ++ FR c E a sv so :: k) sc E sa v o sr)
        as (t' & Ht' & Hrb'); [| |by left|by eauto].
      * eapply same_shape_rb; [|exact Hrb]. rewrite plug_app. cbn [plug fill].
        apply same_shape_plug, same_shape_T; [done|].
        rewrite <- Hplug. apply same_shape_plug, same_shape_T;
          auto using same_shape_refl.
      * by destruct ks.
  - pose proof (plug_descend_r_nil (T lc ll la lv lo lr)) as Hplug.
    destruct (descend_r_shape (T lc ll la lv lo lr)) as (sc & sl & sa & sv & so & Hs);
      [done|].
    destruct (descend_r (T lc ll la lv lo lr) []) as [ks S]. cbn [fst snd] in *.
    subst S.
    destruct (del_one_rb (ks ++ FL c a sv so r :: k) sc sl sa v o E)
      as (t' & Ht' & Hrb'); [| |by right|by eauto].
    + eapply same_shape_rb; [|exact Hrb]. rewrite plug_app. cbn [plug fill].
      apply same_shape_plug, same_shape_T; [|apply same_shape_refl].
      rewrite <- Hplug. apply same_shape_plug, same_shape_T;
        auto using same_shape_refl.
    + by destruct ks.
Qed.

(** ** Insertion keeps the tree red-black *)

Lemma ins_go_shape w : forall t k,
  match ins_go w t k with
  | INew ls k' tb =>
      plug tb k' = plug t k /\
      exists c l a v o r,
        tb = T c l a v o r /\ if ls then l = E else r = E
  | IExt t' => same_shape (plug t k) t'
  | IMerge k' tb => tb <> E /\ same_shape (plug t k) (plug tb k')
  | IDup => True
  end.
Proof.
  induction t as [|c l IHl a v o r IHr]; intros k; [done|].
  cbn [ins_go].
  destruct (are_consecutive w v).
  { pose proof (plug_descend_r_nil l) as Hplug.
    destruct (descend_r l []) as [ks [|sc sl sa sv so sr]]; cbn [fst snd] in *.
    - apply same_shape_plug, same_shape_T; apply same_shape_refl.
    - destruct (are_consecutive _ w).
      + split; [done|]. rewrite plug_app, Hplug. cbn [plug fill].
        apply same_shape_plug, same_shape_T; apply same_shape_refl.
      + apply same_shape_plug, same_shape_T; apply same_shape_refl. }
  destruct (w <? v).
  { destruct l as [|lc ll la lv lo lr]; [|apply (IHl (FL c a v o r :: k))].
    split; [done|]. eauto 10. }
  destruct (are_consecutive (u32 (v + o)) w).
  { pose proof (plug_descend_l_nil r) as Hplug.
    destruct (descend_l r []) as [ks [|sc sl sa sv so sr]]; cbn [fst snd] in *.
    - apply same_shape_plug, same_shape_T; apply same_shape_refl.
    - destruct (are_consecutive w _).
      + split; [done|]. rewrite plug_app, Hplug. cbn [plug fill].
        apply same_shape_plug, same_shape_T; apply same_shape_refl.
      + apply same_shape_plug, same_shape_T; apply same_shape_refl. }
  destruct (v <? w); [|done].
  destruct r as [|rc rl ra rv ro rr]; [|apply (IHr (FR c l a v o :: k))].
  split; [done|]. eauto 10.
Qed.

Lemma ins_rb w t fl :
  rb t -> (t = E -> fl <> []) ->
  exists st t' fl', ins w t fl = Some (st, t', fl') /\ rb t'.
Proof.
  intros Hrb Hfl. destruct t as [|c l a v o r].
  { destruct fl as [|f rest]; [by destruct Hfl|]. cbn.
    eexists _, _, _. split; [done|]. split; [done|]. exists 1%nat. done. }
  cbn [ins]. pose proof (ins_go_shape w (T c l a v o r) []) as Hsh.
  destruct (ins_go w (T c l a v o r) []) as [ls k tb|tx|k tb|].
  - destruct Hsh as (Hplug & bc & bl & ba & bv & bo & br & -> & Hslot).
    destruct fl as [|f rest]; [by eauto 10|].
    cbn [plug] in Hplug. rewrite <- Hplug in Hrb.
    destruct (ins_fix_rb (S (length k))
                ((if ls then FL bc ba bv bo br else FR bc bl ba bv bo) :: k)
                E f w 0 E O) as (t' & -> & Hrb'); [done..| |by eauto 10].
    destruct ls; subst.
    + change (T bc E ba bv bo br) with (fill (FL bc ba bv bo br) E) in Hrb.
      apply (rb_unplug (_ :: _)) in Hrb as (m & -> & Hk). exact Hk.
    + change (T bc bl ba bv bo E) with (fill (FR bc bl ba bv bo) E) in Hrb.
      apply (rb_unplug (_ :: _)) in Hrb as (m & -> & Hk). exact Hk.
  - eexists _, _, _. split; [done|]. by eapply same_shape_rb.
  - destruct Hsh as [Htb Hsh]. destruct tb as [|bc bl ba bv bo br]; [done|].
    destruct (del_at_rb k bc bl ba bv bo br) as (t' & y & -> & Hrb').
    { by eapply same_shape_rb. }
    eauto 10.
  - eauto 10.
Qed.


(** ** Rebalancing keeps the cells in order *)

Lemma nodes_l_app k1 k2 : nodes_l (k1 ++ k2) = nodes_l k2 ++ nodes_l k1.
Proof.
  induction k1 as [|[c a v o r|c l a v o] k1 IH]; cbn.
  - by rewrite app_nil_r.
  - done.
  - by rewrite IH, <- !app_assoc.
Qed.

Lemma nodes_r_app k1 k2 : nodes_r (k1 ++ k2) = nodes_r k1 ++ nodes_r k2.
Proof.
  induction k1 as [|[c a v o r|c l a v o] k1 IH]; cbn.
  - done.
  - by rewrite IH, <- !app_assoc.
  - done.
Qed.

Lemma nodes_plug_eq t t' k k' :
  nodes_l k ++ nodes t ++ nodes_r k = nodes_l k' ++ nodes t' ++ nodes_r k' ->
  nodes (plug t k) = nodes (plug t' k').
Proof. by rewrite !nodes_plug. Qed.

Lemma nodes_paint c t : nodes (paint c t) = nodes t.
Proof. by destruct t. Qed.

Ltac nodes_norm :=
  rewrite ?nodes_plug; cbn [nodes nodes_l nodes_r fill];
  repeat (progress (rewrite <- ?app_assoc; cbn [app])).

Lemma ins_fix_nodes m : forall k t t',
  (length k <= m)%nat -> t <> E ->
  ins_fix k t = Some t' -> nodes t' = nodes (plug t k).
Proof.
  induction m as [|m IH].
  { intros [|f k] t t' Hlen Hne; [|cbn in Hlen; lia].
    cbn. intros [= <-]. by destruct t. }
  intros [|fP k1] t t' Hlen Hne.
  { cbn. intros [= <-]. by destruct t. }
  cbn [ins_fix]. destruct (fcol fP); [|by intros [= <-]].
  destruct k1 as [|fG k2]; [done|].
  destruct (col (fsib fG)).
  - intros H. apply IH in H; [| cbn [length] in Hlen; lia | by destruct fG].
    rewrite H. cbn [plug]. rewrite !nodes_plug. do 2 f_equal.
    destruct fP, fG; cbn [fset fill fsib nodes]; by rewrite ?nodes_paint.
  - destruct fP, fG; try (destruct t; [done|]); intros [= <-]; nodes_norm; done.
Qed.

Lemma del_456_l_nodes cp p pv po s k k' :
  del_456_l cp p pv po s k = Some k' ->
  nodes_l k' = nodes_l k /\
  nodes_r k' = (p, mk_range pv po) :: nodes s ++ nodes_r k.
Proof.
  unfold del_456_l. destruct s as [|sc sl sa sv so sr]; [done|].
  destruct (cp && negb sc && negb (col sl) && negb (col sr)).
  { intros [= <-]. cbn. done. }
  destruct (negb sc && negb (col sr) && col sl).
  - destruct sl as [|slc sll sla slv slo slr].
    + destruct sr; [done|]. intros [= <-]. cbn. by rewrite <- ?app_assoc.
    + intros [= <-]. nodes_norm. done.
  - destruct sr; [done|]. intros [= <-]. nodes_norm. done.
Qed.

Lemma del_456_r_nodes cp s p pv po k k' :
  del_456_r cp s p pv po k = Some k' ->
  nodes_l k' = nodes_l k ++ nodes s ++ [(p, mk_range pv po)] /\
  nodes_r k' = nodes_r k.
Proof.
  unfold del_456_r. destruct s as [|sc sl sa sv so sr]; [done|].
  destruct (cp && negb sc && negb (col sl) && negb (col sr)).
  { intros [= <-]. cbn. done. }
  destruct (negb sc && negb (col sl) && col sr).
  - destruct sr as [|src srl sra srv sro srr].
    + destruct sl; [done|]. intros [= <-]. nodes_norm. done.
    + intros [= <-]. nodes_norm. done.
  - destruct sl; [done|]. intros [= <-]. nodes_norm. done.
Qed.

Lemma del_fix_nodes k : forall k',
  del_fix k = Some k' -> nodes_l k' = nodes_l k /\ nodes_r k' = nodes_r k.
Proof.
  induction k as [|f k IH]; intros k'; [by intros [= <-]|].
  destruct f as [cp p pv po s|cp s p pv po]; cbn [del_fix];
    destruct s as [|sc sl sa sv so sr]; try done.
  - destruct sc.
    + intros [-> ->]%del_456_l_nodes. nodes_norm. done.
    + destruct (negb cp && negb (col sl) && negb (col sr)).
      * destruct (del_fix k) as [k''|]; [|done]. intros [= <-].
        destruct (IH _ eq_refl) as [Hl Hr]. cbn. by rewrite Hl, Hr.
      * intros [-> ->]%del_456_l_nodes. done.
  - destruct sc.
    + intros [-> ->]%del_456_r_nodes. nodes_norm. done.
    + destruct (negb cp && negb (col sl) && negb (col sr)).
      * destruct (del_fix k) as [k''|]; [|done]. intros [= <-].
        destruct (IH _ eq_refl) as [Hl Hr]. cbn. by rewrite Hl, Hr.
      * intros [-> ->]%del_456_r_nodes. done.
Qed.

(** ** Deleting takes one range out *)

Lemma ranges_plug t k : ranges (plug t k) = ranges_l k ++ ranges t ++ ranges_r k.
Proof.
  unfold ranges_l, ranges_r. rewrite !ranges_nodes, nodes_plug, !fmap_app. done.
Qed.

Lemma ranges_l_FL c a v o r k : ranges_l (FL c a v o r :: k) = ranges_l k.
Proof. done. Qed.

Lemma ranges_l_FR c l a v o k :
  ranges_l (FR c l a v o :: k) = ranges_l k ++ ranges l ++ [mk_range v o].
Proof. unfold ranges_l. cbn. by rewrite !fmap_app, <- ranges_nodes. Qed.

Lemma ranges_r_FL c a v o r k :
  ranges_r (FL c a v o r :: k) = mk_range v o :: ranges r ++ ranges_r k.
Proof. unfold ranges_r. cbn. by rewrite !fmap_app, <- ranges_nodes. Qed.

Lemma ranges_r_FR c l a v o k : ranges_r (FR c l a v o :: k) = ranges_r k.
Proof. done. Qed.

Lemma ranges_l_nil : ranges_l [] = [].
Proof. done. Qed.

Lemma ranges_r_nil : ranges_r [] = [].
Proof. done. Qed.

Lemma ranges_l_app k1 k2 : ranges_l (k1 ++ k2) = ranges_l k2 ++ ranges_l k1.
Proof. unfold ranges_l. by rewrite nodes_l_app, fmap_app. Qed.

Lemma ranges_r_app k1 k2 : ranges_r (k1 ++ k2) = ranges_r k1 ++ ranges_r k2.
Proof. unfold ranges_r. by rewrite nodes_r_app, fmap_app. Qed.

Ltac ranges_norm :=
  rewrite ?ranges_plug, ?ranges_l_app, ?ranges_r_app, ?ranges_l_FL, ?ranges_l_FR,
    ?ranges_r_FL, ?ranges_r_FR, ?ranges_l_nil, ?ranges_r_nil;
  cbn [ranges fill];
  repeat (progress (rewrite <- ?app_assoc, ?app_nil_r; cbn [app])).

Lemma del_one_ranges k c l x v o r t' y :
  del_one k (T c l x v o r) = Some (t', y) ->
  ranges t' = ranges_l k ++ ranges l ++ ranges r ++ ranges_r k.
Proof.
  unfold del_one. destruct k as [|f k]; [done|].
  generalize (f :: k). clear f k. intros k.
  destruct l as [|lc ll la lv lo lr], r as [|rc rl ra rv ro rr]; [| | |done].
  - destruct c.
    + intros [= <- <-]. by rewrite ranges_plug.
    + destruct (del_fix k) as [k'|] eqn:Hfix; [|done]. intros [= <- <-].
      apply del_fix_nodes in Hfix as [Hl Hr].
      rewrite ranges_plug. unfold ranges_l, ranges_r. by rewrite Hl, Hr.
  - destruct c; [|destruct rc; [|done]]; intros [= <- <-]; by rewrite ranges_plug.
  - destruct c; [|destruct lc; [|done]]; intros [= <- <-];
      rewrite ranges_plug; cbn; by rewrite <- ?app_assoc, ?app_nil_r.
Qed.

Lemma nodes_r_descend_r t : forall k,
  nodes_r (descend_r t k).1 = nodes_r k.
Proof.
  induction t as [|c l _ a v o r IH]; intros k; [done|].
  cbn [descend_r]. destruct r; [done|]. by rewrite IH.
Qed.

Lemma nodes_l_descend_l t : forall k,
  nodes_l (descend_l t k).1 = nodes_l k.
Proof.
  induction t as [|c l IH a v o r _]; intros k; [done|].
  cbn [descend_l]. destruct l; [done|]. by rewrite IH.
Qed.

(** The subtree [t] seen from its rightmost node. *)
Lemma ranges_descend_r t ks sc sl sa sv so sr :
  descend_r t [] = (ks, T sc sl sa sv so sr) ->
  sr = E /\ ranges_r ks = [] /\
  ranges t = ranges_l ks ++ ranges sl ++ [mk_range sv so].
Proof.
  intros Hd. pose proof (plug_descend_r_nil t) as Hplug.
  pose proof (nodes_r_descend_r t []) as Hr.
  assert (t <> E) as Hne by (intros ->; done).
  destruct (descend_r_shape t Hne) as (c' & l' & a' & v' & o' & Hs).
  rewrite Hd in *. cbn [fst snd] in *. injection Hs as -> -> -> -> -> ->.
  split; [done|]. unfold ranges_r. rewrite Hr. split; [done|].
  rewrite <- Hplug, ranges_plug. unfold ranges_r. rewrite Hr. cbn.
  by rewrite app_nil_r.
Qed.

Lemma ranges_descend_l t ks sc sl sa sv so sr :
  descend_l t [] = (ks, T sc sl sa sv so sr) ->
  sl = E /\ ranges_l ks = [] /\
  ranges t = mk_range sv so :: ranges sr ++ ranges_r ks.
Proof.
  intros Hd. pose proof (plug_descend_l_nil t) as Hplug.
  pose proof (nodes_l_descend_l t []) as Hl.
  assert (t <> E) as Hne by (intros ->; done).
  destruct (descend_l_shape t Hne) as (c' & a' & v' & o' & r' & Hs).
  rewrite Hd in *. cbn [fst snd] in *. injection Hs as -> -> -> -> -> ->.
  split; [done|]. unfold ranges_l. rewrite Hl. split; [done|].
  rewrite <- Hplug, ranges_plug. unfold ranges_l. rewrite Hl. done.
Qed.

Lemma del_at_ranges k c l a v o r t' y :
  del_at k (T c l a v o r) = Some (t', y) ->
  ranges t' = ranges_l k ++ ranges l ++ ranges r ++ ranges_r k.
Proof.
  cbn [del_at]. destruct l as [|lc ll la lv lo lr].
  - destruct r as [|rc rl ra rv ro rr].
    + destruct k as [|f k]; [by intros [= <- <-]|]. apply del_one_ranges.
    + destruct (descend_l (T rc rl ra rv ro rr) []) as [ks [|sc sl sa sv so sr]] eqn:Hd;
        [done|].
      apply ranges_descend_l in Hd as (-> & Hl & Hrg).
      intros ->%del_one_ranges. rewrite Hrg. ranges_norm. rewrite Hl. done.
  - destruct (descend_r (T lc ll la lv lo lr) []) as [ks [|sc sl sa sv so sr]] eqn:Hd;
      [done|].
    apply ranges_descend_r in Hd as (-> & Hr & Hrg).
    intros ->%del_one_ranges. rewrite Hrg. ranges_norm. rewrite Hr. done.
Qed.


(** ** Lists of ranges *)

Lemma are_consecutive_eqb a b :
  0 <= a <= UINT32_MAX -> 0 <= b <= UINT32_MAX ->
  are_consecutive a b = (a + 1 =? b).
Proof.
  unfold are_consecutive, UINT32_MAX. intros Ha Hb.
  destruct (a =? 4294967295) eqn:E; cbn.
  - apply Z.eqb_eq in E. symmetry. apply Z.eqb_neq. lia.
  - apply Z.eqb_neq in E. by rewrite u32_small by lia.
Qed.

Lemma gapped_weaken lo lo' hi rs :
  lo' <= lo -> gapped lo hi rs -> gapped lo' hi rs.
Proof. destruct rs as [|rg rs]; cbn; [done|]. intros ? (? & ? & ? & ?). auto with lia. Qed.

Lemma gapped_app lo hi l1 rg l2 :
  gapped lo hi (l1 ++ rg :: l2) <->
  gapped lo (value rg - 2) l1 /\
  lo <= value rg /\ 0 <= offset rg /\ value rg + offset rg <= hi /\
  gapped (value rg + offset rg + 2) hi l2.
Proof.
  revert lo. induction l1 as [|r1 l1 IH]; intros lo; cbn [app gapped].
  - tauto.
  - rewrite IH. intuition lia.
Qed.

Lemma bst_gapped t : forall lo hi, bst lo hi t <-> gapped lo hi (ranges t).
Proof.
  induction t as [|c l IHl a v o r IHr]; intros lo hi; cbn [bst ranges]; [done|].
  rewrite gapped_app, IHl, IHr. cbn [value offset]. tauto.
Qed.

Lemma gapped_bounds lo hi rs :
  gapped lo hi rs ->
  Forall (fun rg => lo <= value rg /\ 0 <= offset rg /\ value rg + offset rg <= hi) rs.
Proof.
  revert lo. induction rs as [|rg rs IH]; intros lo; cbn; [constructor|].
  intros (H1 & H2 & H3 & H4). constructor; [done|].
  eapply Forall_impl; [by apply IH|]. cbn. intros x ?. lia.
Qed.

Lemma linsert_below w A X :
  Forall (below w) A -> linsert w (A ++ X) = A ++ linsert w X.
Proof.
  induction 1 as [|rg A [Ho Hrg] _ IH]; [done|].
  cbn [app linsert].
  rewrite (proj2 (Z.eqb_neq _ _)) by lia.
  rewrite (proj2 (Z.ltb_ge _ _)) by lia.
  rewrite (proj2 (Z.eqb_neq _ _)) by lia.
  by rewrite IH.
Qed.

Lemma linsert_above w B :
  Forall (above w) B -> linsert w B = mk_range w 0 :: B.
Proof.
  destruct 1 as [|rg B [Ho Hrg] _]; [done|].
  cbn [linsert].
  rewrite (proj2 (Z.eqb_neq _ _)) by lia.
  by rewrite (proj2 (Z.ltb_lt _ _)) by lia.
Qed.

Lemma gapped_below lo hi rs w :
  gapped lo hi rs -> hi + 2 <= w -> Forall (below w) rs.
Proof.
  intros H%gapped_bounds Hw. eapply Forall_impl; [exact H|].
  unfold below. cbn. intros rg ?. lia.
Qed.

Lemma gapped_above lo hi rs w :
  gapped lo hi rs -> w + 2 <= lo -> Forall (above w) rs.
Proof.
  intros H%gapped_bounds Hw. eapply Forall_impl; [exact H|].
  unfold above. cbn. intros rg ?. lia.
Qed.

Lemma not_covered_app l1 l2 x :
  ~ covered (l1 ++ l2) x <-> ~ covered l1 x /\ ~ covered l2 x.
Proof. unfold covered. rewrite Exists_app. tauto. Qed.

Lemma not_covered_cons rg l x :
  ~ covered (rg :: l) x <-> ~ covers rg x /\ ~ covered l x.
Proof. unfold covered. rewrite Exists_cons. tauto. Qed.

(** ** What the descent of an insertion does to the ranges *)

Ltac zcmp :=
  repeat match goal with
    | |- context [?a =? ?b] => destruct (Z.eqb_spec a b); try lia
    | |- context [?a <? ?b] => destruct (Z.ltb_spec a b); try lia
    end.

Lemma ins_go_ranges w : forall t k lo hi,
  bst lo hi t -> 0 <= lo -> hi <= UINT32_MAX -> 0 <= w <= UINT32_MAX ->
  Forall (below w) (ranges_l k) -> Forall (above w) (ranges_r k) ->
  ~ covered (ranges t) w -> t <> E ->
  match ins_go w t k with
  | INew ls k' tb =>
      exists fr, slot_frame ls tb = Some fr /\
        forall f, ranges (plug (T RED E f w 0 E) (fr :: k'))
                  = linsert w (ranges (plug t k))
  | IExt t' => ranges t' = linsert w (ranges (plug t k))
  | IMerge k' tb =>
      forall t' y, del_at k' tb = Some (t', y) ->
        ranges t' = linsert w (ranges (plug t k))
  | IDup => False
  end.
Proof.
  induction t as [|c l IHl a v o r IHr];
    intros k lo hi Hbst Hlo Hhi Hw HA HB Hcov Hne; [done|]. clear Hne.
  cbn [bst] in Hbst. destruct Hbst as (Hv & Ho & Hvo & Hl & Hr).
  cbn [ranges] in Hcov.
  apply not_covered_app in Hcov as [Hcl Hcov].
  apply not_covered_cons in Hcov as [Hcv Hcr]. unfold covers in Hcv. cbn in Hcv.
  pose proof (proj1 (bst_gapped _ _ _) Hl) as Hgl.
  pose proof (proj1 (bst_gapped _ _ _) Hr) as Hgr.
  cbn [ins_go]. rewrite ranges_plug. cbn [ranges].
  rewrite <- !app_assoc. rewrite (linsert_below _ _ _ HA). cbn [app].
  rewrite (are_consecutive_eqb w v) by lia.
  destruct (Z.eqb_spec (w + 1) v) as [Hwv|Hwv].
  - (* [w] right before the range *)
    destruct (descend_r l []) as [ks [|sc sl sa sv so sr]] eqn:Hd.
    + (* no left subtree *)
      assert (l = E) as ->.
      { destruct l; [done|]. destruct (descend_r_shape (T c0 l1 a0 v0 o0 l2)) as (?&?&?&?&?&Hs); [done|].
        rewrite Hd in Hs. done. }
      ranges_norm. cbn [linsert value offset]. zcmp.
      rewrite u32_small by (unfold UINT32_MAX in *; lia). done.
    + apply ranges_descend_r in Hd as (-> & Hrk & Hrg).
      rewrite Hrg in Hgl. rewrite app_assoc in Hgl.
      apply gapped_app in Hgl as (Hg1 & Hv1 & Ho1 & Hvo1 & _). cbn [value offset] in *.
      rewrite u32_small by (unfold UINT32_MAX in *; lia).
      rewrite (are_consecutive_eqb (sv + so) w) by lia.
      rewrite Hrg. rewrite <- !app_assoc. cbn [app].
      rewrite app_assoc.
      rewrite (linsert_below w (ranges_l ks ++ ranges sl))
        by (eapply gapped_below; [exact Hg1|lia]).
      destruct (Z.eqb_spec (sv + so + 1) w) as [Hsw|Hsw].
      * intros t' y ->%del_at_ranges. ranges_norm. rewrite Hrk.
        cbn [linsert value offset app]. zcmp.
        rewrite (u32_small (so + 2)) by (unfold UINT32_MAX in *; lia).
        rewrite u32_small by (unfold UINT32_MAX in *; lia).
        by replace (o + (so + 2)) with (so + o + 2) by lia.
      * ranges_norm. rewrite Hrg. ranges_norm.
        do 3 f_equal. cbn [linsert value offset]. zcmp.
        rewrite u32_small by (unfold UINT32_MAX in *; lia). done.
  - destruct (Z.ltb_spec w v) as [Hlt|Hge].
    + (* to the left *)
      destruct l as [|lc ll la lv lo' lr].
      * eexists. split; [reflexivity|]. intros f. ranges_norm.
        f_equal. cbn [linsert value offset]. zcmp. done.
      * specialize (IHl (FL c a v o r :: k) lo (v - 2) Hl Hlo ltac:(lia) Hw).
        rewrite ranges_l_FL, ranges_r_FL in IHl.
        specialize (IHl HA).
        lapply IHl.
        2:{ constructor; [split; cbn; lia|]. apply Forall_app. split; [|done].
            eapply gapped_above; [exact Hgr|lia]. }
        clear IHl; intros IHl. specialize (IHl Hcl ltac:(done)).
        rewrite ranges_plug, ranges_l_FL, ranges_r_FL in IHl.
        rewrite (linsert_below _ _ _ HA) in IHl. exact IHl.
    + assert (v + o < w) as Hgt by lia.
      rewrite u32_small by (unfold UINT32_MAX in *; lia).
      rewrite (are_consecutive_eqb (v + o) w) by lia.
      assert (Forall (below w) (ranges l)) as Hbl
        by (eapply gapped_below; [exact Hgl|lia]).
      destruct (Z.eqb_spec (v + o + 1) w) as [Hvw|Hvw].
      * (* [w] right after the range *)
        destruct (descend_l r []) as [ks [|sc sl sa sv so sr]] eqn:Hd.
        -- assert (r = E) as ->.
           { destruct r; [done|]. destruct (descend_l_shape (T c0 r1 a0 v0 o0 r2)) as (?&?&?&?&?&Hs); [done|].
             rewrite Hd in Hs. done. }
           ranges_norm. rewrite (linsert_below _ _ _ Hbl). do 2 f_equal.
           cbn [linsert value offset app]. zcmp.
           rewrite u32_small by (unfold UINT32_MAX in *; lia).
           destruct HB as [|rg' B' [? ?] _]; [done|]. zcmp. done.
        -- apply ranges_descend_l in Hd as (-> & Hlk & Hrg).
           rewrite Hrg in Hgr. cbn [gapped] in Hgr.
           destruct Hgr as (Hv1 & Ho1 & Hvo1 & _). cbn [value offset] in *.
           rewrite (are_consecutive_eqb w sv) by lia.
           rewrite (linsert_below _ _ _ Hbl). rewrite Hrg.
           destruct (Z.eqb_spec (w + 1) sv) as [Hws|Hws].
           ++ intros t' y ->%del_at_ranges. ranges_norm. rewrite Hlk.
              cbn [linsert value offset app]. zcmp.
              rewrite (u32_small (so + 2)) by (unfold UINT32_MAX in *; lia).
              rewrite u32_small by (unfold UINT32_MAX in *; lia).
              by replace (o + (so + 2)) with (o + so + 2) by lia.
           ++ ranges_norm. rewrite Hrg. ranges_norm. do 2 f_equal.
              cbn [linsert value offset app]. zcmp.
              rewrite u32_small by (unfold UINT32_MAX in *; lia). done.
      * (* to the right *)
        destruct (Z.ltb_spec v w) as [_|?]; [|lia].
        assert (below w (mk_range v o)) as Hbv by (split; cbn; lia).
        destruct r as [|rc rl ra rv ro rr].
        -- eexists. split; [reflexivity|]. intros f. ranges_norm.
           rewrite (linsert_below _ _ _ Hbl). do 2 f_equal.
           change (mk_range v o :: ranges_r k) with ([mk_range v o] ++ ranges_r k).
           rewrite (linsert_below w [mk_range v o]) by (by constructor).
           cbn [app]. f_equal. by rewrite linsert_above.
        -- specialize (IHr (FR c l a v o :: k) (v + o + 2) hi Hr ltac:(lia) Hhi Hw).
           rewrite ranges_l_FR, ranges_r_FR in IHr.
           lapply IHr.
           2:{ apply Forall_app. split; [done|]. apply Forall_app. split; [done|].
               by constructor. }
           clear IHr; intros IHr. specialize (IHr HB Hcr ltac:(done)).
           rewrite ranges_plug, ranges_l_FR, ranges_r_FR in IHr.
           rewrite <- !app_assoc in IHr.
           rewrite (linsert_below _ _ _ HA) in IHr. exact IHr.
Qed.

(** ** Insertion into a list of ranges *)

Lemma linsert_gapped w hi rs : forall lo,
  gapped lo hi rs -> lo <= w <= hi -> ~ covered rs w ->
  gapped lo hi (linsert w rs).
Proof.
  induction rs as [|[v o] rs IH]; intros lo Hg Hw Hcov.
  - cbn. lia.
  - cbn [gapped value offset] in Hg. destruct Hg as (Hv & Ho & Hvo & Hg).
    apply not_covered_cons in Hcov as [Hcv Hcov]. unfold covers in Hcv. cbn in Hcv.
    cbn [linsert value offset].
    destruct (Z.eqb_spec (w + 1) v); [cbn; split_and!; try lia;
      by replace (w + (o + 1) + 2) with (v + o + 2) by lia|].
    destruct (Z.ltb_spec w v); [cbn; split_and!; try lia;
      eapply gapped_weaken; [|exact Hg]; lia|].
    destruct (Z.eqb_spec (v + o + 1) w).
    + destruct rs as [|[v' o'] rs']; [cbn; lia|].
      cbn [gapped value offset] in Hg. destruct Hg as (Hv' & Ho' & Hvo' & Hg).
      cbn [value offset].
      destruct (Z.eqb_spec (w + 1) v'); cbn; split_and!; try lia.
      * by replace (v + (o + o' + 2) + 2) with (v' + o' + 2) by lia.
      * eapply gapped_weaken; [|exact Hg]; lia.
    + cbn. split_and!; try lia. apply IH; [done|lia|done].
Qed.

Lemma linsert_total w rs : total (linsert w rs) = total rs + 1.
Proof.
  induction rs as [|[v o] rs IH]; [done|]. cbn [linsert value offset].
  destruct (w + 1 =? v); [cbn; lia|].
  destruct (w <? v); [cbn; lia|].
  destruct (v + o + 1 =? w).
  - destruct rs as [|[v' o'] rs']; [cbn; lia|]. cbn [value offset].
    destruct (w + 1 =? v'); cbn; lia.
  - cbn. rewrite IH. lia.
Qed.

Lemma covered_cons rg rs x : covered (rg :: rs) x <-> covers rg x \/ covered rs x.
Proof. unfold covered. by rewrite Exists_cons. Qed.

Lemma covered_nil x : covered [] x <-> False.
Proof. unfold covered. by rewrite Exists_nil. Qed.

Lemma linsert_covered w hi rs x : forall lo,
  gapped lo hi rs ->
  (covered (linsert w rs) x <-> covered rs x \/ x = w).
Proof.
  induction rs as [|[v o] rs IH]; intros lo Hg.
  - cbn. rewrite covered_cons, !covered_nil. unfold covers. cbn. intuition lia.
  - cbn [gapped value offset] in Hg. destruct Hg as (Hv & Ho & Hvo & Hg).
    cbn [linsert value offset].
    destruct (Z.eqb_spec (w + 1) v);
      [rewrite !covered_cons; unfold covers; cbn; intuition lia|].
    destruct (Z.ltb_spec w v);
      [rewrite !covered_cons; unfold covers; cbn; intuition lia|].
    destruct (Z.eqb_spec (v + o + 1) w).
    + destruct rs as [|[v' o'] rs'];
        [rewrite !covered_cons, !covered_nil; unfold covers; cbn; intuition lia|].
      cbn [gapped value offset] in Hg. destruct Hg as (Hv' & Ho' & Hvo' & Hg).
      cbn [value offset].
      destruct (Z.eqb_spec (w + 1) v'); rewrite !covered_cons; unfold covers; cbn; intuition lia.
    + rewrite !covered_cons, (IH _ Hg). tauto.
Qed.

Lemma gapped_length lo hi rs :
  gapped lo hi rs -> Z.of_nat (length rs) <= total rs.
Proof.
  revert lo. induction rs as [|[v o] rs IH]; intros lo; cbn [gapped total length];
    [lia|].
  intros (_ & Ho & _ & Hg). specialize (IH _ Hg). cbn in *. lia.
Qed.

Lemma gapped_total_bound hi rs : forall lo,
  gapped lo hi rs -> lo <= hi + 2 ->
  total rs + Z.of_nat (length rs) <= hi - lo + 2.
Proof.
  induction rs as [|[v o] rs IH]; intros lo; cbn [gapped total length value offset];
    [lia|].
  intros (Hv & Ho & Hvo & Hg) Hlo. specialize (IH _ Hg ltac:(lia)). lia.
Qed.

(** Ranges that hold all of [0 .. n-1] are one range. *)
Lemma gapped_full n rs :
  1 <= n -> gapped 0 (n - 1) rs -> total rs = n -> rs = [mk_range 0 (n - 1)].
Proof.
  intros Hn Hg Ht.
  pose proof (gapped_total_bound _ _ _ Hg ltac:(lia)) as Hb.
  destruct rs as [|[v o] [|rg rs]]; cbn [total length] in *; [lia| |lia].
  cbn in Hg. cbn [offset] in Ht. f_equal. f_equal; lia.
Qed.

(** ** What [ins] does on a red-black tree of separated ranges *)

Lemma same_shape_length t1 : forall t2,
  same_shape t1 t2 -> length (ranges t1) = length (ranges t2).
Proof.
  induction t1 as [|c l IHl a v o r IHr]; intros [|c2 l2 a2 v2 o2 r2]; cbn;
    try tauto.
  intros (_ & Hl & Hr). rewrite !length_app. cbn. by rewrite (IHl _ Hl), (IHr _ Hr).
Qed.

Lemma ins_ok w hi t fl :
  rb t -> bst 0 hi t -> hi <= UINT32_MAX -> 0 <= w <= hi ->
  ~ covered (ranges t) w -> fl <> [] ->
  exists t' fl',
    ins w t fl = Some (RB_SUCCESS, t', fl') /\ rb t' /\
    ranges t' = linsert w (ranges t) /\
    (length (ranges t') + length fl' = length (ranges t) + length fl)%nat.
Proof.
  intros Hrb Hbst Hhi Hw Hcov Hfl.
  destruct (ins_rb w t fl Hrb ltac:(done)) as (st & t' & fl' & Hins & Hrb').
  exists t', fl'. pose proof Hins as Hins0. destruct t as [|c l a v o r].
  { destruct fl as [|f rest]; [done|]. cbn in Hins. injection Hins as <- <- <-.
    split_and!; [done..|]. cbn. lia. }
  cbn [ins] in Hins.
  pose proof (ins_go_shape w (T c l a v o r) []) as Hsh.
  pose proof (ins_go_ranges w (T c l a v o r) [] 0 hi Hbst ltac:(lia) Hhi
                ltac:(lia) ltac:(constructor) ltac:(constructor) Hcov ltac:(done))
    as Hrg.
  cbn [plug] in Hsh, Hrg.
  destruct (ins_go w (T c l a v o r) []) as [ls k tb|tx|k tb|]; [| | |done].
  - destruct Hsh as (Hplug & bc & bl & ba & bv & bo & br & -> & Hslot).
    destruct Hrg as (fr & Hfr & Hrg). cbn [slot_frame] in Hfr.
    injection Hfr as <-.
    destruct fl as [|f rest]; [done|].
    destruct (ins_fix _ _) as [tf|] eqn:Hfix in Hins; [|done].
    injection Hins as <- <- <-.
    apply (ins_fix_nodes (S (length k))) in Hfix; [|cbn; lia|done].
    assert (ranges tf = linsert w (ranges (T c l a v o r))) as Heq.
    { rewrite <- Hrg with (f := f). by rewrite !ranges_nodes, Hfix. }
    split_and!; [done..|].
    rewrite !ranges_nodes, Hfix, <- Hplug, !nodes_plug. cbn [length fill].
    destruct ls; subst; cbn [nodes nodes_l nodes_r];
      rewrite !length_fmap, !length_app; cbn [length];
      rewrite ?length_app; cbn [length]; lia.
  - injection Hins as <- <- <-. split_and!; [done..|].
    by rewrite (same_shape_length _ _ Hsh).
  - destruct Hsh as [Htb Hsh]. destruct tb as [|bc bl ba bv bo br]; [done|].
    destruct (del_at k (T bc bl ba bv bo br)) as [[td y]|] eqn:Hdel; [|done].
    injection Hins as <- <- <-. split_and!; [done| |by eapply Hrg|].
    { done. }
    rewrite (same_shape_length _ _ Hsh), ranges_plug.
    rewrite (del_at_ranges _ _ _ _ _ _ _ _ _ Hdel).
    cbn [ranges]. repeat (rewrite ?length_app; cbn [length]). lia.
Qed.

Lemma height_le_length t : (height t <= length (ranges t))%nat.
Proof.
  induction t as [|c l IHl a v o r IHr]; cbn; [lia|].
  rewrite length_app. cbn. lia.
Qed.

Lemma inorder_rep t : forall h par p fuel,
  rep h par p t -> (height t < fuel)%nat -> inorder fuel h p = ranges t.
Proof.
  induction t as [|c l IHl a v o r IHr]; intros h par p fuel Hrep Hfuel.
  - cbn in Hrep. subst p. by destruct fuel.
  - destruct fuel as [|fuel]; [lia|]. cbn [height] in Hfuel.
    cbn in Hrep. destruct Hrep as (-> & n & Hn & Hc & Hrg & Hp & Hl & Hr).
    cbn. rewrite Hn, Hrg.
    rewrite (IHl _ _ _ _ Hl), (IHr _ _ _ _ Hr) by lia. done.
Qed.


(** ** Inserting a permutation of 0 .. N-1 *)

Lemma linsert_length w rs :
  (length (linsert w rs) <= length rs + 1)%nat /\
  (length rs <= length (linsert w rs) + 1)%nat.
Proof.
  induction rs as [|rg rs IH]; cbn; [lia|].
  repeat case_match; cbn in *; lia.
Qed.

(** A successful create got a block from [calloc] and a capacity from 1 to
    [MAX_TREE_SIZE]; it leaves the empty tree. *)
Lemma rb_tree_create_success alloc N s0 s1 :
  rb_tree_create alloc N s0 = Ok RB_SUCCESS s1 ->
  1 <= N -> 1 <= N <= MAX_TREE_SIZE /\ inserted_inv N s1 [].
Proof.
  intros Hrun HN. destruct s0 as [h [t0|]]; [|done].
  assert ((N =? 0) = false) as E0 by (apply Z.eqb_neq; lia).
  destruct (MAX_TREE_SIZE <? N) eqn:E1.
  { assert (exists s', rb_tree_create alloc N (mk_state h (Some t0))
                       = Ok RB_FAIL_EXCEEDED_MAX_SIZE s') as [s' Hrun'].
    { eexists. unfold rb_tree_create. mrun. rewrite E0, E1. mrun. }
    by rewrite Hrun' in Hrun. }
  destruct alloc as [base|]; cycle 1.
  { assert (exists s', rb_tree_create None N (mk_state h (Some t0))
                       = Ok RB_FAIL_MEM_ERR s') as [s' Hrun'].
    { eexists. unfold rb_tree_create. mrun. rewrite E0, E1. mrun. }
    by rewrite Hrun' in Hrun. }
  apply Z.ltb_ge in E1.
  split; [lia|].
  destruct (rb_tree_create_spec h t0 base N ltac:(lia))
    as (h' & t & Hrun' & Hfree & Hs & Hmx & Hr & Hb & _).
  rewrite Hrun' in Hrun. injection Hrun as <-.
  exists t, E, (seq base (Z.to_nat N)). split_and!.
  - apply Zt_close; cbn.
    + by rewrite set_root_root.
    + done.
    + done.
    + apply NoDup_seq.
    + exact Hfree.
    + intros. by apply free_frame_stable.
  - by rewrite Hb.
  - done.
  - done.
  - cbn. by rewrite length_seq.
  - split; [done|]. by exists O.
  - done.
  - done.
  - intros x Hx. by apply covered_nil in Hx.
Qed.

(** One insertion of a new value into a tree that is not full. *)
Lemma rb_tree_insert_step N fuel s done w :
  1 <= N <= MAX_TREE_SIZE -> inserted_inv N s done ->
  0 <= w < N -> w ∉ done -> Z.of_nat (length done) < N ->
  (2 * Z.to_nat N + 2 <= fuel)%nat ->
  exists s', rb_tree_insert fuel w s = Ok RB_SUCCESS s' /\
             inserted_inv N s' (done ++ [w]).
Proof.
  intros HN (tt0 & t & fl & HZ & Hnb & Hmx & Hsz & Hlen & Hrb & Hg & Htot & Hcov)
    Hw Hnew Hdone Hfuel.
  assert (MAX_TREE_SIZE = 2147483648) as HM by reflexivity.
  assert (UINT32_MAX = 4294967295) as HU by reflexivity.
  pose proof (gapped_length _ _ _ Hg) as Hgl.
  assert (fl <> []) as Hfl by (intros ->; cbn in Hlen; lia).
  destruct (ins_ok w (N - 1) t fl) as (t' & fl' & Hins & Hrb' & Hrg & Hlen');
    [done|by apply bst_gapped|lia|lia|by intros ?%Hcov|done|].
  pose proof (height_le_length t) as Hh.
  destruct (rb_tree_insert_spec tt0 fl fuel w s t _ _ _ HZ Hnb ltac:(lia) Hins)
    as (s' & Hrun & tt1 & HZ' & Hmx' & Hnb' & Hsz'); [lia|].
  exists s'. split; [done|]. exists tt1, t', fl'.
  pose proof (linsert_length w (ranges t)) as [Hl1 Hl2]. rewrite <- Hrg in Hl1, Hl2.
  split_and!; try done.
  - by rewrite Hnb'.
  - by rewrite Hmx'.
  - rewrite Hsz'. repeat case_bool_decide.
    + rewrite u32_small; lia.
    + rewrite u32_small; lia.
    + lia.
  - lia.
  - rewrite Hrg. apply linsert_gapped; [done|lia|by intros ?%Hcov].
  - rewrite Hrg, linsert_total, length_app. cbn. lia.
  - intros x. rewrite Hrg, (linsert_covered _ _ _ _ _ Hg), elem_of_app,
      list_elem_of_singleton. intros [?%Hcov| ->]; auto.
Qed.

Lemma inserts_spec N fuel : forall vs s done,
  1 <= N <= MAX_TREE_SIZE -> inserted_inv N s done ->
  NoDup (done ++ vs) -> Forall (fun w => 0 <= w < N) vs ->
  Z.of_nat (length (done ++ vs)) <= N ->
  (2 * Z.to_nat N + 2 <= fuel)%nat ->
  exists s', inserts fuel vs s = Ok (replicate (length vs) RB_SUCCESS) s' /\
             inserted_inv N s' (done ++ vs).
Proof.
  induction vs as [|w vs IH]; intros s done HN Hinv Hnd Hall Hlen Hfuel.
  - exists s. rewrite app_nil_r. done.
  - apply Forall_cons in Hall as [Hw Hall].
    rewrite length_app in Hlen. cbn [length] in Hlen.
    destruct (rb_tree_insert_step N fuel s done w) as (s1 & Hrun & Hinv1);
      [done|done|done| |lia|done|].
    { apply NoDup_app in Hnd as (_ & Hnd & _). intros Hin.
      apply (Hnd _ Hin). by left. }
    destruct (IH s1 (done ++ [w])) as (s2 & Hrun2 & Hinv2);
      [done|done|by rewrite <- app_assoc|done| |done|].
    { rewrite !length_app. cbn [length]. lia. }
    exists s2. split; [|by rewrite <- app_assoc in Hinv2].
    cbn [inserts length replicate]. unfold bind at 1. rewrite Hrun.
    unfold bind at 1. rewrite Hrun2. done.
Qed.

Lemma ranges_nil t : ranges t = [] -> t = E.
Proof. destruct t as [|c l a v o r]; cbn; [done|]. by destruct (ranges l). Qed.

Lemma ranges_singleton t rg :
  ranges t = [rg] -> exists c a, t = T c E a (value rg) (offset rg) E.
Proof.
  destruct t as [|c l a v o r]; cbn; [done|]. intros H.
  destruct (ranges l) as [|x xs] eqn:El; cbn in H.
  - injection H as <- Hr. apply ranges_nil in El, Hr. subst. by exists c, a.
  - injection H as _ H. by destruct xs.
Qed.

(** After all the values are in, the tree is one node. *)
Lemma inserted_all N s done :
  1 <= N -> inserted_inv N s done -> Z.of_nat (length done) = N ->
  size_of s = 1 /\
  exists a n, root_of s = Some a /\ heap s !! a = Some n /\
              range n = mk_range 0 (N - 1) /\
              parent n = None /\ left n = None /\ right n = None.
Proof.
  intros HN (tt0 & t & fl & HZ & Hnb & Hmx & Hsz & Hlen & Hrb & Hg & Htot & Hcov) Hd.
  pose proof (gapped_full N (ranges t) HN Hg ltac:(lia)) as Hrs.
  destruct HZ as (h & rootp & -> & Hrep & _). cbn [plug] in Hrep.
  rewrite Hrs in Hsz. cbn in Hsz.
  apply ranges_singleton in Hrs as (c & a & ->).
  cbn in Hrep. destruct Hrep as (-> & n & Hn & _ & Hrg & Hp & Hl & Hr).
  split; [done|]. exists a, n. cbn. done.
Qed.

(** C6: for every N >= 1 and every permutation [vs] of the values
    0, 1, ..., N-1, inserting them in that order into a freshly created tree
    of capacity N (a state [s1] that a successful [rb_tree_create] with
    capacity N left) has every insert return [RB_SUCCESS], and the final
    tree consists of exactly one node: [size] is 1 and the root is a node
    with no parent and no children whose range is (value = 0,
    offset = N-1).  The loops of the insertions end within 2N + 2 steps. *)
Theorem insert_permutation (N : Z) (alloc : ptr) (s0 s1 : state) (vs : list Z)
    (fuel : nat)
    (HN : 1 <= N)
    (Hcreate : rb_tree_create alloc N s0 = Ok RB_SUCCESS s1)
    (Hperm : vs ≡ₚ Z.of_nat <$> seq 0 (Z.to_nat N))
    (Hfuel : (2 * Z.to_nat N + 2 <= fuel)%nat) :
  exists s2,
    inserts fuel vs s1 = Ok (replicate (length vs) RB_SUCCESS) s2 /\
    size_of s2 = 1 /\
    exists a n,
      root_of s2 = Some a /\ heap s2 !! a = Some n /\
      range n = mk_range 0 (N - 1) /\
      parent n = None /\ left n = None /\ right n = None.
Proof.
  destruct (rb_tree_create_success _ _ _ _ Hcreate HN) as [HN' Hinv].
  assert (length vs = Z.to_nat N) as Hlen.
  { by rewrite Hperm, length_fmap, length_seq. }
  destruct (inserts_spec N fuel vs s1 [] HN' Hinv) as (s2 & Hrun & Hinv2).
  - cbn. rewrite Hperm. apply NoDup_fmap; [intros ?? ?; lia|apply NoDup_seq].
  - rewrite Hperm. apply Forall_fmap, Forall_forall. intros x Hx%elem_of_seq.
    cbn. lia.
  - cbn. lia.
  - done.
  - exists s2. split; [done|]. apply (inserted_all N s2 vs HN Hinv2). lia.
Qed.

Lemma insert_permutation_witness :
  exists s1 s2,
    rb_tree_create (Some 0%nat) 3 fresh = Ok RB_SUCCESS s1 /\
    inserts 8 [2; 0; 1] s1 = Ok [RB_SUCCESS; RB_SUCCESS; RB_SUCCESS] s2 /\
    size_of s2 = 1 /\
    exists a n,
      root_of s2 = Some a /\ heap s2 !! a = Some n /\
      range n = mk_range 0 2 /\
      parent n = None /\ left n = None /\ right n = None.
Proof.
  destruct (rb_tree_create_spec ∅ uninit_tree 0 3) as (h' & t & Hrun & _);
    [vm_compute; split; discriminate|].
  destruct (insert_permutation 3 (Some 0%nat) fresh (mk_state h' (Some t))
              [2; 0; 1] 8) as (s2 & H2);
    [lia | exact Hrun | change ([2; 0; 1] ≡ₚ [0; 1] ++ [2]);
      apply Permutation_cons_append
    | cbn; lia | ].
  exists (mk_state h' (Some t)), s2. split; [exact Hrun | exact H2].
Defined.


(** ** The iterator *)

Lemma Zs_Zt tt0 fl cl s k t :
  Zs tt0 fl cl s k t -> Zt (free_frame tt0 fl) fl tt0 s k t.
Proof.
  intros (h & rootp & -> & Hrep & Hnd & Hfree & _).
  exists h, rootp. split_and!; try done. intros. by apply free_frame_stable.
Qed.

Lemma Zt_Zs tt0 fl s k t :
  Zt (free_frame tt0 fl) fl tt0 s k t -> Zs tt0 fl [] s k t.
Proof.
  intros (h & rootp & -> & Hrep & Hnd & Hfree & _).
  exists h, rootp. split_and!; try done.
Qed.

Lemma Zs_weaken tt0 fl cl cl' s k t :
  cl' ⊆ cl -> Zs tt0 fl cl s k t -> Zs tt0 fl cl' s k t.
Proof.
  intros Hsub (h & rootp & -> & Hrep & Hnd & Hfree & Hcl & Hin).
  exists h, rootp. split_and!; try done.
  - apply Forall_forall. intros x Hx. rewrite Forall_forall in Hcl. auto.
  - apply Forall_forall. intros x Hx. rewrite Forall_forall in Hin. auto.
Qed.

Lemma Zs_plug_eq tt0 fl cl s k t k' t' :
  plug t k = plug t' k' -> Zs tt0 fl cl s k t -> Zs tt0 fl cl s k' t'.
Proof.
  intros Heq (h & rootp & -> & Hrep & Hnd & Hfree & Hcl & Hin).
  exists h, rootp. by rewrite <- Heq.
Qed.

Lemma Zs_open tt0 fl cl s k t :
  Zs tt0 fl cl s k t ->
  exists h rootp,
    s = mk_state h (Some (set_root rootp tt0)) /\
    rep h (ctx_par k) (root_ptr t) t /\
    rep_ctx h rootp k (root_ptr t) /\
    NoDup (addrs t ++ ctx_addrs k ++ fl) /\
    free_ok h tt0 fl /\
    Forall (ts_clear h) cl /\
    Forall (fun x => x ∈ addrs t ++ ctx_addrs k) cl.
Proof.
  intros (h & rootp & -> & Hrep & Hnd & Hfree & Hcl & Hin).
  apply rep_plug in Hrep as [Ht Hk]. apply NoDup_plug in Hnd.
  exists h, rootp. split_and!; try done.
  eapply Forall_impl; [exact Hin|]. intros x Hx. cbn in Hx.
  by rewrite addrs_plug in Hx.
Qed.

Lemma Zs_close tt0 fl cl h tt k t :
  tt = set_root (root tt) tt0 ->
  rep h (ctx_par k) (root_ptr t) t ->
  rep_ctx h (root tt) k (root_ptr t) ->
  NoDup (addrs t ++ ctx_addrs k ++ fl) ->
  free_ok h tt0 fl ->
  Forall (ts_clear h) cl ->
  Forall (fun x => x ∈ addrs t ++ ctx_addrs k) cl ->
  Zs tt0 fl cl (mk_state h (Some tt)) k t.
Proof.
  intros Htt Ht Hk Hnd Hfree Hcl Hin. exists h, (root tt).
  split; [by rewrite <- Htt|].
  split; [by apply rep_plug|]. split; [by apply NoDup_plug|].
  split_and!; try done.
  eapply Forall_impl; [exact Hin|]. intros x Hx. cbn in Hx.
  by rewrite addrs_plug.
Qed.

(** Writing the traversal bit of the node in focus. *)
Lemma Zs_wr_clear tt0 fl cl s k c l a v o r Q :
  Zs tt0 fl cl s k (T c l a v o r) ->
  (forall s', Zs tt0 fl (a :: cl) s' k (T c l a v o r) -> Q tt s') ->
  holds (wr (Some a) (set_traversal_state false) s) Q.
Proof.
  intros (h & rootp & -> & Ht & Hk & Hnd & Hfree & Hcl & Hin)%Zs_open HQ.
  apply rep_T in Ht as (_ & ts & Hn & Hl & Hr).
  eapply holds_eq; [by apply run_wr|].
  cbn [root_ptr addrs] in *. sep_norm.
  apply HQ, Zs_close.
  - reflexivity.
  - apply rep_T. split; [done|]. eexists.
    rewrite lookup_insert_eq. split; [reflexivity|]. split; by apply rep_frame.
  - by apply rep_ctx_frame.
  - cbn [addrs]. sep_solve.
  - by apply free_ok_frame.
  - apply Forall_cons. split.
    + eexists. rewrite lookup_insert_eq. done.
    + eapply Forall_impl; [exact Hcl|]. intros x (n & Hx & Hts). cbn.
      destruct (decide (x = a)) as [->|Hne].
      * eexists. rewrite lookup_insert_eq. done.
      * exists n. by rewrite lookup_insert_ne.
  - apply Forall_cons. split; [|done]. cbn [addrs]. set_solver.
Qed.

Lemma Zs_wr_visited tt0 fl cl s k c l a v o r Q :
  Zs tt0 fl cl s k (T c l a v o r) -> a ∉ cl ->
  (forall s',
     Zs tt0 fl cl s' k (T c l a v o r) ->
     rd (Some a) traversal_state s' = Ok true s' -> Q tt s') ->
  holds (wr (Some a) (set_traversal_state true) s) Q.
Proof.
  intros (h & rootp & -> & Ht & Hk & Hnd & Hfree & Hcl & Hin)%Zs_open Ha HQ.
  apply rep_T in Ht as (_ & ts & Hn & Hl & Hr).
  eapply holds_eq; [by apply run_wr|].
  cbn [root_ptr addrs] in *. sep_norm.
  apply HQ; [apply Zs_close|].
  - reflexivity.
  - apply rep_T. split; [done|]. eexists.
    rewrite lookup_insert_eq. split; [reflexivity|]. split; by apply rep_frame.
  - by apply rep_ctx_frame.
  - cbn [addrs]. sep_solve.
  - by apply free_ok_frame.
  - rewrite Forall_forall in Hcl |- *. intros x Hx.
    destruct (Hcl x Hx) as (n & Hxn & Hts). exists n.
    rewrite lookup_insert_ne; [done|]. by intros ->.
  - done.
  - erewrite run_rd; [|apply lookup_insert_eq]. done.
Qed.

Lemma first_loop_eq fuel : forall p s,
  first_loop fuel p s = next_down_loop fuel p s.
Proof.
  induction fuel as [|fuel IH]; intros p s; [reflexivity|].
  cbn [first_loop next_down_loop]. unfold bind.
  destruct (has_left_child p s) as [[] s1|]; [|reflexivity..].
  destruct (rd p left s1) as [l s2|]; [|reflexivity].
  destruct (wr l _ s2) as [[] s3|]; [|reflexivity]. apply IH.
Qed.

Lemma lspine_addrs t : lspine t ⊆ addrs t.
Proof.
  induction t as [|c l IHl a v o r IHr]; cbn; [done|].
  intros x [->|Hx]%elem_of_cons; [set_solver|]. apply IHl in Hx. set_solver.
Qed.

(** The descent to the leftmost node, which resets the traversal bit of
    the nodes it passes. *)
Lemma next_down_loop_spec tt0 fl Q : forall l c a v o r k cl s fuel,
  Zs tt0 fl cl s k (T c l a v o r) -> a ∈ cl ->
  (height (T c l a v o r) <= fuel)%nat ->
  (forall s',
     Zs tt0 fl (lspine (T c l a v o r) ++ cl) s'
        (descend_l (T c l a v o r) k).1 (descend_l (T c l a v o r) k).2 ->
     Q (root_ptr (descend_l (T c l a v o r) k).2) s') ->
  holds (next_down_loop fuel (Some a) s) Q.
Proof.
  induction l as [|lc ll IHl b lv lo lr _]; intros c a v o r k cl s fuel HZ Ha Hfuel HQ.
  - destruct fuel as [|fuel]; [cbn in Hfuel; lia|]. cbn [next_down_loop].
    apply holds_bind.
    rewrite (Z_has_left_child _ _ _ _ _ _ _ _ _ _ _ (Zs_Zt _ _ _ _ _ _ HZ)).
    cbn. apply HQ. cbn. eapply Zs_weaken; [|exact HZ]. set_solver.
  - destruct fuel as [|fuel]; [cbn in Hfuel; lia|]. cbn [next_down_loop].
    apply holds_bind.
    rewrite (Z_has_left_child _ _ _ _ _ _ _ _ _ _ _ (Zs_Zt _ _ _ _ _ _ HZ)).
    cbn [holds root_ptr]. rewrite bool_decide_eq_true_2 by done.
    apply holds_bind.
    eapply Z_rd; [exact (Zs_Zt _ _ _ _ _ _ HZ)|]. intros ts. cbn [left root_ptr].
    apply holds_bind.
    assert (Zs tt0 fl cl s (FL c a v o r :: k) (T lc ll b lv lo lr)) as HZ'.
    { revert HZ. by apply Zs_plug_eq. }
    eapply Zs_wr_clear; [exact HZ'|]. intros s1 HZ1.
    eapply IHl; [exact HZ1|set_solver|cbn [height] in *; lia|].
    intros s' HZ2. apply HQ. cbn [descend_l].
    eapply Zs_weaken; [|exact HZ2]. cbn [lspine]. set_solver.
Qed.

Lemma Zs_root tt0 fl cl s t :
  Zs tt0 fl cl s [] t ->
  exists h, s = mk_state h (Some (set_root (root_ptr t) tt0)).
Proof.
  intros (h & rootp & -> & Hrep & _). cbn in Hrep.
  apply rep_root in Hrep as ->. eauto.
Qed.

Lemma get_first_spec tt0 fl cl s t fuel p Q :
  Zs tt0 fl cl s [] t -> (height t <= fuel)%nat ->
  (forall s',
     Zs tt0 fl (lspine t ++ cl) s' (descend_l t []).1 (descend_l t []).2 ->
     Q (if t is E then RB_FAIL_NULL_TREE else RB_SUCCESS,
        root_ptr (descend_l t []).2) s') ->
  holds (rb_tree_get_first_rb_node fuel p s) Q.
Proof.
  intros HZ Hfuel HQ. destruct (Zs_root _ _ _ _ _ HZ) as [h ->].
  unfold rb_tree_get_first_rb_node.
  apply holds_bind. rewrite run_null. cbn [holds].
  apply holds_bind. rewrite run_tget. cbn [holds root set_root].
  destruct t as [|c l a v o r].
  - cbn. apply HQ. exact HZ.
  - cbn [root_ptr]. rewrite bool_decide_eq_false_2 by done.
    apply holds_bind. eapply Zs_wr_clear; [exact HZ|]. intros s1 HZ1.
    apply holds_bind. rewrite first_loop_eq.
    eapply next_down_loop_spec; [exact HZ1|set_solver|done|].
    intros s' HZ2. cbn [holds ret]. apply HQ.
    eapply Zs_weaken; [|exact HZ2]. set_solver.
Qed.

Lemma height_fill f t : (S (height t) <= height (fill f t))%nat.
Proof. destruct f; cbn; lia. Qed.

Lemma height_fill_mono f t t' :
  (height t <= height t')%nat -> (height (fill f t) <= height (fill f t'))%nat.
Proof. destruct f; cbn; lia. Qed.

Lemma height_plug_mono k : forall t t',
  (height t <= height t')%nat -> (height (plug t k) <= height (plug t' k))%nat.
Proof.
  induction k as [|f k IH]; intros t t' H; cbn; [done|].
  by apply IH, height_fill_mono.
Qed.

Lemma height_plug k : forall t, (length k + height t <= height (plug t k))%nat.
Proof.
  induction k as [|f k IH]; intros t; cbn; [lia|].
  pose proof (IH (fill f t)). pose proof (height_fill f t). lia.
Qed.

(** ** Draining with rebalancing *)

Lemma next_rebalance_spec tt0 fl cl s k c a v o r fuel Q :
  Zs tt0 fl cl s k (T c E a v o r) ->
  rb (plug (T c E a v o r) k) ->
  (length (ranges (plug (T c E a v o r) k)) <= fuel)%nat ->
  (forall t' y s',
     del_at k (T c E a v o r) = Some (t', y) -> rb t' ->
     Zs (pushed tt0 fl y) (fl ++ [y]) (lspine t') s'
        (descend_l t' []).1 (descend_l t' []).2 ->
     Q (RB_SUCCESS, root_ptr (descend_l t' []).2, Some (mk_range v o)) s') ->
  holds (rb_tree_get_next_rb_node fuel (Some a) true true true s) Q.
Proof.
  intros HZ Hrb Hfuel HQ.
  destruct (del_at_rb _ _ _ _ _ _ _ Hrb) as (t' & y & Hdel & Hrb').
  pose proof (del_at_ranges _ _ _ _ _ _ _ _ _ Hdel) as Hrg.
  pose proof (height_plug k (T c E a v o r)) as Hh.
  pose proof (height_le_length (plug (T c E a v o r) k)) as Hhl.
  pose proof (height_le_length t') as Hhl'.
  rewrite ranges_plug in Hfuel. cbn [ranges] in Hfuel, Hrg.
  rewrite ranges_plug in Hhl. cbn [ranges] in Hhl.
  rewrite Hrg in Hhl'. rewrite !length_app in *. cbn [length app] in *.
  rewrite ?length_app in *.
  unfold rb_tree_get_next_rb_node.
  rewrite bool_decide_eq_false_2 by done. cbn [negb andb].
  pose proof (Zs_Zt _ _ _ _ _ _ HZ) as HZt.
  apply holds_bind. eapply Z_rd; [exact HZt|]. intros ts. cbn [range value].
  apply holds_bind. eapply Z_rd; [exact HZt|]. intros ts'. cbn [range offset].
  apply holds_bind.
  eapply delete_rb_node_spec; [exact HZt|exact Hdel|lia|].
  intros s1 HZ1. apply Zt_Zs in HZ1.
  apply holds_bind.
  eapply get_first_spec; [exact HZ1|lia|]. intros s2 HZ2.
  cbn [holds ret snd]. apply (HQ t' y s2 Hdel Hrb').
  by rewrite app_nil_r in HZ2.
Qed.

Lemma drain_rebalance_loop fuel : forall m n t tt0 fl cl s,
  Zs tt0 fl cl s (descend_l t []).1 (descend_l t []).2 -> rb t ->
  (length (ranges t) <= m)%nat -> (m < n)%nat ->
  (length (ranges t) <= fuel)%nat ->
  Z.of_nat (length (ranges t)) <= size tt0 <= UINT32_MAX ->
  holds (drain_loop fuel n (root_ptr (descend_l t []).2) true true s)
    (fun out s' =>
       out = ranges t /\
       exists tt1 fl' cl',
         Zs tt1 fl' cl' s' [] E /\
         size tt1 = size tt0 - Z.of_nat (length (ranges t))).
Proof.
  assert (UINT32_MAX = 4294967295) as HU by reflexivity.
  induction m as [|m IH]; intros n t tt0 fl cl s HZ Hrb Hm Hn Hfuel Hsz.
  - destruct t as [|c l a v o r];
      [|cbn in Hm; rewrite length_app in Hm; cbn in Hm; lia].
    destruct n as [|n]; [lia|]. cbn. split; [done|].
    exists tt0, fl, cl. split; [exact HZ|lia].
  - destruct t as [|c0 l0 a0 v0 o0 r0].
    { destruct n as [|n]; [lia|]. cbn. split; [done|].
      exists tt0, fl, cl. split; [exact HZ|lia]. }
    set (t := T c0 l0 a0 v0 o0 r0) in *.
    destruct (descend_l_shape t ltac:(done)) as (c & a & v & o & r & Hfoc).
    pose proof (plug_descend_l t []) as Hplug. cbn [plug] in Hplug.
    destruct (descend_l t []) as [ks foc] eqn:Hd. cbn [fst snd] in *. subst foc.
    destruct (ranges_descend_l _ _ _ _ _ _ _ _ Hd) as (_ & Hrl & Hrg).
    destruct n as [|n]; [lia|]. cbn [drain_loop root_ptr].
    rewrite bool_decide_eq_false_2 by done.
    apply holds_bind.
    eapply next_rebalance_spec; [exact HZ|by rewrite Hplug|rewrite Hplug; lia|].
    intros t' y s1 Hdel Hrb' HZ1.
    apply del_at_ranges in Hdel. rewrite Hrl in Hdel. cbn [ranges app] in Hdel.
    rewrite Hrg in Hm, Hfuel, Hsz. cbn [length] in Hm, Hfuel, Hsz.
    cbn [holds]. rewrite bool_decide_eq_true_2 by done.
    apply holds_bind.
    eapply holds_mono.
    { eapply (IH n t'); [exact HZ1|exact Hrb'|rewrite Hdel; lia|lia|rewrite Hdel; lia|].
      cbn [pushed size]. rewrite Hdel. rewrite u32_small; lia. }
    cbn beta. intros out s2 (-> & tt1 & fl' & cl' & HZ2 & Hsz2).
    cbn [holds ret]. split; [by rewrite Hrg, Hdel|].
    exists tt1, fl', cl'. split; [exact HZ2|].
    rewrite Hsz2. cbn [pushed size]. rewrite Hdel, Hrg. cbn [length].
    rewrite u32_small; lia.
Qed.

(** ** Code that does not touch the traversal bits *)

Lemma ts_pres_bind {A B} (m : M A) (k : A -> M B) :
  ts_pres m -> (forall a, ts_pres (k a)) -> ts_pres (bind m k).
Proof.
  intros Hm Hk s b s' x. unfold bind.
  destruct (m s) as [a s1|] eqn:E; [|done]. intros Hrun Hx.
  eapply Hk; [exact Hrun|]. eapply Hm; eauto.
Qed.

Lemma ts_pres_ret {A} (a : A) : ts_pres (ret a).
Proof. intros s b s' x [= <- <-]. done. Qed.

Lemma ts_pres_rd {A} p (f : rb_node_t -> A) : ts_pres (rd p f).
Proof.
  intros s b s' x. unfold rd. destruct p as [a|]; [|done].
  destruct (heap s !! a); [|done]. by intros [= <- <-].
Qed.

Lemma ts_pres_wr p upd :
  (forall n, traversal_state (upd n) = traversal_state n) -> ts_pres (wr p upd).
Proof.
  intros Hupd s b s' x. unfold wr. destruct p as [a|]; [|done].
  destruct (heap s !! a) as [n|] eqn:E; [|done]. intros [= <- <-]. cbn.
  intros (m & Hm & Hts). destruct (decide (x = a)) as [->|Hne].
  - exists (upd n). rewrite lookup_insert_eq. split; [done|].
    rewrite Hupd. congruence.
  - exists m. by rewrite lookup_insert_ne.
Qed.

Lemma ts_pres_tget {A} (f : rb_tree_t -> A) : ts_pres (tget f).
Proof.
  intros s b s' x. unfold tget. destruct (tree s); [|done]. by intros [= <- <-].
Qed.

Lemma ts_pres_tset upd : ts_pres (tset upd).
Proof.
  intros s b s' x. unfold tset. destruct (tree s); [|done]. by intros [= <- <-].
Qed.

Lemma ts_pres_when b m : ts_pres m -> ts_pres (when b m).
Proof. destruct b; [done|]. intros _. apply ts_pres_ret. Qed.

Lemma ts_pres_if {A} (b : bool) (m1 m2 : M A) :
  ts_pres m1 -> ts_pres m2 -> ts_pres (if b then m1 else m2).
Proof. by destruct b. Qed.

Ltac ts_pres_solve :=
  repeat first
    [ apply ts_pres_ret
    | apply ts_pres_rd
    | apply ts_pres_tget
    | apply ts_pres_tset
    | apply ts_pres_wr; intros []; reflexivity
    | apply ts_pres_when
    | apply ts_pres_if
    | apply ts_pres_bind
    | intros ? ].

Lemma ts_pres_push_free_node p : ts_pres (push_free_node p).
Proof. unfold push_free_node. ts_pres_solve. Qed.

Lemma ts_pres_delete_without_rebalancing p :
  ts_pres (delete_rb_node_without_rebalancing p).
Proof.
  unfold delete_rb_node_without_rebalancing, is_root, is_left_child.
  ts_pres_solve.
Qed.

Lemma Zs_intro tt0 fl cl s k t :
  Zt (free_frame tt0 fl) fl tt0 s k t ->
  Forall (ts_clear (heap s)) cl ->
  Forall (fun x => x ∈ addrs (plug t k)) cl ->
  Zs tt0 fl cl s k t.
Proof.
  intros (h & rootp & -> & Hrep & Hnd & Hfree & _) Hcl Hin.
  exists h, rootp. done.
Qed.

Lemma Zs_clear tt0 fl cl s k t :
  Zs tt0 fl cl s k t ->
  Forall (ts_clear (heap s)) cl /\ Forall (fun x => x ∈ addrs (plug t k)) cl.
Proof. intros (h & rootp & -> & _ & _ & _ & Hcl & Hin). done. Qed.

(** ** Taking the visited node out without rebalancing *)

Lemma delete_without_rebalancing_Zt tt0 fl s k c a v o r Q :
  Zt (free_frame tt0 fl) fl tt0 s k (T c E a v o r) ->
  (forall s',
     Zt (free_frame (pushed tt0 fl a) (fl ++ [a])) (fl ++ [a])
        (pushed tt0 fl a) s' k r -> Q tt s') ->
  holds (delete_rb_node_without_rebalancing (Some a) s) Q.
Proof.
  intros HZ HQ.
  pose proof (Z_is_left_child _ _ _ _ _ _ _ _ _ _ _ HZ) as Hlc.
  pose proof (Z_is_root _ _ _ _ _ _ _ _ _ _ _ HZ) as Hroot.
  destruct (Zt_open _ _ _ _ _ _ HZ) as (h & rootp & -> & Ht & Hk & Hnd & HF & Hst).
  open_T Ht.
  unfold delete_rb_node_without_rebalancing.
  apply holds_bind. eapply holds_eq; [exact Hroot|].
  destruct r as [|rc rl b rv ro rr]; [|open_T Hr];
    (destruct k as [|[cg g gv go gs|cg gs g gv go] k]; [|open_F Hk|open_F Hk]);
    sep_open Hnd; cbn [root_ptr ctx_par faddr is_lc] in *; decide_bool;
    cbn [negb].
  all: apply holds_bind.
  all: try (apply holds_bind; eapply holds_eq; [exact Hlc|]; cbn [is_lc]).
  all: eapply holds_eq; [solve [mrun]|].
  all: apply holds_bind; eapply holds_eq; [solve [mrun]|].
  all: apply holds_bind; eapply holds_eq; [solve [mrun]|].
  all: eapply push_spec; [|exact HQ].
  all: apply Zt_close;
      [ reflexivity | rep_solve | ctx_solve
      | cbn [addrs ctx_addrs faddrs faddr fsib app]; rewrite <- ?app_assoc;
        cbn [app]; sep_solve
      | split; [free_solve Hst | eexists _, _, _, _; heap_lookup]
      | by apply cell_frame_stable ].
Qed.

Lemma delete_without_rebalancing_spec tt0 fl cl s k c a v o r Q :
  Zs tt0 fl cl s k (T c E a v o r) -> a ∉ cl ->
  (forall s', Zs (pushed tt0 fl a) (fl ++ [a]) cl s' k r -> Q tt s') ->
  holds (delete_rb_node_without_rebalancing (Some a) s) Q.
Proof.
  intros HZ Ha HQ. destruct (Zs_clear _ _ _ _ _ _ HZ) as [Hcl Hin].
  pose proof (delete_without_rebalancing_Zt tt0 fl s k c a v o r
                (fun _ s' => Zt (free_frame (pushed tt0 fl a) (fl ++ [a]))
                               (fl ++ [a]) (pushed tt0 fl a) s' k r)
                (Zs_Zt _ _ _ _ _ _ HZ) (fun s' H => H)) as Hh.
  apply holds_elim in Hh as ([] & s' & Hrun & HZ').
  rewrite Hrun. cbn [holds]. apply HQ. apply Zs_intro; [done| |].
  - eapply Forall_impl; [exact Hcl|]. intros x Hx.
    eapply ts_pres_delete_without_rebalancing; eauto.
  - rewrite Forall_forall in Hin |- *. intros x Hx.
    specialize (Hin x Hx). rewrite addrs_plug in Hin |- *. cbn in Hin.
    apply elem_of_cons in Hin as [->|Hin]; [done|exact Hin].
Qed.

(** The way up from a visited node ends at its parent, which has not been
    visited. *)
Lemma next_up_spec tt0 fl cl s k c l a v o r fuel :
  Zs tt0 fl cl s k (T c l a v o r) ->
  rd (Some a) traversal_state s = Ok true s ->
  Forall (fun f => faddr f ∈ cl) k -> (2 <= fuel)%nat ->
  next_up_loop fuel (Some a) s = Ok (ctx_par k) s.
Proof.
  intros (h & rootp & -> & Ht & Hk & Hnd & Hfree & Hcl & Hin)%Zs_open Hrd Hsp Hfuel.
  open_T Ht. rewrite (run_rd _ _ _ _ _ Hn) in Hrd. cbn in Hrd.
  injection Hrd as ->.
  destruct fuel as [|[|fuel]]; [lia..|].
  destruct k as [|[cg g gv go gs|cg gs g gv go] k]; [|open_F Hk|open_F Hk];
    cbn [ctx_par faddr root_ptr] in *.
  - cbn [next_up_loop]. unfold andM. mrun.
  - apply Forall_cons in Hsp as [Hg _]. cbn [faddr] in Hg.
    rewrite Forall_forall in Hcl. destruct (Hcl g Hg) as (n & Hgn & Hts).
    rewrite Hn0 in Hgn. injection Hgn as <-. cbn in Hts. subst.
    cbn [next_up_loop]. unfold andM. mrun.
  - apply Forall_cons in Hsp as [Hg _]. cbn [faddr] in Hg.
    rewrite Forall_forall in Hcl. destruct (Hcl g Hg) as (n & Hgn & Hts).
    rewrite Hn0 in Hgn. injection Hgn as <-. cbn in Hts. subst.
    cbn [next_up_loop]. unfold andM. mrun.
Qed.

(** ** Draining without rebalancing *)

Lemma descend_l_left_frames t : forall k,
  Forall left_frame k -> Forall left_frame (descend_l t k).1.
Proof.
  induction t as [|c l IHl a v o r _]; intros k Hk; [done|].
  destruct l as [|lc ll b lv lo lr]; [done|].
  change (Forall left_frame (descend_l (T lc ll b lv lo lr) (FL c a v o r :: k)).1).
  apply IHl. by constructor.
Qed.

Lemma faddr_descend_l t : forall k,
  faddr <$> (descend_l t k).1 ⊆ lspine t ++ (faddr <$> k).
Proof.
  induction t as [|c l IHl a v o r _]; intros k; [set_solver|].
  destruct l as [|lc ll b lv lo lr]; [set_solver|].
  change (faddr <$> (descend_l (T lc ll b lv lo lr) (FL c a v o r :: k)).1
          ⊆ lspine (T c (T lc ll b lv lo lr) a v o r) ++ (faddr <$> k)).
  etransitivity; [apply IHl|]. cbn. set_solver.
Qed.

Lemma faddr_ctx_addrs k : faddr <$> k ⊆ ctx_addrs k.
Proof.
  induction k as [|f k IH]; [done|]. cbn. unfold faddrs. set_solver.
Qed.

Lemma descend_l_snd t : forall k, (descend_l t k).2 = (descend_l t []).2.
Proof. intros k. by rewrite descend_l_app. Qed.

Lemma Zs_focus_notin tt0 fl cl s k c l a v o r :
  Zs tt0 fl cl s k (T c l a v o r) ->
  (a ∉ addrs l) /\ (a ∉ addrs r) /\ (a ∉ faddr <$> k).
Proof.
  intros (h & rootp & _ & _ & _ & Hnd & _)%Zs_open.
  cbn [addrs] in Hnd. sep_norm. split_and!; try done.
  intros Hin%faddr_ctx_addrs. done.
Qed.

Lemma next_plain_spec tt0 fl s k c a v o r fuel Q :
  Zs tt0 fl (faddr <$> k) s k (T c E a v o r) ->
  (height r + 2 <= fuel)%nat ->
  (forall s',
     Zs (pushed tt0 fl a) (fl ++ [a]) (faddr <$> (walk_next r k).1) s'
        (walk_next r k).1 (walk_next r k).2 ->
     Q (RB_SUCCESS, root_ptr (walk_next r k).2, Some (mk_range v o)) s') ->
  holds (rb_tree_get_next_rb_node fuel (Some a) true true false s) Q.
Proof.
  intros HZ Hfuel HQ.
  destruct (Zs_focus_notin _ _ _ _ _ _ _ _ _ _ _ HZ) as (_ & Har & Hak).
  pose proof (Zs_Zt _ _ _ _ _ _ HZ) as HZt.
  unfold rb_tree_get_next_rb_node.
  rewrite bool_decide_eq_false_2 by done. cbn [negb andb].
  apply holds_bind. eapply Z_rd; [exact HZt|]. intros ts. cbn [range value].
  apply holds_bind. eapply Z_rd; [exact HZt|]. intros ts'. cbn [range offset].
  apply holds_bind.
  rewrite (Z_has_right_child _ _ _ _ _ _ _ _ _ _ _ HZt). cbn [holds].
  destruct r as [|rc rl b rv ro rr]; cbn [root_ptr]; decide_bool.
  - (* no right child: up *)
    apply holds_bind. apply holds_bind.
    eapply Zs_wr_visited; [exact HZ|exact Hak|]. intros s1 HZ1 Hrd.
    rewrite (next_up_spec _ _ _ _ _ _ _ _ _ _ _ _ HZ1 Hrd); [|by apply Forall_forall; intros f Hf; apply list_elem_of_fmap_2|lia].
    cbn [holds]. apply holds_bind.
    eapply delete_without_rebalancing_spec; [exact HZ1|exact Hak|].
    intros s2 HZ2. cbn [holds ret].
    destruct k as [|f k1]; cbn [walk_next fst snd root_ptr ctx_par].
    + apply HQ. exact HZ2.
    + replace (Some (faddr f)) with (root_ptr (fill f E)) by (by destruct f).
      apply HQ. cbn [walk_next fst snd].
      eapply Zs_weaken; [|eapply Zs_plug_eq; [|exact HZ2]; reflexivity].
      cbn. set_solver.
  - (* a right child: down its left spine *)
    apply holds_bind. apply holds_bind.
    eapply Zs_wr_visited; [exact HZ|exact Hak|]. intros s1 HZ1 _.
    apply holds_bind.
    eapply Z_rd; [exact (Zs_Zt _ _ _ _ _ _ HZ1)|]. intros ts1. cbn [right root_ptr].
    apply holds_bind.
    assert (Zs tt0 fl (faddr <$> k) s1 (FR c E a v o :: k) (T rc rl b rv ro rr))
      as HZ1' by (revert HZ1; by apply Zs_plug_eq).
    eapply Zs_wr_clear; [exact HZ1'|]. intros s2 HZ2.
    eapply next_down_loop_spec; [exact HZ2|set_solver|cbn [height] in *; lia|].
    intros s3 HZ3. cbn [holds].
    apply holds_bind.
    set (rt := T rc rl b rv ro rr) in *.
    assert (Zs tt0 fl (lspine rt ++ b :: (faddr <$> k)) s3 k (T c E a v o rt))
      as HZ3'.
    { eapply Zs_plug_eq; [|exact HZ3].
      by rewrite (plug_descend_l rt (FR c E a v o :: k)). }
    eapply delete_without_rebalancing_spec; [exact HZ3'| |].
    { intros [Hin|Hin]%elem_of_app.
      - apply lspine_addrs in Hin. done.
      - apply elem_of_cons in Hin as [->|Hin]; [|done].
        apply Har. subst rt. cbn. set_solver. }
    intros s4 HZ4. cbn [holds ret].
    rewrite descend_l_snd.
    replace (descend_l rt []).2 with (walk_next rt k).2
      by (subst rt; cbn [walk_next]; apply descend_l_snd).
    apply HQ. subst rt. cbn [walk_next].
    set (rt := T rc rl b rv ro rr) in *.
    eapply Zs_weaken; [|eapply Zs_plug_eq; [|exact HZ4]].
    + pose proof (faddr_descend_l rt k). set_solver.
    + by rewrite plug_descend_l.
Qed.

Lemma walk_next_facts r k :
  Forall left_frame k ->
  Forall left_frame (walk_next r k).1 /\
  match (walk_next r k).2 with
  | E => (walk_next r k).1 = []
  | T _ l _ _ _ _ => l = E
  end /\
  ranges (walk_next r k).2 ++ ranges_r (walk_next r k).1 = ranges r ++ ranges_r k.
Proof.
  intros Hk. destruct r as [|rc rl b rv ro rr].
  - destruct k as [|[cp p pv po sb|cp sb p pv po] k1]; cbn [walk_next fst snd fill].
    + done.
    + apply Forall_cons in Hk as [_ Hk]. split_and!; try done.
      rewrite ranges_r_FL. cbn. by rewrite <- ?app_assoc.
    + apply Forall_cons in Hk as [[] _].
  - assert (exists rt, rt = T rc rl b rv ro rr) as [rt Hrt] by eauto.
    rewrite <- Hrt. assert (rt <> E) as Hne by (by subst).
    replace (walk_next rt k) with (descend_l rt k) by (by subst).
    clear Hrt.
    split; [by apply descend_l_left_frames|].
    rewrite (descend_l_app rt k). cbn [fst snd].
    destruct (descend_l_shape rt Hne) as (c & a & v & o & r & Hfoc).
    destruct (descend_l rt []) as [ks foc] eqn:Hd. cbn [fst snd] in *. subst foc.
    split; [done|].
    destruct (ranges_descend_l _ _ _ _ _ _ _ _ Hd) as (_ & _ & ->).
    rewrite ranges_r_app. cbn. by rewrite <- !app_assoc.
Qed.

Lemma drain_plain_loop fuel : forall m n k t tt0 fl s,
  Zs tt0 fl (faddr <$> k) s k t -> Forall left_frame k ->
  match t with E => k = [] | T _ l _ _ _ _ => l = E end ->
  (length (ranges t ++ ranges_r k) <= m)%nat -> (m < n)%nat ->
  (length (ranges t ++ ranges_r k) < fuel)%nat ->
  Z.of_nat (length (ranges t ++ ranges_r k)) <= size tt0 <= UINT32_MAX ->
  holds (drain_loop fuel n (root_ptr t) true false s)
    (fun out s' =>
       out = ranges t ++ ranges_r k /\
       exists tt1 fl' cl',
         Zs tt1 fl' cl' s' [] E /\
         size tt1 = size tt0 - Z.of_nat (length (ranges t ++ ranges_r k))).
Proof.
  assert (UINT32_MAX = 4294967295) as HU by reflexivity.
  induction m as [|m IH]; intros n k t tt0 fl s HZ Hk Ht Hm Hn Hfuel Hsz.
  - destruct t as [|c l a v o r];
      [|cbn in Hm; rewrite !length_app in Hm; cbn in Hm; lia].
    subst k. destruct n as [|n]; [lia|]. rewrite ranges_r_nil. cbn.
    split; [done|]. exists tt0, fl, []. split; [exact HZ|lia].
  - destruct t as [|c l a v o r].
    { subst k. destruct n as [|n]; [lia|]. rewrite ranges_r_nil. cbn.
      split; [done|]. exists tt0, fl, []. split; [exact HZ|lia]. }
    subst l. destruct n as [|n]; [lia|]. cbn [drain_loop root_ptr].
    rewrite bool_decide_eq_false_2 by done.
    destruct (walk_next_facts r k Hk) as (Hk' & Ht' & Hrg).
    cbn [ranges app] in Hm, Hfuel, Hsz |- *. cbn [length] in Hm, Hfuel, Hsz.
    pose proof (height_le_length r) as Hh. rewrite length_app in Hm, Hfuel, Hsz.
    apply holds_bind.
    eapply next_plain_spec; [exact HZ|lia|]. intros s1 HZ1.
    cbn [holds]. rewrite bool_decide_eq_true_2 by done.
    apply holds_bind.
    eapply holds_mono.
    { eapply (IH n _ _ _ _ _ HZ1 Hk' Ht').
      - rewrite Hrg, length_app. lia.
      - lia.
      - rewrite Hrg, length_app. lia.
      - rewrite Hrg, length_app. cbn [pushed size]. rewrite u32_small; lia. }
    cbn beta. intros out s2 (-> & tt1 & fl' & cl' & HZ2 & Hsz2).
    cbn [holds ret]. split; [by rewrite Hrg|].
    exists tt1, fl', cl'. split; [exact HZ2|].
    rewrite Hsz2, Hrg. cbn [pushed size length]. rewrite !length_app.
    rewrite u32_small; lia.
Qed.

(** ** The two drains *)

Lemma descend_l_all t :
  Forall left_frame (descend_l t []).1 /\
  match (descend_l t []).2 with
  | E => (descend_l t []).1 = []
  | T _ l _ _ _ _ => l = E
  end /\
  ranges (descend_l t []).2 ++ ranges_r (descend_l t []).1 = ranges t.
Proof.
  split; [by apply descend_l_left_frames|].
  assert (t = E \/ t <> E) as [->|Hne] by (destruct t; auto); [done|].
  destruct (descend_l_shape t Hne) as (c & a & v & o & r & Hfoc).
  destruct (descend_l t []) as [ks foc] eqn:Hd. cbn [fst snd] in *. subst foc.
  split; [done|].
  destruct (ranges_descend_l _ _ _ _ _ _ _ _ Hd) as (_ & _ & ->).
  cbn. by rewrite <- ?app_assoc.
Qed.

Lemma tree_ok_Zs s t fl :
  tree_ok s t fl ->
  exists tt0, Zs tt0 fl [] s [] t /\ size tt0 = size_of s.
Proof.
  intros (tt & Htree & Hrep & Hnd & Hfree). destruct s as [h ts].
  cbn in *. subst ts. exists tt. split; [|done].
  exists h, (root tt). rewrite set_root_root. done.
Qed.

Lemma Zs_empty tt0 fl cl s :
  Zs tt0 fl cl s [] E -> root_of s = None /\ size_of s = size tt0.
Proof.
  intros (h & rootp & -> & Hrep & _). cbn in Hrep. subst rootp.
  by destruct tt0.
Qed.

Lemma drain_rebalance_spec s t fl fuel :
  tree_ok s t fl -> rb t ->
  size_of s = Z.of_nat (length (ranges t)) -> size_of s <= UINT32_MAX ->
  (length (ranges t) < fuel)%nat ->
  exists s', drain fuel true true s = Ok (ranges t) s' /\
             root_of s' = None /\ size_of s' = 0.
Proof.
  intros (tt0 & HZ & Hsz0)%tree_ok_Zs Hrb Hsz Hmax Hfuel.
  pose proof (height_le_length t) as Hh.
  apply (holds_elim' _ (fun s' => root_of s' = None /\ size_of s' = 0)).
  unfold drain. apply holds_bind.
  eapply get_first_spec; [exact HZ|lia|]. intros s0 HZ0. cbn [snd].
  eapply holds_mono.
  { eapply (drain_rebalance_loop fuel (length (ranges t)) fuel t);
      [exact HZ0|exact Hrb|lia..]. }
  cbn beta. intros out s' (-> & tt1 & fl' & cl' & HZ1 & Hsz1).
  split; [done|]. apply Zs_empty in HZ1 as [-> ->]. split; [done|lia].
Qed.

Lemma drain_plain_spec s t fl fuel :
  tree_ok s t fl ->
  size_of s = Z.of_nat (length (ranges t)) -> size_of s <= UINT32_MAX ->
  (length (ranges t) < fuel)%nat ->
  exists s', drain fuel true false s = Ok (ranges t) s' /\
             root_of s' = None /\ size_of s' = 0.
Proof.
  intros (tt0 & HZ & Hsz0)%tree_ok_Zs Hsz Hmax Hfuel.
  pose proof (height_le_length t) as Hh.
  destruct (descend_l_all t) as (Hk & Ht & Hrg).
  apply (holds_elim' _ (fun s' => root_of s' = None /\ size_of s' = 0)).
  unfold drain. apply holds_bind.
  eapply get_first_spec; [exact HZ|lia|]. intros s0 HZ0. cbn [snd].
  eapply holds_mono.
  { eapply (drain_plain_loop fuel (length (ranges t)) fuel (descend_l t []).1
              (descend_l t []).2).
    - eapply Zs_weaken; [|exact HZ0].
      pose proof (faddr_descend_l t []). set_solver.
    - exact Hk.
    - exact Ht.
    - rewrite Hrg. lia.
    - lia.
    - rewrite Hrg. lia.
    - rewrite Hrg. lia. }
  cbn beta. intros out s' (-> & tt1 & fl' & cl' & HZ1 & Hsz1).
  rewrite Hrg in *.
  split; [done|]. apply Zs_empty in HZ1 as [-> ->]. split; [done|lia].
Qed.

Lemma gapped_sorted hi rs : forall lo,
  gapped lo hi rs -> StronglySorted (fun x y => value x < value y) rs.
Proof.
  induction rs as [|rg rs IH]; intros lo Hg; [constructor|].
  cbn in Hg. destruct Hg as (Hlo & Ho & Hhi & Hg). constructor; [by eapply IH|].
  eapply Forall_impl; [exact (gapped_bounds _ _ _ Hg)|]. cbn. intros; lia.
Qed.

(** On a tree that meets its invariants, a red-black tree [t] in search
    order with a gap between any two of its ranges, [size] being the number
    of its nodes: draining it with [iterator_first] followed by repeated
    [iterator_next] with pop = true and rebalance = true yields every
    stored range exactly once, in strictly ascending order of [value], and
    leaves the tree empty; and draining the same tree with pop = true and
    rebalance = false to completion yields exactly the same sequence (and
    leaves the tree empty as well).  The loops end within any budget above
    the number of nodes. *)
Lemma drain_in_order (s : state) (t : tr) (fl : list nat) (lo hi : Z)
    (fuel : nat)
    (Hok : tree_ok s t fl) (Hrb : rb t) (Hbst : bst lo hi t)
    (Hsize : size_of s = Z.of_nat (length (ranges t)))
    (Hmax : size_of s <= UINT32_MAX)
    (Hfuel : (length (ranges t) < fuel)%nat) :
  inorder fuel (heap s) (root_of s) = ranges t /\
  StronglySorted (fun x y => value x < value y) (ranges t) /\
  exists s1 s2,
    drain fuel true true s = Ok (ranges t) s1 /\
    root_of s1 = None /\ size_of s1 = 0 /\
    drain fuel true false s = Ok (ranges t) s2 /\
    root_of s2 = None /\ size_of s2 = 0.
Proof.
  split; [|split].
  - destruct Hok as (tt & Htree & Hrep & _). unfold root_of. rewrite Htree.
    eapply inorder_rep; [exact Hrep|].
    pose proof (height_le_length t). lia.
  - apply bst_gapped in Hbst. by eapply gapped_sorted.
  - destruct (drain_rebalance_spec s t fl fuel Hok Hrb Hsize Hmax Hfuel)
      as (s1 & Hrun1 & Hroot1 & Hsz1).
    destruct (drain_plain_spec s t fl fuel Hok Hsize Hmax Hfuel)
      as (s2 & Hrun2 & Hroot2 & Hsz2).
    exists s1, s2. done.
Qed.

Lemma drain_in_order_witness :
  exists s1 s2,
    drain 8 true true split_example = Ok [mk_range 1 2; mk_range 10 0] s1 /\
    root_of s1 = None /\ size_of s1 = 0 /\
    drain 8 true false split_example = Ok [mk_range 1 2; mk_range 10 0] s2 /\
    root_of s2 = None /\ size_of s2 = 0.
Proof.
  destruct (drain_in_order split_example split_example_tree [2%nat; 3%nat]
              0 10 8) as (_ & _ & H).
  - exact split_example_ok.
  - split; [reflexivity|]. exists 1%nat. cbn. auto.
  - cbn. lia.
  - reflexivity.
  - vm_compute. discriminate.
  - cbn. lia.
  - exact H.
Defined.


(** ** From the states of a call to the states between calls *)

Lemma free_ok_set_root h p tt fl : free_ok h (set_root p tt) fl <-> free_ok h tt fl.
Proof. by destruct tt. Qed.

Lemma Zt_tree_ok tt0 fl s t :
  Zt (free_frame tt0 fl) fl tt0 s [] t ->
  tree_ok s t fl /\
  exists rootp, tree s = Some (set_root rootp tt0).
Proof.
  intros (h & rootp & -> & Hrep & Hnd & Hfree & _). cbn [plug] in *.
  split; [|by exists rootp].
  exists (set_root rootp tt0). split; [done|]. cbn [heap].
  split; [by destruct tt0|]. split; [done|]. by apply free_ok_set_root.
Qed.

Lemma tree_ok_Zt s t fl :
  tree_ok s t fl ->
  exists tt0, tree s = Some tt0 /\ Zt (free_frame tt0 fl) fl tt0 s [] t.
Proof.
  intros (tt & Htree & Hrep & Hnd & Hfree). destruct s as [h ts].
  cbn in *. subst ts. exists tt. split; [done|].
  exists h, (root tt). rewrite set_root_root. split_and!; try done.
  intros. by apply free_frame_stable.
Qed.

(** A tree in order with gaps holds at most 2^31 ranges. *)
Lemma gapped_count rs :
  gapped 0 UINT32_MAX rs -> Z.of_nat (length rs) <= MAX_TREE_SIZE.
Proof.
  intros Hg. pose proof (gapped_total_bound _ _ _ Hg ltac:(done)) as H1.
  pose proof (gapped_length _ _ _ Hg) as H2.
  unfold UINT32_MAX in *. change MAX_TREE_SIZE with 2147483648. lia.
Qed.

(** ** Insertion *)

Lemma insert_absent_step fuel s t fl w :
  tree_inv s t fl -> 0 <= w <= UINT32_MAX -> ~ covered (ranges t) w ->
  fl <> [] -> (2 * height t + 2 <= fuel)%nat ->
  exists s' t' fl',
    rb_tree_insert fuel w s = Ok RB_SUCCESS s' /\
    tree_inv s' t' fl' /\
    ranges t' = linsert w (ranges t) /\
    (length (ranges t') + length fl' = length (ranges t) + length fl)%nat.
Proof.
  intros (Hok & Hrb & Hbst & tt & Htree & Hnb & Hsz & Hmx) Hw Hcov Hfl Hfuel.
  assert (UINT32_MAX = 4294967295) as HU by reflexivity.
  assert (MAX_TREE_SIZE = 2147483648) as HM by reflexivity.
  destruct (tree_ok_Zt _ _ _ Hok) as (tt0 & Htree0 & HZ).
  rewrite Htree in Htree0. injection Htree0 as <-.
  destruct (ins_ok w UINT32_MAX t fl Hrb Hbst ltac:(lia) Hw Hcov Hfl)
    as (t' & fl' & Hins & Hrb' & Hrg & Hlen).
  destruct (rb_tree_insert_spec tt fl fuel w s t _ _ _ HZ Hnb
              ltac:(destruct fl; [done|rewrite Hmx, length_cons; lia]) Hins Hfuel)
    as (s' & Hrun & tt1 & HZ' & Hmx' & Hnb' & Hsz').
  exists s', t', fl'. split; [done|]. split; [|done].
  destruct (Zt_tree_ok _ _ _ _ HZ') as (Hok' & rootp & Htree').
  assert (gapped 0 UINT32_MAX (ranges t')) as Hg'.
  { rewrite Hrg. apply linsert_gapped; [by apply bst_gapped|done|done]. }
  split; [done|]. split; [done|]. split; [by apply bst_gapped|].
  exists (set_root rootp tt1). split; [done|].
  pose proof (gapped_count _ Hg') as Hc.
  pose proof (linsert_length w (ranges t)) as [Hl1 Hl2]. rewrite <- Hrg in Hl1, Hl2.
  destruct tt1 as [sz1 mx1 rt1 fh1 ft1 nb1]. cbn in *. subst.
  split; [done|]. split; [|lia].
  repeat case_bool_decide; rewrite ?u32_small; lia.
Qed.

Lemma gapped_covered_lo lo hi rs x : gapped lo hi rs -> covered rs x -> lo <= x.
Proof.
  intros Hg Hc. apply gapped_bounds in Hg. unfold covered in Hc.
  apply Exists_exists in Hc as (rg & Hin & Hc). rewrite Forall_forall in Hg.
  specialize (Hg rg Hin). unfold covers in Hc. lia.
Qed.

Lemma linsert_length_new w hi rs : forall lo,
  gapped lo hi rs -> isolated rs w ->
  length (linsert w rs) = S (length rs).
Proof.
  induction rs as [|rg rs IH]; intros lo Hg (H1 & H2 & H3); [done|].
  cbn in Hg. destruct Hg as (Hlo & Ho & Hhi & Hg).
  rewrite covered_cons in H1, H2, H3. unfold covers in *. cbn [linsert].
  destruct (Z.eqb_spec (w + 1) (value rg)); [lia|].
  destruct (Z.ltb_spec w (value rg)); [done|].
  destruct (Z.eqb_spec (value rg + offset rg + 1) w); [lia|].
  cbn. f_equal. apply (IH _ Hg). unfold isolated. tauto.
Qed.

Lemma linsert_length_adj w hi rs : forall lo,
  gapped lo hi rs -> ~ covered rs w ->
  covered rs (w - 1) \/ covered rs (w + 1) ->
  (length (linsert w rs) <= length rs)%nat.
Proof.
  induction rs as [|rg rs IH]; intros lo Hg Hw Hadj.
  { destruct Hadj as [H|H]; by apply covered_nil in H. }
  pose proof Hg as Hg0. cbn in Hg. destruct Hg as (Hlo & Ho & Hhi & Hg).
  rewrite covered_cons in Hw. rewrite !covered_cons in Hadj.
  unfold covers in *. cbn [linsert].
  destruct (Z.eqb_spec (w + 1) (value rg)); [done|].
  destruct (Z.ltb_spec w (value rg)).
  { exfalso. destruct Hadj as [[Ha|Ha]|[Ha|Ha]]; try lia.
    - apply (gapped_covered_lo _ _ _ _ Hg) in Ha. lia.
    - apply (gapped_covered_lo _ _ _ _ Hg) in Ha. lia. }
  destruct (Z.eqb_spec (value rg + offset rg + 1) w).
  { destruct rs as [|rg' rs']; [done|]. destruct (w + 1 =? value rg'); cbn; lia. }
  cbn. apply le_n_S. apply (IH _ Hg); [tauto|].
  destruct Hadj as [[Ha|Ha]|[Ha|Ha]]; auto; lia.
Qed.

(** The three ways an insertion of an absent value goes, told apart by the
    free cells it takes or gives. *)
Lemma ins_absent_kind w t c0 l0 a0 v0 o0 r0 :
  t = T c0 l0 a0 v0 o0 r0 ->
  rb t -> bst 0 UINT32_MAX t -> 0 <= w <= UINT32_MAX ->
  ~ covered (ranges t) w ->
  match ins_go w t [] with
  | INew ls k tb =>
      length (linsert w (ranges t)) = S (length (ranges t)) /\ tb <> E
  | IExt t' =>
      rb t' /\ ranges t' = linsert w (ranges t) /\
      length (ranges t') = length (ranges t)
  | IMerge k tb =>
      exists t' y, del_at k tb = Some (t', y) /\
        rb t' /\ ranges t' = linsert w (ranges t) /\
        S (length (ranges t')) = length (ranges t)
  | IDup => False
  end.
Proof.
  intros Ht Hrb Hbst Hw Hcov.
  destruct (ins_ok w UINT32_MAX t [0%nat] Hrb Hbst ltac:(lia) Hw Hcov ltac:(done))
    as (t' & fl' & Hins & Hrb' & Hrg & Hlen).
  subst t. cbn [ins] in Hins. cbn [length] in Hlen.
  destruct (ins_go w (T c0 l0 a0 v0 o0 r0) []) as [ls k tb|tx|k tb|]; [| | |done].
  - destruct tb as [|bc bl ba bv bo br]; [done|].
    destruct (ins_fix _ _) as [tf|] in Hins; [|done].
    injection Hins as <- <-. cbn [length] in Hlen. rewrite <- Hrg.
    split; [lia|done].
  - injection Hins as <- <-. split_and!; [done|done|]. cbn [length] in Hlen. lia.
  - destruct (del_at k tb) as [[td y]|]; [|done].
    injection Hins as <- <-. exists td, y. split_and!; try done.
    cbn [length app] in Hlen. lia.
Qed.

Lemma insert_adjacent_step fuel s t fl w :
  tree_inv s t fl -> 0 <= w <= UINT32_MAX -> ~ covered (ranges t) w ->
  covered (ranges t) (w - 1) \/ covered (ranges t) (w + 1) ->
  (2 * height t + 2 <= fuel)%nat ->
  exists s' t' fl',
    rb_tree_insert fuel w s = Ok RB_SUCCESS s' /\
    tree_inv s' t' fl' /\
    ranges t' = linsert w (ranges t) /\
    (length (ranges t') + length fl' = length (ranges t) + length fl)%nat /\
    (length fl <= length fl')%nat.
Proof.
  intros (Hok & Hrb & Hbst & tt & Htree & Hnb & Hsz & Hmx) Hw Hcov Hadj Hfuel.
  assert (UINT32_MAX = 4294967295) as HU by reflexivity.
  assert (MAX_TREE_SIZE = 2147483648) as HM by reflexivity.
  destruct (tree_ok_Zt _ _ _ Hok) as (tt0 & Htree0 & HZ).
  rewrite Htree in Htree0. injection Htree0 as <-.
  pose proof (proj1 (bst_gapped _ _ _) Hbst) as Hg.
  pose proof (linsert_length_adj _ _ _ _ Hg Hcov Hadj) as Hla.
  assert (t <> E) as Hne.
  { intros ->. destruct Hadj as [H|H]; by apply covered_nil in H. }
  assert (exists t' fl', ins w t fl = Some (RB_SUCCESS, t', fl') /\ rb t' /\
            ranges t' = linsert w (ranges t) /\
            (length (ranges t') + length fl' = length (ranges t) + length fl)%nat /\
            (length fl <= length fl')%nat)
    as (t' & fl' & Hins & Hrb' & Hrg & Hlen & Hfl).
  { destruct t as [|c0 l0 a0 v0 o0 r0]; [done|].
    pose proof (ins_absent_kind w _ _ _ _ _ _ _ eq_refl Hrb Hbst Hw Hcov) as Hkind.
    cbn [ins].
    destruct (ins_go w (T c0 l0 a0 v0 o0 r0) []) as [ls k tb|tx|k tb|]; [| | |done].
    - lia.
    - destruct Hkind as (? & ? & ?). exists tx, fl. split_and!; try done; lia.
    - destruct Hkind as (td & y & -> & ? & ? & ?). exists td, (fl ++ [y]).
      rewrite length_app. cbn [length]. split_and!; try done; lia. }
  assert (length (ranges t) >= 1)%nat as Hpos.
  { destruct t; [done|]. cbn. rewrite length_app. cbn. lia. }
  destruct (rb_tree_insert_spec tt fl fuel w s t _ _ _ HZ Hnb
              ltac:(lia) Hins Hfuel)
    as (s' & Hrun & tt1 & HZ' & Hmx' & Hnb' & Hsz').
  exists s', t', fl'. split; [done|]. split; [|done].
  destruct (Zt_tree_ok _ _ _ _ HZ') as (Hok' & rootp & Htree').
  assert (gapped 0 UINT32_MAX (ranges t')) as Hg'.
  { rewrite Hrg. apply linsert_gapped; [by apply bst_gapped|done|done]. }
  split; [done|]. split; [done|]. split; [by apply bst_gapped|].
  exists (set_root rootp tt1). split; [done|].
  pose proof (gapped_count _ Hg) as Hc.
  pose proof (linsert_length w (ranges t)) as [Hl1 Hl2]. rewrite <- Hrg in Hl1, Hl2.
  destruct tt1 as [sz1 mx1 rt1 fh1 ft1 nb1]. cbn in *. subst sz1 mx1 nb1.
  split; [done|]. split; [|lia].
  repeat case_bool_decide; rewrite ?u32_small; lia.
Qed.

(** An insertion that finds a duplicate, or needs a cell when there is
    none, leaves the state as it is. *)
Lemma rb_tree_insert_unchanged tt0 fl fuel w s t st :
  Zt (free_frame tt0 fl) fl tt0 s [] t -> t <> E ->
  node_block tt0 <> None -> max_size tt0 <> 0 ->
  (2 * height t + 2 <= fuel)%nat ->
  match ins_go w t [] with
  | INew _ _ tb => fl = [] /\ tb <> E /\ st = RB_FAIL_TREE_FULL
  | IDup => st = RB_FAIL_INSERT_DUPLICATE
  | _ => False
  end ->
  rb_tree_insert fuel w s = Ok st s.
Proof.
  intros HZ Hne Hnb Hmx Hfuel Hgo.
  assert (exists s', rb_tree_insert fuel w s = Ok st s' /\ s' = s)
    as (s' & Hrun & ->); [|done].
  apply (holds_elim' _ (fun s' => s' = s)).
  pose proof (Z_root _ _ _ _ _ _ HZ) as Hroot. cbn [plug] in Hroot.
  destruct (Zt_open _ _ _ _ _ _ HZ) as (h & rootp & Hs & _).
  unfold rb_tree_insert.
  apply holds_bind. eapply holds_eq; [by rewrite Hs; apply run_null|]. cbv iota.
  apply holds_bind. eapply holds_eq.
  { rewrite Hs. unfold orM.
    mrun; nsimpl; rewrite ?(bool_decide_eq_false_2 _ Hnb); mrun. }
  rewrite <- ?Hs. change (max_size (set_root rootp tt0)) with (max_size tt0).
  rewrite (proj2 (Z.eqb_neq _ _) Hmx). cbv iota.
  apply holds_bind. unfold try_binary_insert_or_merge.
  apply holds_bind. eapply holds_eq; [exact Hroot|].
  destruct t as [|c l a v o r]; [done|].
  cbn [root_ptr]. decide_bool. cbv iota.
  change (Some a) with (root_ptr (T c l a v o r)).
  eapply (insert_or_merge_loop_spec _ _ _ (height (T c l a v o r)));
    [done|exact HZ|cbn [length]; lia|cbn [length]; lia|].
  destruct (ins_go w (T c l a v o r) []) as [ls k tb|tx|k tb|] eqn:Hgo';
    cbn [ins_post]; [|done|done|].
  - destruct Hgo as (-> & Htb & ->).
    cbn [fst snd]. decide_bool. cbn [andb]. unfold when.
    apply holds_ret. done.
  - subst st. cbn [fst snd]. decide_bool. cbn [andb]. unfold when.
    apply holds_ret. done.
Qed.


(** The descent for the first value of a stored range ends at the
    node that holds it. *)
Lemma ins_go_dup w o a : forall t lo hi k,
  bst lo hi t -> 0 <= lo -> hi <= UINT32_MAX ->
  (a, mk_range w o) ∈ nodes t -> ins_go w t k = IDup.
Proof.
  assert (UINT32_MAX = 4294967295) as HU by reflexivity.
  induction t as [|c l IHl b v ov r IHr]; intros lo hi k Hbst Hlo Hhi Hin.
  { by apply elem_of_nil in Hin. }
  cbn in Hbst. destruct Hbst as (Hv & Hov & Hvo & Hbl & Hbr).
  cbn [nodes] in Hin. apply elem_of_app in Hin as [Hin|Hin].
  - (* in the left subtree *)
    destruct (bst_bounds _ _ _ _ _ Hbl Hin) as (H1 & H2 & H3). cbn in H1, H2, H3.
    cbn [ins_go].
    rewrite are_consecutive_eqb by lia.
    destruct (Z.eqb_spec (w + 1) v); [lia|].
    destruct (Z.ltb_spec w v); [|lia].
    destruct l as [|lc ll la lv lo' lr]; [by apply elem_of_nil in Hin|].
    eapply IHl; [exact Hbl|lia|lia|exact Hin].
  - apply elem_of_cons in Hin as [Heq|Hin].
    + injection Heq as -> -> ->. cbn [ins_go].
      rewrite are_consecutive_eqb by lia.
      destruct (Z.eqb_spec (v + 1) v); [lia|].
      rewrite Z.ltb_irrefl. rewrite (u32_small (v + ov)) by lia.
      rewrite are_consecutive_eqb by lia.
      destruct (Z.eqb_spec (v + ov + 1) v); [lia|]. done.
    + destruct (bst_bounds _ _ _ _ _ Hbr Hin) as (H1 & H2 & H3). cbn in H1, H2, H3.
      cbn [ins_go].
      rewrite are_consecutive_eqb by lia.
      destruct (Z.eqb_spec (w + 1) v); [lia|].
      destruct (Z.ltb_spec w v); [lia|].
      rewrite (u32_small (v + ov)) by lia.
      rewrite are_consecutive_eqb by lia.
      destruct (Z.eqb_spec (v + ov + 1) w); [lia|].
      destruct (Z.ltb_spec v w); [|lia].
      destruct r as [|rc rl ra rv ro' rr]; [by apply elem_of_nil in Hin|].
      eapply IHr; [exact Hbr|lia|lia|exact Hin].
Qed.

Lemma insert_duplicate_step fuel s t fl w o a :
  tree_inv s t fl -> (a, mk_range w o) ∈ nodes t ->
  (2 * height t + 2 <= fuel)%nat ->
  rb_tree_insert fuel w s = Ok RB_FAIL_INSERT_DUPLICATE s.
Proof.
  intros (Hok & Hrb & Hbst & tt & Htree & Hnb & Hsz & Hmx) Hin Hfuel.
  destruct (tree_ok_Zt _ _ _ Hok) as (tt0 & Htree0 & HZ).
  rewrite Htree in Htree0. injection Htree0 as <-.
  assert (t <> E) as Hne by (intros ->; by apply elem_of_nil in Hin).
  eapply rb_tree_insert_unchanged; [exact HZ|done|done| |done|].
  { destruct t; [done|]. rewrite Hmx. cbn. rewrite length_app. cbn. lia. }
  by rewrite (ins_go_dup w o a t 0 UINT32_MAX [] Hbst).
Qed.


(** ** Search *)

Lemma gapped_covered_hi lo hi rs x : gapped lo hi rs -> covered rs x -> x <= hi.
Proof.
  intros Hg Hc. apply gapped_bounds in Hg. unfold covered in Hc.
  apply Exists_exists in Hc as (rg & Hin & Hc). rewrite Forall_forall in Hg.
  specialize (Hg rg Hin). unfold covers in Hc. lia.
Qed.

Lemma covered_app l1 l2 x : covered (l1 ++ l2) x <-> covered l1 x \/ covered l2 x.
Proof. unfold covered. apply Exists_app. Qed.

(** What the search finds: the node whose range covers [x], with the
    context it sits in, or nothing when no range covers [x]. *)
Lemma find_cover_spec x : forall t lo hi,
  bst lo hi t -> 0 <= lo -> hi <= UINT32_MAX ->
  match find_cover x t with
  | Some a =>
      exists k c l v o r, t = plug (T c l a v o r) k /\ v <= x <= v + o
  | None => ~ covered (ranges t) x
  end.
Proof.
  assert (UINT32_MAX = 4294967295) as HU by reflexivity.
  induction t as [|c l IHl a v o r IHr]; intros lo hi Hbst Hlo Hhi.
  { cbn. intros H. by apply covered_nil in H. }
  cbn in Hbst. destruct Hbst as (Hv & Ho & Hvo & Hbl & Hbr).
  cbn [find_cover]. rewrite (u32_small (v + o)) by lia.
  destruct (Z.leb_spec v x); cbn [andb].
  - destruct (Z.leb_spec x (v + o)).
    + exists [], c, l, v, o, r. split; [done|lia].
    + destruct (Z.ltb_spec x v); [lia|].
      specialize (IHr _ _ Hbr ltac:(lia) Hhi).
      destruct (find_cover x r) as [b|].
      * destruct IHr as (k & c' & l' & v' & o' & r' & -> & Hx).
        exists (k ++ [FR c l a v o]), c', l', v', o', r'.
        split; [|done]. by rewrite plug_app.
      * cbn [ranges]. rewrite covered_app, covered_cons. unfold covers. cbn.
        intros [Hc|[Hc|Hc]]; [|lia|done].
        apply bst_gapped in Hbl.
        apply (gapped_covered_hi _ _ _ _ Hbl) in Hc. lia.
  - destruct (Z.ltb_spec x v); [|lia].
    specialize (IHl _ _ Hbl Hlo ltac:(lia)).
    destruct (find_cover x l) as [b|].
    + destruct IHl as (k & c' & l' & v' & o' & r' & -> & Hx).
      exists (k ++ [FL c a v o r]), c', l', v', o', r'.
      split; [|done]. by rewrite plug_app.
    + cbn [ranges]. rewrite covered_app, covered_cons. unfold covers. cbn.
      intros [Hc|[Hc|Hc]]; [done|lia|].
      apply bst_gapped in Hbr.
      apply (gapped_covered_lo _ _ _ _ Hbr) in Hc. lia.
Qed.


Lemma binary_search_run fuel x s t fl :
  tree_ok s t fl -> (height t < fuel)%nat ->
  rb_tree_binary_search fuel x s = Ok (find_cover x t) s.
Proof.
  intros (tt & Htree & Hrep & _) Hfuel. destruct s as [h ts]. cbn in *. subst ts.
  unfold rb_tree_binary_search. eapply run_bind; [apply run_tget|].
  eapply binary_search_spec; eauto.
Qed.

(** The parts of a list of ranges around the range that covers [x]. *)
Lemma gapped_split_unique x hi l1 : forall lo l1' rg rg' l2 l2',
  gapped lo hi (l1 ++ rg :: l2) ->
  l1 ++ rg :: l2 = l1' ++ rg' :: l2' ->
  covers rg x -> covers rg' x ->
  l1 = l1' /\ rg = rg' /\ l2 = l2'.
Proof.
  induction l1 as [|r1 l1 IH]; intros lo l1' rg rg' l2 l2' Hg Heq Hc Hc'.
  - destruct l1' as [|r1' l1']; cbn in Heq.
    + by injection Heq as -> ->.
    + exfalso. injection Heq as <- ->. cbn in Hg.
      destruct Hg as (_ & ? & ? & Hg). apply gapped_app in Hg.
      unfold covers in *. lia.
  - destruct l1' as [|r1' l1']; cbn in Heq.
    + exfalso. injection Heq as -> <-. cbn in Hg.
      destruct Hg as (_ & ? & ? & Hg). apply gapped_app in Hg.
      unfold covers in *. lia.
    + injection Heq as <- Heq. cbn in Hg. destruct Hg as (_ & _ & _ & Hg).
      destruct (IH _ _ _ _ _ _ Hg Heq Hc Hc') as (-> & -> & ->). done.
Qed.

Lemma focus_ranges c l a v o r k x before rg after :
  bst 0 UINT32_MAX (plug (T c l a v o r) k) ->
  ranges (plug (T c l a v o r) k) = before ++ rg :: after ->
  v <= x <= v + o -> covers rg x ->
  before = ranges_l k ++ ranges l /\ rg = mk_range v o /\
  after = ranges r ++ ranges_r k.
Proof.
  intros Hbst Hrg Hx Hc. apply bst_gapped in Hbst.
  assert (ranges (plug (T c l a v o r) k)
          = (ranges_l k ++ ranges l) ++ mk_range v o :: ranges r ++ ranges_r k)
    as Heq.
  { rewrite ranges_plug. cbn [ranges]. by rewrite <- !app_assoc. }
  rewrite Heq in Hrg, Hbst.
  destruct (gapped_split_unique x _ _ _ _ _ _ _ _ Hbst Hrg) as (? & ? & ?);
    [unfold covers; cbn; lia|done|]. done.
Qed.

(** ** Deletion *)

Lemma gapped_remove hi l1 : forall lo rg l2,
  gapped lo hi (l1 ++ rg :: l2) -> gapped lo hi (l1 ++ l2).
Proof.
  induction l1 as [|r1 l1 IH]; intros lo rg l2 Hg; cbn in *.
  - destruct Hg as (? & ? & ? & Hg). eapply gapped_weaken; [|exact Hg]. lia.
  - destruct Hg as (? & ? & ? & Hg). split_and!; try done. by eapply IH.
Qed.

Lemma gapped_replace hi l1 : forall lo rg rg' l2,
  gapped lo hi (l1 ++ rg :: l2) ->
  value rg <= value rg' -> 0 <= offset rg' ->
  value rg' + offset rg' <= value rg + offset rg ->
  gapped lo hi (l1 ++ rg' :: l2).
Proof.
  induction l1 as [|r1 l1 IH]; intros lo rg rg' l2 Hg H1 H2 H3; cbn in *.
  - destruct Hg as (? & ? & ? & Hg). split_and!; try lia.
    eapply gapped_weaken; [|exact Hg]. lia.
  - destruct Hg as (? & ? & ? & Hg). split_and!; try done. by eapply IH.
Qed.


(** The run of [rb_tree_delete] up to the node it found. *)
Lemma delete_found fuel s t fl x before rg after Q :
  tree_inv s t fl -> ranges t = before ++ rg :: after -> covers rg x ->
  (height t < fuel)%nat ->
  (forall tt0 k c l a r,
     tree s = Some tt0 -> node_block tt0 <> None ->
     size tt0 = Z.of_nat (length (ranges t)) ->
     max_size tt0 = Z.of_nat (length (ranges t) + length fl) ->
     t = plug (T c l a (value rg) (offset rg) r) k ->
     before = ranges_l k ++ ranges l -> after = ranges r ++ ranges_r k ->
     Zt (free_frame tt0 fl) fl tt0 s k (T c l a (value rg) (offset rg) r) ->
     holds
       ((no <- rd (Some a) (fun n => offset (range n)) ;;
         if no =? 0 then delete_rb_node fuel (Some a) ;; ret RB_SUCCESS
         else
           nv <- rd (Some a) (fun n => value (range n)) ;;
           if (x =? nv) && negb (no =? 0) then
             wr (Some a) (set_value (u32 (nv + 1))) ;;
             no <- rd (Some a) (fun n => offset (range n)) ;;
             wr (Some a) (set_offset (u32 (no - 1))) ;;
             ret RB_SUCCESS
           else if x =? u32 (nv + no) then
             wr (Some a) (set_offset (u32 (no - 1))) ;;
             ret RB_SUCCESS
           else
             r <- try_binary_insert_or_merge fuel (u32 (x + 1)) ;;
             let '(insert_status, upper_node) := r in
             if negb (bool_decide (insert_status = RB_SUCCESS)) then
               assert (bool_decide (insert_status = RB_FAIL_TREE_FULL)) ;;
               ret insert_status
             else
               assert (bool_decide (upper_node <> None)) ;;
               nv <- rd (Some a) (fun n => value (range n)) ;;
               no <- rd (Some a) (fun n => offset (range n)) ;;
               uv <- rd upper_node (fun n => value (range n)) ;;
               wr upper_node (set_offset (u32 (u32 (nv + no) - uv))) ;;
               nv <- rd (Some a) (fun n => value (range n)) ;;
               wr (Some a) (set_offset (u32 (u32 (x - nv) - 1))) ;;
               ret RB_SUCCESS) s) Q) ->
  holds (rb_tree_delete fuel x s) Q.
Proof.
  intros (Hok & Hrb & Hbst & tt & Htree & Hnb & Hsz & Hmx) Hrg Hc Hfuel HQ.
  pose proof (binary_search_run fuel x s t fl Hok Hfuel) as Hsearch.
  pose proof (find_cover_spec x t 0 UINT32_MAX Hbst ltac:(done) ltac:(done)) as Hfc.
  destruct (find_cover x t) as [a|]; cycle 1.
  { destruct Hfc. rewrite Hrg, covered_app, covered_cons. auto. }
  destruct Hfc as (k & c & l & v & o & r & Ht & Hx). subst t.
  destruct (focus_ranges _ _ _ _ _ _ _ _ _ _ _ Hbst Hrg Hx Hc) as (Hb & -> & Ha).
  destruct (tree_ok_Zt _ _ _ Hok) as (tt0 & Htree0 & HZ).
  rewrite Htree in Htree0. injection Htree0 as <-.
  unfold rb_tree_delete.
  apply holds_bind. eapply holds_eq.
  { destruct s as [h ts]. cbn in Htree. subst ts. apply run_null. }
  cbv iota.
  apply holds_bind. eapply holds_eq; [exact Hsearch|].
  rewrite bool_decide_eq_false_2 by done.
  eapply (HQ tt k c l a r); try done.
Qed.

Lemma tree_inv_intro tt1 fl s t :
  Zt (free_frame tt1 fl) fl tt1 s [] t ->
  rb t -> gapped 0 UINT32_MAX (ranges t) ->
  node_block tt1 <> None ->
  size tt1 = Z.of_nat (length (ranges t)) ->
  max_size tt1 = Z.of_nat (length (ranges t) + length fl) ->
  tree_inv s t fl.
Proof.
  intros HZ Hrb Hg Hnb Hsz Hmx.
  destruct (Zt_tree_ok _ _ _ _ HZ) as (Hok & rp & Htree).
  split; [done|]. split; [done|]. split; [by apply bst_gapped|].
  exists (set_root rp tt1). by destruct tt1.
Qed.

Lemma delete_single_step fuel s t fl x before after :
  tree_inv s t fl -> ranges t = before ++ mk_range x 0 :: after ->
  (height t < fuel)%nat ->
  exists s' t' y,
    rb_tree_delete fuel x s = Ok RB_SUCCESS s' /\
    tree_inv s' t' (fl ++ [y]) /\
    ranges t' = before ++ after.
Proof.
  intros Hinv Hrg Hfuel.
  assert (UINT32_MAX = 4294967295) as HU by reflexivity.
  pose proof Hinv as (_ & Hrb & Hbst & _).
  pose proof (gapped_count _ (proj1 (bst_gapped _ _ _) Hbst)) as Hcnt.
  change MAX_TREE_SIZE with 2147483648 in Hcnt.
  assert (exists s', rb_tree_delete fuel x s = Ok RB_SUCCESS s' /\
            exists t' y, tree_inv s' t' (fl ++ [y]) /\ ranges t' = before ++ after)
    as (s' & Hrun & t' & y & H1 & H2); [|by eauto 10].
  apply (holds_elim' _ (fun s' => exists t' y, _)).
  eapply delete_found; [exact Hinv|exact Hrg|unfold covers; cbn; lia|done|].
  cbn [value offset]. intros tt0 k c l a r Htree Hnb Hsz Hmx Ht Hb Ha HZ.
  apply holds_bind. eapply Z_rd; [exact HZ|]. intros ts. cbn [range offset].
  cbn [Z.eqb]. apply holds_bind. subst t.
  destruct (del_at_rb _ _ _ _ _ _ _ Hrb) as (t' & y & Hdel & Hrb').
  pose proof (height_plug k (T c l a x 0 r)) as Hh.
  eapply delete_rb_node_spec; [exact HZ|exact Hdel|lia|].
  intros s1 HZ1. apply holds_ret. split; [done|]. exists t', y.
  pose proof (del_at_ranges _ _ _ _ _ _ _ _ _ Hdel) as Hrg'.
  assert (ranges t' = before ++ after) as Hrt.
  { rewrite Hrg', Hb, Ha. by rewrite <- !app_assoc. }
  split; [|done].
  apply bst_gapped in Hbst. rewrite Hrg in Hbst, Hsz, Hmx, Hcnt.
  rewrite length_app in Hsz, Hmx, Hcnt. cbn [length] in Hsz, Hmx, Hcnt.
  eapply (tree_inv_intro _ _ _ _); [exact HZ1|exact Hrb'| | | |].
  - rewrite Hrt. by eapply gapped_remove.
  - done.
  - cbn [pushed size]. rewrite Hrt, length_app, Hsz. rewrite u32_small; lia.
  - cbn [pushed max_size]. rewrite Hrt, Hmx, !length_app. cbn [length]. lia.
Qed.

Lemma delete_first_step fuel s t fl x o before after :
  tree_inv s t fl -> ranges t = before ++ mk_range x o :: after -> 0 < o ->
  (height t < fuel)%nat ->
  exists s' t',
    rb_tree_delete fuel x s = Ok RB_SUCCESS s' /\
    tree_inv s' t' fl /\
    ranges t' = before ++ mk_range (x + 1) (o - 1) :: after.
Proof.
  intros Hinv Hrg Ho Hfuel.
  assert (UINT32_MAX = 4294967295) as HU by reflexivity.
  pose proof Hinv as (_ & Hrb & Hbst & _).
  assert (exists s', rb_tree_delete fuel x s = Ok RB_SUCCESS s' /\
            exists t', tree_inv s' t' fl /\
              ranges t' = before ++ mk_range (x + 1) (o - 1) :: after)
    as (s' & Hrun & t' & H1 & H2); [|by eauto 10].
  apply (holds_elim' _ (fun s' => exists t', _)).
  eapply delete_found; [exact Hinv|exact Hrg|unfold covers; cbn; lia|done|].
  cbn [value offset]. intros tt0 k c l a r Htree Hnb Hsz Hmx Ht Hb Ha HZ.
  apply bst_gapped in Hbst. rewrite Hrg in Hbst.
  pose proof (proj1 (gapped_app _ _ _ _ _) Hbst) as (_ & Hx0 & _ & Hxo & _).
  cbn [value offset] in Hx0, Hxo.
  apply holds_bind. eapply Z_rd; [exact HZ|]. intros ts. cbn [range offset].
  destruct (Z.eqb_spec o 0); [lia|].
  apply holds_bind. eapply Z_rd; [exact HZ|]. intros ts'. cbn [range value].
  rewrite Z.eqb_refl. cbn [andb negb].
  apply holds_bind.
  eapply (Z_wr _ _ _ _ _ _ _ _ _ _ _ _ c (u32 (x + 1)) o); [exact HZ| |].
  { intros ?. eexists. reflexivity. }
  intros s1 HZ1.
  apply holds_bind. eapply Z_rd; [exact HZ1|]. intros ts1. cbn [range offset].
  apply holds_bind.
  eapply (Z_wr _ _ _ _ _ _ _ _ _ _ _ _ c (u32 (x + 1)) (u32 (o - 1))); [exact HZ1| |].
  { intros ?. eexists. reflexivity. }
  intros s2 HZ2. apply holds_ret. split; [done|].
  rewrite !u32_small in HZ2 by lia.
  exists (plug (T c l a (x + 1) (o - 1) r) k).
  assert (ranges (plug (T c l a (x + 1) (o - 1) r) k)
          = before ++ mk_range (x + 1) (o - 1) :: after) as Hrt.
  { rewrite ranges_plug, Hb, Ha. cbn [ranges]. by rewrite <- !app_assoc. }
  split; [|done]. subst t.
  eapply (tree_inv_intro _ _ _ _); [exact HZ2| | | | |].
  - eapply same_shape_rb; [|exact Hrb]. apply same_shape_plug.
    apply same_shape_T; apply same_shape_refl.
  - rewrite Hrt. eapply gapped_replace; [exact Hbst|cbn; lia..].
  - done.
  - rewrite Hrt, Hsz, Hrg, !length_app. done.
  - rewrite Hrt, Hmx, Hrg, !length_app. done.
Qed.

Lemma delete_last_step fuel s t fl v o before after :
  tree_inv s t fl -> ranges t = before ++ mk_range v o :: after -> 0 < o ->
  (height t < fuel)%nat ->
  exists s' t',
    rb_tree_delete fuel (v + o) s = Ok RB_SUCCESS s' /\
    tree_inv s' t' fl /\
    ranges t' = before ++ mk_range v (o - 1) :: after.
Proof.
  intros Hinv Hrg Ho Hfuel.
  assert (UINT32_MAX = 4294967295) as HU by reflexivity.
  pose proof Hinv as (_ & Hrb & Hbst & _).
  assert (exists s', rb_tree_delete fuel (v + o) s = Ok RB_SUCCESS s' /\
            exists t', tree_inv s' t' fl /\
              ranges t' = before ++ mk_range v (o - 1) :: after)
    as (s' & Hrun & t' & H1 & H2); [|by eauto 10].
  apply (holds_elim' _ (fun s' => exists t', _)).
  eapply delete_found; [exact Hinv|exact Hrg|unfold covers; cbn; lia|done|].
  cbn [value offset]. intros tt0 k c l a r Htree Hnb Hsz Hmx Ht Hb Ha HZ.
  apply bst_gapped in Hbst. rewrite Hrg in Hbst.
  pose proof (proj1 (gapped_app _ _ _ _ _) Hbst) as (_ & Hx0 & _ & Hxo & _).
  cbn [value offset] in Hx0, Hxo.
  apply holds_bind. eapply Z_rd; [exact HZ|]. intros ts. cbn [range offset].
  destruct (Z.eqb_spec o 0); [lia|].
  apply holds_bind. eapply Z_rd; [exact HZ|]. intros ts'. cbn [range value].
  destruct (Z.eqb_spec (v + o) v); [lia|]. cbn [andb].
  rewrite (u32_small (v + o)) by lia. rewrite Z.eqb_refl.
  apply holds_bind.
  eapply (Z_wr _ _ _ _ _ _ _ _ _ _ _ _ c v (u32 (o - 1))); [exact HZ| |].
  { intros ?. eexists. reflexivity. }
  intros s2 HZ2. apply holds_ret. split; [done|].
  rewrite !u32_small in HZ2 by lia.
  exists (plug (T c l a v (o - 1) r) k).
  assert (ranges (plug (T c l a v (o - 1) r) k)
          = before ++ mk_range v (o - 1) :: after) as Hrt.
  { rewrite ranges_plug, Hb, Ha. cbn [ranges]. by rewrite <- !app_assoc. }
  split; [|done]. subst t.
  eapply (tree_inv_intro _ _ _ _); [exact HZ2| | | | |].
  - eapply same_shape_rb; [|exact Hrb]. apply same_shape_plug.
    apply same_shape_T; apply same_shape_refl.
  - rewrite Hrt. eapply gapped_replace; [exact Hbst|cbn; lia..].
  - done.
  - rewrite Hrt, Hsz, Hrg, !length_app. done.
  - rewrite Hrt, Hmx, Hrg, !length_app. done.
Qed.

(** ** The values a list of ranges covers *)

Lemma covered_dec rs x : covered rs x \/ ~ covered rs x.
Proof.
  induction rs as [|rg rs IH].
  - right. intros H. by apply covered_nil in H.
  - rewrite covered_cons. unfold covers.
    destruct (Z_le_dec (value rg) x), (Z_le_dec x (value rg + offset rg)), IH;
      first [left; lia | left; tauto | right; intros [?|?]; tauto || lia].
Qed.

Lemma covered_around lo hi l1 rg l2 y :
  gapped lo hi (l1 ++ rg :: l2) ->
  (covered l1 y -> y <= value rg - 2) /\
  (covered l2 y -> value rg + offset rg + 2 <= y).
Proof.
  intros (H1 & _ & _ & _ & H2)%gapped_app. split; intros Hc.
  - by apply (gapped_covered_hi _ _ _ _ H1).
  - by apply (gapped_covered_lo _ _ _ _ H2).
Qed.

Lemma covered_remove lo hi l1 x l2 y :
  gapped lo hi (l1 ++ mk_range x 0 :: l2) ->
  covered (l1 ++ l2) y <-> covered (l1 ++ mk_range x 0 :: l2) y /\ y <> x.
Proof.
  intros Hg. destruct (covered_around _ _ _ _ _ y Hg) as [H1 H2].
  cbn in H1, H2. rewrite !covered_app, covered_cons. unfold covers. cbn.
  split.
  - intros [Hc|Hc]; [specialize (H1 Hc)|specialize (H2 Hc)]; split; auto; lia.
  - intros [[Hc|[Hc|Hc]] Hne]; auto. lia.
Qed.

Lemma covered_shrink_first lo hi l1 x o l2 y :
  gapped lo hi (l1 ++ mk_range x o :: l2) -> 0 < o ->
  covered (l1 ++ mk_range (x + 1) (o - 1) :: l2) y
  <-> covered (l1 ++ mk_range x o :: l2) y /\ y <> x.
Proof.
  intros Hg Ho. destruct (covered_around _ _ _ _ _ y Hg) as [H1 H2].
  cbn in H1, H2. rewrite !covered_app, !covered_cons. unfold covers. cbn.
  split.
  - intros [Hc|[Hc|Hc]]; [specialize (H1 Hc)| |specialize (H2 Hc)];
      split; auto; try lia; try (right; left; lia).
  - intros [[Hc|[Hc|Hc]] Hne]; auto; try (right; left; lia).
Qed.

Lemma covered_shrink_last lo hi l1 v o l2 y :
  gapped lo hi (l1 ++ mk_range v o :: l2) -> 0 < o ->
  covered (l1 ++ mk_range v (o - 1) :: l2) y
  <-> covered (l1 ++ mk_range v o :: l2) y /\ y <> v + o.
Proof.
  intros Hg Ho. destruct (covered_around _ _ _ _ _ y Hg) as [H1 H2].
  cbn in H1, H2. rewrite !covered_app, !covered_cons. unfold covers. cbn.
  split.
  - intros [Hc|[Hc|Hc]]; [specialize (H1 Hc)| |specialize (H2 Hc)];
      split; auto; try lia; try (right; left; lia).
  - intros [[Hc|[Hc|Hc]] Hne]; auto; try (right; left; lia).
Qed.



(** ** The free list is a queue *)

Lemma u32_pred_succ z : 0 <= z < 4294967296 -> u32 (u32 (z - 1) + 1) = z.
Proof.
  intros Hz. unfold u32.
  destruct (Z.eq_dec z 0) as [->|Hne]; [reflexivity|].
  rewrite (Z.mod_small (z - 1)) by lia. rewrite Z.mod_small; lia.
Qed.

Lemma push_pop_step h t a n fl :
  h !! a = Some n -> a ∉ fl -> free_ok h t fl ->
  0 <= size t < 4294967296 ->
  exists h' t',
    (push_free_node (Some a) ;; pop_free_node) (mk_state h (Some t))
    = Ok (Some (hd a fl)) (mk_state h' (Some t')) /\
    free_ok h' t' (tl (fl ++ [a])) /\
    size t' = size t /\ max_size t' = max_size t /\
    root t' = root t /\ node_block t' = node_block t.
Proof.
  intros Hn Ha Hfree Hsz.
  destruct (push_free_node_spec h t a n fl Hn Ha Hfree)
    as (h1 & Hrun & Hfree1 & _ & _).
  assert (exists f rest, fl ++ [a] = f :: rest /\ hd a fl = f) as (f & rest & Heq & Hhd).
  { destruct fl as [|f fl']; cbn; eauto. }
  rewrite Heq in Hfree1 |- *. rewrite Hhd.
  destruct (pop_free_node_spec _ _ _ _ Hfree1)
    as (t' & Hrun' & Hfree' & Hs & Hm & Hr & Hb).
  exists h1, t'. split.
  { eapply run_bind; [exact Hrun|exact Hrun']. }
  cbn [tl]. split; [done|]. cbn in Hs, Hm, Hr, Hb.
  split_and!; try done. rewrite Hs. by apply u32_pred_succ.
Qed.

(** ** Create and destroy *)

Lemma create_success_inv alloc N s0 s1 :
  rb_tree_create alloc N s0 = Ok RB_SUCCESS s1 -> 1 <= N ->
  exists base,
    alloc = Some base /\ N <= MAX_TREE_SIZE /\
    tree_inv s1 E (seq base (Z.to_nat N)) /\
    rb_tree_is_empty s1 = Ok true s1 /\
    rb_tree_is_full s1 = Ok false s1.
Proof.
  intros Hrun HN. destruct s0 as [h [t0|]]; [|done].
  assert ((N =? 0) = false) as E0 by (apply Z.eqb_neq; lia).
  destruct (MAX_TREE_SIZE <? N) eqn:E1.
  { assert (exists s', rb_tree_create alloc N (mk_state h (Some t0))
                       = Ok RB_FAIL_EXCEEDED_MAX_SIZE s') as [s' Hrun'].
    { eexists. unfold rb_tree_create. mrun. rewrite E0, E1. mrun. }
    by rewrite Hrun' in Hrun. }
  destruct alloc as [base|]; cycle 1.
  { assert (exists s', rb_tree_create None N (mk_state h (Some t0))
                       = Ok RB_FAIL_MEM_ERR s') as [s' Hrun'].
    { eexists. unfold rb_tree_create. mrun. rewrite E0, E1. mrun. }
    by rewrite Hrun' in Hrun. }
  apply Z.ltb_ge in E1. exists base. split; [done|]. split; [done|].
  destruct (rb_tree_create_spec h t0 base N ltac:(lia))
    as (h' & t & Hrun' & Hfree & Hs & Hmx & Hr & Hb & _).
  rewrite Hrun' in Hrun. injection Hrun as <-.
  destruct t as [sz mx rt fh ft nb]. cbn in Hs, Hmx, Hr, Hb. subst.
  split; [|split].
  - split.
    { eexists. split; [reflexivity|]. cbn. split; [done|].
      split; [apply NoDup_seq|done]. }
    split; [by split; [|exists O]|]. split; [done|].
    eexists. split; [reflexivity|]. cbn. rewrite length_seq.
    split_and!; try done. lia.
  - unfold rb_tree_is_empty, andM. mrun.
  - unfold rb_tree_is_full, orM. mrun. cbn [max_size size].
    rewrite (proj2 (Z.eqb_neq 0 N)) by lia. done.
Qed.

Lemma insert_refused h tt fuel v :
  node_block tt = None \/ max_size tt = 0 ->
  rb_tree_insert fuel v (mk_state h (Some tt))
  = Ok RB_FAIL_SIZE_ZERO (mk_state h (Some tt)).
Proof.
  intros Hc. unfold rb_tree_insert, orM. destruct tt as [sz mx rt fh ft nb].
  cbn in Hc. destruct nb as [b|].
  - destruct Hc as [?| ->]; [done|]. mrun. cbn [max_size Z.eqb]. mrun.
  - mrun.
Qed.

Lemma destroy_run h tt :
  exists h',
    rb_tree_destroy (mk_state h (Some tt))
    = Ok RB_SUCCESS (mk_state h' (Some (set_node_block None tt))).
Proof.
  unfold rb_tree_destroy, free_nodes. destruct tt as [sz mx rt fh ft nb].
  destruct nb as [b|]; eexists; mrun.
Qed.

Lemma create_failure_run alloc N h tt st s1 :
  rb_tree_create alloc N (mk_state h (Some tt)) = Ok st s1 ->
  st <> RB_SUCCESS -> 0 <= N ->
  exists h1 tt1, s1 = mk_state h1 (Some tt1) /\ node_block tt1 = None.
Proof.
  intros Hrun Hst HN.
  assert (forall st' s',
            rb_tree_create alloc N (mk_state h (Some tt)) = Ok st' s' ->
            (exists h1 tt1, s' = mk_state h1 (Some tt1) /\ node_block tt1 = None) ->
            exists h1 tt1, s1 = mk_state h1 (Some tt1) /\ node_block tt1 = None)
    as Hby.
  { intros st' s' Hr Hp. rewrite Hr in Hrun. by injection Hrun as <- <-. }
  destruct (N =? 0) eqn:E0.
  { eapply Hby.
    - unfold rb_tree_create. mrun. rewrite E0. mrun.
    - eexists _, _. split; [reflexivity|]. by destruct tt. }
  destruct (MAX_TREE_SIZE <? N) eqn:E1.
  { eapply Hby.
    - unfold rb_tree_create. mrun. rewrite E0, E1. mrun.
    - eexists _, _. split; [reflexivity|]. by destruct tt. }
  destruct alloc as [base|].
  - exfalso. apply Hst.
    destruct (rb_tree_create_spec h tt base N) as (h' & t & Hrun' & _).
    { apply Z.eqb_neq in E0. apply Z.ltb_ge in E1. lia. }
    rewrite Hrun' in Hrun. by injection Hrun as <- _.
  - eapply Hby.
    + unfold rb_tree_create. mrun. rewrite E0, E1. mrun.
    + eexists _, _. split; [reflexivity|]. by destruct tt.
Qed.

(** ** The first node of the walk *)

Lemma Zs_tree_ok tt0 fl cl s k t :
  Zs tt0 fl cl s k t -> tree_ok s (plug t k) fl.
Proof.
  intros HZ%Zs_Zt. eapply Zt_plug_eq in HZ; [|reflexivity..].
  change (Zt (free_frame tt0 fl) fl tt0 s [] (plug t k)) in HZ.
  by apply Zt_tree_ok in HZ as [? _].
Qed.

Lemma Zs_range_at tt0 fl cl s k c l a v o r :
  Zs tt0 fl cl s k (T c l a v o r) -> range_at s a = Some (mk_range v o).
Proof.
  intros (h & rootp & -> & Ht & _)%Zs_open.
  apply rep_T in Ht as (_ & ts & Hn & _). unfold range_at. cbn. by rewrite Hn.
Qed.

Lemma get_first_step fuel s t fl p :
  tree_ok s t fl -> (height t <= fuel)%nat ->
  exists s' it,
    rb_tree_get_first_rb_node fuel p s
    = Ok (if t is E then RB_FAIL_NULL_TREE else RB_SUCCESS, it) s' /\
    tree_ok s' t fl /\ size_of s' = size_of s /\
    match ranges t with
    | [] => it = None
    | rg :: _ => exists a, it = Some a /\ range_at s' a = Some rg
    end.
Proof.
  intros Hok Hfuel. destruct (tree_ok_Zs _ _ _ Hok) as (tt0 & HZ & Hsz).
  assert (holds (rb_tree_get_first_rb_node fuel p s)
            (fun r s' =>
               r.1 = (if t is E then RB_FAIL_NULL_TREE else RB_SUCCESS) /\
               tree_ok s' t fl /\ size_of s' = size_of s /\
               match ranges t with
               | [] => r.2 = None
               | rg :: _ => exists a, r.2 = Some a /\ range_at s' a = Some rg
               end)) as Hh.
  { eapply get_first_spec; [exact HZ|done|]. intros s' HZ'. cbn [fst snd].
    split; [done|].
    pose proof (Zs_tree_ok _ _ _ _ _ _ HZ') as Hok'.
    rewrite plug_descend_l in Hok'. cbn [plug] in Hok'. split; [done|].
    split.
    { destruct HZ' as (h' & rp & -> & _). rewrite <- Hsz. by destruct tt0. }
    destruct t as [|c l a v o r]; [done|].
    set (t := T c l a v o r) in *.
    destruct (descend_l_shape t ltac:(done)) as (c' & a' & v' & o' & r' & Hfoc).
    destruct (descend_l t []) as [ks foc] eqn:Hd. cbn [fst snd] in *. subst foc.
    destruct (ranges_descend_l _ _ _ _ _ _ _ _ Hd) as (_ & _ & ->).
    exists a'. split; [done|]. by eapply Zs_range_at. }
  apply holds_elim in Hh as ([st it] & s' & Hrun & Hst & H1 & H2 & H3).
  cbn in Hst. subst st. exists s', it. done.
Qed.

(** ** Rotations *)

Lemma rotate_left_step s k c l a v o rc rl b rv ro rr fl :
  tree_ok s (plug (T c l a v o (T rc rl b rv ro rr)) k) fl ->
  exists s',
    rotate_left (Some a) s = Ok tt s' /\
    tree_ok s' (plug (T rc (T c l a v o rl) b rv ro rr) k) fl /\
    nodes (plug (T rc (T c l a v o rl) b rv ro rr) k)
    = nodes (plug (T c l a v o (T rc rl b rv ro rr)) k).
Proof.
  intros (tt0 & _ & HZ)%tree_ok_Zt.
  assert (Zt (free_frame tt0 fl) fl tt0 s k (T c l a v o (T rc rl b rv ro rr)))
    as HZ' by (revert HZ; by apply Zt_plug_eq).
  assert (exists s', rotate_left (Some a) s = Ok tt s' /\
            tree_ok s' (plug (T rc (T c l a v o rl) b rv ro rr) k) fl)
    as (s' & Hrun & Hok).
  { apply (holds_elim' _ (fun s' => tree_ok s' _ fl)).
    eapply Z_rotate_left; [exact HZ'|]. intros s' HZ1. split; [done|].
    eapply Zt_plug_eq in HZ1; [|reflexivity..].
    change (Zt (free_frame tt0 fl) fl tt0 s' []
              (plug (T rc (T c l a v o rl) b rv ro rr) k)) in HZ1.
    by apply Zt_tree_ok in HZ1 as [? _]. }
  exists s'. split_and!; try done.
  apply nodes_plug_eq. cbn [nodes].
  repeat (rewrite <- ?app_assoc; cbn [app]). done.
Qed.

Lemma rotate_right_step s k c lc ll b lv lo lr a v o r fl :
  tree_ok s (plug (T c (T lc ll b lv lo lr) a v o r) k) fl ->
  exists s',
    rotate_right (Some a) s = Ok tt s' /\
    tree_ok s' (plug (T lc ll b lv lo (T c lr a v o r)) k) fl /\
    nodes (plug (T lc ll b lv lo (T c lr a v o r)) k)
    = nodes (plug (T c (T lc ll b lv lo lr) a v o r) k).
Proof.
  intros (tt0 & _ & HZ)%tree_ok_Zt.
  assert (Zt (free_frame tt0 fl) fl tt0 s k (T c (T lc ll b lv lo lr) a v o r))
    as HZ' by (revert HZ; by apply Zt_plug_eq).
  assert (exists s', rotate_right (Some a) s = Ok tt s' /\
            tree_ok s' (plug (T lc ll b lv lo (T c lr a v o r)) k) fl)
    as (s' & Hrun & Hok).
  { apply (holds_elim' _ (fun s' => tree_ok s' _ fl)).
    eapply Z_rotate_right; [exact HZ'|]. intros s' HZ1. split; [done|].
    eapply Zt_plug_eq in HZ1; [|reflexivity..].
    change (Zt (free_frame tt0 fl) fl tt0 s' []
              (plug (T lc ll b lv lo (T c lr a v o r)) k)) in HZ1.
    by apply Zt_tree_ok in HZ1 as [? _]. }
  exists s'. split_and!; try done.
  apply nodes_plug_eq. cbn [nodes].
  repeat (rewrite <- ?app_assoc; cbn [app]). done.
Qed.

(** ** Rebalancing after a new leaf *)

Lemma insert_rebalance_step fuel s k f w fl :
  tree_ok s (plug (T RED E f w 0 E) k) fl -> rb (plug E k) ->
  (length k < fuel)%nat ->
  exists s' t',
    try_insert_rebalance fuel (Some f) s = Ok tt s' /\
    tree_ok s' t' fl /\ rb t' /\
    nodes t' = nodes (plug (T RED E f w 0 E) k).
Proof.
  intros (tt0 & _ & HZ)%tree_ok_Zt Hrb Hfuel.
  assert (Zt (free_frame tt0 fl) fl tt0 s k (T RED E f w 0 E))
    as HZ' by (revert HZ; by apply Zt_plug_eq).
  destruct (rb_unplug _ _ Hrb) as (m & Hm & Hk). cbn in Hm. subst m.
  destruct (ins_fix_rb (length k) k E f w 0 E O) as (t' & Hfix & Hrb');
    [done..|].
  assert (exists s', try_insert_rebalance fuel (Some f) s = Ok tt s' /\
            tree_ok s' t' fl) as (s' & Hrun & Hok).
  { apply (holds_elim' _ (fun s' => tree_ok s' _ fl)).
    eapply try_insert_rebalance_spec; [exact HZ'|exact Hfix|done|].
    intros s' HZ1. split; [done|]. by apply Zt_tree_ok in HZ1 as [? _]. }
  exists s', t'. split_and!; try done.
  by apply (ins_fix_nodes (length k)).
Qed.

(** ** Deleting a node *)

Lemma delete_node_step fuel s k c l a v o r fl :
  tree_ok s (plug (T c l a v o r) k) fl -> rb (plug (T c l a v o r) k) ->
  (length k + height (T c l a v o r) <= fuel)%nat ->
  exists s' t' y,
    delete_rb_node fuel (Some a) s = Ok tt s' /\
    tree_ok s' t' (fl ++ [y]) /\ rb t' /\
    ranges t' = ranges_l k ++ ranges l ++ ranges r ++ ranges_r k /\
    y ∈ addrs (T c l a v o r).
Proof.
  intros (tt0 & _ & HZ)%tree_ok_Zt Hrb Hfuel.
  assert (Zt (free_frame tt0 fl) fl tt0 s k (T c l a v o r))
    as HZ' by (revert HZ; by apply Zt_plug_eq).
  destruct (del_at_rb _ _ _ _ _ _ _ Hrb) as (t' & y & Hdel & Hrb').
  assert (exists s', delete_rb_node fuel (Some a) s = Ok tt s' /\
            tree_ok s' t' (fl ++ [y])) as (s' & Hrun & Hok).
  { apply (holds_elim' _ (fun s' => tree_ok s' _ _)).
    eapply delete_rb_node_spec; [exact HZ'|exact Hdel|done|].
    intros s' HZ1. split; [done|]. by apply Zt_tree_ok in HZ1 as [? _]. }
  exists s', t', y. split_and!; try done.
  - by eapply del_at_ranges.
  - (* the cell given back is one of the subtree: the node or its successor *)
    assert (forall kk sc sl sa sv so sr tx,
              del_one kk (T sc sl sa sv so sr) = Some (tx, y) ->
              y = sa) as Hone.
    { intros kk sc sl sa sv so sr tx. unfold del_one.
      destruct kk; [done|].
      destruct sl, sr; try done; repeat case_match; try done;
        by intros [= _ <-]. }
    revert Hdel.
    destruct l as [|lc ll la lv lo lr].
    + destruct r as [|rc rl ra rv ro rr].
      * cbn [del_at]. destruct k as [|f0 k0].
        { intros [= _ <-]. cbn. set_solver. }
        intros Hd. apply Hone in Hd as ->. cbn. set_solver.
      * cbn [del_at].
        pose proof (plug_descend_l (T rc rl ra rv ro rr) []) as Hp.
        destruct (descend_l (T rc rl ra rv ro rr) []) as [ks foc].
        cbn [fst snd plug] in Hp. destruct foc as [|sc sl sa sv so sr]; [done|].
        intros Hd. apply Hone in Hd as ->.
        assert (sa ∈ addrs (plug (T sc sl sa sv so sr) ks)) as Hsa.
        { rewrite addrs_plug. cbn. set_solver. }
        rewrite Hp in Hsa. cbn [addrs]. set_solver.
    + cbn [del_at].
      pose proof (plug_descend_r (T lc ll la lv lo lr) []) as Hp.
      destruct (descend_r (T lc ll la lv lo lr) []) as [ks foc].
      cbn [fst snd plug] in Hp. destruct foc as [|sc sl sa sv so sr]; [done|].
      intros Hd. apply Hone in Hd as ->.
      assert (sa ∈ addrs (plug (T sc sl sa sv so sr) ks)) as Hsa.
      { rewrite addrs_plug. cbn. set_solver. }
      rewrite Hp in Hsa. cbn [addrs]. set_solver.
Qed.


(** ** Walking the tree in order, the nodes kept *)

Lemma Zw_Zt tt0 fl s k t :
  Zw tt0 fl s k t -> Zt (free_frame tt0 fl) fl tt0 s k t.
Proof.
  intros (h & rootp & -> & Hrep & Hnd & Hfree & _).
  exists h, rootp. split_and!; try done. intros. by apply free_frame_stable.
Qed.

Lemma Zt_Zw tt0 fl s t :
  Zt (free_frame tt0 fl) fl tt0 s [] t -> Zw tt0 fl s [] t.
Proof.
  intros (h & rootp & -> & Hrep & Hnd & Hfree & _).
  exists h, rootp. split_and!; try done.
Qed.

Lemma Zw_open tt0 fl s k t :
  Zw tt0 fl s k t ->
  exists h rootp,
    s = mk_state h (Some (set_root rootp tt0)) /\
    rep h (ctx_par k) (root_ptr t) t /\
    rep_ctx h rootp k (root_ptr t) /\
    NoDup (addrs t ++ ctx_addrs k ++ fl) /\
    free_ok h tt0 fl /\
    Forall (fun f => ts_at h (faddr f) = Some (is_FR f)) k.
Proof.
  intros (h & rootp & -> & Hrep & Hnd & Hfree & Hts).
  apply rep_plug in Hrep as [Ht Hk]. apply NoDup_plug in Hnd.
  exists h, rootp. done.
Qed.

Lemma Zw_close tt0 fl h tt k t :
  tt = set_root (root tt) tt0 ->
  rep h (ctx_par k) (root_ptr t) t ->
  rep_ctx h (root tt) k (root_ptr t) ->
  NoDup (addrs t ++ ctx_addrs k ++ fl) ->
  free_ok h tt0 fl ->
  Forall (fun f => ts_at h (faddr f) = Some (is_FR f)) k ->
  Zw tt0 fl (mk_state h (Some tt)) k t.
Proof.
  intros Htt Ht Hk Hnd Hfree Hts. exists h, (root tt).
  split; [by rewrite <- Htt|].
  split; [by apply rep_plug|]. split; [by apply NoDup_plug|]. done.
Qed.

Lemma Zw_wr_ts tt0 fl s k c l a v o r b Q :
  Zw tt0 fl s k (T c l a v o r) ->
  (forall s',
     Zw tt0 fl s' k (T c l a v o r) -> ts_at (heap s') a = Some b -> Q tt s') ->
  holds (wr (Some a) (set_traversal_state b) s) Q.
Proof.
  intros (h & rootp & -> & Ht & Hk & Hnd & Hfree & Hts)%Zw_open HQ.
  apply rep_T in Ht as (_ & ts & Hn & Hl & Hr).
  eapply holds_eq; [by apply run_wr|].
  cbn [root_ptr addrs] in *. sep_norm.
  apply HQ; [apply Zw_close|].
  - reflexivity.
  - apply rep_T. split; [done|]. eexists.
    rewrite lookup_insert_eq. split; [reflexivity|]. split; by apply rep_frame.
  - by apply rep_ctx_frame.
  - cbn [addrs]. sep_solve.
  - by apply free_ok_frame.
  - rewrite Forall_forall in Hts |- *. intros f Hf. unfold ts_at.
    rewrite lookup_insert_ne; [by apply Hts|].
    intros Heq. assert (a ∈ ctx_addrs k); [|done].
    rewrite Heq. apply faddr_ctx_addrs. by apply list_elem_of_fmap_2.
  - unfold ts_at. cbn. by rewrite lookup_insert_eq.
Qed.

Lemma Zw_push_left tt0 fl s k c lc ll b lv lo lr a v o r :
  Zw tt0 fl s k (T c (T lc ll b lv lo lr) a v o r) ->
  ts_at (heap s) a = Some false ->
  Zw tt0 fl s (FL c a v o r :: k) (T lc ll b lv lo lr).
Proof.
  intros (h & rootp & -> & Hrep & Hnd & Hfree & Hts) Ha.
  exists h, rootp. split_and!; try done. by constructor.
Qed.

Lemma Zw_push_right tt0 fl s k c l a v o rc rl b rv ro rr :
  Zw tt0 fl s k (T c l a v o (T rc rl b rv ro rr)) ->
  ts_at (heap s) a = Some true ->
  Zw tt0 fl s (FR c l a v o :: k) (T rc rl b rv ro rr).
Proof.
  intros (h & rootp & -> & Hrep & Hnd & Hfree & Hts) Ha.
  exists h, rootp. split_and!; try done. by constructor.
Qed.

Lemma Zw_pop tt0 fl s f k t :
  Zw tt0 fl s (f :: k) t ->
  Zw tt0 fl s k (fill f t) /\ ts_at (heap s) (faddr f) = Some (is_FR f).
Proof.
  intros (h & rootp & -> & Hrep & Hnd & Hfree & Hts).
  apply Forall_cons in Hts as [Hf Hts]. split; [|done].
  exists h, rootp. done.
Qed.

Lemma Zw_rd_ts tt0 fl s k c l a v o r b :
  Zw tt0 fl s k (T c l a v o r) -> ts_at (heap s) a = Some b ->
  rd (Some a) traversal_state s = Ok b s.
Proof.
  intros (h & rootp & -> & _) Ha. unfold ts_at in Ha. cbn in Ha.
  destruct (h !! a) as [n|] eqn:Hn; [|done]. cbn in Ha. injection Ha as <-.
  by apply run_rd.
Qed.

Lemma Zw_rd_parent tt0 fl s k c l a v o r :
  Zw tt0 fl s k (T c l a v o r) -> rd (Some a) parent s = Ok (ctx_par k) s.
Proof.
  intros (h & rootp & -> & Ht & _)%Zw_open.
  apply rep_T in Ht as (_ & ts & Hn & _). by rewrite (run_rd _ _ _ _ _ Hn).
Qed.

(** The descent to the leftmost node of the subtree in focus. *)
Lemma walk_down_spec tt0 fl Q : forall l c a v o r k s fuel,
  Zw tt0 fl s k (T c l a v o r) -> ts_at (heap s) a = Some false ->
  (height (T c l a v o r) <= fuel)%nat ->
  (forall s' c' a' v' o' r',
     (descend_l (T c l a v o r) k).2 = T c' E a' v' o' r' ->
     Zw tt0 fl s' (descend_l (T c l a v o r) k).1 (T c' E a' v' o' r') ->
     ts_at (heap s') a' = Some false ->
     Q (Some a') s') ->
  holds (next_down_loop fuel (Some a) s) Q.
Proof.
  induction l as [|lc ll IHl b lv lo lr _]; intros c a v o r k s fuel HZ Ha Hfuel HQ.
  - destruct fuel as [|fuel]; [cbn in Hfuel; lia|]. cbn [next_down_loop].
    apply holds_bind.
    rewrite (Z_has_left_child _ _ _ _ _ _ _ _ _ _ _ (Zw_Zt _ _ _ _ _ HZ)).
    cbn. eapply HQ; [reflexivity|exact HZ|exact Ha].
  - destruct fuel as [|fuel]; [cbn in Hfuel; lia|]. cbn [next_down_loop].
    apply holds_bind.
    rewrite (Z_has_left_child _ _ _ _ _ _ _ _ _ _ _ (Zw_Zt _ _ _ _ _ HZ)).
    cbn [holds root_ptr]. rewrite bool_decide_eq_true_2 by done.
    apply holds_bind.
    eapply Z_rd; [exact (Zw_Zt _ _ _ _ _ HZ)|]. intros ts. cbn [left root_ptr].
    apply holds_bind.
    eapply Zw_wr_ts; [by apply Zw_push_left|].
    intros s1 HZ1 Hb.
    eapply IHl; [exact HZ1|exact Hb|cbn [height] in *; lia|].
    intros s' c' a' v' o' r' Hd HZ2 Ha'. eapply HQ; [exact Hd|exact HZ2|exact Ha'].
Qed.

(** The way up from a visited node. *)
Lemma walk_up_spec tt0 fl s : forall k c l a v o r fuel,
  Zw tt0 fl s k (T c l a v o r) -> ts_at (heap s) a = Some true ->
  (length k + 2 <= fuel)%nat ->
  next_up_loop fuel (Some a) s = Ok (up_ptr k) s.
Proof.
  induction k as [|f k IH]; intros c l a v o r fuel HZ Ha Hfuel.
  - destruct fuel as [|[|fuel]]; [cbn in Hfuel; lia..|].
    cbn [next_up_loop]. unfold andM.
    eapply run_bind.
    { eapply run_bind; [apply run_ret|]. rewrite bool_decide_eq_true_2 by done.
      eapply Zw_rd_ts; eauto. }
    cbv iota. eapply run_bind; [eapply Zw_rd_parent; eauto|]. cbn [ctx_par].
    eapply run_bind.
    { eapply run_bind; [apply run_ret|]. rewrite bool_decide_eq_false_2 by auto.
      apply run_ret. }
    reflexivity.
  - destruct fuel as [|fuel]; [cbn in Hfuel; lia|].
    cbn [next_up_loop]. unfold andM.
    eapply run_bind.
    { eapply run_bind; [apply run_ret|]. rewrite bool_decide_eq_true_2 by done.
      eapply Zw_rd_ts; eauto. }
    cbv iota. eapply run_bind; [eapply Zw_rd_parent; eauto|].
    destruct (Zw_pop _ _ _ _ _ _ HZ) as [HZ' Hf].
    destruct f as [fc fa fv fo fr|fc fl' fa fv fo]; cbn [ctx_par faddr fill is_FR up_ptr] in *.
    + destruct fuel as [|fuel]; [cbn in Hfuel; lia|].
      cbn [next_up_loop]. unfold andM.
      eapply run_bind.
      { eapply run_bind; [apply run_ret|]. rewrite bool_decide_eq_true_2 by done.
        eapply Zw_rd_ts; eauto. }
      reflexivity.
    + eapply IH; [exact HZ'|exact Hf|cbn [length] in Hfuel; lia].
Qed.

Lemma Zw_walk_up tt0 fl s : forall k t,
  Zw tt0 fl s k t ->
  match walk_up k t with
  | Some (k', t') =>
      Zw tt0 fl s k' t' /\ up_ptr k = root_ptr t' /\ plug t' k' = plug t k /\
      exists c l a v o r,
        t' = T c l a v o r /\
        ranges_r k = mk_range v o :: ranges r ++ ranges_r k'
  | None => Zw tt0 fl s [] (plug t k) /\ up_ptr k = None /\ ranges_r k = []
  end.
Proof.
  induction k as [|f k IH]; intros t HZ.
  - cbn. split; [done|]. split; [done|]. apply ranges_r_nil.
  - destruct (Zw_pop _ _ _ _ _ _ HZ) as [HZ' _].
    destruct f as [fc fa fv fo fr|fc fl' fa fv fo]; cbn [walk_up up_ptr fill] in *.
    + split; [done|]. split; [done|]. split; [done|].
      exists fc, t, fa, fv, fo, fr. split; [done|]. apply ranges_r_FL.
    + specialize (IH _ HZ'). rewrite ranges_r_FR. exact IH.
Qed.

Lemma walk_first_spec tt0 fl s t fuel p Q :
  Zw tt0 fl s [] t -> (height t <= fuel)%nat ->
  match t with
  | E => Q (RB_FAIL_NULL_TREE, None) s
  | T _ _ _ _ _ _ =>
      forall s' c' a' v' o' r',
        (descend_l t []).2 = T c' E a' v' o' r' ->
        Zw tt0 fl s' (descend_l t []).1 (T c' E a' v' o' r') ->
        Q (RB_SUCCESS, Some a') s'
  end ->
  holds (rb_tree_get_first_rb_node fuel p s) Q.
Proof.
  intros HZ Hfuel HQ.
  pose proof (Z_root _ _ _ _ _ _ (Zw_Zt _ _ _ _ _ HZ)) as Hroot.
  cbn [plug] in Hroot.
  unfold rb_tree_get_first_rb_node.
  apply holds_bind. eapply holds_eq.
  { destruct HZ as (h & rp & -> & _). apply run_null. }
  cbv iota. apply holds_bind. eapply holds_eq; [exact Hroot|].
  destruct t as [|c l a v o r].
  - cbn. exact HQ.
  - cbn [root_ptr]. rewrite bool_decide_eq_false_2 by done.
    apply holds_bind. eapply Zw_wr_ts; [exact HZ|]. intros s1 HZ1 Ha.
    apply holds_bind. rewrite first_loop_eq.
    eapply walk_down_spec; [exact HZ1|exact Ha|done|].
    intros s' c' a' v' o' r' Hd HZ2 _. cbn [holds ret]. eapply HQ; eauto.
Qed.

(** One step of the iterator that does not pop. *)
Lemma next_keep_spec tt0 fl s k c l a v o r fuel reb Q :
  Zw tt0 fl s k (T c l a v o r) ->
  (length k + height r + 2 <= fuel)%nat ->
  match r with
  | T _ _ _ _ _ _ =>
      forall s' c' a' v' o' r',
        (descend_l r (FR c l a v o :: k)).2 = T c' E a' v' o' r' ->
        Zw tt0 fl s' (descend_l r (FR c l a v o :: k)).1 (T c' E a' v' o' r') ->
        Q (RB_SUCCESS, Some a', Some (mk_range v o)) s'
  | E =>
      forall s',
        Zw tt0 fl s' k (T c l a v o E) ->
        Q (RB_SUCCESS, up_ptr k, Some (mk_range v o)) s'
  end ->
  holds (rb_tree_get_next_rb_node fuel (Some a) true false reb s) Q.
Proof.
  intros HZ Hfuel HQ.
  pose proof (Zw_Zt _ _ _ _ _ HZ) as HZt.
  unfold rb_tree_get_next_rb_node.
  rewrite bool_decide_eq_false_2 by done. cbn [negb andb].
  apply holds_bind. eapply Z_rd; [exact HZt|]. intros ts. cbn [range value].
  apply holds_bind. eapply Z_rd; [exact HZt|]. intros ts'. cbn [range offset].
  apply holds_bind.
  rewrite (Z_has_right_child _ _ _ _ _ _ _ _ _ _ _ HZt). cbn [holds].
  destruct r as [|rc rl b rv ro rr]; cbn [root_ptr]; decide_bool.
  - apply holds_bind. apply holds_bind.
    eapply Zw_wr_ts; [exact HZ|]. intros s1 HZ1 Ha.
    rewrite (walk_up_spec _ _ _ _ _ _ _ _ _ _ _ HZ1 Ha) by (cbn in Hfuel; lia).
    cbn [holds]. unfold when. apply holds_bind. apply holds_ret.
    apply holds_ret. by apply HQ.
  - apply holds_bind. apply holds_bind.
    eapply Zw_wr_ts; [exact HZ|]. intros s1 HZ1 Ha.
    apply holds_bind.
    eapply Z_rd; [exact (Zw_Zt _ _ _ _ _ HZ1)|]. intros ts1. cbn [right root_ptr].
    apply holds_bind.
    eapply Zw_wr_ts; [by apply Zw_push_right|]. intros s2 HZ2 Hb.
    eapply walk_down_spec; [exact HZ2|exact Hb|lia|].
    intros s3 c' a' v' o' r' Hd HZ3 _. cbn [holds].
    unfold when. apply holds_bind. apply holds_ret. apply holds_ret.
    eapply HQ; eauto.
Qed.

(** The rest of the walk from the node in focus. *)
Lemma walk_loop tt0 fl fuel reb t0 : forall m n k c l a v o r s,
  Zw tt0 fl s k (T c l a v o r) -> plug (T c l a v o r) k = t0 ->
  (length (ranges r ++ ranges_r k) <= m)%nat -> (S m < n)%nat ->
  (height t0 + 2 <= fuel)%nat ->
  holds (drain_loop fuel n (Some a) false reb s)
    (fun out s' =>
       out = mk_range v o :: ranges r ++ ranges_r k /\ Zw tt0 fl s' [] t0).
Proof.
  induction m as [|m IH]; intros n k c l a v o r s HZ Ht0 Hm Hn Hfuel.
  - (* the last node *)
    destruct r as [|rc rl b rv ro rr];
      [|cbn in Hm; rewrite !length_app in Hm; cbn in Hm; lia].
    cbn [ranges app] in *. destruct (ranges_r k) eqn:Hrk; [|cbn in Hm; lia].
    destruct n as [|[|n]]; [lia..|]. cbn [drain_loop].
    rewrite bool_decide_eq_false_2 by done.
    pose proof (height_plug k (T c l a v o E)) as Hh. rewrite Ht0 in Hh.
    apply holds_bind.
    eapply next_keep_spec; [exact HZ|cbn [height] in *; lia|].
    intros s1 HZ1. cbn [holds]. rewrite bool_decide_eq_true_2 by done.
    pose proof (Zw_walk_up _ _ _ _ _ HZ1) as Hup.
    destruct (walk_up k (T c l a v o E)) as [[k' t']|].
    { destruct Hup as (_ & _ & _ & c' & l' & a' & v' & o' & r' & _ & Hr).
      rewrite Hrk in Hr. done. }
    destruct Hup as (HZ2 & -> & _). rewrite Ht0 in HZ2.
    apply holds_bind. cbn. done.
  - destruct n as [|n]; [lia|]. cbn [drain_loop].
    rewrite bool_decide_eq_false_2 by done.
    pose proof (height_plug k (T c l a v o r)) as Hh. rewrite Ht0 in Hh.
    cbn [height] in Hh.
    apply holds_bind.
    eapply next_keep_spec; [exact HZ|lia|].
    destruct r as [|rc rl b rv ro rr].
    + intros s1 HZ1. cbn [holds]. rewrite bool_decide_eq_true_2 by done.
      pose proof (Zw_walk_up _ _ _ _ _ HZ1) as Hup.
      destruct (walk_up k (T c l a v o E)) as [[k' t']|].
      * destruct Hup as (HZ2 & -> & Hpl & c' & l' & a' & v' & o' & r' & -> & Hr).
        cbn [root_ptr]. cbn [ranges app] in Hm |- *. rewrite Hr in Hm |- *.
        cbn [length] in Hm. apply holds_bind.
        eapply holds_mono.
        { eapply (IH n); [exact HZ2|by rewrite Hpl|lia|lia|done]. }
        cbn beta. intros out s2 (-> & HZ3). cbn. done.
      * destruct Hup as (HZ2 & -> & Hr). rewrite Ht0 in HZ2.
        cbn [ranges app]. rewrite Hr.
        destruct n as [|n]; [lia|]. apply holds_bind. cbn. done.
    + intros s1 c' a' v' o' r' Hd HZ1. cbn [holds].
      rewrite bool_decide_eq_true_2 by done.
      set (rt := T rc rl b rv ro rr) in *.
      pose proof (plug_descend_l rt (FR c l a v o :: k)) as Hpl.
      rewrite Hd in Hpl. cbn [plug fill] in Hpl. rewrite Ht0 in Hpl.
      assert (mk_range v' o' :: ranges r'
                ++ ranges_r (descend_l rt (FR c l a v o :: k)).1
              = ranges rt ++ ranges_r k) as Hrg.
      { rewrite (descend_l_app rt (FR c l a v o :: k)) in Hd |- *.
        cbn [fst snd] in Hd |- *.
        destruct (descend_l rt []) as [ks foc] eqn:Hd0. cbn [fst snd] in *.
        subst foc.
        destruct (ranges_descend_l _ _ _ _ _ _ _ _ Hd0) as (_ & _ & ->).
        rewrite ranges_r_app, ranges_r_FR. cbn. by rewrite <- !app_assoc. }
      rewrite <- Hrg in Hm |- *. cbn [length] in Hm.
      apply holds_bind.
      eapply holds_mono.
      { eapply (IH n); [exact HZ1|exact Hpl|lia|lia|done]. }
      cbn beta. intros out s2 (-> & HZ3). cbn. done.
Qed.

Lemma Zw_tree_ok tt0 fl s t :
  Zw tt0 fl s [] t ->
  tree_ok s t fl /\ exists rootp, tree s = Some (set_root rootp tt0).
Proof. intros HZ. exact (Zt_tree_ok _ _ _ _ (Zw_Zt _ _ _ _ _ HZ)). Qed.

(** A whole walk that keeps the nodes: the ranges come in order, and the
    tree and the free list are as before. *)
Lemma walk_all_step fuel reb s t fl :
  tree_ok s t fl -> (length (ranges t) + 1 < fuel)%nat ->
  exists s',
    drain fuel false reb s = Ok (ranges t) s' /\
    tree_ok s' t fl /\
    forall tt0, tree s = Some tt0 ->
      exists rootp, tree s' = Some (set_root rootp tt0).
Proof.
  intros Hok Hlen.
  pose proof (height_le_length t) as Hfuel.
  destruct (tree_ok_Zt _ _ _ Hok) as (tt0 & Htree & HZ%Zt_Zw).
  apply (holds_elim' _ (fun s' => tree_ok s' t fl /\
           forall tt1, tree s = Some tt1 ->
             exists rootp, tree s' = Some (set_root rootp tt1))).
  assert (forall s', Zw tt0 fl s' [] t ->
            tree_ok s' t fl /\
            forall tt1, tree s = Some tt1 ->
              exists rootp, tree s' = Some (set_root rootp tt1)) as Hend.
  { intros s' HZ'. destruct (Zw_tree_ok _ _ _ _ HZ') as [? [rp Hrp]].
    split; [done|]. intros tt1 Htt1. rewrite Htree in Htt1.
    injection Htt1 as <-. by exists rp. }
  unfold drain. apply holds_bind.
  eapply walk_first_spec; [exact HZ|lia|].
  destruct t as [|c0 l0 a0 v0 o0 r0].
  - cbn [snd]. destruct fuel as [|fuel]; [lia|]. cbn.
    split; [done|]. by apply Hend.
  - set (t := T c0 l0 a0 v0 o0 r0) in *.
    intros s1 c' a' v' o' r' Hd HZ1. cbn [snd].
    pose proof (plug_descend_l t []) as Hpl. rewrite Hd in Hpl. cbn [plug] in Hpl.
    destruct (descend_l t []) as [ks foc] eqn:Hd0. cbn [fst snd] in *. subst foc.
    destruct (ranges_descend_l _ _ _ _ _ _ _ _ Hd0) as (_ & _ & Hrg).
    eapply holds_mono.
    { eapply (walk_loop _ _ _ _ t (length (ranges r' ++ ranges_r ks)) fuel);
        [exact HZ1|exact Hpl|lia| |lia].
      rewrite Hrg in Hlen. cbn [length] in Hlen. lia. }
    cbn beta. intros out s2 (-> & HZ2). split; [by rewrite Hrg|].
    by apply Hend.
Qed.

Lemma walk_all_inv fuel reb s t fl :
  tree_inv s t fl -> (length (ranges t) + 1 < fuel)%nat ->
  exists s',
    drain fuel false reb s = Ok (ranges t) s' /\ tree_inv s' t fl.
Proof.
  intros (Hok & Hrb & Hbst & tt & Htree & Hnb & Hsz & Hmx) Hfuel.
  destruct (walk_all_step fuel reb s t fl Hok Hfuel) as (s' & Hrun & Hok' & Htr).
  destruct (Htr _ Htree) as [rp Hrp].
  exists s'. split; [done|]. split; [done|]. split; [done|]. split; [done|].
  exists (set_root rp tt). by destruct tt.
Qed.


(** ** The example states *)

Lemma split_example_inv :
  tree_inv split_example split_example_tree [2%nat; 3%nat].
Proof.
  split; [exact split_example_ok|]. split; [|split].
  - split; [reflexivity|]. exists 1%nat. cbn. auto.
  - cbn. unfold UINT32_MAX. lia.
  - eexists. split; [reflexivity|]. cbn. done.
Qed.

Lemma full_example_reached :
  (rb_tree_create (Some 0%nat) 2 ;; inserts 8 [5; 9]) fresh
  = Ok [RB_SUCCESS; RB_SUCCESS] full_example.
Proof. vm_compute. reflexivity. Qed.

Lemma full_example_ok : tree_ok full_example full_example_tree [].
Proof.
  eexists. split; [reflexivity|]. cbn [heap root]. split; [|split].
  - cbn. repeat first [ done | split | (eexists; split; [reflexivity|cbn]) ].
  - apply (bool_decide_unpack _). by vm_compute.
  - unfold free_ok. split; [|split].
    + cbn. done.
    + reflexivity.
    + constructor.
Qed.

Lemma full_example_inv : tree_inv full_example full_example_tree [].
Proof.
  split; [exact full_example_ok|]. split; [|split].
  - split; [reflexivity|]. exists 1%nat. cbn. auto.
  - cbn. unfold UINT32_MAX. lia.
  - eexists. split; [reflexivity|]. cbn. done.
Qed.

Lemma red_red_example_ok : tree_ok red_red_example red_red_example_tree [].
Proof.
  eexists. split; [reflexivity|]. cbn [heap root]. split; [|split].
  - cbn. repeat first [ done | split | (eexists; split; [reflexivity|cbn]) ].
  - apply (bool_decide_unpack _). by vm_compute.
  - unfold free_ok. split; [|split].
    + cbn. done.
    + reflexivity.
    + constructor.
Qed.

(** ** Emptiness and fullness *)

Lemma is_empty_spec s t fl :
  tree_inv s t fl ->
  rb_tree_is_empty s = Ok (bool_decide (ranges t = [])) s.
Proof.
  intros (_ & _ & _ & tt & Htree & _ & Hsz & _).
  destruct s as [h tr0]. cbn in Htree. subst tr0.
  unfold rb_tree_is_empty. mrun. cbn [size]. rewrite Hsz.
  destruct (ranges t); cbn; done.
Qed.



(** ** The checks of the unit tests *)

Lemma rep_child_ptr h par p t : rep h par p t -> p = root_ptr t.
Proof. destruct t; cbn; [done|]. by intros (-> & _). Qed.

Lemma bd_height t n : bd t = Some n -> (n <= height t)%nat.
Proof.
  revert n. induction t as [|c l IHl a v o r IHr]; intros n; cbn.
  - intros [= <-]. lia.
  - destruct (bd l) as [nl|]; [|done]. destruct (bd r) as [nr|]; [|done].
    specialize (IHl _ eq_refl). specialize (IHr _ eq_refl).
    destruct (Nat.eqb_spec nl nr); [|done]. intros [= <-].
    destruct c; lia.
Qed.

Lemma bd_bdn t n : bd t = Some n <-> bdn t n.
Proof.
  revert n. induction t as [|c l IHl a v o r IHr]; intros n; cbn.
  - split; [by intros [= <-]|by intros ->].
  - destruct (bd l) as [nl|] eqn:El, (bd r) as [nr|] eqn:Er.
    + destruct (Nat.eqb_spec nl nr) as [->|Hne].
      * destruct c.
        -- split.
           ++ intros [= <-]. split; [by apply IHl|by apply IHr].
           ++ intros [H1%IHl H2%IHr]. congruence.
        -- split.
           ++ intros [= <-]. split; [by apply IHl|by apply IHr].
           ++ destruct n as [|m]; [done|].
              intros [H1%IHl H2%IHr]. congruence.
      * split; [done|]. destruct c.
        -- intros [H1%IHl H2%IHr]. congruence.
        -- destruct n as [|m]; [done|]. intros [H1%IHl H2%IHr]. congruence.
    + split; [done|]. destruct c.
      * intros [H1%IHl H2%IHr]. congruence.
      * destruct n as [|m]; [done|]. intros [H1%IHl H2%IHr]. congruence.
    + split; [done|]. destruct c.
      * intros [H1%IHl H2%IHr]. congruence.
      * destruct n as [|m]; [done|]. intros [H1%IHl H2%IHr]. congruence.
    + split; [done|]. destruct c.
      * intros [H1%IHl H2%IHr]. congruence.
      * destruct n as [|m]; [done|]. intros [H1%IHl H2%IHr]. congruence.
Qed.

Lemma child_order_b_spec t : child_order_b t = true <-> child_order t.
Proof.
  induction t as [|c l IHl a v o r IHr]; cbn; [done|].
  rewrite !andb_true_iff, IHl, IHr.
  assert ((if l is E then true else last_of l <? v) = true
          <-> (l <> E -> last_of l < v)) as ->.
  { destruct l; [by split|]. rewrite Z.ltb_lt. split; [auto|]. intros H.
    by apply H. }
  assert ((if r is E then true else v + o <? first_of r) = true
          <-> (r <> E -> v + o < first_of r)) as ->.
  { destruct r; [by split|]. rewrite Z.ltb_lt. split; [auto|]. intros H.
    by apply H. }
  tauto.
Qed.

Lemma run_bind_fault {A B} (m : M A) (k : A -> M B) s f :
  m s = Fault f -> bind m k s = Fault f.
Proof. unfold bind. by intros ->. Qed.

(** The count of black nodes as the check returns it: that of a leaf is 1. *)
Lemma black_depths_run t : forall h tt par p fuel,
  rep h par p t -> t <> E -> (height t < fuel)%nat ->
  Z.of_nat (height t) < UINT32_MAX ->
  assert_tree_pathes_have_equal_black_depths fuel p (mk_state h (Some tt))
  = match bd t with
    | Some n => Ok (Z.of_nat n + 1) (mk_state h (Some tt))
    | None => Fault AssertFail
    end.
Proof.
  assert (UINT32_MAX = 4294967295) as HU by reflexivity.
  induction t as [|c l IHl a v o r IHr]; intros h tt par p fuel Hrep Hne Hfuel Hh;
    [done|].
  cbn in Hrep. destruct Hrep as (-> & n & Hn & Hc & Hrg & Hp & Hl & Hr).
  destruct fuel as [|fuel]; [cbn in Hfuel; lia|]. cbn [height] in Hfuel, Hh.
  cbn [assert_tree_pathes_have_equal_black_depths]. decide_bool.
  pose proof (rep_child_ptr _ _ _ _ Hl) as Hlp.
  pose proof (rep_child_ptr _ _ _ _ Hr) as Hrp.
  set (s := mk_state h (Some tt)).
  assert ((if bool_decide (left n <> None)
           then l0 <- rd (Some a) left ;;
                assert_tree_pathes_have_equal_black_depths fuel l0
           else ret (u32 (0 + 1))) s
          = match bd l with
            | Some n => Ok (Z.of_nat n + 1) s
            | None => Fault AssertFail
            end) as HL.
  { destruct l as [|cc cl ca cv co cr]; cbn [root_ptr] in Hlp.
    - rewrite bool_decide_eq_false_2 by (intros H; by apply H). reflexivity.
    - rewrite bool_decide_eq_true_2 by (rewrite Hlp; done).
      eapply run_bind; [subst s; mrun|].
      eapply IHl; [exact Hl|done|lia|lia]. }
  assert ((if bool_decide (right n <> None)
           then r0 <- rd (Some a) right ;;
                assert_tree_pathes_have_equal_black_depths fuel r0
           else ret (u32 (0 + 1))) s
          = match bd r with
            | Some n => Ok (Z.of_nat n + 1) s
            | None => Fault AssertFail
            end) as HR.
  { destruct r as [|cc cl ca cv co cr]; cbn [root_ptr] in Hrp.
    - rewrite bool_decide_eq_false_2 by (intros H; by apply H). reflexivity.
    - rewrite bool_decide_eq_true_2 by (rewrite Hrp; done).
      eapply run_bind; [subst s; mrun|].
      eapply IHr; [exact Hr|done|lia|lia]. }
  clear IHl IHr.
  eapply run_bind; [unfold has_left_child; subst s; mrun|]. fold s.
  cbn [bd].
  destruct (bd l) as [nl|] eqn:El; [|by apply run_bind_fault].
  eapply run_bind; [exact HL|].
  eapply run_bind; [unfold has_right_child; subst s; mrun|]. fold s.
  destruct (bd r) as [nr|] eqn:Er; [|by apply run_bind_fault].
  eapply run_bind; [exact HR|].
  pose proof (bd_height _ _ El). pose proof (bd_height _ _ Er).
  destruct (Nat.eqb_spec nl nr) as [->|Hne'].
  - rewrite Z.eqb_refl.
    eapply run_bind; [reflexivity|].
    eapply run_bind; [unfold count_is_black, is_black, orM; subst s; mrun|].
    rewrite Hc. unfold ret. subst s. f_equal.
    destruct c; cbn [negb]; rewrite u32_small by lia; lia.
  - rewrite (proj2 (Z.eqb_neq _ _)) by lia. by apply run_bind_fault.
Qed.

Lemma in_u32_small rg : in_u32 rg -> u32 (value rg + offset rg) = value rg + offset rg.
Proof.
  assert (UINT32_MAX = 4294967295) as HU by reflexivity.
  intros (? & ? & ?). apply u32_small. lia.
Qed.

Lemma between_children_run t : forall h tr0 par p fuel,
  rep h par p t -> Forall in_u32 (ranges t) -> (height t < fuel)%nat ->
  assert_node_value_in_between_children fuel p (mk_state h (Some tr0))
  = if child_order_b t then Ok tt (mk_state h (Some tr0)) else Fault AssertFail.
Proof.
  induction t as [|c l IHl a v o r IHr]; intros h tr0 par p fuel Hrep H32 Hfuel.
  { cbn in Hrep. subst p. destruct fuel; [cbn in Hfuel; lia|]. reflexivity. }
  cbn in Hrep. destruct Hrep as (-> & n & Hn & Hc & Hrg & Hp & Hl & Hr).
  destruct fuel as [|fuel]; [cbn in Hfuel; lia|]. cbn [height] in Hfuel.
  cbn [ranges] in H32. apply Forall_app in H32 as [H32l H32].
  apply Forall_cons in H32 as [H32n H32r].
  cbn [assert_node_value_in_between_children]. decide_bool.
  pose proof (rep_child_ptr _ _ _ _ Hl) as Hlp.
  pose proof (rep_child_ptr _ _ _ _ Hr) as Hrp.
  destruct n as [[nv no] nc nts np nl nr]. cbn in Hc, Hrg, Hp, Hl, Hr, Hlp, Hrp.
  injection Hrg as -> ->.
  set (s := mk_state h (Some tr0)).
  assert (when (bool_decide (nl <> None))
            (nv <- rd (Some a) (fun n => value (range n)) ;;
             l0 <- rd (Some a) left ;;
             lv <- rd l0 (fun n => value (range n)) ;;
             lo <- rd l0 (fun n => offset (range n)) ;;
             assert (u32 (lv + lo) <? nv) ;;
             l1 <- rd (Some a) left ;;
             assert_node_value_in_between_children fuel l1) s
          = if (if l is E then true else last_of l <? v) && child_order_b l
            then Ok tt s else Fault AssertFail) as HL.
  { destruct l as [|cc cl ca cv co cr]; cbn [root_ptr] in Hlp; subst nl.
    - rewrite bool_decide_eq_false_2 by (intros H; by apply H). reflexivity.
    - rewrite bool_decide_eq_true_2 by done. unfold when.
      pose proof Hl as Hl'. cbn in Hl'.
      destruct Hl' as (_ & m & Hm & _ & Hmr & _).
      destruct m as [[mv mo] mc mts mp ml mr]. cbn in Hmr. injection Hmr as -> ->.
      eapply run_bind; [subst s; mrun|].
      eapply run_bind; [subst s; mrun|].
      eapply run_bind; [subst s; mrun|].
      eapply run_bind; [subst s; mrun|].
      nsimpl. cbn [last_of].
      assert (in_u32 (mk_range cv co)) as Hin.
      { cbn [ranges] in H32l. apply Forall_app in H32l as [_ H].
        by apply Forall_cons in H as [H _]. }
      pose proof (in_u32_small _ Hin) as Hsm. cbn [value offset] in Hsm.
      rewrite Hsm.
      destruct (cv + co <? v); cbn [andb]; [|by apply run_bind_fault].
      eapply run_bind; [reflexivity|].
      eapply run_bind; [subst s; mrun|].
      eapply IHl; [exact Hl|done|lia]. }
  assert (when (bool_decide (nr <> None))
            (nv <- rd (Some a) (fun n => value (range n)) ;;
             no <- rd (Some a) (fun n => offset (range n)) ;;
             r0 <- rd (Some a) right ;;
             rv <- rd r0 (fun n => value (range n)) ;;
             assert (u32 (nv + no) <? rv) ;;
             r1 <- rd (Some a) right ;;
             assert_node_value_in_between_children fuel r1) s
          = if (if r is E then true else v + o <? first_of r) && child_order_b r
            then Ok tt s else Fault AssertFail) as HR.
  { destruct r as [|cc cl ca cv co cr]; cbn [root_ptr] in Hrp; subst nr.
    - rewrite bool_decide_eq_false_2 by (intros H; by apply H). reflexivity.
    - rewrite bool_decide_eq_true_2 by done. unfold when.
      pose proof Hr as Hr'. cbn in Hr'.
      destruct Hr' as (_ & m & Hm & _ & Hmr & _).
      destruct m as [[mv mo] mc mts mp ml mr]. cbn in Hmr. injection Hmr as -> ->.
      eapply run_bind; [subst s; mrun|].
      eapply run_bind; [subst s; mrun|].
      eapply run_bind; [subst s; mrun|].
      eapply run_bind; [subst s; mrun|].
      nsimpl. cbn [first_of].
      pose proof (in_u32_small _ H32n) as Hsm. cbn [value offset] in Hsm.
      rewrite Hsm.
      destruct (v + o <? cv); cbn [andb]; [|by apply run_bind_fault].
      eapply run_bind; [reflexivity|].
      eapply run_bind; [subst s; mrun|].
      eapply IHr; [exact Hr|done|lia]. }
  clear IHl IHr.
  eapply run_bind; [unfold has_left_child; subst s; mrun|]. fold s. nsimpl.
  cbn [child_order_b]. rewrite <- andb_assoc.
  destruct ((if l is E then true else last_of l <? v) && child_order_b l);
    [|by apply run_bind_fault].
  eapply run_bind; [exact HL|].
  eapply run_bind; [unfold has_right_child; subst s; mrun|]. fold s. nsimpl.
  cbn [andb]. exact HR.
Qed.

Lemma no_adjacent_red_black_run t h tr0 par p fuel :
  rep h par p t -> col t = BLACK ->
  assert_node_has_no_adjacent_red (S fuel) p (mk_state h (Some tr0))
  = Ok tt (mk_state h (Some tr0)).
Proof.
  intros Hrep Hcol. cbn [assert_node_has_no_adjacent_red].
  destruct t as [|c l a v o r].
  - cbn in Hrep. subst p. reflexivity.
  - cbn in Hrep. destruct Hrep as (-> & n & Hn & Hc & _). cbn in Hcol. subst c.
    eapply run_bind; [unfold is_black, orM; mrun|]. rewrite Hcol. reflexivity.
Qed.

(** The verdict of [assert_rb_tree_is_valid], computed on the tree. *)
Lemma rb_tree_is_valid_run fuel s t fl :
  tree_ok s t fl -> Forall in_u32 (ranges t) ->
  Z.of_nat (length (ranges t)) < UINT32_MAX -> (height t < fuel)%nat ->
  assert_rb_tree_is_valid fuel s
  = if negb (col t) && bool_decide (is_Some (bd t)) && child_order_b t
    then Ok tt s else Fault AssertFail.
Proof.
  intros (tr0 & Htree & Hrep & _) H32 Hlen Hfuel.
  destruct s as [h ts]. cbn in Htree, Hrep. subst ts.
  pose proof (height_le_length t) as Hh.
  pose proof (rep_child_ptr _ _ _ _ Hrep) as Hroot.
  unfold assert_rb_tree_is_valid.
  eapply run_bind; [apply run_tget|].
  assert (is_black (root tr0) (mk_state h (Some tr0))
          = Ok (negb (col t)) (mk_state h (Some tr0))) as Hblk.
  { rewrite Hroot. destruct t as [|c l a v o r]; [reflexivity|].
    cbn in Hrep. destruct Hrep as (_ & n & Hn & Hc & _).
    unfold is_black, orM. cbn [root_ptr]. mrun. by rewrite Hc. }
  eapply run_bind; [exact Hblk|].
  destruct (col t) eqn:Hcol; cbn [negb andb]; [by apply run_bind_fault|].
  eapply run_bind; [reflexivity|].
  eapply run_bind; [apply run_tget|].
  destruct fuel as [|fuel]; [lia|].
  eapply run_bind; [by eapply no_adjacent_red_black_run|].
  eapply run_bind; [apply run_tget|].
  destruct t as [|c l a v o r].
  - cbn in Hrep. rewrite Hrep.
    eapply run_bind; [reflexivity|].
    eapply run_bind; [apply run_tget|]. rewrite Hrep.
    rewrite bool_decide_eq_true_2 by (cbn; eauto). reflexivity.
  - pose proof (black_depths_run _ _ tr0 _ _ (S fuel) Hrep ltac:(done) Hfuel
                  ltac:(lia)) as Hbd.
    destruct (bd (T c l a v o r)) as [nb|] eqn:Ebd.
    + eapply run_bind; [exact Hbd|].
      eapply run_bind; [apply run_tget|].
      rewrite bool_decide_eq_true_2 by done. cbn [andb].
      by eapply between_children_run.
    + rewrite bool_decide_eq_false_2 by (by intros [? ?]).
      by apply run_bind_fault.
Qed.

Lemma rbn_bdn t : forall n, rbn t n -> bdn t n.
Proof.
  induction t as [|c l IHl a v o r IHr]; intros n; cbn; [done|].
  destruct c.
  - intros (_ & _ & H1 & H2). auto.
  - destruct n; [done|]. intros [H1 H2]. auto.
Qed.

Lemma bst_child_order t : forall lo hi, bst lo hi t -> child_order t.
Proof.
  induction t as [|c l IHl a v o r IHr]; intros lo hi; cbn; [done|].
  intros (Hv & Ho & Hvo & Hl & Hr). split_and!.
  - destruct l; [done|]. cbn in Hl |- *. lia.
  - destruct r; [done|]. cbn in Hr |- *. lia.
  - by eapply IHl.
  - by eapply IHr.
Qed.

Lemma gapped_in_u32 hi rs : forall lo,
  gapped lo hi rs -> 0 <= lo -> hi <= UINT32_MAX -> Forall in_u32 rs.
Proof.
  induction rs as [|rg rs IH]; intros lo; cbn [gapped]; [constructor|].
  intros (Hv & Ho & Hvo & Hg) Hlo Hhi. constructor.
  - unfold in_u32. lia.
  - eapply IH; [exact Hg|lia|done].
Qed.


(** ** What [rb_tree_clear] does *)

(** [push_free_node] keeps the parent pointer of the cell it takes. *)
Lemma push_free_node_run h t a n fl :
  h !! a = Some n -> a ∉ fl -> free_ok h t fl ->
  exists h' t',
    push_free_node (Some a) (mk_state h (Some t))
    = Ok tt (mk_state h' (Some t')) /\
    free_ok h' t' (fl ++ [a]) /\
    size t' = u32 (size t - 1) /\ max_size t' = max_size t /\
    root t' = root t /\ node_block t' = node_block t /\
    (exists n', h' !! a = Some n' /\ parent n' = parent n) /\
    (forall b, b <> a -> b ∉ fl -> h' !! b = h !! b).
Proof.
  intros Ha Hfl Hfree.
  destruct (push_free_node_spec h t a n fl Ha Hfl Hfree)
    as (h' & Hrun & Hfree' & Hother & _).
  eexists h', _. split; [exact Hrun|]. split; [exact Hfree'|].
  cbn [size max_size root node_block]. split_and!; try done.
  assert (exists hx tx n',
            push_free_node (Some a) (mk_state h (Some t))
            = Ok tt (mk_state hx tx) /\
            hx !! a = Some n' /\ parent n' = parent n)
    as (hx & tx & n' & Hrun' & Hn' & Hp).
  { destruct Hfree as (Hlist & Hhead & Hnd).
    destruct t as [sz mx rt fh ft nb]. cbn in Hhead. subst fh.
    destruct (last fl) as [hd|] eqn:Hlast.
    - assert (hd ∈ fl) as Hhd by (by apply last_Some_elem_of).
      destruct (flist_lookup _ _ _ _ Hlist Hhd) as [nhd Hnhd].
      assert (hd <> a) as Hne by (intros ->; done).
      eexists _, _, _. split; [unfold push_free_node; mrun|].
      split.
      + rewrite lookup_insert_ne by done. rewrite lookup_insert_eq. done.
      + by destruct n.
    - eexists _, _, _. split; [unfold push_free_node; mrun|].
      split; [by rewrite lookup_insert_eq|]. by destruct n. }
  rewrite Hrun in Hrun'. injection Hrun' as <- _. eauto.
Qed.

(** One turn of the loop of [rb_tree_clear] at a node with a child: the
    child is cut off and pushed, and the loop is back at the node. *)
Lemma clear_round_child h t a na b nb fl :
  h !! a = Some na -> h !! b = Some nb -> parent nb = Some a -> a <> b ->
  a ∉ fl -> b ∉ fl -> free_ok h t fl ->
  left na = Some b \/ (left na = None /\ right na = Some b) ->
  exists h' t',
    (forall fuel,
       clear_loop (S fuel) (Some a) (mk_state h (Some t))
       = clear_loop fuel (Some a) (mk_state h' (Some t'))) /\
    h' !! a = Some (if left na is Some _ then set_left None na
                    else set_right None na) /\
    free_ok h' t' (fl ++ [b]) /\
    size t' = u32 (size t - 1) /\ max_size t' = max_size t /\
    root t' = root t /\ node_block t' = node_block t /\
    (forall c, c <> a -> c <> b -> c ∉ fl -> h' !! c = h !! c).
Proof.
  intros Ha Hb Hpar Hab Hafl Hbfl Hfree Hchild.
  set (na' := if left na is Some _ then set_left None na else set_right None na).
  set (h1 := <[a := na']> h).
  assert (h1 !! b = Some nb) as Hb1.
  { unfold h1. rewrite lookup_insert_ne by done. done. }
  assert (free_ok h1 t fl) as Hfree1.
  { eapply free_ok_agree; [|exact Hfree]. intros x Hx. unfold h1.
    rewrite lookup_insert_ne; [done|]. intros ->. done. }
  destruct (push_free_node_run h1 t b nb fl Hb1 Hbfl Hfree1)
    as (h' & t' & Hrun & Hfree' & Hsz & Hmx & Hrt & Hnb & (n' & Hn' & Hp') & Hother).
  exists h', t'. split_and!; try done.
  - intros fuel. cbn [clear_loop]. decide_bool.
    destruct na as [rg cl ts pa le ri]. cbn in Hchild.
    destruct Hchild as [->|[-> ->]].
    + eapply run_bind; [unfold has_left_child; mrun|]. nsimpl. decide_bool.
      eapply run_bind; [mrun|]. nsimpl.
      eapply run_bind.
      { unfold remove_from_parent, is_left_child, is_root.
        repeat first [ rewrite Hpar | progress decide_bool | progress nsimpl
                     | progress mrun ]. }
      eapply run_bind; [exact Hrun|].
      eapply run_bind; [apply run_rd; exact Hn'|].
      rewrite Hp', Hpar. reflexivity.
    + eapply run_bind; [unfold has_left_child; mrun|]. nsimpl. decide_bool.
      eapply run_bind.
      { eapply run_bind; [unfold has_right_child; mrun|]. nsimpl. decide_bool.
        mrun. }
      nsimpl.
      eapply run_bind.
      { unfold remove_from_parent, is_left_child, is_root.
        repeat first [ rewrite Hpar | progress decide_bool | progress nsimpl
                     | progress mrun ]. }
      eapply run_bind; [exact Hrun|].
      eapply run_bind; [apply run_rd; exact Hn'|].
      rewrite Hp', Hpar. reflexivity.
  - rewrite Hother by done. unfold h1. by rewrite lookup_insert_eq.
  - intros c Hca Hcb Hcfl. rewrite Hother by done. unfold h1.
    by rewrite lookup_insert_ne.
Qed.

(** The last turn, at a root without children: the root is pushed and the
    loop ends; the tree's [root] field is not written. *)
Lemma clear_round_last h t a na fl fuel :
  h !! a = Some na -> left na = None -> right na = None -> parent na = None ->
  a ∉ fl -> free_ok h t fl ->
  exists h' t',
    clear_loop (S (S fuel)) (Some a) (mk_state h (Some t))
    = Ok tt (mk_state h' (Some t')) /\
    free_ok h' t' (fl ++ [a]) /\
    size t' = u32 (size t - 1) /\ max_size t' = max_size t /\
    root t' = root t /\ node_block t' = node_block t.
Proof.
  intros Ha Hl Hr Hp Hafl Hfree.
  destruct (push_free_node_run h t a na fl Ha Hafl Hfree)
    as (h' & t' & Hrun & Hfree' & Hsz & Hmx & Hrt & Hnb & (n' & Hn' & Hp') & _).
  exists h', t'. split_and!; try done.
  cbn [clear_loop]. decide_bool.
  destruct na as [rg cl ts pa le ri]. cbn in Hl, Hr, Hp. subst le ri pa.
  eapply run_bind; [unfold has_left_child; mrun|]. nsimpl. decide_bool.
  eapply run_bind.
  { eapply run_bind; [unfold has_right_child; mrun|]. nsimpl. decide_bool.
    mrun. }
  eapply run_bind; [unfold remove_from_parent, is_root; mrun|].
  eapply run_bind; [exact Hrun|].
  eapply run_bind; [apply run_rd; exact Hn'|].
  rewrite Hp'. reflexivity.
Qed.

(** The cells [rb_tree_clear] recycles: the children of the root, then the
    root. *)
Lemma clear_run fuel s c l a v o r fl :
  tree_ok s (T c l a v o r) fl -> size_of s <> 0 -> (4 <= fuel)%nat ->
  exists s' tt',
    rb_tree_clear fuel s = Ok RB_SUCCESS s' /\
    tree s' = Some tt' /\ root tt' = Some a /\
    free_ok (heap s') tt'
      (fl ++ option_list (root_ptr l) ++ option_list (root_ptr r) ++ [a]) /\
    size tt'
    = Nat.iter
        (length (option_list (root_ptr l) ++ option_list (root_ptr r) ++ [a]))
        (fun z => u32 (z - 1)) (size_of s).
Proof.
  intros (tt0 & Htree & Hrep & Hnd & Hfree) Hsz Hfuel.
  destruct s as [h ts]. cbn in Htree, Hrep, Hfree. subst ts.
  unfold size_of in *. cbn [tree] in *.
  cbn in Hrep. destruct Hrep as (Hroot & na & Ha & Hc & Hrg & Hp & Hl & Hr).
  pose proof (rep_child_ptr _ _ _ _ Hl) as Hlp.
  pose proof (rep_child_ptr _ _ _ _ Hr) as Hrp.
  cbn [addrs] in Hnd.
  assert (a ∉ fl) as Hafl.
  { intros Hin. apply NoDup_app in Hnd as (_ & Hd & _). apply (Hd a); [|done].
    apply elem_of_app. right. left. }
  (* the turn for the left child *)
  assert (exists h1 t1 na1,
            (forall f, clear_loop (S f) (Some a) (mk_state h (Some tt0))
                       = clear_loop (if l is E then S f else f) (Some a)
                           (mk_state h1 (Some t1))) /\
            h1 !! a = Some na1 /\ left na1 = None /\ right na1 = right na /\
            parent na1 = None /\
            free_ok h1 t1 (fl ++ option_list (root_ptr l)) /\
            size t1 = Nat.iter (length (option_list (root_ptr l)))
                        (fun z => u32 (z - 1)) (size tt0) /\
            root t1 = root tt0 /\
            (forall x, x <> a -> x ∉ addrs l -> x ∉ fl -> h1 !! x = h !! x))
    as (h1 & t1 & na1 & Hstep1 & Ha1 & Hl1 & Hr1 & Hp1 & Hfree1 & Hsz1 & Hrt1 & Hoth1).
  { destruct l as [|lc ll b lv lo lr].
    - cbn in Hlp. exists h, tt0, na. cbn [root_ptr option_list length Nat.iter].
      rewrite app_nil_r. split_and!; try done.
    - cbn [root_ptr] in Hlp. cbn in Hl.
      destruct Hl as (_ & nb & Hb & _ & _ & Hpb & _).
      assert (a <> b) as Hab.
      { intros ->. apply NoDup_app in Hnd as (Hnd & _).
        apply NoDup_app in Hnd as (_ & Hd & _). apply (Hd b).
        - cbn. apply elem_of_app. right. left.
        - left. }
      assert (b ∉ fl) as Hbfl.
      { intros Hin. apply NoDup_app in Hnd as (_ & Hd & _). apply (Hd b); [|done].
        apply elem_of_app. left. cbn. apply elem_of_app. right. left. }
      destruct (clear_round_child h tt0 a na b nb fl Ha Hb Hpb Hab Hafl Hbfl Hfree
                  ltac:(by left))
        as (h1 & t1 & Hstep & Ha1 & Hfree1 & Hsz1 & _ & Hrt1 & _ & Hoth).
      rewrite Hlp in Ha1.
      exists h1, t1, (set_left None na). cbn [root_ptr option_list length Nat.iter].
      split_and!; try done; try (by destruct na).
      intros x Hxa Hxl Hxfl. apply Hoth; try done. intros ->. apply Hxl.
      cbn. apply elem_of_app. right. left. }
  (* the turn for the right child *)
  assert (exists h2 t2 na2,
            (forall f, clear_loop (S f) (Some a) (mk_state h1 (Some t1))
                       = clear_loop (if r is E then S f else f) (Some a)
                           (mk_state h2 (Some t2))) /\
            h2 !! a = Some na2 /\ left na2 = None /\ right na2 = None /\
            parent na2 = None /\
            free_ok h2 t2 (fl ++ option_list (root_ptr l) ++ option_list (root_ptr r)) /\
            size t2 = Nat.iter (length (option_list (root_ptr r)))
                        (fun z => u32 (z - 1)) (size t1) /\
            root t2 = root t1)
    as (h2 & t2 & na2 & Hstep2 & Ha2 & Hl2 & Hr2 & Hp2 & Hfree2 & Hsz2 & Hrt2).
  { destruct r as [|rc rl b rv ro rr].
    - cbn in Hrp. exists h1, t1, na1. cbn [root_ptr option_list length Nat.iter].
      rewrite app_nil_r. split_and!; try done. congruence.
    - cbn [root_ptr] in Hrp. cbn in Hr.
      destruct Hr as (_ & nb & Hb & _ & _ & Hpb & _).
      assert (a <> b) as Hab.
      { intros ->. apply NoDup_app in Hnd as (Hnd & _).
        apply NoDup_app in Hnd as (_ & _ & Hd).
        apply NoDup_cons in Hd as [Hd _]. apply Hd.
        cbn. apply elem_of_app. right. left. }
      assert (b ∉ addrs l) as Hbl.
      { intros Hin. apply NoDup_app in Hnd as (Hnd & _).
        apply NoDup_app in Hnd as (_ & Hd & _). apply (Hd b Hin).
        right. cbn. apply elem_of_app. right. left. }
      assert (b ∉ fl) as Hbfl.
      { intros Hin. apply NoDup_app in Hnd as (_ & Hd & _). apply (Hd b); [|done].
        apply elem_of_app. right. right. cbn. apply elem_of_app. right. left. }
      assert (b ∉ fl ++ option_list (root_ptr l)) as Hbfl'.
      { intros [Hin|Hin]%elem_of_app; [done|]. apply Hbl.
        destruct l; cbn in Hin; [by apply elem_of_nil in Hin|].
        apply list_elem_of_singleton in Hin as ->.
        cbn. apply elem_of_app. right. left. }
      assert (a ∉ fl ++ option_list (root_ptr l)) as Hafl'.
      { intros [Hin|Hin]%elem_of_app; [done|].
        destruct l; cbn in Hin; [by apply elem_of_nil in Hin|].
        apply list_elem_of_singleton in Hin as ->.
        apply NoDup_app in Hnd as (Hnd & _).
        apply NoDup_app in Hnd as (_ & Hd & _). apply (Hd a0).
        - cbn. apply elem_of_app. right. left.
        - left. }
      assert (h1 !! b = Some nb) as Hb1 by (rewrite Hoth1; done).
      destruct (clear_round_child h1 t1 a na1 b nb _ Ha1 Hb1 Hpb Hab Hafl' Hbfl'
                  Hfree1 ltac:(right; split; [done|congruence]))
        as (h2 & t2 & Hstep & Ha2 & Hfree2 & Hsz2 & _ & Hrt2 & _ & Hoth).
      rewrite Hl1 in Ha2.
      exists h2, t2, (set_right None na1).
      cbn [root_ptr option_list length Nat.iter].
      rewrite <- app_assoc in Hfree2.
      split_and!; try done; try (by destruct na1). }
  assert (a ∉ fl ++ option_list (root_ptr l) ++ option_list (root_ptr r)) as Hafl2.
  { intros Hin. apply NoDup_app in Hnd as (Hnd & Hd & _).
    apply elem_of_app in Hin as [Hin|Hin]; [done|].
    apply NoDup_app in Hnd as (_ & Hd1 & Hd2).
    apply NoDup_cons in Hd2 as [Hd2 _].
    apply elem_of_app in Hin as [Hin|Hin].
    - destruct l; cbn in Hin; [by apply elem_of_nil in Hin|].
      apply list_elem_of_singleton in Hin as ->. apply (Hd1 a0).
      + cbn. apply elem_of_app. right. left.
      + left.
    - destruct r; cbn in Hin; [by apply elem_of_nil in Hin|].
      apply list_elem_of_singleton in Hin as ->. apply Hd2.
      cbn. apply elem_of_app. right. left. }
  assert (exists f3, fuel = S (S (S (S f3)))) as [f3 ->].
  { exists (fuel - 4)%nat. lia. }
  destruct (clear_round_last h2 t2 a na2 _
              (match l, r with E, E => S (S f3) | E, _ | _, E => S f3 | _, _ => f3 end)
              Ha2 Hl2 Hr2 Hp2 Hafl2 Hfree2)
    as (h3 & t3 & Hlast & Hfree3 & Hsz3 & _ & Hrt3 & _).
  exists (mk_state h3 (Some t3)), t3. split_and!.
  - unfold rb_tree_clear.
    eapply run_bind; [apply run_null|]. cbv iota.
    eapply run_bind.
    { unfold rb_tree_is_empty. mrun. }
    cbn [negb andb]. rewrite (proj2 (Z.eqb_neq _ _) Hsz).
    eapply run_bind; [apply run_tget|]. rewrite Hroot.
    eapply run_bind; [|reflexivity].
    rewrite Hstep1.
    destruct l, r.
    + rewrite Hstep2. exact Hlast.
    + rewrite Hstep2. exact Hlast.
    + rewrite Hstep2. exact Hlast.
    + rewrite Hstep2. exact Hlast.
  - done.
  - cbn [tree]. congruence.
  - cbn [heap]. by rewrite <- !app_assoc in Hfree3.
  - rewrite Hsz3, Hsz2, Hsz1. destruct l, r; reflexivity.
Qed.

(** ** Unlinking a node without a left child *)

Lemma delete_without_rebalancing_step s k c a v o r fl :
  tree_ok s (plug (T c E a v o r) k) fl ->
  exists s',
    delete_rb_node_without_rebalancing (Some a) s = Ok tt s' /\
    tree_ok s' (plug r k) (fl ++ [a]) /\
    size_of s' = u32 (size_of s - 1).
Proof.
  intros (tt0 & Htree & HZ)%tree_ok_Zt.
  assert (Zt (free_frame tt0 fl) fl tt0 s k (T c E a v o r))
    as HZ' by (revert HZ; by apply Zt_plug_eq).
  apply (holds_elim' _ (fun s' => tree_ok s' (plug r k) (fl ++ [a]) /\
                                  size_of s' = u32 (size_of s - 1))).
  eapply delete_without_rebalancing_Zt; [exact HZ'|]. intros s' HZ1.
  split; [done|].
  eapply Zt_plug_eq in HZ1; [|reflexivity..].
  change (Zt (free_frame (pushed tt0 fl a) (fl ++ [a])) (fl ++ [a])
            (pushed tt0 fl a) s' [] (plug r k)) in HZ1.
  destruct (Zt_tree_ok _ _ _ _ HZ1) as [Hok [rp Htr]]. split; [done|].
  unfold size_of. rewrite Htr, Htree. reflexivity.
Qed.

(** ** The walk that keeps the nodes, on any well-formed tree *)

Lemma walk_all_same fuel reb s t fl :
  tree_ok s t fl -> (length (ranges t) + 1 < fuel)%nat ->
  exists s',
    drain fuel false reb s = Ok (ranges t) s' /\
    tree_ok s' t fl /\ tree s' = tree s.
Proof.
  intros Hok Hfuel.
  destruct (walk_all_step fuel reb s t fl Hok Hfuel) as (s' & Hrun & Hok' & Htr).
  exists s'. split; [done|]. split; [done|].
  destruct Hok as (tt0 & Htree & Hrep & _).
  destruct (Htr _ Htree) as [rp Hrp].
  destruct Hok' as (tt' & Htree' & Hrep' & _).
  rewrite Hrp in Htree'. injection Htree' as <-.
  apply rep_child_ptr in Hrep, Hrep'. cbn [root set_root] in Hrep'.
  rewrite Hrp, Htree. f_equal. destruct tt0. cbn in *. congruence.
Qed.


(** * The operations on a tree that meets its invariants

    [tree_inv s t fl] collects what the operations rely on and keep: the
    handle of [s] leads to the tree [t], the cells [fl] are free, [t] is a
    red-black tree whose ranges are in order with a gap between neighbours,
    and [size] and [max_size] count the nodes and the cells. *)

(** Membership of a value in ranges given one by one. *)
Ltac covered_solve :=
  rewrite ?covered_app, ?covered_cons, ?covered_nil; unfold covers;
  cbn [value offset]; lia.

(** ** Creation and destruction *)

(** X1: [rb_tree_create] with a block from the allocator and a size between
    1 and [MAX_TREE_SIZE] succeeds and gives the empty tree with every cell
    of the block free; [rb_tree_is_empty] then answers true and
    [rb_tree_is_full] false. *)
Theorem create_establishes_invariants h t0 base N :
  1 <= N <= MAX_TREE_SIZE ->
  exists s1,
    rb_tree_create (Some base) N (mk_state h (Some t0)) = Ok RB_SUCCESS s1 /\
    tree_inv s1 E (seq base (Z.to_nat N)) /\
    rb_tree_is_empty s1 = Ok true s1 /\
    rb_tree_is_full s1 = Ok false s1.
Proof.
  intros HN.
  destruct (rb_tree_create_spec h t0 base N HN) as (h' & t & Hrun & _).
  destruct (create_success_inv _ _ _ _ Hrun ltac:(lia))
    as (base' & [= <-] & _ & Hinv & He & Hf).
  by exists (mk_state h' (Some t)).
Qed.

Lemma create_establishes_invariants_witness :
  exists s1,
    rb_tree_create (Some 0%nat) 3 fresh = Ok RB_SUCCESS s1 /\
    tree_inv s1 E [0%nat; 1%nat; 2%nat] /\
    rb_tree_is_empty s1 = Ok true s1 /\
    rb_tree_is_full s1 = Ok false s1.
Proof.
  apply (create_establishes_invariants ∅ uninit_tree 0 3).
  assert (MAX_TREE_SIZE = 2147483648) as HM by reflexivity. lia.
Defined.

(** X2: after an [rb_tree_create] that failed, whatever the reason,
    [rb_tree_insert] refuses every value with [RB_FAIL_SIZE_ZERO] and
    changes nothing. *)
Theorem insert_after_failed_create alloc N h t0 st s1 fuel v :
  rb_tree_create alloc N (mk_state h (Some t0)) = Ok st s1 ->
  st <> RB_SUCCESS -> 0 <= N ->
  rb_tree_insert fuel v s1 = Ok RB_FAIL_SIZE_ZERO s1.
Proof.
  intros Hrun Hst HN.
  destruct (create_failure_run _ _ _ _ _ _ Hrun Hst HN) as (h1 & tt1 & -> & Hnb).
  apply insert_refused. by left.
Qed.

Lemma insert_after_failed_create_witness :
  exists s1,
    rb_tree_create None 3 fresh = Ok RB_FAIL_MEM_ERR s1 /\
    rb_tree_insert 8 5 s1 = Ok RB_FAIL_SIZE_ZERO s1.
Proof.
  assert (exists s1, rb_tree_create None 3 fresh = Ok RB_FAIL_MEM_ERR s1)
    as [s1 H1] by (eexists; vm_compute; reflexivity).
  exists s1. split; [exact H1|].
  apply (insert_after_failed_create None 3 ∅ uninit_tree RB_FAIL_MEM_ERR s1 8 5);
    [exact H1|discriminate|lia].
Defined.

(** X3: [rb_tree_destroy] succeeds on every tree, and [rb_tree_insert] on
    the destroyed tree returns [RB_FAIL_SIZE_ZERO] without touching it. *)
Theorem insert_after_destroy h t0 fuel v :
  exists s1,
    rb_tree_destroy (mk_state h (Some t0)) = Ok RB_SUCCESS s1 /\
    rb_tree_insert fuel v s1 = Ok RB_FAIL_SIZE_ZERO s1.
Proof.
  destruct (destroy_run h t0) as (h' & Hrun).
  eexists. split; [exact Hrun|]. apply insert_refused. by left.
Qed.

(** ** Insertion *)

(** X4: [rb_tree_insert] of a 32-bit value that no range holds, with a
    free cell at hand, succeeds: the tree then holds this value and those it
    held, it is again a red-black tree of ordered ranges with gaps, and
    nodes and free cells together are as many as before. *)
Theorem insert_absent_value fuel s t fl w :
  tree_inv s t fl -> 0 <= w <= UINT32_MAX -> ~ covered (ranges t) w ->
  fl <> [] -> (2 * height t + 2 <= fuel)%nat ->
  exists s' t' fl',
    rb_tree_insert fuel w s = Ok RB_SUCCESS s' /\
    tree_inv s' t' fl' /\
    (forall y, covered (ranges t') y <-> covered (ranges t) y \/ y = w) /\
    (length (ranges t') + length fl' = length (ranges t) + length fl)%nat.
Proof.
  intros Hinv Hw Hcov Hfl Hfuel.
  destruct (insert_absent_step fuel s t fl w Hinv Hw Hcov Hfl Hfuel)
    as (s' & t' & fl' & Hrun & Hinv' & Hrg & Hlen).
  exists s', t', fl'. split_and!; try done.
  intros y. rewrite Hrg. eapply linsert_covered.
  apply bst_gapped. apply Hinv.
Qed.

Lemma insert_absent_value_witness :
  exists s' t' fl',
    rb_tree_insert 8 5 split_example = Ok RB_SUCCESS s' /\
    tree_inv s' t' fl' /\
    (forall y, covered (ranges t') y
               <-> covered (ranges split_example_tree) y \/ y = 5) /\
    (length (ranges t') + length fl'
     = length (ranges split_example_tree) + length [2%nat; 3%nat])%nat.
Proof.
  apply (insert_absent_value 8 split_example split_example_tree [2%nat; 3%nat] 5).
  - exact split_example_inv.
  - unfold UINT32_MAX. lia.
  - cbn. covered_solve.
  - discriminate.
  - cbn. lia.
Defined.

(** X5: [rb_tree_insert] of an absent value next to a stored one needs no
    free cell: it succeeds even when the tree is full, by widening a range
    or joining two, and never lowers the number of free cells. *)
Theorem insert_adjacent_value fuel s t fl w :
  tree_inv s t fl -> 0 <= w <= UINT32_MAX -> ~ covered (ranges t) w ->
  covered (ranges t) (w - 1) \/ covered (ranges t) (w + 1) ->
  (2 * height t + 2 <= fuel)%nat ->
  exists s' t' fl',
    rb_tree_insert fuel w s = Ok RB_SUCCESS s' /\
    tree_inv s' t' fl' /\
    (forall y, covered (ranges t') y <-> covered (ranges t) y \/ y = w) /\
    (length fl <= length fl')%nat /\
    (length (ranges t') + length fl' = length (ranges t) + length fl)%nat.
Proof.
  intros Hinv Hw Hcov Hadj Hfuel.
  destruct (insert_adjacent_step fuel s t fl w Hinv Hw Hcov Hadj Hfuel)
    as (s' & t' & fl' & Hrun & Hinv' & Hrg & Hlen & Hfl).
  exists s', t', fl'. split_and!; try done.
  intros y. rewrite Hrg. eapply linsert_covered.
  apply bst_gapped. apply Hinv.
Qed.

Lemma insert_adjacent_value_witness :
  exists s' t' fl',
    rb_tree_insert 8 6 full_example = Ok RB_SUCCESS s' /\
    tree_inv s' t' fl' /\
    (forall y, covered (ranges t') y
               <-> covered (ranges full_example_tree) y \/ y = 6) /\
    (length (@nil nat) <= length fl')%nat /\
    (length (ranges t') + length fl'
     = length (ranges full_example_tree) + length (@nil nat))%nat.
Proof.
  apply (insert_adjacent_value 8 full_example full_example_tree [] 6).
  - exact full_example_inv.
  - unfold UINT32_MAX. lia.
  - cbn. covered_solve.
  - left. cbn. covered_solve.
  - cbn. lia.
Defined.



(** X7: on a well-formed tree in search order, with a gap between any two
    ranges, whose handle has its block of nodes and a [max_size] above
    zero, [rb_tree_insert] of the first value of a stored range returns
    [RB_FAIL_INSERT_DUPLICATE] and leaves the state as it was. *)
Theorem insert_range_start_again fuel s t fl tt w o :
  tree_ok s t fl -> bst 0 UINT32_MAX t ->
  tree s = Some tt -> node_block tt <> None -> max_size tt <> 0 ->
  mk_range w o ∈ ranges t ->
  (2 * height t + 2 <= fuel)%nat ->
  rb_tree_insert fuel w s = Ok RB_FAIL_INSERT_DUPLICATE s.
Proof.
  intros Hok Hbst Htree Hnb Hmx Hin Hfuel. rewrite ranges_nodes in Hin.
  apply list_elem_of_fmap in Hin as ([a rg] & Heq & Hin). cbn in Heq. subst rg.
  destruct (tree_ok_Zt _ _ _ Hok) as (tt0 & Htree0 & HZ).
  rewrite Htree in Htree0. injection Htree0 as <-.
  assert (t <> E) as Hne by (intros ->; by apply elem_of_nil in Hin).
  eapply rb_tree_insert_unchanged; [exact HZ|done|done|done|done|].
  by rewrite (ins_go_dup w o a t 0 UINT32_MAX [] Hbst).
Qed.

Lemma insert_range_start_again_witness :
  rb_tree_insert 8 1 split_example = Ok RB_FAIL_INSERT_DUPLICATE split_example.
Proof.
  apply (insert_range_start_again 8 split_example split_example_tree
           [2%nat; 3%nat]
           (mk_tree 2 4 (Some 0%nat) (Some 3%nat) (Some 2%nat) (Some 0%nat)) 1 2).
  - exact split_example_ok.
  - cbn. unfold UINT32_MAX. lia.
  - reflexivity.
  - discriminate.
  - discriminate.
  - cbn. left.
  - cbn. lia.
Defined.

(** X8: a tree that meets its invariants, whose values all lie in
    [0, hi], with twice as many nodes and free cells as [hi + 2] or more,
    never refuses an absent value of [0, hi]: [rb_tree_insert] succeeds,
    and the tree it leaves meets the same conditions. *)
Theorem insert_within_capacity fuel s t fl hi w :
  tree_inv s t fl -> bst 0 hi t -> hi <= UINT32_MAX ->
  hi + 2 <= 2 * Z.of_nat (length (ranges t) + length fl) ->
  0 <= w <= hi -> ~ covered (ranges t) w ->
  (2 * height t + 2 <= fuel)%nat ->
  exists s' t' fl',
    rb_tree_insert fuel w s = Ok RB_SUCCESS s' /\
    tree_inv s' t' fl' /\ bst 0 hi t' /\
    (forall y, covered (ranges t') y <-> covered (ranges t) y \/ y = w) /\
    (length (ranges t') + length fl' = length (ranges t) + length fl)%nat.
Proof.
  intros Hinv Hbst Hhi Hcap Hw Hcov Hfuel.
  pose proof (proj1 (bst_gapped _ _ _) Hbst) as Hg.
  pose proof (linsert_gapped w hi _ 0 Hg Hw Hcov) as Hg'.
  assert (exists s' t' fl',
             rb_tree_insert fuel w s = Ok RB_SUCCESS s' /\
             tree_inv s' t' fl' /\ ranges t' = linsert w (ranges t) /\
             (length (ranges t') + length fl'
              = length (ranges t) + length fl)%nat)
    as (s' & t' & fl' & Hrun & Hinv' & Hrg & Hlen).
  { destruct fl as [|f fl].
    - destruct (covered_dec (ranges t) (w - 1)) as [Hm|Hm].
      { destruct (insert_adjacent_step fuel s t [] w Hinv ltac:(lia) Hcov
                    ltac:(by left) Hfuel)
          as (s' & t' & fl' & ? & ? & ? & ? & ?).
        by exists s', t', fl'. }
      destruct (covered_dec (ranges t) (w + 1)) as [Hp|Hp].
      { destruct (insert_adjacent_step fuel s t [] w Hinv ltac:(lia) Hcov
                    ltac:(by right) Hfuel)
          as (s' & t' & fl' & ? & ? & ? & ? & ?).
        by exists s', t', fl'. }
      exfalso.
      pose proof (linsert_length_new w hi _ 0 Hg ltac:(done)) as Hnew.
      pose proof (gapped_total_bound _ _ _ Hg' ltac:(lia)) as Hb.
      pose proof (gapped_length _ _ _ Hg') as Hl.
      rewrite Hnew in Hb, Hl. cbn [length] in Hcap. lia.
    - apply (insert_absent_step fuel s t (f :: fl) w Hinv ltac:(lia) Hcov
               ltac:(done) Hfuel). }
  exists s', t', fl'. split_and!; try done.
  - apply bst_gapped. by rewrite Hrg.
  - intros y. rewrite Hrg. by eapply linsert_covered.
Qed.

Lemma insert_within_capacity_witness :
  exists s1 s' t' fl',
    rb_tree_create (Some 0%nat) 3 fresh = Ok RB_SUCCESS s1 /\
    rb_tree_insert 8 4 s1 = Ok RB_SUCCESS s' /\
    tree_inv s' t' fl' /\ bst 0 4 t' /\
    (forall y, covered (ranges t') y <-> covered (ranges E) y \/ y = 4) /\
    (length (ranges t') + length fl'
     = length (ranges E) + length [0%nat; 1%nat; 2%nat])%nat.
Proof.
  destruct (rb_tree_create_spec ∅ uninit_tree 0 3) as (h' & t & Hrun & _);
    [vm_compute; split; discriminate|].
  destruct (create_success_inv _ _ _ _ Hrun ltac:(lia))
    as (base' & [= <-] & _ & Hinv & _).
  destruct (insert_within_capacity 8 (mk_state h' (Some t)) E
              [0%nat; 1%nat; 2%nat] 4 4) as (s' & t' & fl' & H);
    [exact Hinv | cbn; done | unfold UINT32_MAX; lia | cbn; lia | lia
    | cbn; covered_solve | cbn; lia | ].
  exists (mk_state h' (Some t)), s', t', fl'. split; [exact Hrun | exact H].
Defined.

(** X9: distinct 32-bit values that the tree does not hold, no more of
    them than there are free cells, are all accepted by [rb_tree_insert] in
    any order; afterwards the tree holds exactly the values it held and
    these, and meets its invariants. *)
Theorem inserts_distinct_values fuel vs : forall s t fl,
  tree_inv s t fl -> NoDup vs ->
  Forall (fun v => 0 <= v <= UINT32_MAX /\ ~ covered (ranges t) v) vs ->
  (length vs <= length fl)%nat ->
  (2 * (length (ranges t) + length vs) + 2 <= fuel)%nat ->
  exists s' t' fl',
    inserts fuel vs s = Ok (replicate (length vs) RB_SUCCESS) s' /\
    tree_inv s' t' fl' /\
    (forall y, covered (ranges t') y <-> covered (ranges t) y \/ y ∈ vs) /\
    (length (ranges t') + length fl' = length (ranges t) + length fl)%nat.
Proof.
  induction vs as [|v vs IH]; intros s t fl Hinv Hnd Hall Hlen Hfuel.
  - exists s, t, fl. split_and!; try done.
    intros y. rewrite elem_of_nil. tauto.
  - apply NoDup_cons in Hnd as [Hv Hnd].
    apply Forall_cons in Hall as [[Hv32 Hcov] Hall].
    cbn [length] in Hlen, Hfuel.
    pose proof (height_le_length t) as Hh.
    destruct (insert_absent_step fuel s t fl v Hinv Hv32 Hcov
                ltac:(destruct fl; [cbn in Hlen; lia|done]) ltac:(lia))
      as (s1 & t1 & fl1 & Hrun1 & Hinv1 & Hrg1 & Hlen1).
    pose proof (linsert_length v (ranges t)) as [Hl1 _]. rewrite <- Hrg1 in Hl1.
    assert (forall y, covered (ranges t1) y <-> covered (ranges t) y \/ y = v)
      as Hc1.
    { intros y. rewrite Hrg1. eapply linsert_covered.
      apply bst_gapped. apply Hinv. }
    destruct (IH s1 t1 fl1 Hinv1 Hnd) as (s' & t' & fl' & Hrun & Hinv' & Hc & Hlen');
      [|lia|lia|].
    { rewrite Forall_forall in Hall.
      apply Forall_forall. intros x Hx. split; [by apply Hall|].
      rewrite Hc1. intros [H| ->]; [by apply (Hall x Hx)|done]. }
    exists s', t', fl'. split_and!; try done.
    + cbn [inserts length replicate].
      eapply run_bind; [exact Hrun1|].
      eapply run_bind; [exact Hrun|]. reflexivity.
    + intros y. rewrite Hc, Hc1, elem_of_cons. tauto.
    + lia.
Qed.

Lemma inserts_distinct_values_witness :
  exists s' t' fl',
    inserts 12 [7; 5] split_example = Ok [RB_SUCCESS; RB_SUCCESS] s' /\
    tree_inv s' t' fl' /\
    (forall y, covered (ranges t') y
               <-> covered (ranges split_example_tree) y \/ y ∈ [7; 5]) /\
    (length (ranges t') + length fl'
     = length (ranges split_example_tree) + length [2%nat; 3%nat])%nat.
Proof.
  apply (inserts_distinct_values 12 [7; 5] split_example split_example_tree
           [2%nat; 3%nat]).
  - exact split_example_inv.
  - apply (bool_decide_unpack _). by vm_compute.
  - unfold UINT32_MAX. repeat constructor; try lia; cbn; covered_solve.
  - cbn. lia.
  - cbn. lia.
Defined.

(** ** Search *)

(** X10: on a well-formed tree in search order, with a gap between any
    two ranges, [rb_tree_binary_search] changes nothing and returns a node
    whose range holds the value when some range of the tree holds it, and
    [NULL] when none does. *)
Theorem binary_search_finds_cover fuel x s t fl :
  tree_ok s t fl -> bst 0 UINT32_MAX t -> (height t < fuel)%nat ->
  exists p,
    rb_tree_binary_search fuel x s = Ok p s /\
    match p with
    | Some a => exists rg, (a, rg) ∈ nodes t /\ covers rg x
    | None => ~ covered (ranges t) x
    end.
Proof.
  intros Hok Hbst Hfuel. exists (find_cover x t).
  split; [by eapply binary_search_run|].
  pose proof (find_cover_spec x t 0 UINT32_MAX Hbst ltac:(lia) ltac:(lia)) as H.
  destruct (find_cover x t) as [a|]; [|done].
  destruct H as (k & c & l & v & o & r & -> & Hx).
  exists (mk_range v o). split; [|done].
  rewrite nodes_plug. cbn [nodes]. rewrite !elem_of_app, elem_of_cons.
  right. left. right. by left.
Qed.

Lemma binary_search_finds_cover_witness :
  exists p,
    rb_tree_binary_search 8 2 split_example = Ok p split_example /\
    match p with
    | Some a => exists rg, (a, rg) ∈ nodes split_example_tree /\ covers rg 2
    | None => ~ covered (ranges split_example_tree) 2
    end.
Proof.
  apply (binary_search_finds_cover 8 2 split_example split_example_tree
           [2%nat; 3%nat]).
  - exact split_example_ok.
  - cbn. unfold UINT32_MAX. lia.
  - cbn. lia.
Defined.



(** ** Deletion *)



(** X13: [rb_tree_delete] of a value stored as a range of its own removes
    the range's node, rebalances, and returns one cell to the free list:
    the other ranges stay as they were and the invariants hold again. *)
Theorem delete_single_value fuel s t fl x before after :
  tree_inv s t fl -> ranges t = before ++ mk_range x 0 :: after ->
  (height t < fuel)%nat ->
  exists s' t' y,
    rb_tree_delete fuel x s = Ok RB_SUCCESS s' /\
    tree_inv s' t' (fl ++ [y]) /\
    ranges t' = before ++ after /\
    (forall z, covered (ranges t') z <-> covered (ranges t) z /\ z <> x).
Proof.
  intros Hinv Hrg Hfuel.
  destruct (delete_single_step fuel s t fl x before after Hinv Hrg Hfuel)
    as (s' & t' & y & Hrun & Hinv' & Hrg').
  exists s', t', y. split_and!; try done.
  intros z. rewrite Hrg', Hrg. eapply covered_remove.
  rewrite <- Hrg. apply bst_gapped. apply Hinv.
Qed.

Lemma delete_single_value_witness :
  exists s' t' y,
    rb_tree_delete 8 10 split_example = Ok RB_SUCCESS s' /\
    tree_inv s' t' ([2%nat; 3%nat] ++ [y]) /\
    ranges t' = [mk_range 1 2] ++ [] /\
    (forall z, covered (ranges t') z
               <-> covered (ranges split_example_tree) z /\ z <> 10).
Proof.
  apply (delete_single_value 8 split_example split_example_tree [2%nat; 3%nat]
           10 [mk_range 1 2] []).
  - exact split_example_inv.
  - reflexivity.
  - cbn. lia.
Defined.

(** X14: [rb_tree_delete] of the first value of a range of several values
    moves the start of that range up by one; no node is freed and nothing
    else changes. *)
Theorem delete_first_value fuel s t fl x o before after :
  tree_inv s t fl -> ranges t = before ++ mk_range x o :: after -> 0 < o ->
  (height t < fuel)%nat ->
  exists s' t',
    rb_tree_delete fuel x s = Ok RB_SUCCESS s' /\
    tree_inv s' t' fl /\
    ranges t' = before ++ mk_range (x + 1) (o - 1) :: after /\
    (forall z, covered (ranges t') z <-> covered (ranges t) z /\ z <> x).
Proof.
  intros Hinv Hrg Ho Hfuel.
  destruct (delete_first_step fuel s t fl x o before after Hinv Hrg Ho Hfuel)
    as (s' & t' & Hrun & Hinv' & Hrg').
  exists s', t'. split_and!; try done.
  intros z. rewrite Hrg', Hrg. eapply covered_shrink_first; [|done].
  rewrite <- Hrg. apply bst_gapped. apply Hinv.
Qed.

Lemma delete_first_value_witness :
  exists s' t',
    rb_tree_delete 8 1 split_example = Ok RB_SUCCESS s' /\
    tree_inv s' t' [2%nat; 3%nat] /\
    ranges t' = [] ++ mk_range (1 + 1) (2 - 1) :: [mk_range 10 0] /\
    (forall z, covered (ranges t') z
               <-> covered (ranges split_example_tree) z /\ z <> 1).
Proof.
  apply (delete_first_value 8 split_example split_example_tree [2%nat; 3%nat]
           1 2 [] [mk_range 10 0]).
  - exact split_example_inv.
  - reflexivity.
  - lia.
  - cbn. lia.
Defined.

(** X15: [rb_tree_delete] of the last value of a range of several values
    shortens that range by one; no node is freed and nothing else
    changes. *)
Theorem delete_last_value fuel s t fl v o before after :
  tree_inv s t fl -> ranges t = before ++ mk_range v o :: after -> 0 < o ->
  (height t < fuel)%nat ->
  exists s' t',
    rb_tree_delete fuel (v + o) s = Ok RB_SUCCESS s' /\
    tree_inv s' t' fl /\
    ranges t' = before ++ mk_range v (o - 1) :: after /\
    (forall z, covered (ranges t') z <-> covered (ranges t) z /\ z <> v + o).
Proof.
  intros Hinv Hrg Ho Hfuel.
  destruct (delete_last_step fuel s t fl v o before after Hinv Hrg Ho Hfuel)
    as (s' & t' & Hrun & Hinv' & Hrg').
  exists s', t'. split_and!; try done.
  intros z. rewrite Hrg', Hrg. eapply covered_shrink_last; [|done].
  rewrite <- Hrg. apply bst_gapped. apply Hinv.
Qed.

Lemma delete_last_value_witness :
  exists s' t',
    rb_tree_delete 8 (1 + 2) split_example = Ok RB_SUCCESS s' /\
    tree_inv s' t' [2%nat; 3%nat] /\
    ranges t' = [] ++ mk_range 1 (2 - 1) :: [mk_range 10 0] /\
    (forall z, covered (ranges t') z
               <-> covered (ranges split_example_tree) z /\ z <> 1 + 2).
Proof.
  apply (delete_last_value 8 split_example split_example_tree [2%nat; 3%nat]
           1 2 [] [mk_range 10 0]).
  - exact split_example_inv.
  - reflexivity.
  - lia.
  - cbn. lia.
Defined.



(** ** Iteration *)

(** X17: [rb_tree_get_first_rb_node] on a tree with a node returns
    [RB_SUCCESS] and sets the iterator to the node of the first range, below
    which no stored value lies; on the empty tree it returns
    [RB_FAIL_NULL_TREE] with a [NULL] iterator.  The tree is the same
    afterwards. *)
Theorem get_first_is_smallest fuel s t fl lo hi p :
  tree_ok s t fl -> bst lo hi t -> (height t <= fuel)%nat ->
  exists s' it,
    rb_tree_get_first_rb_node fuel p s
    = Ok (if t is E then RB_FAIL_NULL_TREE else RB_SUCCESS, it) s' /\
    tree_ok s' t fl /\ size_of s' = size_of s /\
    match ranges t with
    | [] => it = None
    | rg :: _ =>
        (exists a, it = Some a /\ range_at s' a = Some rg) /\
        forall y, covered (ranges t) y -> value rg <= y
    end.
Proof.
  intros Hok Hbst Hfuel.
  destruct (get_first_step fuel s t fl p Hok Hfuel)
    as (s' & it & Hrun & Hok' & Hsz & Hit).
  exists s', it. split_and!; try done.
  apply bst_gapped in Hbst.
  destruct (ranges t) as [|rg rs]; [done|]. split; [done|].
  intros y. rewrite covered_cons. unfold covers.
  cbn [gapped] in Hbst. destruct Hbst as (_ & Ho & _ & Hg).
  intros [Hy|Hy]; [lia|].
  pose proof (gapped_covered_lo _ _ _ _ Hg Hy). lia.
Qed.

Lemma get_first_is_smallest_witness :
  exists s' it,
    rb_tree_get_first_rb_node 8 None split_example = Ok (RB_SUCCESS, it) s' /\
    tree_ok s' split_example_tree [2%nat; 3%nat] /\
    size_of s' = size_of split_example /\
    (exists a, it = Some a /\ range_at s' a = Some (mk_range 1 2)) /\
    forall y, covered (ranges split_example_tree) y -> value (mk_range 1 2) <= y.
Proof.
  apply (get_first_is_smallest 8 split_example split_example_tree
           [2%nat; 3%nat] 0 10 None).
  - exact split_example_ok.
  - cbn. lia.
  - cbn. lia.
Defined.

(** X18: on a well-formed tree (the handle leads to a tree whose parent
    and child pointers agree, apart from the free list), calling
    [rb_tree_get_first_rb_node] and then [rb_tree_get_next_rb_node]
    without popping until the iterator is [NULL] yields the range of every
    node once, in the in-order sequence of the tree, which is strictly
    ascending when the tree is in search order; the values of the
    traversal flags at the start do not matter.  The tree, the free list
    and every field of the handle are as they were afterwards, so that the
    walk can be made again with the same result. *)
Theorem walk_keeps_tree fuel reb s t fl :
  tree_ok s t fl -> (length (ranges t) + 1 < fuel)%nat ->
  exists s' s'',
    drain fuel false reb s = Ok (ranges t) s' /\
    tree_ok s' t fl /\ tree s' = tree s /\
    drain fuel false reb s' = Ok (ranges t) s'' /\
    tree_ok s'' t fl /\ tree s'' = tree s /\
    (forall lo hi, bst lo hi t ->
       StronglySorted (fun x y => value x < value y) (ranges t)).
Proof.
  intros Hok Hfuel.
  destruct (walk_all_same fuel reb s t fl Hok Hfuel) as (s' & Hrun & Hok' & Ht').
  destruct (walk_all_same fuel reb s' t fl Hok' Hfuel)
    as (s'' & Hrun' & Hok'' & Ht'').
  exists s', s''. split_and!; try done.
  - congruence.
  - intros lo hi Hbst. apply bst_gapped in Hbst. by eapply gapped_sorted.
Qed.

Lemma walk_keeps_tree_witness :
  exists s' s'',
    drain 8 false false split_example = Ok (ranges split_example_tree) s' /\
    tree_ok s' split_example_tree [2%nat; 3%nat] /\
    tree s' = tree split_example /\
    drain 8 false false s' = Ok (ranges split_example_tree) s'' /\
    tree_ok s'' split_example_tree [2%nat; 3%nat] /\
    tree s'' = tree split_example /\
    (forall lo hi, bst lo hi split_example_tree ->
       StronglySorted (fun x y => value x < value y)
         (ranges split_example_tree)).
Proof.
  apply (walk_keeps_tree 8 false split_example split_example_tree [2%nat; 3%nat]).
  - exact split_example_ok.
  - cbn. lia.
Defined.

(** ** The steps of rebalancing *)

(** X19: [rotate_left] at a node with a right child, anywhere in the tree,
    puts the child in the node's place and keeps the nodes and their ranges
    in the same order. *)
Theorem rotate_left_keeps_order s k c l a v o rc rl b rv ro rr fl :
  tree_ok s (plug (T c l a v o (T rc rl b rv ro rr)) k) fl ->
  exists s',
    rotate_left (Some a) s = Ok tt s' /\
    tree_ok s' (plug (T rc (T c l a v o rl) b rv ro rr) k) fl /\
    nodes (plug (T rc (T c l a v o rl) b rv ro rr) k)
    = nodes (plug (T c l a v o (T rc rl b rv ro rr)) k).
Proof. apply rotate_left_step. Qed.

Lemma rotate_left_keeps_order_witness :
  exists s',
    rotate_left (Some 0%nat) full_example = Ok tt s' /\
    tree_ok s' (T RED (T BLACK E 0 5 0 E) 1 9 0 E) [] /\
    nodes (T RED (T BLACK E 0 5 0 E) 1 9 0 E) = nodes full_example_tree.
Proof.
  apply (rotate_left_keeps_order full_example [] BLACK E 0 5 0 RED E 1 9 0 E []).
  exact full_example_ok.
Defined.

(** X20: [rotate_right] at a node with a left child, anywhere in the tree,
    puts the child in the node's place and keeps the nodes and their ranges
    in the same order. *)
Theorem rotate_right_keeps_order s k c lc ll b lv lo lr a v o r fl :
  tree_ok s (plug (T c (T lc ll b lv lo lr) a v o r) k) fl ->
  exists s',
    rotate_right (Some a) s = Ok tt s' /\
    tree_ok s' (plug (T lc ll b lv lo (T c lr a v o r)) k) fl /\
    nodes (plug (T lc ll b lv lo (T c lr a v o r)) k)
    = nodes (plug (T c (T lc ll b lv lo lr) a v o r) k).
Proof. apply rotate_right_step. Qed.

Lemma rotate_right_keeps_order_witness :
  exists s',
    rotate_right (Some 0%nat) split_example = Ok tt s' /\
    tree_ok s' (T RED E 1 1 2 (T BLACK E 0 10 0 E)) [2%nat; 3%nat] /\
    nodes (T RED E 1 1 2 (T BLACK E 0 10 0 E)) = nodes split_example_tree.
Proof.
  apply (rotate_right_keeps_order split_example [] BLACK RED E 1 1 2 E 0 10 0 E
           [2%nat; 3%nat]).
  exact split_example_ok.
Defined.

(** X21: [try_insert_rebalance] on a red leaf just attached to a red-black
    tree makes the tree red-black again, with the same nodes and ranges in
    the same order. *)
Theorem insert_rebalance_restores_red_black fuel s k f w fl :
  tree_ok s (plug (T RED E f w 0 E) k) fl -> rb (plug E k) ->
  (length k < fuel)%nat ->
  exists s' t',
    try_insert_rebalance fuel (Some f) s = Ok tt s' /\
    tree_ok s' t' fl /\ rb t' /\
    nodes t' = nodes (plug (T RED E f w 0 E) k).
Proof. apply insert_rebalance_step. Qed.

Lemma insert_rebalance_restores_red_black_witness :
  exists s' t',
    try_insert_rebalance 8 (Some 1%nat) full_example = Ok tt s' /\
    tree_ok s' t' [] /\ rb t' /\
    nodes t' = nodes full_example_tree.
Proof.
  apply (insert_rebalance_restores_red_black 8 full_example
           [FR BLACK E 0 5 0] 1 9 []).
  - exact full_example_ok.
  - split; [reflexivity|]. exists 1%nat. cbn. auto.
  - cbn. lia.
Defined.

(** X22: [delete_rb_node] on a node of a red-black tree takes the node's
    range out, frees one cell of the node's subtree (the node's own, or
    that of the neighbour whose range it took over), and leaves a red-black
    tree with the other ranges in their order. *)
Theorem delete_rb_node_keeps_red_black fuel s k c l a v o r fl :
  tree_ok s (plug (T c l a v o r) k) fl -> rb (plug (T c l a v o r) k) ->
  (length k + height (T c l a v o r) <= fuel)%nat ->
  exists s' t' y,
    delete_rb_node fuel (Some a) s = Ok tt s' /\
    tree_ok s' t' (fl ++ [y]) /\ rb t' /\
    ranges t' = ranges_l k ++ ranges l ++ ranges r ++ ranges_r k /\
    y ∈ addrs (T c l a v o r).
Proof. apply delete_node_step. Qed.

Lemma delete_rb_node_keeps_red_black_witness :
  exists s' t' y,
    delete_rb_node 8 (Some 0%nat) split_example = Ok tt s' /\
    tree_ok s' t' ([2%nat; 3%nat] ++ [y]) /\ rb t' /\
    ranges t' = [mk_range 1 2] /\
    y ∈ addrs split_example_tree.
Proof.
  apply (delete_rb_node_keeps_red_black 8 split_example [] BLACK
           (T RED E 1 1 2 E) 0 10 0 E [2%nat; 3%nat]).
  - exact split_example_ok.
  - split; [reflexivity|]. exists 1%nat. cbn. auto.
  - cbn. lia.
Defined.

(** ** The free list *)

(** X23: the free list is a queue: after [push_free_node] of a cell,
    [pop_free_node] hands out the cell that has been free longest, which is
    the pushed one only when no other was free; [size] is back at its value
    and the other fields of the tree are untouched. *)
Theorem free_list_is_queue h t a n fl :
  h !! a = Some n -> a ∉ fl -> free_ok h t fl ->
  0 <= size t < 4294967296 ->
  exists h' t',
    (push_free_node (Some a) ;; pop_free_node) (mk_state h (Some t))
    = Ok (Some (hd a fl)) (mk_state h' (Some t')) /\
    free_ok h' t' (tl (fl ++ [a])) /\
    size t' = size t /\ max_size t' = max_size t /\
    root t' = root t /\ node_block t' = node_block t.
Proof. apply push_pop_step. Qed.

Lemma free_list_is_queue_witness :
  exists h' t',
    (push_free_node (Some 0%nat) ;; pop_free_node) split_example
    = Ok (Some 2%nat) (mk_state h' (Some t')) /\
    free_ok h' t' [3%nat; 0%nat] /\
    size t' = 2 /\ max_size t' = 4 /\
    root t' = Some 0%nat /\ node_block t' = Some 0%nat.
Proof.
  destruct split_example_ok as (tt0 & Htree & _ & _ & Hfree).
  injection Htree as <-.
  assert (heap split_example !! 0%nat
          = Some (mk_node (mk_range 10 0) BLACK false None (Some 1%nat) None))
    as Hn by reflexivity.
  assert (0%nat ∉ [2%nat; 3%nat]) as Ha
    by (apply (bool_decide_unpack _); by vm_compute).
  exact (free_list_is_queue (heap split_example)
           (mk_tree 2 4 (Some 0%nat) (Some 3%nat) (Some 2%nat) (Some 0%nat))
           0%nat _ [2%nat; 3%nat] Hn Ha Hfree ltac:(cbn; lia)).
Defined.

(** ** The validity check of the unit tests *)

(** X24: on a tree of 32-bit ranges [assert_rb_tree_is_valid] either
    returns, changing nothing, or fails an assertion; it returns exactly
    when the root is black, every path to a leaf passes the same number of
    black nodes, and every child's range lies on the right side of its
    parent's.  A red node with a red child is never noticed, because the
    walk of [assert_node_has_no_adjacent_red] stops at the black root, and
    ranges further apart than parent and child are not compared. *)
Theorem validity_check_verdict fuel s t fl :
  tree_ok s t fl -> Forall in_u32 (ranges t) ->
  Z.of_nat (length (ranges t)) < UINT32_MAX -> (height t < fuel)%nat ->
  (assert_rb_tree_is_valid fuel s = Ok tt s \/
   assert_rb_tree_is_valid fuel s = Fault AssertFail) /\
  (assert_rb_tree_is_valid fuel s = Ok tt s
   <-> col t = BLACK /\ (exists n, bdn t n) /\ child_order t).
Proof.
  intros Hok H32 Hlen Hfuel.
  rewrite (rb_tree_is_valid_run fuel s t fl Hok H32 Hlen Hfuel).
  assert (bool_decide (is_Some (bd t)) = true <-> exists n, bdn t n) as Hbd.
  { rewrite bool_decide_eq_true. split.
    - intros [n Hn]. exists n. by apply bd_bdn.
    - intros [n Hn]. exists n. by apply bd_bdn. }
  pose proof (child_order_b_spec t) as Hco.
  destruct (col t); cbn [negb andb].
  { split; [by right|]. split; [done|]. by intros [? _]. }
  destruct (bool_decide (is_Some (bd t))); cbn [andb].
  - destruct (child_order_b t).
    + split; [by left|]. split; [|done]. intros _.
      split_and!; [done|by apply Hbd|by apply Hco].
    + split; [by right|]. split; [done|]. intros (_ & _ & H%Hco). done.
  - split; [by right|]. split; [done|]. intros (_ & H%Hbd & _). done.
Qed.

Lemma validity_check_verdict_witness :
  assert_rb_tree_is_valid 8 red_red_example = Ok tt red_red_example /\
  ~ rb red_red_example_tree.
Proof.
  split.
  - apply (validity_check_verdict 8 red_red_example red_red_example_tree []).
    + exact red_red_example_ok.
    + unfold in_u32, UINT32_MAX. repeat constructor; cbn; lia.
    + unfold UINT32_MAX. cbn. lia.
    + cbn. lia.
    + split; [reflexivity|]. split; [exists 1%nat; cbn; auto|]. cbn.
      split_and!; try done; intros _; lia.
  - intros [_ [n Hn]]. cbn in Hn. destruct n as [|m]; [done|].
    destruct Hn as [(Hc & _) _]. discriminate.
Defined.

(** X25: [assert_rb_tree_is_valid] returns, changing nothing, on every
    state that meets the invariants of the tree. *)
Theorem validity_check_accepts_invariants fuel s t fl :
  tree_inv s t fl -> (height t < fuel)%nat ->
  assert_rb_tree_is_valid fuel s = Ok tt s.
Proof.
  intros (Hok & [Hcol [n Hn]] & Hbst & _) Hfuel.
  pose proof (proj1 (bst_gapped _ _ _) Hbst) as Hg.
  pose proof (gapped_count _ Hg) as Hc.
  assert (MAX_TREE_SIZE = 2147483648) as HM by reflexivity.
  assert (UINT32_MAX = 4294967295) as HU by reflexivity.
  rewrite (rb_tree_is_valid_run fuel s t fl Hok
             (gapped_in_u32 _ _ _ Hg ltac:(lia) ltac:(lia)) ltac:(lia) Hfuel).
  rewrite Hcol. cbn [negb andb].
  rewrite bool_decide_eq_true_2
    by (exists n; by apply bd_bdn, rbn_bdn).
  rewrite (proj2 (child_order_b_spec t)) by (by eapply bst_child_order).
  reflexivity.
Qed.

Lemma validity_check_accepts_invariants_witness :
  assert_rb_tree_is_valid 8 split_example = Ok tt split_example.
Proof.
  apply (validity_check_accepts_invariants 8 split_example split_example_tree
           [2%nat; 3%nat]).
  - exact split_example_inv.
  - cbn. lia.
Defined.

(** ** Clearing *)

(** X26: [rb_tree_clear] on a tree with a node returns [RB_SUCCESS] after
    recycling no more than the children of the root and then the root: these
    cells go to the free list in that order, [size] goes down by their
    number, and the [root] field still points at the old root.  Whatever
    hangs below the root's children is not recycled. *)
Theorem clear_recycles_root_and_children fuel s c l a v o r fl :
  tree_inv s (T c l a v o r) fl -> (4 <= fuel)%nat ->
  exists s' tt',
    rb_tree_clear fuel s = Ok RB_SUCCESS s' /\
    tree s' = Some tt' /\ root tt' = Some a /\
    free_ok (heap s') tt'
      (fl ++ option_list (root_ptr l) ++ option_list (root_ptr r) ++ [a]) /\
    size tt'
    = Z.of_nat (length (ranges (T c l a v o r)))
      - Z.of_nat (length (option_list (root_ptr l) ++ option_list (root_ptr r)
                          ++ [a])).
Proof.
  intros (Hok & _ & Hbst & tt0 & Htree & _ & Hsz & _) Hfuel.
  pose proof (gapped_count _ (proj1 (bst_gapped _ _ _) Hbst)) as Hc.
  assert (MAX_TREE_SIZE = 2147483648) as HM by reflexivity.
  assert (size_of s = Z.of_nat (length (ranges (T c l a v o r)))) as Hsize.
  { unfold size_of. by rewrite Htree. }
  assert (1 <= size_of s) as Hpos.
  { rewrite Hsize. cbn. rewrite length_app. cbn. lia. }
  destruct (clear_run fuel s c l a v o r fl Hok ltac:(lia) Hfuel)
    as (s' & tt' & Hrun & Htree' & Hroot & Hfree & Hsz').
  exists s', tt'. split_and!; try done.
  rewrite Hsz', Hsize.
  assert (Z.of_nat (length (option_list (root_ptr l)
                            ++ option_list (root_ptr r) ++ [a]))
          <= Z.of_nat (length (ranges (T c l a v o r)))) as Hn.
  { clear. cbn [ranges]. rewrite !length_app. cbn [length].
    destruct l, r; unfold option_list;
      cbn [root_ptr option_rect length ranges];
      rewrite ?length_app; cbn [length]; lia. }
  set (n := Z.of_nat (length (ranges (T c l a v o r)))) in *.
  clearbody n.
  destruct l, r; unfold option_list in *;
    cbn [root_ptr option_rect app length] in *;
    unfold Nat.iter; cbn [nat_rect];
    rewrite ?(u32_small (n - 1)), ?(u32_small (n - 1 - 1)),
      ?(u32_small (n - 1 - 1 - 1)) by lia; lia.
Qed.

Lemma clear_recycles_root_and_children_witness :
  exists s' tt',
    rb_tree_clear 8 split_example = Ok RB_SUCCESS s' /\
    tree s' = Some tt' /\ root tt' = Some 0%nat /\
    free_ok (heap s') tt' [2%nat; 3%nat; 1%nat; 0%nat] /\
    size tt' = 0.
Proof.
  apply (clear_recycles_root_and_children 8 split_example BLACK
           (T RED E 1 1 2 E) 0 10 0 E [2%nat; 3%nat]).
  - exact split_example_inv.
  - lia.
Defined.

(** ** Popping without rebalancing *)

(** X27: [delete_rb_node_without_rebalancing] on a node without a left
    child, anywhere in the tree, puts the node's right subtree in its place,
    appends the node's cell to the free list and lowers [size] by one; the
    other nodes keep their places and ranges. *)
Theorem delete_without_rebalancing_unlinks s k c a v o r fl :
  tree_ok s (plug (T c E a v o r) k) fl ->
  exists s',
    delete_rb_node_without_rebalancing (Some a) s = Ok tt s' /\
    tree_ok s' (plug r k) (fl ++ [a]) /\
    size_of s' = u32 (size_of s - 1).
Proof. apply delete_without_rebalancing_step. Qed.

Lemma delete_without_rebalancing_unlinks_witness :
  exists s',
    delete_rb_node_without_rebalancing (Some 1%nat) split_example = Ok tt s' /\
    tree_ok s' (T BLACK E 0 10 0 E) [2%nat; 3%nat; 1%nat] /\
    size_of s' = 1.
Proof.
  apply (delete_without_rebalancing_unlinks split_example [FL BLACK 0 10 0 E]
           RED 1 1 2 E [2%nat; 3%nat]).
  exact split_example_ok.
Defined.

